(** * DVRP simulator and VNS optimizer: a shallow embedding

    The development follows [dvrpsim.py] (the greedy dispatch simulator) and
    [dvrp_algorithm.py] (the local-search optimizer built on it), then
    [gen_data.py] (the instance generator) and [run.py] (the driver).

    Modelling conventions.
    - Python floats are idealised as exact rationals ([Q]); plant, order and
      vehicle identifiers and quantities are integers ([Z]).
    - The [orders] and [vehicles] dictionaries are association lists in
      insertion order, because the simulator iterates over them and the
      iteration order is observable; dictionary keys are assumed unique, as
      in any Python dict.  [plants], [distances], [travel_times] and
      [dock_occupancy] are only accessed by key and are finite maps.
    - A Python exception (a [KeyError] on a missing plant or order) aborts
      the run; it is modelled by [None] in the option monad. *)

From Stdlib Require Import ZArith QArith Qminmax Lqa Lia List Bool.
From stdpp Require Import base option list gmap strings pretty.

Open Scope Z_scope.

(** ** Comparisons on rationals *)

Definition Qlt_bool (x y : Q) : bool := negb (Qle_bool y x).

(** ** Dictionaries in insertion order *)

Section Dict.
Context {V : Type}.

(** [d[k]], with [None] for [KeyError]. *)
Fixpoint dict_get (k : Z) (d : list (Z * V)) : option V :=
  match d with
  | [] => None
  | (k', v) :: d' => if (k' =? k)%Z then Some v else dict_get k d'
  end.

(** In-place mutation of the object stored under key [k]. *)
Fixpoint dict_alter (f : V -> V) (k : Z) (d : list (Z * V)) : list (Z * V) :=
  match d with
  | [] => []
  | (k', v) :: d' =>
      if (k' =? k)%Z then (k', f v) :: d' else (k', v) :: dict_alter f k d'
  end.

(** [d.pop(k)]: the entry leaves the insertion order. *)
Fixpoint dict_pop (k : Z) (d : list (Z * V)) : list (Z * V) :=
  match d with
  | [] => []
  | (k', v) :: d' => if (k' =? k)%Z then d' else (k', v) :: dict_pop k d'
  end.

(** [d[k] = v]: overwrite in place when the key exists, append otherwise. *)
Fixpoint dict_setitem (k : Z) (v : V) (d : list (Z * V)) : list (Z * V) :=
  match d with
  | [] => [(k, v)]
  | (k', v') :: d' =>
      if (k' =? k)%Z then (k', v) :: d' else (k', v') :: dict_setitem k v d'
  end.

Definition dict_keys (d : list (Z * V)) : list Z := map fst d.
Definition dict_values (d : list (Z * V)) : list V := map snd d.
End Dict.

(** ** Stable sorting, as [list.sort] and [sorted] do it

    Python's sort is stable and only calls [<] on the keys; a stable
    insertion sort computes the same list. *)

Section Sort.
Context {A : Type} (lt : A -> A -> bool).

Fixpoint insert_by (x : A) (l : list A) : list A :=
  match l with
  | [] => [x]
  | y :: l' => if lt y x then y :: insert_by x l' else x :: y :: l'
  end.

Fixpoint sort_by (l : list A) : list A :=
  match l with
  | [] => []
  | x :: l' => insert_by x (sort_by l')
  end.
End Sort.

(** ** Data classes *)

Record Plant := mkPlant {
  p_id : Z;
  p_name : string;
  p_docks : Z
}.

Record Order := mkOrder {
  o_id : Z;
  o_pickup : Z;
  o_delivery : Z;
  o_qty : Z;
  o_arrival : Q;
  o_due : Q;
  o_picked : bool;
  o_delivered : bool;
  o_delivered_time : option Q   (* the attribute set by [setattr], absent = [None] *)
}.

Record Vehicle := mkVehicle {
  v_id : Z;
  v_capacity : Z;
  v_start_location : Z;
  v_location : Z;
  v_time : Q;
  v_load : Z;
  v_stack : list Z;             (* order ids, top of the stack is the last element *)
  v_route : list (Z * Q)
}.

Record DVRPSimulator := mkSim {
  plants : gmap Z Plant;
  orders : list (Z * Order);
  vehicles : list (Z * Vehicle);
  distances : gmap (Z * Z) Q;
  travel_times : gmap (Z * Z) Q;
  dock_service_time : Q;
  unit_handling_time : Q;
  lambda_cost : Q;
  dock_occupancy : gmap Z (list (Z * Q))
}.

Definition with_orders (os : list (Z * Order)) (s : DVRPSimulator) : DVRPSimulator :=
  mkSim (plants s) os (vehicles s) (distances s) (travel_times s)
        (dock_service_time s) (unit_handling_time s) (lambda_cost s) (dock_occupancy s).

Definition with_vehicles (vs : list (Z * Vehicle)) (s : DVRPSimulator) : DVRPSimulator :=
  mkSim (plants s) (orders s) vs (distances s) (travel_times s)
        (dock_service_time s) (unit_handling_time s) (lambda_cost s) (dock_occupancy s).

Definition with_dock_occupancy (occ : gmap Z (list (Z * Q))) (s : DVRPSimulator)
  : DVRPSimulator :=
  mkSim (plants s) (orders s) (vehicles s) (distances s) (travel_times s)
        (dock_service_time s) (unit_handling_time s) (lambda_cost s) occ.

(** [DVRPSimulator.__init__]: the dock table starts with an empty list per plant. *)
Definition new_simulator (ps : gmap Z Plant) (os : list (Z * Order))
    (vs : list (Z * Vehicle)) (ds tts : gmap (Z * Z) Q) (dst uht lam : Q)
  : DVRPSimulator :=
  mkSim ps os vs ds tts dst uht lam ((fun _ => []) <$> ps).

(** ** Oracle lookups *)

Definition speed_divisor : Q := 30.

Definition _travel_time (s : DVRPSimulator) (a b : Z) : Q :=
  match travel_times s !! (a, b) with
  | Some t => t
  | None =>
      match travel_times s !! (b, a) with
      | Some t => t
      | None =>
          (default (default 1%Q (distances s !! (b, a))) (distances s !! (a, b))
           / speed_divisor)%Q
      end
  end.

Definition _distance (s : DVRPSimulator) (a b : Z) : Q :=
  default (default 0%Q (distances s !! (b, a))) (distances s !! (a, b)).

(** ** Dock occupancy *)

Definition active_at (at_time : Q) (o : Z * Q) : bool := Qlt_bool at_time o.2.

Definition _free_docks (s : DVRPSimulator) (plant_id : Z) (at_time : Q)
  : option (Z * DVRPSimulator) :=
  occ ← dock_occupancy s !! plant_id;
  let occ' := List.filter (active_at at_time) occ in
  let s' := with_dock_occupancy (<[plant_id := occ']> (dock_occupancy s)) s in
  p ← plants s !! plant_id;
  Some (Z.max 0 (p_docks p - Z.of_nat (length occ')), s').

Definition _occupy_dock (s : DVRPSimulator) (plant_id vehicle_id : Z) (until_time : Q)
  : option DVRPSimulator :=
  occ ← dock_occupancy s !! plant_id;
  Some (with_dock_occupancy
          (<[plant_id := occ ++ [(vehicle_id, until_time)]]> (dock_occupancy s)) s).

(** ** One vehicle's turn in a dispatch pass

    Each branch of the loop body of [simulate_with_tracking] is tagged with
    the action it performs; the tag is an observation of the branch taken
    and plays no part in the computation. *)

Inductive Action :=
| ASkip                                   (* clock beyond the horizon: [continue] *)
| ADockWaitDelivery                       (* at the delivery plant, no dock free *)
| ADeliver (k : Z) (finish : Q)           (* order under key [k] delivered *)
| ADockWaitPickup (k : Z) (arr : Q)       (* drove to the pickup plant, no dock free *)
| APickup (k : Z) (arr finish : Q)        (* order under key [k] picked up *)
| AReposition (dest : Z)                  (* pure travel to the top order's delivery plant *)
| AIdle.                                  (* [veh.time += 1.0] *)

Definition retry_increment : Q := 1.

Definition service_time (s : DVRPSimulator) (o : Order) : Q :=
  (dock_service_time s + unit_handling_time s * inject_Z (o_qty o))%Q.

Definition set_clock (t : Q) (v : Vehicle) : Vehicle :=
  mkVehicle (v_id v) (v_capacity v) (v_start_location v) (v_location v) t
            (v_load v) (v_stack v) (v_route v).

Definition drive (loc : Z) (t : Q) (v : Vehicle) : Vehicle :=
  mkVehicle (v_id v) (v_capacity v) (v_start_location v) loc t
            (v_load v) (v_stack v) (v_route v).

Definition mark_picked (o : Order) : Order :=
  mkOrder (o_id o) (o_pickup o) (o_delivery o) (o_qty o) (o_arrival o) (o_due o)
          true (o_delivered o) (o_delivered_time o).

Definition mark_delivered (finish : Q) (o : Order) : Order :=
  mkOrder (o_id o) (o_pickup o) (o_delivery o) (o_qty o) (o_arrival o) (o_due o)
          (o_picked o) true (Some finish).

Definition put_vehicle (vk : Z) (v : Vehicle) (s : DVRPSimulator) : DVRPSimulator :=
  with_vehicles (dict_alter (fun _ => v) vk (vehicles s)) s.

Definition alter_order (k : Z) (f : Order -> Order) (s : DVRPSimulator) : DVRPSimulator :=
  with_orders (dict_alter f k (orders s)) s.

Abbreviation StepResult := (DVRPSimulator * bool * Action)%type (only parsing).

(** [self.orders[veh.stack[-1]]] when the stack is not empty.  The source
    evaluates this lookup at the head of the loop body whenever the stack is
    not empty, so a missing key aborts the turn before anything else. *)
Definition stack_top (s : DVRPSimulator) (v : Vehicle) : option (option (Z * Order)) :=
  match last (v_stack v) with
  | None => Some None
  | Some tid => o ← dict_get tid (orders s); Some (Some (tid, o))
  end.

(** Lines 244-261: the delivery branch. *)
Definition try_deliver (s : DVRPSimulator) (vk : Z) (v : Vehicle) (tid : Z) (top_o : Order)
  : option StepResult :=
  let arrival_time := v_time v in
  '(free, s1) ← _free_docks s (v_location v) arrival_time;
  if (free <=? 0)%Z then
    Some (put_vehicle vk (set_clock (v_time v + retry_increment)%Q v) s1,
          true, ADockWaitDelivery)
  else
    let finish := (arrival_time + service_time s top_o)%Q in
    let v' := mkVehicle (v_id v) (v_capacity v) (v_start_location v) (v_location v)
                finish (v_load v - o_qty top_o) (removelast (v_stack v))
                (v_route v ++ [(v_location v, finish)]) in
    let s2 := alter_order tid (mark_delivered finish) (put_vehicle vk v' s1) in
    s3 ← _occupy_dock s2 (v_location v) (v_id v) finish;
    Some (s3, true, ADeliver tid finish).

(** Lines 264-279: one iteration of the scan for feasible pickups.  A
    candidate is (key, order, projected arrival, travel time). *)
Abbreviation Candidate := (Z * Order * Q * Q)%type (only parsing).

Definition earliest_start (v : Vehicle) (o : Order) : Q :=
  if Qlt_bool (v_time v) (o_arrival o) then o_arrival o else v_time v.

Definition candidate (s : DVRPSimulator) (v : Vehicle) (top_due : option Q)
    (ko : Z * Order) : option Candidate :=
  let o := ko.2 in
  if o_picked o || o_delivered o then None
  else if (v_capacity v <? v_load v + o_qty o)%Z then None
  else if match top_due with Some td => Qlt_bool (o_due o) td | None => false end then None
  else
    let trav := _travel_time s (v_location v) (o_pickup o) in
    Some (ko.1, o, (earliest_start v o + trav)%Q, trav).

Definition feasible_pickups (s : DVRPSimulator) (v : Vehicle) (top_due : option Q)
  : list Candidate :=
  omap (candidate s v top_due) (orders s).

(** The sort key [(x[0].due, x[1])], compared as Python compares tuples. *)
Definition key_lt (k1 k2 : Q * Q) : bool :=
  if Qeq_bool k1.1 k2.1 then Qlt_bool k1.2 k2.2 else Qlt_bool k1.1 k2.1.

Definition cand_key (c : Candidate) : Q * Q := (o_due c.1.1.2, c.1.2).

Definition cand_lt (c1 c2 : Candidate) : bool := key_lt (cand_key c1) (cand_key c2).

(** Lines 282-300: drive to the chosen pickup and load if a dock is free. *)
Definition try_pickup (s : DVRPSimulator) (vk : Z) (v : Vehicle) (c : Candidate)
  : option StepResult :=
  let '(k, o, arr, trav) := c in
  let v1 := drive (o_pickup o) arr v in
  '(free, s1) ← _free_docks s (v_location v1) (v_time v1);
  if (free <=? 0)%Z then
    Some (put_vehicle vk (set_clock (v_time v1 + retry_increment)%Q v1) s1,
          true, ADockWaitPickup k arr)
  else
    let finish := (v_time v1 + service_time s o)%Q in
    let v2 := mkVehicle (v_id v) (v_capacity v) (v_start_location v) (v_location v1)
                finish (v_load v + o_qty o) (v_stack v ++ [o_id o])
                (v_route v ++ [(v_location v1, finish)]) in
    let s2 := alter_order k mark_picked (put_vehicle vk v2 s1) in
    s3 ← _occupy_dock s2 (v_location v1) (v_id v) finish;
    Some (s3, true, APickup k arr finish).

(** Lines 302-312: reposition towards the top order's delivery, else idle. *)
Definition idle (s : DVRPSimulator) (vk : Z) (v : Vehicle) : StepResult :=
  (put_vehicle vk (set_clock (v_time v + retry_increment)%Q v) s, true, AIdle).

Definition reposition_or_idle (s : DVRPSimulator) (vk : Z) (v : Vehicle)
    (top : option (Z * Order)) : StepResult :=
  match top with
  | Some (_, top_o) =>
      if negb (v_location v =? o_delivery top_o)%Z then
        let trav := _travel_time s (v_location v) (o_delivery top_o) in
        (put_vehicle vk (drive (o_delivery top_o) (v_time v + trav)%Q v) s,
         true, AReposition (o_delivery top_o))
      else idle s vk v
  | None => idle s vk v
  end.

Definition pickup_or_move (s : DVRPSimulator) (vk : Z) (v : Vehicle)
    (top : option (Z * Order)) : option StepResult :=
  match sort_by cand_lt (feasible_pickups s v (o_due <$> (snd <$> top))) with
  | c :: _ => try_pickup s vk v c
  | [] => Some (reposition_or_idle s vk v top)
  end.

(** The body of [for veh in vehs], for the vehicle stored under key [vk].
    The boolean is the value assigned to [progressed] by the branch taken
    ([false]: the branch leaves the flag alone). *)
Definition veh_step (until_time : Q) (s : DVRPSimulator) (vk : Z) : option StepResult :=
  v ← dict_get vk (vehicles s);
  if Qlt_bool until_time (v_time v) then Some (s, false, ASkip)
  else
    top ← stack_top s v;
    match top with
    | Some (tid, top_o) =>
        if (v_location v =? o_delivery top_o)%Z then try_deliver s vk v tid top_o
        else pickup_or_move s vk v top
    | None => pickup_or_move s vk v top
    end.

(** ** A dispatch pass and the outer loop *)

Abbreviation Event := (Z * Action)%type (only parsing).

Fixpoint run_vehicles (until_time : Q) (ks : list Z) (s : DVRPSimulator) (progressed : bool)
  : option (DVRPSimulator * bool * list Event) :=
  match ks with
  | [] => Some (s, progressed, [])
  | k :: ks' =>
      '(s1, p, a) ← veh_step until_time s k;
      '(s2, p2, evs) ← run_vehicles until_time ks' s1 (progressed || p);
      Some (s2, p2, (k, a) :: evs)
  end.

Definition veh_time_lt (a b : Z * Vehicle) : bool := Qlt_bool (v_time a.2) (v_time b.2).

(** One iteration of the [while] body after the undelivered test:
    [progressed = False], the vehicles sorted by clock, one turn each. *)
Definition dispatch_pass (until_time : Q) (s : DVRPSimulator)
  : option (DVRPSimulator * bool * list Event) :=
  let vehs := sort_by veh_time_lt (vehicles s) in
  run_vehicles until_time (dict_keys vehs) s false.

Definition has_undelivered (until_time : Q) (s : DVRPSimulator) : bool :=
  existsb (fun ko : Z * Order =>
             negb (o_delivered ko.2) && Qle_bool (o_arrival ko.2) until_time)
          (orders s).

Definition max_iterations : nat := Z.to_nat 20000.

(** The [while iterations < 20000] loop; [fuel] is the number of iterations
    left.  The list is the log of the turns taken. *)
Fixpoint dispatch_loop (fuel : nat) (until_time : Q) (s : DVRPSimulator)
  : option (DVRPSimulator * list Event) :=
  match fuel with
  | O => Some (s, [])
  | S fuel' =>
      if negb (has_undelivered until_time s) then Some (s, [])
      else
        '(s1, progressed, evs) ← dispatch_pass until_time s;
        if negb progressed then Some (s1, evs)
        else
          '(s2, evs2) ← dispatch_loop fuel' until_time s1;
          Some (s2, evs ++ evs2)
  end.

(** ** Reset and result *)

Definition reset_order (o : Order) : Order :=
  mkOrder (o_id o) (o_pickup o) (o_delivery o) (o_qty o) (o_arrival o) (o_due o)
          false false None.

Definition reset_vehicle (v : Vehicle) : Vehicle :=
  mkVehicle (v_id v) (v_capacity v) (v_start_location v) (v_start_location v)
            0%Q 0 [] [].

Definition reset (s : DVRPSimulator) : DVRPSimulator :=
  mkSim (plants s)
        (map (fun ko : Z * Order => (ko.1, reset_order ko.2)) (orders s))
        (map (fun kv : Z * Vehicle => (kv.1, reset_vehicle kv.2)) (vehicles s))
        (distances s) (travel_times s)
        (dock_service_time s) (unit_handling_time s) (lambda_cost s)
        ((fun _ => []) <$> plants s).

Record OrderOutcome := mkOrderOutcome {
  r_picked : bool;
  r_delivered : bool;
  r_delivered_time : option Q
}.

Record VehicleOutcome := mkVehicleOutcome {
  r_route : list (Z * Q);
  r_final_time : Q;
  r_final_location : Z
}.

Record Result := mkResult {
  total_late : Q;
  avg_distance : Q;
  objective : Q;
  r_orders : list (Z * OrderOutcome);
  r_vehicles : list (Z * VehicleOutcome)
}.

Definition undelivered_penalty : Q := 10.

(** Lines 317-324: the lateness accumulator. *)
Definition late_step (acc : Q) (o : Order) : Q :=
  match o_delivered_time o with
  | None => (acc + o_due o * undelivered_penalty)%Q
  | Some dt => (acc + Qmax 0 (dt - o_due o))%Q
  end.

(** Lines 328-332: the distance accumulator along one route. *)
Fixpoint route_distance (s : DVRPSimulator) (prev : Z) (route : list (Z * Q)) (dist : Q) : Q :=
  match route with
  | [] => dist
  | (loc, _) :: route' => route_distance s loc route' (dist + _distance s prev loc)%Q
  end.

Definition dist_step (s : DVRPSimulator) (total_distance : Q) (v : Vehicle) : Q :=
  (total_distance + route_distance s (v_start_location v) (v_route v) 0)%Q.

Definition order_outcome (o : Order) : OrderOutcome :=
  mkOrderOutcome (o_picked o) (o_delivered o) (o_delivered_time o).

Definition vehicle_outcome (v : Vehicle) : VehicleOutcome :=
  mkVehicleOutcome (v_route v) (v_time v) (v_location v).

Definition compute_result (s : DVRPSimulator) : Result :=
  let total_late := fold_left late_step (dict_values (orders s)) 0%Q in
  let total_distance := fold_left (dist_step s) (dict_values (vehicles s)) 0%Q in
  let avg_distance :=
    (total_distance / inject_Z (Z.max 1 (Z.of_nat (length (vehicles s)))))%Q in
  let f_obj := (lambda_cost s * total_late + avg_distance)%Q in
  mkResult total_late avg_distance f_obj
           (map (fun ko : Z * Order => (ko.1, order_outcome ko.2)) (orders s))
           (map (fun kv : Z * Vehicle => (kv.1, vehicle_outcome kv.2)) (vehicles s)).

(** [simulate_with_tracking], returning the final state of the simulator
    object next to the result dictionary, and the log of turns. *)
Definition simulate_traced (s : DVRPSimulator) (until_time : Q)
  : option (DVRPSimulator * Result * list Event) :=
  '(s', evs) ← dispatch_loop max_iterations until_time (reset s);
  Some (s', compute_result s', evs).

Definition simulate_with_tracking (s : DVRPSimulator) (until_time : Q)
  : option (DVRPSimulator * Result) :=
  '(s', _) ← dispatch_loop max_iterations until_time (reset s);
  Some (s', compute_result s').

Definition default_until_time : Q := 24 * 60.

(** ** The reference scenario of [dvrpsim.py] *)

Module Scenario.
Definition plants0 : gmap Z Plant :=
  list_to_map [(1, mkPlant 1 "P1" 2); (2, mkPlant 2 "P2" 1);
               (3, mkPlant 3 "P3" 1); (0, mkPlant 0 "Depot" 2)].

Definition dist_list : list (Z * Z * Q) :=
  [((0, 1), 10%Q); ((0, 2), 20%Q); ((0, 3), 25%Q);
   ((1, 2), 12%Q); ((1, 3), 15%Q); ((2, 3), 8%Q)].

Definition distances0 : gmap (Z * Z) Q := list_to_map dist_list.

Definition travel_times0 : gmap (Z * Z) Q :=
  list_to_map (map (fun kv : Z * Z * Q => (kv.1, Qred (kv.2 / 40 * 60))) dist_list).

Definition new_order (i p d q : Z) (a due : Q) : Order :=
  mkOrder i p d q a due false false None.

Definition new_vehicle (i c start : Z) : Vehicle :=
  mkVehicle i c start start 0 0 [] [].

Definition orders0 : list (Z * Order) :=
  [(1, new_order 1 1 2 2 10 180); (2, new_order 2 1 3 1 20 160);
   (3, new_order 3 2 3 3 0 240); (4, new_order 4 3 1 1 30 200)].

Definition vehicles0 : list (Z * Vehicle) :=
  [(1, new_vehicle 1 5 0); (2, new_vehicle 2 4 0)].

Definition sim0 : DVRPSimulator :=
  new_simulator plants0 orders0 vehicles0 distances0 travel_times0 5 2 50.
End Scenario.

(** ** The optimizer of [dvrp_algorithm.py]

    The optimizer works on order-set values: every operator deep-copies its
    input and [evaluate] clones before it simulates (the store model at the
    end of this part shows that nothing reachable from the caller is
    written), so an order set is passed by value here.

    The two sources of non-determinism are made explicit: the draws of
    [random.sample] come from a list of number pairs, and the wall-clock
    budget is the number of times the [while] test succeeds. *)

Record VNSMEOptimizer := mkOptimizer {
  simulator : DVRPSimulator;
  disturb_acceptance : Q
}.

Definition evaluate (opt : VNSMEOptimizer) (os : list (Z * Order)) : option (Q * Result) :=
  let ref := simulator opt in
  let sim := new_simulator (plants ref) os (vehicles ref) (distances ref)
               (travel_times ref) (dock_service_time ref) (unit_handling_time ref)
               (lambda_cost ref) in
  '(_, result) ← simulate_with_tracking sim default_until_time;
  Some (objective result, result).

Definition Rng : Type := list (nat * nat).

Definition next_draw (rng : Rng) : (nat * nat) * Rng :=
  match rng with
  | [] => ((0, 0)%nat, [])
  | d :: rng' => (d, rng')
  end.

(** Two distinct positions below [n] (for [2 <= n]), as [random.sample(_, 2)]
    picks two distinct elements. *)
Definition pick2 (n : nat) (d : nat * nat) : nat * nat :=
  let i := (d.1 mod n)%nat in
  let j := (d.2 mod (n - 1))%nat in
  (i, if (j <? i)%nat then j else S j).

Definition set_delivery (d : Z) (o : Order) : Order :=
  mkOrder (o_id o) (o_pickup o) d (o_qty o) (o_arrival o) (o_due o)
          (o_picked o) (o_delivered o) (o_delivered_time o).

(** [o1.delivery, o2.delivery = o2.delivery, o1.delivery] for the orders at
    positions [i] and [j] of [new_orders.values()]. *)
Definition swap_deliveries (i j : nat) (os : list (Z * Order)) : list (Z * Order) :=
  match os !! i, os !! j with
  | Some (ki, oi), Some (kj, oj) =>
      <[j := (kj, set_delivery (o_delivery oi) oj)]>
        (<[i := (ki, set_delivery (o_delivery oj) oi)]> os)
  | _, _ => os
  end.

Definition couple_exchange (rng : Rng) (os : list (Z * Order)) : list (Z * Order) * Rng :=
  if (length os <? 2)%nat then (os, rng)
  else
    let '(d, rng') := next_draw rng in
    let '(i, j) := pick2 (length os) d in
    (swap_deliveries i j os, rng').

(** [new_orders[i], new_orders[j] = new_orders[j], new_orders[i]] for the
    sampled keys [i] and [j]. *)
Definition block_exchange_at (i j : Z) (os : list (Z * Order)) : list (Z * Order) :=
  match dict_get j os, dict_get i os with
  | Some oj, Some oi => dict_setitem j oi (dict_setitem i oj os)
  | _, _ => os
  end.

Definition key_at (os : list (Z * Order)) (i : nat) : Z :=
  default 0 (dict_keys os !! i).

Definition block_exchange (rng : Rng) (os : list (Z * Order)) : list (Z * Order) * Rng :=
  if (2 <=? length os)%nat then
    let '(d, rng') := next_draw rng in
    let '(i, j) := pick2 (length os) d in
    (block_exchange_at (key_at os i) (key_at os j) os, rng')
  else (os, rng).

(** [o = new_orders.pop(i); new_orders[i] = o] for the sampled key [i]. *)
Definition block_relocate_at (i : Z) (os : list (Z * Order)) : list (Z * Order) :=
  match dict_get i os with
  | Some o => dict_setitem i o (dict_pop i os)
  | None => os
  end.

Definition block_relocate (rng : Rng) (os : list (Z * Order)) : list (Z * Order) * Rng :=
  if (2 <=? length os)%nat then
    let '(d, rng') := next_draw rng in
    let '(i, _) := pick2 (length os) d in
    (block_relocate_at (key_at os i) os, rng')
  else (os, rng).

Definition multi_relocate (rng : Rng) (os : list (Z * Order)) : list (Z * Order) * Rng :=
  let '(os1, rng1) := block_relocate rng os in
  block_relocate rng1 os1.

Definition disturb (rng : Rng) (os : list (Z * Order)) : list (Z * Order) * Rng :=
  if (length os <? 2)%nat then (os, rng)
  else
    let '(d, rng') := next_draw rng in
    let '(i, j) := pick2 (length os) d in
    (swap_deliveries i j os, rng').

Definition Move : Type := Rng -> list (Z * Order) -> list (Z * Order) * Rng.

Definition local_moves : list Move :=
  [couple_exchange; block_exchange; block_relocate; multi_relocate].

Record OptState := mkOptState {
  best_cost : Q;
  best_res : Result;
  best_orders : list (Z * Order);
  initial_cost : Q;
  initial_res : Result;
  initial_orders : list (Z * Order)
}.

(** The [for move in [...]] loop with its [break]; the boolean is [improved]. *)
Fixpoint try_moves (opt : VNSMEOptimizer) (ms : list Move) (st : OptState) (rng : Rng)
  : option (OptState * bool * Rng) :=
  match ms with
  | [] => Some (st, false, rng)
  | move :: ms' =>
      let cand := move rng (initial_orders st) in
      '(cand_cost, cand_res) ← evaluate opt cand.1;
      if Qlt_bool cand_cost (best_cost st) then
        Some (mkOptState cand_cost cand_res cand.1
                (initial_cost st) (initial_res st) (initial_orders st), true, cand.2)
      else try_moves opt ms' st cand.2
  end.

(** One round of the [while] body: the new state and whether the loop goes on. *)
Definition optimize_round (opt : VNSMEOptimizer) (st : OptState) (rng : Rng)
  : option (OptState * bool * Rng) :=
  '(st1, improved, rng1) ← try_moves opt local_moves st rng;
  if (improved : bool) then Some (st1, true, rng1)
  else
    let cand := disturb rng1 (best_orders st1) in
    '(cand_cost, cand_res) ← evaluate opt cand.1;
    if Qlt_bool cand_cost (initial_cost st1 * disturb_acceptance opt)%Q then
      Some (mkOptState (best_cost st1) (best_res st1) (best_orders st1)
              cand_cost cand_res cand.1, true, cand.2)
    else Some (st1, false, cand.2).

Fixpoint optimize_loop (rounds : nat) (opt : VNSMEOptimizer) (st : OptState) (rng : Rng)
  : option OptState :=
  match rounds with
  | O => Some st
  | S rounds' =>
      '(st1, continue, rng1) ← optimize_round opt st rng;
      if (continue : bool) then optimize_loop rounds' opt st1 rng1 else Some st1
  end.

Definition optimize (opt : VNSMEOptimizer) (rounds : nat) (rng : Rng)
    (os : list (Z * Order)) : option (Q * Result) :=
  '(cost0, res0) ← evaluate opt os;
  st ← optimize_loop rounds opt (mkOptState cost0 res0 os cost0 res0 os) rng;
  Some (best_cost st, best_res st).

(** * Notions used in the statements, and example instances *)

(** ** Ranking of pickup candidates *)

(** The tuple order used to rank pickup candidates. *)
Definition key_le (k1 k2 : Q * Q) : Prop :=
  (k1.1 < k2.1 \/ (k1.1 == k2.1 /\ k1.2 <= k2.2))%Q.

(** ** The turn of a vehicle as a step relation

    [step_spec] lists the seven ways a turn can end, each with the facts
    that the branch has tested and the state it leaves; [veh_step_spec]
    shows that every completed turn is one of them. *)

Definition after_delivery (s : DVRPSimulator) (v : Vehicle) (top_o : Order) : Vehicle :=
  mkVehicle (v_id v) (v_capacity v) (v_start_location v) (v_location v)
            (v_time v + service_time s top_o)%Q (v_load v - o_qty top_o)
            (removelast (v_stack v))
            (v_route v ++ [(v_location v, (v_time v + service_time s top_o)%Q)]).

Definition after_pickup (s : DVRPSimulator) (v : Vehicle) (o : Order) (arr : Q) : Vehicle :=
  mkVehicle (v_id v) (v_capacity v) (v_start_location v) (o_pickup o)
            (arr + service_time s o)%Q (v_load v + o_qty o)
            (v_stack v ++ [o_id o])
            (v_route v ++ [(o_pickup o, (arr + service_time s o)%Q)]).

Definition top_due (top : option (Z * Order)) : option Q := o_due <$> (snd <$> top).

Definition not_at_delivery (v : Vehicle) (top : option (Z * Order)) : Prop :=
  forall tid top_o, top = Some (tid, top_o) -> v_location v <> o_delivery top_o.

Inductive step_spec (until_time : Q) (s : DVRPSimulator) (vk : Z) : StepResult -> Prop :=
| step_skip v :
    dict_get vk (vehicles s) = Some v ->
    (until_time < v_time v)%Q ->
    step_spec until_time s vk (s, false, ASkip)
| step_dock_wait_delivery v tid top_o free s1 :
    dict_get vk (vehicles s) = Some v ->
    (v_time v <= until_time)%Q ->
    stack_top s v = Some (Some (tid, top_o)) ->
    v_location v = o_delivery top_o ->
    _free_docks s (v_location v) (v_time v) = Some (free, s1) ->
    free <= 0 ->
    step_spec until_time s vk
      (put_vehicle vk (set_clock (v_time v + retry_increment)%Q v) s1,
       true, ADockWaitDelivery)
| step_deliver v tid top_o free s1 s3 :
    dict_get vk (vehicles s) = Some v ->
    (v_time v <= until_time)%Q ->
    stack_top s v = Some (Some (tid, top_o)) ->
    v_location v = o_delivery top_o ->
    _free_docks s (v_location v) (v_time v) = Some (free, s1) ->
    0 < free ->
    _occupy_dock
      (alter_order tid (mark_delivered (v_time v + service_time s top_o)%Q)
         (put_vehicle vk (after_delivery s v top_o) s1))
      (v_location v) (v_id v) (v_time v + service_time s top_o)%Q = Some s3 ->
    step_spec until_time s vk
      (s3, true, ADeliver tid (v_time v + service_time s top_o)%Q)
| step_dock_wait_pickup v top k o arr trav rest free s1 :
    dict_get vk (vehicles s) = Some v ->
    (v_time v <= until_time)%Q ->
    stack_top s v = Some top ->
    not_at_delivery v top ->
    sort_by cand_lt (feasible_pickups s v (top_due top)) = (k, o, arr, trav) :: rest ->
    _free_docks s (o_pickup o) arr = Some (free, s1) ->
    free <= 0 ->
    step_spec until_time s vk
      (put_vehicle vk (set_clock (arr + retry_increment)%Q (drive (o_pickup o) arr v)) s1,
       true, ADockWaitPickup k arr)
| step_pickup v top k o arr trav rest free s1 s3 :
    dict_get vk (vehicles s) = Some v ->
    (v_time v <= until_time)%Q ->
    stack_top s v = Some top ->
    not_at_delivery v top ->
    sort_by cand_lt (feasible_pickups s v (top_due top)) = (k, o, arr, trav) :: rest ->
    _free_docks s (o_pickup o) arr = Some (free, s1) ->
    0 < free ->
    _occupy_dock
      (alter_order k mark_picked (put_vehicle vk (after_pickup s v o arr) s1))
      (o_pickup o) (v_id v) (arr + service_time s o)%Q = Some s3 ->
    step_spec until_time s vk
      (s3, true, APickup k arr (arr + service_time s o)%Q)
| step_reposition v tid top_o :
    dict_get vk (vehicles s) = Some v ->
    (v_time v <= until_time)%Q ->
    stack_top s v = Some (Some (tid, top_o)) ->
    v_location v <> o_delivery top_o ->
    feasible_pickups s v (Some (o_due top_o)) = [] ->
    step_spec until_time s vk
      (put_vehicle vk
         (drive (o_delivery top_o)
            (v_time v + _travel_time s (v_location v) (o_delivery top_o))%Q v) s,
       true, AReposition (o_delivery top_o))
| step_idle v :
    dict_get vk (vehicles s) = Some v ->
    (v_time v <= until_time)%Q ->
    stack_top s v = Some None ->
    feasible_pickups s v None = [] ->
    step_spec until_time s vk
      (put_vehicle vk (set_clock (v_time v + retry_increment)%Q v) s, true, AIdle).

(** ** The travel-time oracle (C2) *)

Module TravelExample.
(** Two plants and empty tables. *)
Definition sim : DVRPSimulator :=
  new_simulator (list_to_map [(0, mkPlant 0 "Depot" 1); (1, mkPlant 1 "P1" 1)])
                [] [] ∅ ∅ 5 1 100.
End TravelExample.

(** ** Progress of a pass (C3) *)

Definition is_skip (a : Action) : bool :=
  match a with ASkip => true | _ => false end.

Definition is_idle (a : Action) : bool :=
  match a with AIdle => true | _ => false end.

(** Some vehicle was considered, that is, took a turn that was not skipped. *)
Definition considered (evs : list Event) : bool :=
  existsb (fun e : Event => negb (is_skip e.2)) evs.

Module IdleExample.
(** One vehicle of capacity 1 and one order of quantity 2: the order is
    never feasible and the vehicle can only idle. *)
Definition sim : DVRPSimulator :=
  new_simulator Scenario.plants0
    [(1, Scenario.new_order 1 1 2 2 0 100)]
    [(1, Scenario.new_vehicle 1 1 0)]
    Scenario.distances0 Scenario.travel_times0 5 2 50.

Definition horizon : Q := 480.

Definition idled : DVRPSimulator :=
  put_vehicle 1 (set_clock (0 + retry_increment)%Q (Scenario.new_vehicle 1 1 0)) (reset sim).
End IdleExample.

(** ** Dock queries and pickup candidates *)

(** Feasibility of an order for a vehicle, in the words of the pickup rule. *)
Definition feasible (v : Vehicle) (top : option (Z * Order)) (o : Order) : Prop :=
  o_picked o = false /\ o_delivered o = false /\
  v_load v + o_qty o <= v_capacity v /\
  (forall tid top_o, top = Some (tid, top_o) -> (o_due top_o <= o_due o)%Q).

Definition projected_arrival (s : DVRPSimulator) (v : Vehicle) (o : Order) : Q :=
  (Qmax (o_arrival o) (v_time v) + _travel_time s (v_location v) (o_pickup o))%Q.

(** ** Waiting for a pickup dock (C4) *)

Module DockWaitExample.
(** Plant 2 has a single dock; both orders are picked up there. *)
Definition sim : DVRPSimulator :=
  new_simulator Scenario.plants0
    [(1, Scenario.new_order 1 2 3 1 0 100); (2, Scenario.new_order 2 2 1 1 0 200)]
    [(1, Scenario.new_vehicle 1 5 0); (2, Scenario.new_vehicle 2 5 0)]
    Scenario.distances0 Scenario.travel_times0 5 2 50.

Definition horizon : Q := 480.

(** The state after the turn of vehicle 1, which loads order 1 at plant 2
    and holds the dock until time 37. *)
Definition before : DVRPSimulator :=
  default (reset sim) ((fun r : StepResult => r.1.1) <$> veh_step horizon (reset sim) 1).

Definition after : DVRPSimulator :=
  default (reset sim) ((fun r : StepResult => r.1.1) <$> veh_step horizon before 2).
End DockWaitExample.

(** ** Dock occupancy (C7) *)

(** Any sequence of turns, one vehicle key after the other.  A dispatch run
    is such a sequence (see [dispatch_loop_turns]). *)
Fixpoint run_turns (until_time : Q) (ks : list Z) (s : DVRPSimulator) : option DVRPSimulator :=
  match ks with
  | [] => Some s
  | k :: ks' => r ← veh_step until_time s k; run_turns until_time ks' r.1.1
  end.

Definition docks_nonneg (s : DVRPSimulator) : bool :=
  forallb (fun kp : Z * Plant => 0 <=? p_docks kp.2) (map_to_list (plants s)).

(** Every plant's reservation list is no longer than its dock count. *)
Definition dock_inv (s : DVRPSimulator) : Prop :=
  forall p occ, dock_occupancy s !! p = Some occ ->
    exists pl, plants s !! p = Some pl /\ Z.of_nat (length occ) <= p_docks pl.

Definition active_count (at_time : Q) (occ : list (Z * Q)) : Z :=
  Z.of_nat (length (List.filter (active_at at_time) occ)).

Module DockExample.
Definition horizon : Q := 480.
Definition turns : list Z := [1; 2; 1; 2].

(** The reference scenario after the first two passes. *)
Definition state : DVRPSimulator :=
  default (reset Scenario.sim0) (run_turns horizon turns (reset Scenario.sim0)).
End DockExample.

(** ** What a run never changes *)

Definition order_static (o : Order) : Z * Z * Z * Z * Q * Q :=
  (o_id o, o_pickup o, o_delivery o, o_qty o, o_arrival o, o_due o).

Definition vehicle_static (v : Vehicle) : Z * Z * Z :=
  (v_id v, v_capacity v, v_start_location v).

Definition orders_static (s : DVRPSimulator) : list (Z * (Z * Z * Z * Z * Q * Q)) :=
  map (fun ko : Z * Order => (ko.1, order_static ko.2)) (orders s).

Definition vehicles_static (s : DVRPSimulator) : list (Z * (Z * Z * Z)) :=
  map (fun kv : Z * Vehicle => (kv.1, vehicle_static kv.2)) (vehicles s).

(** The scenario-level part of a simulator: plants, oracle and parameters. *)
Definition config (s : DVRPSimulator)
  : gmap Z Plant * gmap (Z * Z) Q * gmap (Z * Z) Q * Q * Q * Q :=
  (plants s, distances s, travel_times s,
   dock_service_time s, unit_handling_time s, lambda_cost s).

Definition frame (s : DVRPSimulator) :=
  (config s, orders_static s, vehicles_static s).

(** ** Delivered flag and delivered-time go together *)

Definition delivery_recorded (ko : Z * Order) : Prop :=
  o_delivered ko.2 = bool_decide (is_Some (o_delivered_time ko.2)).

(** ** The aggregates of a result (C5) *)

(** The aggregates as the specification words them. *)
Definition sum_Q (l : list Q) : Q := foldr Qplus 0%Q l.

Definition lateness_contribution (o : Order) : Q :=
  if o_delivered o
  then Qmax 0 (default 0%Q (o_delivered_time o) - o_due o)
  else (undelivered_penalty * o_due o)%Q.

Definition total_lateness (os : list (Z * Order)) : Q :=
  sum_Q (map lateness_contribution (dict_values os)).

(** Sum of the distances between consecutive locations, from [prev] on. *)
Fixpoint path_length (s : DVRPSimulator) (prev : Z) (locs : list Z) : Q :=
  match locs with
  | [] => 0%Q
  | loc :: locs' => (_distance s prev loc + path_length s loc locs')%Q
  end.

Definition route_length (s : DVRPSimulator) (v : Vehicle) : Q :=
  path_length s (v_start_location v) (map fst (v_route v)).

Definition total_route_length (s : DVRPSimulator) : Q :=
  sum_Q (map (route_length s) (dict_values (vehicles s))).

Module ResultExample.
Definition horizon : Q := 480.

Definition final : DVRPSimulator :=
  default Scenario.sim0
    (fst <$> simulate_with_tracking Scenario.sim0 horizon).

Definition result : Result := compute_result final.
End ResultExample.

(** ** Monotonicity of the optimizer (C8) *)

(** The best-known triple after a step is either the old one, or a
    candidate that [evaluate] has priced strictly below the old best cost. *)
Definition best_kept_or_improved (opt : VNSMEOptimizer) (st st' : OptState) : Prop :=
  (best_cost st' = best_cost st /\ best_res st' = best_res st /\
   best_orders st' = best_orders st) \/
  ((best_cost st' < best_cost st)%Q /\
   evaluate opt (best_orders st') = Some (best_cost st', best_res st')).

Module OptimizerExample.
Definition opt : VNSMEOptimizer := mkOptimizer Scenario.sim0 6.
Definition rng : Rng := [(0, 0); (0, 1); (1, 2); (2, 0); (3, 1); (1, 1); (0, 2)]%nat.
Definition rounds : nat := 2.

Definition initial : Q * Result :=
  default (0%Q, compute_result Scenario.sim0) (evaluate opt Scenario.orders0).

Definition returned : Q * Result :=
  default (0%Q, compute_result Scenario.sim0) (optimize opt rounds rng Scenario.orders0).
End OptimizerExample.

(** ** Block exchange and block relocate (C1) *)

Module RelocateExample.
(** Two orders with the same due time, arrival time and pickup plant, and
    one vehicle that can carry only one of them at a time. *)
Definition orders1 : list (Z * Order) :=
  [(1, Scenario.new_order 1 1 2 1 0 100); (2, Scenario.new_order 2 1 3 1 0 100)].

Definition opt : VNSMEOptimizer :=
  mkOptimizer
    (new_simulator Scenario.plants0 orders1 [(1, Scenario.new_vehicle 1 1 0)]
       Scenario.distances0 Scenario.travel_times0 5 2 50)
    6.
End RelocateExample.

Definition cost (opt : VNSMEOptimizer) (os : list (Z * Order)) : option Q :=
  (fun r : Q * Result => Qred r.1) <$> evaluate opt os.

(** ** Causality of deliveries (C9) *)

(** The places a vehicle can be at: start locations, pickup and delivery plants. *)
Definition sites (s : DVRPSimulator) : list Z :=
  map (fun kv : Z * Vehicle => v_start_location kv.2) (vehicles s)
  ++ flat_map (fun ko : Z * Order => [o_pickup ko.2; o_delivery ko.2]) (orders s).

(** Travel times between sites obey the triangle inequality. *)
Definition metric_oracle (s : DVRPSimulator) : bool :=
  forallb (fun a =>
    forallb (fun b =>
      forallb (fun c =>
        Qle_bool (_travel_time s a c) (_travel_time s a b + _travel_time s b c))
        (sites s))
      (sites s))
    (sites s).

Fixpoint distinct (l : list Z) : bool :=
  match l with
  | [] => true
  | x :: l' => negb (existsb (Z.eqb x) l') && distinct l'
  end.

Definition order_well_formed (ko : Z * Order) : bool :=
  (ko.1 =? o_id ko.2) && negb (o_pickup ko.2 =? o_delivery ko.2) && (0 <=? o_qty ko.2).

Definition well_formed (s : DVRPSimulator) : bool :=
  distinct (dict_keys (orders s)) &&
  forallb order_well_formed (orders s) &&
  Qle_bool 0 (dock_service_time s) && Qle_bool 0 (unit_handling_time s) &&
  metric_oracle s.

Module DetourExample.
(** Travelling from plant 1 to plant 3 by way of plant 2 is much faster
    than the direct entry of the travel-time table. *)
Definition travel_times1 : gmap (Z * Z) Q :=
  list_to_map [((0, 1), 1%Q); ((0, 2), 1%Q); ((0, 3), 1%Q);
               ((1, 2), 1%Q); ((2, 3), 1%Q); ((1, 3), 1000%Q)].

Definition sim : DVRPSimulator :=
  new_simulator Scenario.plants0
    [(1, Scenario.new_order 1 1 3 1 0 100); (2, Scenario.new_order 2 2 3 1 0 200)]
    [(1, Scenario.new_vehicle 1 5 0)]
    Scenario.distances0 travel_times1 5 1 50.

Definition horizon : Q := 480.
End DetourExample.

Module PickupExample.
Definition horizon : Q := 480.

(** The detour instance after vehicle 1 has loaded order 1 at plant 1. *)
Definition before : DVRPSimulator :=
  default (reset DetourExample.sim)
    ((fun r : StepResult => r.1.1) <$> veh_step horizon (reset DetourExample.sim) 1).

(** The vehicle at that point: at plant 1, clock 7, order 1 on its stack. *)
Definition vehicle : Vehicle := mkVehicle 1 5 0 1 7 1 [1] [(1, 7%Q)].

(** The state after its next turn, in which it loads order 2. *)
Definition after : DVRPSimulator :=
  default before ((fun r : StepResult => r.1.1) <$> veh_step horizon before 1).
End PickupExample.

(** The log of a run, read as pickup and delivery records. *)
Definition picks (tr : list Event) (k : Z) (finish : Q) : Prop :=
  exists vk arr, (vk, APickup k arr finish) ∈ tr.

Definition delivers (tr : list Event) (k : Z) (t : Q) : Prop :=
  exists vk, (vk, ADeliver k t) ∈ tr.

Definition picked_in (s : DVRPSimulator) (k : Z) : Prop :=
  exists o, dict_get k (orders s) = Some o /\ o_picked o = true.

(** Since the pickup finished at [f], the vehicle has had the time to
    travel from the pickup plant to where it is now. *)
Definition at_least (s0 : DVRPSimulator) (v : Vehicle) (o0 : Order) (f : Q) : Prop :=
  (v_location v = o_pickup o0 /\ (f <= v_time v)%Q) \/
  (f + _travel_time s0 (o_pickup o0) (v_location v) <= v_time v)%Q.

Definition carried_ok (s0 : DVRPSimulator) (tr : list Event) (s : DVRPSimulator)
    (v : Vehicle) (k : Z) : Prop :=
  exists o0,
    dict_get k (orders s0) = Some o0 /\ picked_in s k /\
    (exists f, picks tr k f) /\
    (forall f, picks tr k f -> at_least s0 v o0 f).

Definition veh_ok (s0 : DVRPSimulator) (tr : list Event) (s : DVRPSimulator)
    (v : Vehicle) : Prop :=
  v_location v ∈ sites s0 /\ forall k, k ∈ v_stack v -> carried_ok s0 tr s v k.

Definition delivered_ok (s0 : DVRPSimulator) (tr : list Event) (s : DVRPSimulator)
    (k : Z) (t : Q) : Prop :=
  exists o0,
    dict_get k (orders s0) = Some o0 /\ picked_in s k /\
    (exists f, picks tr k f) /\
    (forall f, picks tr k f ->
       (f + _travel_time s0 (o_pickup o0) (o_delivery o0) <= t)%Q).

(** The invariant of a run from the reset state of [s0], over the log so
    far and the current state. *)
Record causal (s0 : DVRPSimulator) (tr : list Event) (s : DVRPSimulator) : Prop := mkCausal {
  c_frame : frame s = frame s0;
  c_picked : forall k f, picks tr k f -> picked_in s k;
  c_vehicles : forall vk v, (vk, v) ∈ vehicles s -> veh_ok s0 tr s v;
  c_delivered : forall k t, delivers tr k t -> delivered_ok s0 tr s k t;
  c_recorded : forall k o t,
    (k, o) ∈ orders s -> o_delivered_time o = Some t -> delivers tr k t
}.

(** The vehicle [v'] is where [v] was, later, or somewhere it has had the
    time to drive to. *)
Definition moved (s0 : DVRPSimulator) (v v' : Vehicle) : Prop :=
  (v_location v' = v_location v /\ (v_time v <= v_time v')%Q) \/
  (v_time v + _travel_time s0 (v_location v) (v_location v') <= v_time v')%Q.

Definition is_pick_or_deliver (a : Action) : bool :=
  match a with APickup _ _ _ | ADeliver _ _ => true | _ => false end.

Module CausalExample.
Definition horizon : Q := 480.

Definition log : list Event :=
  default [] ((fun r : DVRPSimulator * Result * list Event => r.2)
                <$> simulate_traced Scenario.sim0 horizon).
End CausalExample.

(** ** Isolation of evaluations (C10)

    Orders, vehicles, the plant and oracle tables and simulator objects live
    in a store; a dictionary of orders or vehicles maps keys to addresses,
    and the simulator mutates the objects it holds references to.  The store
    is a list and an address is an index into it, so that allocation appends.

    The run of a simulator on the store reads the objects it refers to,
    performs the run on their values, and leaves at every address the final
    value of the object; this is exact when the entries of its dictionaries
    are distinct objects, which is the case for the clones made by
    [evaluate]. *)

Module Store.

(** The run on values, [simulate_with_tracking] of the first part. *)
Abbreviation simulate_values := simulate_with_tracking.

Record SimulatorObj := mkSimulatorObj {
  plants_ref : nat;
  orders_refs : list (Z * nat);
  vehicles_refs : list (Z * nat);
  distances_ref : nat;
  travel_times_ref : nat;
  service_parameters : Q * Q * Q;     (* dock_service_time, unit_handling_time, lambda_cost *)
  dock_table : gmap Z (list (Z * Q))
}.

Inductive Obj :=
| OOrder (o : Order)
| OVehicle (v : Vehicle)
| OPlants (ps : gmap Z Plant)
| OTable (t : gmap (Z * Z) Q)
| OSimulator (so : SimulatorObj).

Definition as_order (x : Obj) : option Order :=
  match x with OOrder o => Some o | _ => None end.
Definition as_vehicle (x : Obj) : option Vehicle :=
  match x with OVehicle v => Some v | _ => None end.
Definition as_plants (x : Obj) : option (gmap Z Plant) :=
  match x with OPlants ps => Some ps | _ => None end.
Definition as_table (x : Obj) : option (gmap (Z * Z) Q) :=
  match x with OTable t => Some t | _ => None end.
Definition as_simulator (x : Obj) : option SimulatorObj :=
  match x with OSimulator so => Some so | _ => None end.

(** The objects a dictionary refers to. *)
Fixpoint read_all (h : list Obj) (d : list (Z * nat)) : option (list Obj) :=
  match d with
  | [] => Some []
  | (_, a) :: d' => x ← h !! a; xs ← read_all h d'; Some (x :: xs)
  end.

(** The values of a dictionary of objects of one class. *)
Fixpoint load_dict {V} (proj : Obj -> option V) (h : list Obj) (d : list (Z * nat))
  : option (list (Z * V)) :=
  match d with
  | [] => Some []
  | (k, a) :: d' =>
      x ← h !! a; v ← proj x; vs ← load_dict proj h d'; Some ((k, v) :: vs)
  end.

(** Writing the values of a dictionary back to its objects. *)
Fixpoint store_dict {V} (inj : V -> Obj) (h : list Obj) (d : list (Z * nat))
    (vs : list (Z * V)) : list Obj :=
  match d, vs with
  | (_, a) :: d', (_, v) :: vs' => store_dict inj (<[a := inj v]> h) d' vs'
  | _, _ => h
  end.

(** [{k: copy.deepcopy(x) for k, x in d.items()}]: one fresh object per
    entry, appended to the store. *)
Definition deepcopy_values (h : list Obj) (d : list (Z * nat))
  : option (list Obj * list (Z * nat)) :=
  xs ← read_all h d;
  Some (h ++ xs, zip (dict_keys d) (seq (length h) (length xs))).

(** The simulator value that a simulator object stands for. *)
Definition load_simulator (h : list Obj) (so : SimulatorObj) : option DVRPSimulator :=
  ps ← h !! plants_ref so ≫= as_plants;
  os ← load_dict as_order h (orders_refs so);
  vs ← load_dict as_vehicle h (vehicles_refs so);
  ds ← h !! distances_ref so ≫= as_table;
  tts ← h !! travel_times_ref so ≫= as_table;
  Some (mkSim ps os vs ds tts (service_parameters so).1.1 (service_parameters so).1.2
          (service_parameters so).2 (dock_table so)).

Definition store_simulator (h : list Obj) (self : nat) (so : SimulatorObj)
    (s' : DVRPSimulator) : list Obj :=
  let h1 := store_dict OOrder h (orders_refs so) (orders s') in
  let h2 := store_dict OVehicle h1 (vehicles_refs so) (vehicles s') in
  let h3 := <[plants_ref so := OPlants (plants s')]> h2 in
  let h4 := <[distances_ref so := OTable (distances s')]> h3 in
  let h5 := <[travel_times_ref so := OTable (travel_times s')]> h4 in
  <[self := OSimulator
      (mkSimulatorObj (plants_ref so) (orders_refs so) (vehicles_refs so)
         (distances_ref so) (travel_times_ref so) (service_parameters so)
         (dock_occupancy s'))]> h5.

(** [sim.simulate_with_tracking(until_time)] for the simulator object at
    address [self]. *)
Definition simulate_with_tracking (h : list Obj) (self : nat) (until_time : Q)
  : option (list Obj * Result) :=
  so ← h !! self ≫= as_simulator;
  s ← load_simulator h so;
  '(s', res) ← simulate_values s until_time;
  Some (store_simulator h self so s', res).

(** [VNSMEOptimizer.evaluate(orders)], for the reference simulator object at
    address [self_simulator] and the order dictionary [os]. *)
Definition evaluate (h : list Obj) (self_simulator : nat) (os : list (Z * nat))
  : option (list Obj * (Q * Result)) :=
  ref ← h !! self_simulator ≫= as_simulator;
  '(h1, cloned_orders) ← deepcopy_values h os;
  '(h2, cloned_vehicles) ← deepcopy_values h1 (vehicles_refs ref);
  ps ← h2 !! plants_ref ref ≫= as_plants;
  let sim_obj :=
    mkSimulatorObj (plants_ref ref) cloned_orders cloned_vehicles
      (distances_ref ref) (travel_times_ref ref) (service_parameters ref)
      ((fun _ => []) <$> ps) in
  let sim := length h2 in
  '(h3, result) ← simulate_with_tracking (h2 ++ [OSimulator sim_obj]) sim default_until_time;
  Some (h3, (objective result, result)).

(** Every address the call is given refers to an object of the store. *)
Definition valid_refs (h : list Obj) (self_simulator : nat) (os : list (Z * nat)) : bool :=
  match h !! self_simulator with
  | Some (OSimulator ref) =>
      forallb (fun ka : Z * nat => ka.2 <? length h)%nat os &&
      forallb (fun ka : Z * nat => ka.2 <? length h)%nat (vehicles_refs ref) &&
      (plants_ref ref <? length h)%nat &&
      (distances_ref ref <? length h)%nat &&
      (travel_times_ref ref <? length h)%nat
  | _ => false
  end.

(** What an evaluation depends on: the values of the order set and of the
    reference simulator's vehicles, plants, oracle and parameters, as a
    freshly constructed simulator. *)
Definition snapshot (h : list Obj) (self_simulator : nat) (os : list (Z * nat))
  : option DVRPSimulator :=
  ref ← h !! self_simulator ≫= as_simulator;
  ps ← h !! plants_ref ref ≫= as_plants;
  ovals ← load_dict as_order h os;
  vvals ← load_dict as_vehicle h (vehicles_refs ref);
  ds ← h !! distances_ref ref ≫= as_table;
  tts ← h !! travel_times_ref ref ≫= as_table;
  Some (new_simulator ps ovals vvals ds tts (service_parameters ref).1.1
          (service_parameters ref).1.2 (service_parameters ref).2).

(** The store and the simulator object on which [evaluate] runs the
    simulation: the store of the call followed by the clones of the orders,
    the clones of the vehicles and the new simulator object. *)
Definition clone_store (h xo xv : list Obj) (ref : SimulatorObj) (os : list (Z * nat))
    (ps : gmap Z Plant) : list Obj * SimulatorObj :=
  let so :=
    mkSimulatorObj (plants_ref ref)
      (zip (dict_keys os) (seq (length h) (length xo)))
      (zip (dict_keys (vehicles_refs ref)) (seq (length (h ++ xo)) (length xv)))
      (distances_ref ref) (travel_times_ref ref) (service_parameters ref)
      ((fun _ => []) <$> ps) in
  ((h ++ xo) ++ xv ++ [OSimulator so], so).

End Store.

Module StoreExample.
(** The reference scenario laid out in a store: the plants and the two
    oracle tables, the four orders, the two vehicles, and the reference
    simulator object at address 9. *)
Definition reference : Store.SimulatorObj :=
  Store.mkSimulatorObj 0 [(1, 3%nat); (2, 4%nat); (3, 5%nat); (4, 6%nat)]
    [(1, 7%nat); (2, 8%nat)] 1 2
    (5%Q, 2%Q, 50%Q) (dock_occupancy Scenario.sim0).

Definition store0 : list Store.Obj :=
  [Store.OPlants Scenario.plants0; Store.OTable Scenario.distances0;
   Store.OTable Scenario.travel_times0]
  ++ map Store.OOrder (dict_values Scenario.orders0)
  ++ map Store.OVehicle (dict_values Scenario.vehicles0)
  ++ [Store.OSimulator reference].

Definition self : nat := 9.

Definition returned : list Store.Obj * (Q * Result) :=
  default ([], (0%Q, compute_result Scenario.sim0))
          (Store.evaluate store0 self (Store.orders_refs reference)).

Definition in_place : list Store.Obj :=
  default [] (fst <$> Store.simulate_with_tracking store0 self default_until_time).
End StoreExample.

(** * Further properties: notions and example instances *)

(** ** Dock queries and reservations *)

Module DockQueryExample.
(** The dock-wait instance after vehicle 1 has reserved the only dock of
    plant 2 until time 37, and the same state after a query at time 30. *)
Definition queried : DVRPSimulator :=
  default DockWaitExample.before (snd <$> _free_docks DockWaitExample.before 2 30).

(** A second reservation at plant 1, which has two docks. *)
Definition reserved : DVRPSimulator :=
  default DockExample.state (_occupy_dock DockExample.state 1 7 50).
End DockQueryExample.

(** ** Symmetry of the oracle *)

(** Where a table stores both orientations of a pair, the values agree. *)
Definition symmetric_table (m : gmap (Z * Z) Q) : bool :=
  forallb (fun kv : Z * Z * Q =>
             match m !! (kv.1.2, kv.1.1) with
             | Some y => Qeq_bool kv.2 y
             | None => true
             end)
          (map_to_list m).

(** ** Loads, stacks and flags during a run *)

(** Every order is stored under its own id, and no key occurs twice. *)
Definition stored_under_ids (os : list (Z * Order)) : bool :=
  forallb (fun ko : Z * Order => ko.1 =? o_id ko.2) os.

Definition keyed (s : DVRPSimulator) : bool :=
  distinct (dict_keys (orders s)) && stored_under_ids (orders s).

Definition quantities_nonneg (s : DVRPSimulator) : bool :=
  forallb (fun ko : Z * Order => 0 <=? o_qty ko.2) (orders s) &&
  forallb (fun kv : Z * Vehicle => 0 <=? v_capacity kv.2) (vehicles s).

(** Quantity and due time of the order stored under a stack entry. *)
Definition order_qty (s : DVRPSimulator) (k : Z) : Z :=
  default 0 (o_qty <$> dict_get k (orders s)).

Definition order_due (s : DVRPSimulator) (k : Z) : Q :=
  default 0%Q (o_due <$> dict_get k (orders s)).

Definition stack_qty (s : DVRPSimulator) (st : list Z) : Z :=
  foldr (fun k acc => order_qty s k + acc) 0 st.

Definition stack_dues (s : DVRPSimulator) (st : list Z) : list Q :=
  map (order_due s) st.

Fixpoint ascending (l : list Q) : Prop :=
  match l with
  | a :: (b :: _) as l' => (a <= b)%Q /\ ascending l'
  | _ => True
  end.

(** How many times [k] occurs on the stacks of the fleet. *)
Definition on_stacks (s : DVRPSimulator) (k : Z) : nat :=
  list_sum (map (fun kv : Z * Vehicle => count_occ Z.eq_dec (v_stack kv.2) k) (vehicles s)).

(** Picked up and not yet delivered. *)
Definition in_transit (s : DVRPSimulator) (k : Z) : bool :=
  match dict_get k (orders s) with
  | Some o => o_picked o && negb (o_delivered o)
  | None => false
  end.

(** The invariant of the turns of a run that starts from the reset state of
    [s0]. *)
Record engine_inv (s0 s : DVRPSimulator) : Prop := mkEngineInv {
  e_frame : frame s = frame s0;
  e_load : forall vk v, (vk, v) ∈ vehicles s ->
    v_load v = stack_qty s0 (v_stack v) /\ v_load v <= v_capacity v;
  e_lifo : forall vk v, (vk, v) ∈ vehicles s -> ascending (stack_dues s0 (v_stack v));
  e_owner : forall k, on_stacks s k = if in_transit s k then 1%nat else 0%nat;
  e_flags : forall k o, (k, o) ∈ orders s -> o_delivered o = true -> o_picked o = true
}.

Module EngineExample.
Definition horizon : Q := 480.

(** The detour instance after three turns of its vehicle: orders 1 and 2
    are on the stack. *)
Definition state : DVRPSimulator :=
  default (reset DetourExample.sim) (run_turns horizon [1; 1; 1] (reset DetourExample.sim)).

Definition vehicle : Vehicle := mkVehicle 1 5 0 3 15 2 [1; 2] [(1, 7%Q); (2, 14%Q)].
End EngineExample.


(** ** Whole runs *)

(** No order arrives within the horizon. *)
Definition none_released (until_time : Q) (s : DVRPSimulator) : bool :=
  forallb (fun ko : Z * Order => Qlt_bool until_time (o_arrival ko.2)) (orders s).

(** The static fields of an order set. *)
Definition order_set_static (os : list (Z * Order)) : list (Z * (Z * Z * Z * Z * Q * Q)) :=
  map (fun ko : Z * Order => (ko.1, order_static ko.2)) os.

Module RerunExample.
(** The optimizer whose reference simulator is the scenario after a run. *)
Definition opt : VNSMEOptimizer := mkOptimizer ResultExample.final 6.

(** The scenario without vehicles. *)
Definition no_fleet : DVRPSimulator :=
  new_simulator Scenario.plants0 Scenario.orders0 [] Scenario.distances0
    Scenario.travel_times0 5 2 50.

Definition no_fleet_result : Result := compute_result (reset no_fleet).
End RerunExample.


(** ** Instances on which a run raises no [KeyError] *)

(** The id of every order is a key of the order dictionary (the stacks hold
    ids, and the top of a stack is looked up by id). *)
Definition ids_known (s : DVRPSimulator) : bool :=
  forallb (fun ko : Z * Order => existsb (Z.eqb (o_id ko.2)) (dict_keys (orders s)))
          (orders s).

(** Every pickup and delivery plant of an order is a plant of the
    simulator. *)
Definition sites_closed (s : DVRPSimulator) : bool :=
  forallb (fun ko : Z * Order =>
             bool_decide (is_Some (plants s !! o_pickup ko.2)) &&
             bool_decide (is_Some (plants s !! o_delivery ko.2)))
          (orders s).

(** What the lookups of a turn rely on, in a run from the reset state of
    [s0]. *)
Record runnable (s0 s : DVRPSimulator) : Prop := mkRunnable {
  rn_frame : frame s = frame s0;
  rn_stack : forall vk v k,
    (vk, v) ∈ vehicles s -> k ∈ v_stack v -> is_Some (dict_get k (orders s));
  rn_docks : forall p, is_Some (plants s !! p) -> is_Some (dock_occupancy s !! p)
}.

Module KeyErrorExample.
(** The delivery plant 9 of the order is not a plant of the simulator. *)
Definition sim : DVRPSimulator :=
  new_simulator Scenario.plants0 [(1, Scenario.new_order 1 1 9 1 0 100)]
    [(1, Scenario.new_vehicle 1 5 0)] Scenario.distances0 Scenario.travel_times0 5 2 50.
End KeyErrorExample.


(** ** Clocks and route logs *)

(** No negative travel time, distance, service parameter or quantity. *)
Definition nonneg_times (s : DVRPSimulator) : bool :=
  forallb (fun kt : Z * Z * Q => Qle_bool 0 kt.2) (map_to_list (travel_times s)) &&
  forallb (fun kd : Z * Z * Q => Qle_bool 0 kd.2) (map_to_list (distances s)) &&
  Qle_bool 0 (dock_service_time s) && Qle_bool 0 (unit_handling_time s) &&
  forallb (fun ko : Z * Order => 0 <=? o_qty ko.2) (orders s).

(** The route log of a vehicle is in time order and ends no later than the
    clock of the vehicle. *)
Definition timeline (v : Vehicle) : Prop :=
  (0 <= v_time v)%Q /\
  ascending (map snd (v_route v)) /\
  Forall (fun e : Z * Q => (0 <= e.2 <= v_time v)%Q) (v_route v).

Definition is_pickup_of (k : Z) (a : Action) : bool :=
  match a with APickup k' _ _ => k' =? k | _ => false end.

Definition is_delivery_of (k : Z) (a : Action) : bool :=
  match a with ADeliver k' _ => k' =? k | _ => false end.


Module FinalExample.
Definition horizon : Q := 480.

(** The reference scenario after the first seven turns of its run: order 3
    has been delivered at time 94; five more turns end the run. *)
Definition turns : list Z := [1; 2; 2; 1; 2; 1; 1].
Definition more_turns : list Z := [2; 2; 1; 1; 2].

Definition midway : DVRPSimulator :=
  default (reset Scenario.sim0) (run_turns horizon turns (reset Scenario.sim0)).

Definition order3 : Order := mkOrder 3 2 3 3 0 240 true true (Some 94%Q).
End FinalExample.


(** ** The moves of the optimizer *)

Inductive MoveName :=
| CoupleExchange | BlockExchange | BlockRelocate | MultiRelocate | Disturb.

Definition run_move (m : MoveName) : Move :=
  match m with
  | CoupleExchange => couple_exchange
  | BlockExchange => block_exchange
  | BlockRelocate => block_relocate
  | MultiRelocate => multi_relocate
  | Disturb => disturb
  end.

(** The orders of a set with their delivery plants blanked, and the
    delivery plants alone. *)
Definition without_delivery (os : list (Z * Order)) : list Order :=
  map (fun ko : Z * Order => set_delivery 0 ko.2) os.

Definition deliveries (os : list (Z * Order)) : list Z :=
  map (fun ko : Z * Order => o_delivery ko.2) os.

(** Same keys, same orders up to their delivery plants, same delivery
    plants, each counted with multiplicity. *)
Definition conserved (os os' : list (Z * Order)) : Prop :=
  dict_keys os' ≡ₚ dict_keys os /\
  without_delivery os' ≡ₚ without_delivery os /\
  deliveries os' ≡ₚ deliveries os.


(** ** Runs of the optimizer *)

(** The simulator that [evaluate] builds for an order set. *)
Definition candidate_simulator (opt : VNSMEOptimizer) (os : list (Z * Order))
  : DVRPSimulator :=
  let ref := simulator opt in
  new_simulator (plants ref) os (vehicles ref) (distances ref)
    (travel_times ref) (dock_service_time ref) (unit_handling_time ref)
    (lambda_cost ref).

(** An order set on which the evaluation cannot fail: distinct keys, every
    id a key, every pickup and delivery plant a plant of the reference
    simulator. *)
Definition closed_for (opt : VNSMEOptimizer) (os : list (Z * Order)) : bool :=
  distinct (dict_keys os) &&
  ids_known (candidate_simulator opt os) &&
  sites_closed (candidate_simulator opt os).

(** The invariant of the optimizer loop started on [os]. *)
Record opt_inv (opt : VNSMEOptimizer) (os : list (Z * Order)) (st : OptState) : Prop :=
  mkOptInv {
  oi_best : conserved os (best_orders st);
  oi_initial : conserved os (initial_orders st);
  oi_cost : evaluate opt (best_orders st) = Some (best_cost st, best_res st)
}.

Module BudgetExample.
(** The example run of the optimizer, stopped after one round. *)
Definition returned1 : Q * Result :=
  default OptimizerExample.initial
    (optimize OptimizerExample.opt 1 OptimizerExample.rng Scenario.orders0).

Definition single : list (Z * Order) := [(1, Scenario.new_order 1 1 2 2 10 180)].
End BudgetExample.


(** ** The first engine, [simulate] (lines 92-209 of [dvrpsim.py])

    [simulate] has the loop body of [simulate_with_tracking], except that a
    delivery records no delivered-time.  It does not reset the simulator,
    takes the vehicles in dictionary order in every pass (the list is built
    once, before the loop), stops after 10000 passes and returns nothing:
    its outcome is the state it leaves, returned here with the log of the
    turns. *)

Definition mark_delivered_untimed (o : Order) : Order :=
  mkOrder (o_id o) (o_pickup o) (o_delivery o) (o_qty o) (o_arrival o) (o_due o)
          (o_picked o) true (o_delivered_time o).

(** Lines 112-132: the delivery branch. *)
Definition simulate_deliver (s : DVRPSimulator) (vk : Z) (v : Vehicle) (tid : Z)
    (top_o : Order) : option StepResult :=
  let arrival_time := v_time v in
  '(free, s1) ← _free_docks s (v_location v) arrival_time;
  if (free <=? 0)%Z then
    Some (put_vehicle vk (set_clock (v_time v + retry_increment)%Q v) s1,
          true, ADockWaitDelivery)
  else
    let finish := (arrival_time + service_time s top_o)%Q in
    let v' := mkVehicle (v_id v) (v_capacity v) (v_start_location v) (v_location v)
                finish (v_load v - o_qty top_o) (removelast (v_stack v))
                (v_route v ++ [(v_location v, finish)]) in
    let s2 := alter_order tid mark_delivered_untimed (put_vehicle vk v' s1) in
    s3 ← _occupy_dock s2 (v_location v) (v_id v) finish;
    Some (s3, true, ADeliver tid finish).

(** Lines 106-198: the body of [for veh in active_vehicles].  The scan for
    pickups, the drive, the dock wait, the loading, the repositioning and
    the idle step are those of [simulate_with_tracking]. *)
Definition simulate_turn (until_time : Q) (s : DVRPSimulator) (vk : Z)
  : option StepResult :=
  v ← dict_get vk (vehicles s);
  if Qlt_bool until_time (v_time v) then Some (s, false, ASkip)
  else
    top ← stack_top s v;
    match top with
    | Some (tid, top_o) =>
        if (v_location v =? o_delivery top_o)%Z then simulate_deliver s vk v tid top_o
        else pickup_or_move s vk v top
    | None => pickup_or_move s vk v top
    end.

Fixpoint simulate_vehicles (until_time : Q) (ks : list Z) (s : DVRPSimulator)
    (progressed : bool) : option (DVRPSimulator * bool * list Event) :=
  match ks with
  | [] => Some (s, progressed, [])
  | k :: ks' =>
      '(s1, p, a) ← simulate_turn until_time s k;
      '(s2, p2, evs) ← simulate_vehicles until_time ks' s1 (progressed || p);
      Some (s2, p2, (k, a) :: evs)
  end.

Definition simulate_iterations : nat := Z.to_nat 10000.

Fixpoint simulate_loop (fuel : nat) (until_time : Q) (ks : list Z) (s : DVRPSimulator)
  : option (DVRPSimulator * list Event) :=
  match fuel with
  | O => Some (s, [])
  | S fuel' =>
      if negb (has_undelivered until_time s) then Some (s, [])
      else
        '(s1, progressed, evs) ← simulate_vehicles until_time ks s false;
        if negb progressed then Some (s1, evs)
        else
          '(s2, evs2) ← simulate_loop fuel' until_time ks s1;
          Some (s2, evs ++ evs2)
  end.

Definition simulate (s : DVRPSimulator) (until_time : Q)
  : option (DVRPSimulator * list Event) :=
  simulate_loop simulate_iterations until_time (dict_keys (vehicles s)) s.

(** A sequence of turns of [simulate_with_tracking], with its log. *)
Fixpoint run_turns_log (until_time : Q) (ks : list Z) (s : DVRPSimulator)
  : option (DVRPSimulator * list Event) :=
  match ks with
  | [] => Some (s, [])
  | k :: ks' =>
      r ← veh_step until_time s k;
      '(s2, evs) ← run_turns_log until_time ks' r.1.1;
      Some (s2, (k, r.2) :: evs)
  end.

(** Two states that differ at most in the delivered-times of their orders. *)
Definition untime (o : Order) : Order :=
  mkOrder (o_id o) (o_pickup o) (o_delivery o) (o_qty o) (o_arrival o) (o_due o)
          (o_picked o) (o_delivered o) None.

Definition timeless (os : list (Z * Order)) : list (Z * Order) :=
  map (fun ko : Z * Order => (ko.1, untime ko.2)) os.

Definition untimed (s1 s2 : DVRPSimulator) : Prop :=
  config s1 = config s2 /\ vehicles s1 = vehicles s2 /\
  dock_occupancy s1 = dock_occupancy s2 /\
  timeless (orders s1) = timeless (orders s2).

Definition same_turn (r1 r2 : option StepResult) : Prop :=
  match r1, r2 with
  | Some (s1, p1, a1), Some (s2, p2, a2) => untimed s1 s2 /\ p1 = p2 /\ a1 = a2
  | None, None => True
  | _, _ => False
  end.

Definition same_top (t1 t2 : option (Z * Order)) : Prop :=
  match t1, t2 with
  | Some (k1, o1), Some (k2, o2) => k1 = k2 /\ untime o1 = untime o2
  | None, None => True
  | _, _ => False
  end.

Definition same_candidate (c1 c2 : Candidate) : Prop :=
  c1.1.1.1 = c2.1.1.1 /\ untime c1.1.1.2 = untime c2.1.1.2 /\
  c1.1.2 = c2.1.2 /\ c1.2 = c2.2.

Definition delivered_times (os : list (Z * Order)) : list (option Q) :=
  map (fun ko : Z * Order => o_delivered_time ko.2) os.

Module OldEngineExample.
Definition horizon : Q := 480.

(** The reference scenario, reset and run by [simulate]. *)
Definition final : DVRPSimulator :=
  default (reset Scenario.sim0) (fst <$> simulate (reset Scenario.sim0) horizon).

Definition log : list Event :=
  default [] (snd <$> simulate (reset Scenario.sim0) horizon).
End OldEngineExample.


(** ** The instance generator of [gen_data.py] and the driver of [run.py]

    The generator asks the random number generator for one value after the
    other.  The values it would return are made explicit as a list of
    integers, consumed in the order of the calls; running out of values
    stands for a run that does not end.  [random.randint(a, b)] returns an
    integer between [a] and [b] inclusive and raises [ValueError] when the
    range is empty; [round(random.uniform(5.0, 50.0), 1)] returns a number
    of tenths between 5.0 and 50.0. *)

Abbreviation Draws := (list Z) (only parsing).

Definition randint (a b : Z) (ds : Draws) : option (Z * Draws) :=
  if b <? a then None
  else
    match ds with
    | [] => None
    | d :: ds' => Some (a + d mod (b - a + 1), ds')
    end.

Definition uniform_tenths (ds : Draws) : option (Q * Draws) :=
  r ← randint 50 500 ds; Some ((inject_Z r.1 / 10)%Q, r.2).

Record Instance := mkInstance {
  i_plants : gmap Z Plant;
  i_orders : list (Z * Order);
  i_vehicles : list (Z * Vehicle);
  i_distances : gmap (Z * Z) Q;
  i_travel_times : gmap (Z * Z) Q
}.

(** Lines 11-12: one plant per id of [range(n_plants)]. *)
Fixpoint gen_plants (pids : list Z) (docks_range : Z * Z) (ds : Draws)
  : option (list (Z * Plant) * Draws) :=
  match pids with
  | [] => Some ([], ds)
  | pid :: pids' =>
      r ← randint docks_range.1 docks_range.2 ds;
      rest ← gen_plants pids' docks_range r.2;
      Some ((pid, mkPlant pid ("P" +:+ pretty pid) r.1) :: rest.1, rest.2)
  end.

(** Lines 15-19: the inner loop over [j] stores the drawn distance under
    both orientations of the pair. *)
Fixpoint gen_row (i : Z) (js : list Z) (m : gmap (Z * Z) Q) (ds : Draws)
  : option (gmap (Z * Z) Q * Draws) :=
  match js with
  | [] => Some (m, ds)
  | j :: js' =>
      r ← uniform_tenths ds;
      gen_row i js' (<[(j, i) := r.1]> (<[(i, j) := r.1]> m)) r.2
  end.

Fixpoint gen_distances (n_plants : Z) (rows : list Z) (m : gmap (Z * Z) Q) (ds : Draws)
  : option (gmap (Z * Z) Q * Draws) :=
  match rows with
  | [] => Some (m, ds)
  | i :: rows' =>
      r ← gen_row i (seqZ (i + 1) (n_plants - (i + 1))) m ds;
      gen_distances n_plants rows' r.1 r.2
  end.

(** Lines 26-27: [while delivery == pickup: delivery = randint(0, n_plants-1)].
    The recursion is on the list of values left, and the call of [randint]
    is written out. *)
Fixpoint redraw_delivery (n_plants pickup delivery : Z) (ds : Draws)
  : option (Z * Draws) :=
  if delivery =? pickup then
    match ds with
    | [] => None
    | d :: ds' =>
        if n_plants - 1 <? 0 then None
        else redraw_delivery n_plants pickup (0 + d mod (n_plants - 1 - 0 + 1)) ds'
    end
  else Some (delivery, ds).

(** Lines 23-32: the body of the loop over the order ids. *)
Definition gen_order (n_plants oid : Z) (ds : Draws) : option (Order * Draws) :=
  pickup ← randint 0 (n_plants - 1) ds;
  delivery0 ← randint 0 (n_plants - 1) pickup.2;
  delivery ← redraw_delivery n_plants pickup.1 delivery0.1 delivery0.2;
  qty ← randint 1 5 delivery.2;
  arrival ← randint 0 300 qty.2;
  slack ← randint 60 300 arrival.2;
  Some (mkOrder oid pickup.1 delivery.1 qty.1 (inject_Z arrival.1)
          (inject_Z (arrival.1 + slack.1)) false false None,
        slack.2).

Fixpoint gen_orders (n_plants : Z) (oids : list Z) (ds : Draws)
  : option (list (Z * Order) * Draws) :=
  match oids with
  | [] => Some ([], ds)
  | oid :: oids' =>
      r ← gen_order n_plants oid ds;
      rest ← gen_orders n_plants oids' r.2;
      Some ((oid, r.1) :: rest.1, rest.2)
  end.

(** Lines 34-38: the vehicles, all starting at plant 0. *)
Fixpoint gen_vehicles (vids : list Z) (capacity_range : Z * Z) (ds : Draws)
  : option (list (Z * Vehicle) * Draws) :=
  match vids with
  | [] => Some ([], ds)
  | vid :: vids' =>
      r ← randint capacity_range.1 capacity_range.2 ds;
      rest ← gen_vehicles vids' capacity_range r.2;
      Some ((vid, mkVehicle vid r.1 0 0 0 0 [] []) :: rest.1, rest.2)
  end.

Definition generate_instance (n_plants n_orders n_vehicles : Z)
    (capacity_range docks_range : Z * Z) (ds : Draws) : option (Instance * Draws) :=
  ps ← gen_plants (seqZ 0 n_plants) docks_range ds;
  dist ← gen_distances n_plants (seqZ 0 n_plants) ∅ ps.2;
  let travel_times := (fun d : Q => (d / 40 * 60)%Q) <$> dist.1 in
  os ← gen_orders n_plants (seqZ 1 n_orders) dist.2;
  vs ← gen_vehicles (seqZ 1 n_vehicles) capacity_range os.2;
  Some (mkInstance (list_to_map ps.1) os.1 vs.1 dist.1 travel_times, vs.2).

(** [run.py], for one instance: the simulator with the default service
    parameters and lateness weight 10000, a simulation over eight hours,
    then the optimizer on the same simulator object and order dictionary,
    which the simulation has written to. *)
Definition run_simulator (inst : Instance) : DVRPSimulator :=
  new_simulator (i_plants inst) (i_orders inst) (i_vehicles inst)
    (i_distances inst) (i_travel_times inst) 5 1 10000.

Definition run_instance (inst : Instance) (rounds : nat) (rng : Rng)
  : option (Result * (Q * Result)) :=
  r ← simulate_with_tracking (run_simulator inst) (8 * 60);
  best ← optimize (mkOptimizer r.1 6) rounds rng (orders r.1);
  Some (r.2, best).

(** What the generator promises about an order. *)
Definition order_generated (n_plants : Z) (ko : Z * Order) : Prop :=
  o_id ko.2 = ko.1 /\
  0 <= o_pickup ko.2 < n_plants /\ 0 <= o_delivery ko.2 < n_plants /\
  o_pickup ko.2 <> o_delivery ko.2 /\
  1 <= o_qty ko.2 <= 5 /\
  (0 <= o_arrival ko.2 <= 300)%Q /\
  (o_arrival ko.2 + 60 <= o_due ko.2 <= o_arrival ko.2 + 300)%Q /\
  o_picked ko.2 = false /\ o_delivered ko.2 = false /\ o_delivered_time ko.2 = None.

Module GeneratorExample.
Definition draws : Draws :=
  [4; 7; 2; 130; 17; 402; 1; 1; 4; 2; 3; 120; 77; 2; 0; 9; 250; 10; 6; 12].

(** Three plants, two orders, one vehicle. *)
Definition generated : option (Instance * Draws) :=
  generate_instance 3 2 1 (3, 10) (1, 3) draws.

Definition instance : Instance :=
  default (mkInstance ∅ [] [] ∅ ∅) (fst <$> generated).
End GeneratorExample.


(** ** How a run ends, and the sign of its result *)

(** No negative due time, distance or lateness weight. *)
Definition nonneg_costs (s : DVRPSimulator) : bool :=
  forallb (fun ko : Z * Order => Qle_bool 0 (o_due ko.2)) (orders s) &&
  forallb (fun kd : Z * Z * Q => Qle_bool 0 kd.2) (map_to_list (distances s)) &&
  Qle_bool 0 (lambda_cost s).

(** Every vehicle's clock is beyond the horizon. *)
Definition fleet_timed_out (until_time : Q) (s : DVRPSimulator) : Prop :=
  forall k v, dict_get k (vehicles s) = Some v -> (until_time < v_time v)%Q.


(** ** Pickup before delivery (C9) *)

(** The order under key [k] is on board since a pickup of the log, and the
    clock of the vehicle has not been before the finish of any pickup of
    it. *)
Definition carried_since (tr : list Event) (s : DVRPSimulator) (v : Vehicle) (k : Z)
  : Prop :=
  picked_in s k /\ (exists f, picks tr k f) /\
  (forall f, picks tr k f -> (f <= v_time v)%Q).

Definition delivered_since (tr : list Event) (k : Z) (t : Q) : Prop :=
  (exists f, picks tr k f) /\ (forall f, picks tr k f -> (f <= t)%Q).

(** The invariant of a run from the reset state of [s0], over the log so
    far and the current state; it only compares clocks. *)
Record precedence (s0 : DVRPSimulator) (tr : list Event) (s : DVRPSimulator) : Prop :=
  mkPrecedence {
  pc_frame : frame s = frame s0;
  pc_picked : forall k f, picks tr k f -> picked_in s k;
  pc_released : forall k f, picks tr k f ->
    exists o0, dict_get k (orders s0) = Some o0 /\ (o_arrival o0 <= f)%Q;
  pc_vehicles : forall vk v k,
    (vk, v) ∈ vehicles s -> k ∈ v_stack v -> carried_since tr s v k;
  pc_delivered : forall k t, delivers tr k t -> delivered_since tr k t;
  pc_recorded : forall k o t,
    (k, o) ∈ orders s -> o_delivered_time o = Some t -> delivers tr k t
}.

(** ** The order on top of a stack (C6) *)



Module StackExample.
(** Three orders and one vehicle that can carry them all. *)
Definition orders1 : list (Z * Order) :=
  [(1, Scenario.new_order 1 2 3 1 0 300); (2, Scenario.new_order 2 1 3 1 0 100);
   (3, Scenario.new_order 3 1 3 1 0 200)].

Definition opt : VNSMEOptimizer :=
  mkOptimizer
    (new_simulator Scenario.plants0 orders1 [(1, Scenario.new_vehicle 1 5 0)]
       Scenario.distances0 Scenario.travel_times0 5 2 50)
    6.

(** The order set after [block_exchange] has drawn ids 1 and 2, and the
    simulator that [evaluate] builds for it. *)
Definition exchanged : list (Z * Order) := block_exchange_at 1 2 orders1.
Definition sim : DVRPSimulator := candidate_simulator opt exchanged.
Definition horizon : Q := 480.

(** The state after two turns of the vehicle, which has loaded the order
    with id 2 and then the order with id 1. *)
Definition before : DVRPSimulator :=
  default (reset sim) (run_turns horizon [1; 1] (reset sim)).

Definition vehicle : Vehicle := mkVehicle 1 5 0 2 47 2 [2; 1] [(1, 22%Q); (2, 47%Q)].

Definition after : DVRPSimulator :=
  default before ((fun r : StepResult => r.1.1) <$> veh_step horizon before 1).
End StackExample.

(** ** Reordered order sets (C1) *)

(** Two states that differ at most in the iteration order of their
    orders. *)
Definition reordered (s1 s2 : DVRPSimulator) : Prop :=
  config s1 = config s2 /\ vehicles s1 = vehicles s2 /\
  dock_occupancy s1 = dock_occupancy s2 /\ orders s1 ≡ₚ orders s2.

Definition same_step (r1 r2 : option StepResult) : Prop :=
  match r1, r2 with
  | Some (s1, p1, a1), Some (s2, p2, a2) => reordered s1 s2 /\ p1 = p2 /\ a1 = a2
  | None, None => True
  | _, _ => False
  end.

(** The first candidate of a sorted list is strictly before every other
    one: the sort has not broken a tie for the first place. *)
Definition strict_head (l : list Candidate) : bool :=
  match l with
  | c :: rest => forallb (cand_lt c) rest
  | [] => true
  end.

(** The turn of the vehicle under key [vk] breaks no tie.  The test follows
    [veh_step] to the sorted candidate list of the pickup branch; a turn
    that skips or stands at the delivery plant of its top order sorts
    nothing. *)
Definition untied (until_time : Q) (s : DVRPSimulator) (vk : Z) : bool :=
  match dict_get vk (vehicles s) with
  | Some v =>
      if Qlt_bool until_time (v_time v) then true
      else
        match stack_top s v with
        | Some top =>
            if match top with
               | Some (_, top_o) => (v_location v =? o_delivery top_o)%Z
               | None => false
               end
            then true
            else strict_head (sort_by cand_lt (feasible_pickups s v (top_due top)))
        | None => true
        end
  | None => true
  end.

(** No turn of the sequence [ks], taken from state [s], breaks a tie. *)
Fixpoint untied_turns (until_time : Q) (ks : list Z) (s : DVRPSimulator) : bool :=
  match ks with
  | [] => true
  | k :: ks' =>
      untied until_time s k &&
      match veh_step until_time s k with
      | Some r => untied_turns until_time ks' r.1.1
      | None => true
      end
  end.

(** [evaluate], returning also the final state of the simulator it builds
    and the log of the turns. *)
Definition evaluate_traced (opt : VNSMEOptimizer) (os : list (Z * Order))
  : option (DVRPSimulator * Result * list Event) :=
  simulate_traced (candidate_simulator opt os) default_until_time.

(** Two results with the same vehicle outcomes, the same average distance
    and, under every key, the same order outcome. *)
Definition same_outcome (r1 r2 : Result) : Prop :=
  r_vehicles r2 = r_vehicles r1 /\
  avg_distance r2 = avg_distance r1 /\
  r_orders r2 ≡ₚ r_orders r1 /\
  (forall k, dict_get k (r_orders r2) = dict_get k (r_orders r1)).

(** The evaluation of [os'] takes the turns [evs] of a run that ended in
    state [s1] with result [r1], and ends with the same vehicles and, under
    every key, the same order; its result is computed from that state. *)
Definition replays (opt : VNSMEOptimizer) (os' : list (Z * Order))
    (s1 : DVRPSimulator) (r1 : Result) (evs : list Event) : Prop :=
  exists s2 r2,
    evaluate_traced opt os' = Some (s2, r2, evs) /\
    evaluate opt os' = Some (objective r2, r2) /\
    r2 = compute_result s2 /\
    vehicles s2 = vehicles s1 /\
    orders s2 ≡ₚ orders s1 /\
    (forall k, dict_get k (orders s2) = dict_get k (orders s1)) /\
    same_outcome r1 r2.

(** No two orders of the set have the same due time. *)
Fixpoint distinct_dues (os : list (Z * Order)) : bool :=
  match os with
  | [] => true
  | ko :: os' =>
      forallb (fun ko' : Z * Order => negb (Qeq_bool (o_due ko.2) (o_due ko'.2))) os' &&
      distinct_dues os'
  end.

(** Orders under different keys have different due times. *)
Definition dues_apart (os : list (Z * Order)) : Prop :=
  forall k1 o1 k2 o2,
    (k1, o1) ∈ os -> (k2, o2) ∈ os -> k1 <> k2 -> ~ (o_due o1 == o_due o2)%Q.

Module InertExample.
(** The evaluation of the reference scenario. *)
Definition final : DVRPSimulator :=
  default Scenario.sim0
    ((fun r : DVRPSimulator * Result * list Event => r.1.1)
       <$> evaluate_traced OptimizerExample.opt Scenario.orders0).

Definition result : Result :=
  default (compute_result Scenario.sim0)
    ((fun r : DVRPSimulator * Result * list Event => r.1.2)
       <$> evaluate_traced OptimizerExample.opt Scenario.orders0).

Definition log : list Event :=
  default []
    ((fun r : DVRPSimulator * Result * list Event => r.2)
       <$> evaluate_traced OptimizerExample.opt Scenario.orders0).
End InertExample.

(** * Properties *)

(** ** Comparisons on rationals *)

Lemma Qlt_bool_iff x y : Qlt_bool x y = true <-> (x < y)%Q.
Proof.
  unfold Qlt_bool. rewrite negb_true_iff.
  destruct (Qle_bool y x) eqn:E.
  - apply Qle_bool_iff in E. split; [discriminate | intros H; lra].
  - split; [intros _ | reflexivity].
    destruct (Qlt_le_dec x y) as [H | H]; [exact H |].
    apply Qle_bool_iff in H. congruence.
Qed.

Lemma Qlt_bool_false x y : Qlt_bool x y = false <-> (y <= x)%Q.
Proof.
  unfold Qlt_bool. rewrite negb_false_iff. apply Qle_bool_iff.
Qed.

(** ** Dictionaries *)

Section DictFacts.
Context {V : Type}.
Implicit Types (d : list (Z * V)) (k : Z).

Lemma dict_get_elem_of k d v : dict_get k d = Some v -> (k, v) ∈ d.
Proof.
  induction d as [| [k' v'] d IH]; simpl; [discriminate |].
  destruct (Z.eqb_spec k' k) as [-> | Hne].
  - intros [= ->]. left.
  - intros H. right. auto.
Qed.

Lemma dict_get_alter f k k' d :
  dict_get k' (dict_alter f k d) =
  if (k =? k')%Z then f <$> dict_get k' d else dict_get k' d.
Proof.
  induction d as [| [k0 v0] d IH]; simpl.
  - by destruct (k =? k')%Z.
  - destruct (Z.eqb_spec k0 k) as [-> | Hne]; simpl.
    + destruct (Z.eqb_spec k k') as [-> | Hne']; [done |].
      destruct (Z.eqb_spec k k'); [done |]. done.
    + destruct (Z.eqb_spec k0 k') as [-> | Hne'].
      * destruct (Z.eqb_spec k k'); [congruence | done].
      * exact IH.
Qed.

Lemma dict_keys_alter f k d : dict_keys (dict_alter f k d) = dict_keys d.
Proof.
  unfold dict_keys. induction d as [| [k0 v0] d IH]; simpl; [done |].
  destruct (k0 =? k)%Z; simpl; congruence.
Qed.

Lemma length_dict_alter f k d : length (dict_alter f k d) = length d.
Proof.
  induction d as [| [k0 v0] d IH]; simpl; [done |].
  destruct (k0 =? k)%Z; simpl; congruence.
Qed.

(** An altered dictionary holds the old entries, except that the entry of
    [k] may have gone through [f]. *)
Lemma elem_of_dict_alter f k d k' v' :
  (k', v') ∈ dict_alter f k d ->
  (k', v') ∈ d \/ (k' = k /\ exists v, (k, v) ∈ d /\ v' = f v).
Proof.
  induction d as [| [k0 v0] d IH]; simpl; [intros H; by left |].
  destruct (Z.eqb_spec k0 k) as [-> | Hne].
  - intros [H | H]%elem_of_cons.
    + injection H as -> ->. right. split; [done |]. exists v0. split; [left | done].
    + left. by right.
  - intros [H | H]%elem_of_cons.
    + left. rewrite H. left.
    + destruct (IH H) as [? | (-> & v & ? & ->)].
      * left. by right.
      * right. split; [done |]. exists v. split; [by right | done].
Qed.

Lemma Forall_dict_alter (P : Z * V -> Prop) f k d :
  Forall P d -> (forall v, P (k, v) -> P (k, f v)) -> Forall P (dict_alter f k d).
Proof.
  intros Hd Hf. induction Hd as [| [k0 v0] d H0 Hd IH]; simpl; [constructor |].
  destruct (Z.eqb_spec k0 k) as [-> | Hne]; constructor; auto.
Qed.

Lemma map_dict_alter_id {B} (g : Z * V -> B) f k d :
  (forall k' v, g (k', f v) = g (k', v)) -> map g (dict_alter f k d) = map g d.
Proof.
  intros Hg. induction d as [| [k0 v0] d IH]; simpl; [done |].
  destruct (k0 =? k)%Z; simpl; [by rewrite Hg | by rewrite IH].
Qed.
End DictFacts.

(** ** Sorting *)

Section SortFacts.
Context {A : Type} (lt : A -> A -> bool).

Lemma insert_by_perm x l : insert_by lt x l ≡ₚ x :: l.
Proof.
  induction l as [| y l IH]; simpl; [done |].
  destruct (lt y x); [| done].
  rewrite IH. apply Permutation_swap.
Qed.

Lemma sort_by_perm l : sort_by lt l ≡ₚ l.
Proof.
  induction l as [| x l IH]; simpl; [done |].
  by rewrite insert_by_perm, IH.
Qed.

Lemma sort_by_nil l : sort_by lt l = [] -> l = [].
Proof.
  intros H. apply Permutation_nil_r. rewrite <- H. symmetry. apply sort_by_perm.
Qed.

Hypothesis lt_irrefl : forall x, lt x x = false.
Hypothesis lt_asym : forall x y, lt x y = true -> lt y x = false.
Hypothesis lt_negtrans : forall x y z, lt x y = false -> lt y z = false -> lt x z = false.

(** The head of the sorted list is in the list and nothing in the list is
    below it. *)
Lemma sort_by_head_min l c rest :
  sort_by lt l = c :: rest -> c ∈ l /\ forall y, y ∈ l -> lt y c = false.
Proof.
  revert c rest. induction l as [| x l IH]; simpl; [discriminate |].
  intros c rest. destruct (sort_by lt l) as [| y r] eqn:Hs; simpl.
  - intros [= <- <-]. apply sort_by_nil in Hs as ->.
    split; [left |]. intros y ->%list_elem_of_singleton. apply lt_irrefl.
  - destruct (IH y r eq_refl) as [Hy Hmin].
    destruct (lt y x) eqn:Hyx.
    + intros [= <- <-]. split; [by right |].
      intros z [-> | Hz]%elem_of_cons; [by apply lt_asym | by apply Hmin].
    + intros [= <- <-]. split; [left |].
      intros z [-> | Hz]%elem_of_cons; [apply lt_irrefl |].
      eapply lt_negtrans; [by apply Hmin | done].
Qed.
End SortFacts.

Lemma key_lt_true k1 k2 :
  key_lt k1 k2 = true <-> (k1.1 < k2.1 \/ (k1.1 == k2.1 /\ k1.2 < k2.2))%Q.
Proof.
  unfold key_lt. destruct (Qeq_bool k1.1 k2.1) eqn:E.
  - apply Qeq_bool_iff in E. rewrite Qlt_bool_iff. split.
    + intros H. right. split; assumption.
    + intros [H | [_ H]]; [lra | exact H].
  - apply Qeq_bool_neq in E. rewrite Qlt_bool_iff. split.
    + intros H. left. exact H.
    + intros [H | [H _]]; [exact H | contradiction].
Qed.

Lemma key_lt_false k1 k2 : key_lt k1 k2 = false <-> key_le k2 k1.
Proof.
  unfold key_le. split.
  - intros H.
    destruct (Qlt_le_dec k2.1 k1.1) as [H1 | H1]; [by left |].
    destruct (Qlt_le_dec k1.1 k2.1) as [H2 | H2].
    + assert (key_lt k1 k2 = true) by (apply key_lt_true; by left). congruence.
    + right. split; [lra |].
      destruct (Qlt_le_dec k1.2 k2.2) as [H3 | H3]; [| exact H3].
      assert (key_lt k1 k2 = true) by (apply key_lt_true; right; split; [lra | done]).
      congruence.
  - intros H. destruct (key_lt k1 k2) eqn:E; [| done].
    apply key_lt_true in E. destruct H as [H | [H1 H2]], E as [E | [E1 E2]]; lra.
Qed.

Lemma cand_lt_irrefl c : cand_lt c c = false.
Proof. apply key_lt_false. right. split; [reflexivity | lra]. Qed.

Lemma cand_lt_asym c1 c2 : cand_lt c1 c2 = true -> cand_lt c2 c1 = false.
Proof.
  unfold cand_lt. rewrite key_lt_true, key_lt_false. unfold key_le.
  intros [H | [H1 H2]]; [by left | right; split; lra].
Qed.

Lemma cand_lt_negtrans c1 c2 c3 :
  cand_lt c1 c2 = false -> cand_lt c2 c3 = false -> cand_lt c1 c3 = false.
Proof.
  unfold cand_lt. rewrite !key_lt_false. unfold key_le.
  intros [H | [H1 H2]] [H' | [H1' H2']]; [left; lra | left; lra | left; lra |].
  right. split; lra.
Qed.

(** ** Every turn is a step of the relation *)

Lemma pickup_or_move_spec until_time s vk v top r :
  dict_get vk (vehicles s) = Some v ->
  (v_time v <= until_time)%Q ->
  stack_top s v = Some top ->
  not_at_delivery v top ->
  pickup_or_move s vk v top = Some r ->
  step_spec until_time s vk r.
Proof.
  intros Hv Ht Htop Hnd. unfold pickup_or_move. fold (top_due top).
  destruct (sort_by cand_lt (feasible_pickups s v (top_due top)))
    as [| [[[k o] arr] trav] rest] eqn:Hsort.
  - apply sort_by_nil in Hsort. intros [= <-].
    destruct top as [[tid top_o] |]; simpl.
    + destruct (Z.eqb_spec (v_location v) (o_delivery top_o)) as [Heq | Hne]; simpl.
      * exfalso. by eapply Hnd.
      * by eapply step_reposition.
    + by eapply step_idle.
  - unfold try_pickup. simpl.
    destruct (_free_docks s (o_pickup o) arr) as [[free s1] |] eqn:Hfree;
      simpl; [| discriminate].
    destruct (Z.leb_spec free 0) as [Hle | Hgt].
    + intros [= <-]. by eapply step_dock_wait_pickup.
    + match goal with |- context [_occupy_dock ?a ?b ?c ?d] =>
        destruct (_occupy_dock a b c d) as [s3 |] eqn:Hocc end;
        simpl; [| discriminate].
      intros [= <-]. by eapply step_pickup.
Qed.

Lemma veh_step_spec until_time s vk r :
  veh_step until_time s vk = Some r -> step_spec until_time s vk r.
Proof.
  unfold veh_step.
  destruct (dict_get vk (vehicles s)) as [v |] eqn:Hv; simpl; [| discriminate].
  destruct (Qlt_bool until_time (v_time v)) eqn:Ht.
  - intros [= <-]. apply Qlt_bool_iff in Ht. by eapply step_skip.
  - apply Qlt_bool_false in Ht.
    destruct (stack_top s v) as [top |] eqn:Htop; simpl; [| discriminate].
    destruct top as [[tid top_o] |].
    + destruct (Z.eqb_spec (v_location v) (o_delivery top_o)) as [Heq | Hne].
      * unfold try_deliver.
        destruct (_free_docks s (v_location v) (v_time v)) as [[free s1] |] eqn:Hfree;
          simpl; [| discriminate].
        destruct (Z.leb_spec free 0) as [Hle | Hgt].
        -- intros [= <-]. by eapply step_dock_wait_delivery.
        -- match goal with |- context [_occupy_dock ?a ?b ?c ?d] =>
             destruct (_occupy_dock a b c d) as [s3 |] eqn:Hocc end;
             simpl; [| discriminate].
           intros [= <-]. by eapply step_deliver.
      * apply pickup_or_move_spec; try done.
        intros ? ? [= <- <-]. done.
    + apply pickup_or_move_spec; try done.
Qed.

(** ** The travel-time oracle (C2) *)

(** C2, amended.  [_travel_time] is total (a missing pair never raises): it
    returns the stored travel time of the pair, looked up as (a, b) and then
    as (b, a); failing both, the stored distance of the pair, in the same two
    orientations, divided by the speed divisor 30; and for a pair absent from
    both tables it returns 1/30, because the travel-time fallback takes a
    missing distance as 1 (only [_distance] takes it as 0). *)
Theorem travel_time_lookup (s : DVRPSimulator) (a b : Z) :
  _travel_time s a b =
  match travel_times s !! (a, b), travel_times s !! (b, a),
        distances s !! (a, b), distances s !! (b, a) with
  | Some t, _, _, _ => t
  | None, Some t, _, _ => t
  | None, None, Some d, _ => (d / 30)%Q
  | None, None, None, Some d => (d / 30)%Q
  | None, None, None, None => (1 / 30)%Q
  end.
Proof.
  unfold _travel_time, speed_divisor.
  destruct (travel_times s !! (a, b)); [done |].
  destruct (travel_times s !! (b, a)); [done |].
  destruct (distances s !! (a, b)); [done |].
  by destruct (distances s !! (b, a)).
Qed.

(** C2 as stated fails: plants 0 and 1 are in neither table, and the travel
    time between them is not zero (it is 1/30), although the distance is. *)
Lemma travel_time_missing_pair_nonzero :
  travel_times TravelExample.sim !! (0, 1) = None /\
  travel_times TravelExample.sim !! (1, 0) = None /\
  distances TravelExample.sim !! (0, 1) = None /\
  distances TravelExample.sim !! (1, 0) = None /\
  _distance TravelExample.sim 0 1 = 0%Q /\
  ~ (_travel_time TravelExample.sim 0 1 == 0)%Q.
Proof.
  repeat split; try reflexivity.
  vm_compute. discriminate.
Qed.

(** ** Progress of a pass (C3) *)

Lemma veh_step_flag until_time s vk s' p a :
  veh_step until_time s vk = Some (s', p, a) -> p = negb (is_skip a).
Proof.
  intros H%veh_step_spec. by inversion H.
Qed.

Lemma run_vehicles_flag until_time ks s p0 s' p evs :
  run_vehicles until_time ks s p0 = Some (s', p, evs) ->
  p = p0 || considered evs.
Proof.
  revert s p0 s' p evs. induction ks as [| k ks IH]; simpl; intros s p0 s' p evs.
  - intros [= <- <- <-]. by rewrite orb_false_r.
  - destruct (veh_step until_time s k) as [[[s1 p1] a] |] eqn:Hstep; simpl; [| discriminate].
    destruct (run_vehicles until_time ks s1 (p0 || p1)) as [[[s2 p2] evs2] |] eqn:Hrun;
      simpl; [| discriminate].
    intros [= <- <- <-]. apply IH in Hrun as ->. apply veh_step_flag in Hstep as ->.
    unfold considered. simpl. by rewrite orb_assoc.
Qed.

(** C3, amended.  A dispatch pass counts as having progressed exactly when
    at least one vehicle was considered (its clock was not beyond the
    horizon): every branch a considered vehicle can take sets the flag, the
    idle rule included.  So a pass in which some vehicle idles does
    progress, and a pass yields no progress only when every vehicle was
    skipped.  The outer loop halts after any pass that yields no progress. *)
Theorem pass_progress_iff_considered (until_time : Q) (s s' : DVRPSimulator)
    (p : bool) (evs : list Event) :
  dispatch_pass until_time s = Some (s', p, evs) ->
  p = considered evs /\
  ((exists e, e ∈ evs /\ is_idle e.2 = true) -> p = true) /\
  (p = false -> forall e, e ∈ evs -> e.2 = ASkip) /\
  (p = false -> has_undelivered until_time s = true ->
   forall fuel, dispatch_loop (S fuel) until_time s = Some (s', evs)).
Proof.
  intros Hpass. pose proof Hpass as Hflag.
  unfold dispatch_pass in Hflag. apply run_vehicles_flag in Hflag. simpl in Hflag.
  split; [exact Hflag |]. split; [| split].
  - intros (e & He & Hidle). rewrite Hflag. unfold considered.
    apply existsb_exists. exists e. split; [by apply list_elem_of_In |].
    by destruct (e.2).
  - intros -> e He. symmetry in Hflag. unfold considered in Hflag.
    destruct (is_skip e.2) eqn:Hs; [by destruct (e.2) |].
    assert (existsb (fun e : Event => negb (is_skip e.2)) evs = true) as Hex.
    { apply existsb_exists. exists e. split; [by apply list_elem_of_In | by rewrite Hs]. }
    congruence.
  - intros -> Hund fuel. simpl. rewrite Hund, Hpass. reflexivity.
Qed.

Lemma pass_progress_witness :
  true = considered [(1, AIdle)] /\
  ((exists e, e ∈ [(1, AIdle)] /\ is_idle e.2 = true) -> true = true) /\
  (true = false -> forall e, e ∈ [(1, AIdle)] -> e.2 = ASkip) /\
  (true = false -> has_undelivered IdleExample.horizon (reset IdleExample.sim) = true ->
   forall fuel,
     dispatch_loop (S fuel) IdleExample.horizon (reset IdleExample.sim)
     = Some (IdleExample.idled, [(1, AIdle)])).
Proof.
  apply (pass_progress_iff_considered IdleExample.horizon (reset IdleExample.sim)
           IdleExample.idled true [(1, AIdle)]).
  vm_compute. reflexivity.
Defined.

(** C3 as stated fails: in this pass the only vehicle merely advances its
    clock by the retry increment (the idle rule), yet the pass progresses and
    the outer loop goes on to a second pass. *)
Lemma idle_pass_progresses :
  dispatch_pass IdleExample.horizon (reset IdleExample.sim)
    = Some (IdleExample.idled, true, [(1, AIdle)]) /\
  has_undelivered IdleExample.horizon (reset IdleExample.sim) = true /\
  (snd <$> dispatch_loop 2 IdleExample.horizon (reset IdleExample.sim))
    = Some [(1, AIdle); (1, AIdle)].
Proof.
  repeat split; vm_compute; reflexivity.
Qed.

(** ** Dock queries and pickup candidates *)

Lemma free_docks_spec s p t free s1 :
  _free_docks s p t = Some (free, s1) ->
  exists occ pl,
    dock_occupancy s !! p = Some occ /\ plants s !! p = Some pl /\
    s1 = with_dock_occupancy (<[p := List.filter (active_at t) occ]> (dock_occupancy s)) s /\
    free = Z.max 0 (p_docks pl - Z.of_nat (length (List.filter (active_at t) occ))).
Proof.
  unfold _free_docks.
  destruct (dock_occupancy s !! p) as [occ |]; simpl; [| discriminate].
  destruct (plants s !! p) as [pl |]; simpl; [| discriminate].
  intros [= <- <-]. by exists occ, pl.
Qed.

Lemma occupy_dock_spec s p vid t s' :
  _occupy_dock s p vid t = Some s' ->
  exists occ,
    dock_occupancy s !! p = Some occ /\
    s' = with_dock_occupancy (<[p := occ ++ [(vid, t)]]> (dock_occupancy s)) s.
Proof.
  unfold _occupy_dock.
  destruct (dock_occupancy s !! p) as [occ |]; simpl; [| discriminate].
  intros [= <-]. by exists occ.
Qed.

Lemma earliest_start_max v o : (earliest_start v o == Qmax (o_arrival o) (v_time v))%Q.
Proof.
  unfold earliest_start. destruct (Qlt_bool (v_time v) (o_arrival o)) eqn:E.
  - apply Qlt_bool_iff in E. symmetry. apply Q.max_l. lra.
  - apply Qlt_bool_false in E. symmetry. by apply Q.max_r.
Qed.

Lemma candidate_feasible s v top ko k o arr trav :
  candidate s v (top_due top) ko = Some (k, o, arr, trav) ->
  ko = (k, o) /\ feasible v top o /\
  trav = _travel_time s (v_location v) (o_pickup o) /\
  arr = (earliest_start v o + trav)%Q.
Proof.
  unfold candidate, feasible. destruct ko as [k0 o0]; simpl.
  destruct (o_picked o0) eqn:Hp; simpl; [discriminate |].
  destruct (o_delivered o0) eqn:Hd; simpl; [discriminate |].
  destruct (Z.ltb_spec (v_capacity v) (v_load v + o_qty o0)) as [Hc | Hc]; [discriminate |].
  destruct top as [[tid top_o] |]; simpl.
  - destruct (Qlt_bool (o_due o0) (o_due top_o)) eqn:Hdue; [discriminate |].
    apply Qlt_bool_false in Hdue. intros [= <- <- <- <-].
    repeat split; try done. by intros ? ? [= <- <-].
  - intros [= <- <- <- <-]. repeat split; try done.
Qed.

Lemma feasible_candidate s v top k o :
  feasible v top o ->
  candidate s v (top_due top) (k, o)
  = Some (k, o, (earliest_start v o + _travel_time s (v_location v) (o_pickup o))%Q,
          _travel_time s (v_location v) (o_pickup o)).
Proof.
  intros (Hp & Hd & Hc & Hdue). unfold candidate; simpl. rewrite Hp, Hd; simpl.
  destruct (Z.ltb_spec (v_capacity v) (v_load v + o_qty o)) as [Hc' | _]; [lia |].
  destruct top as [[tid top_o] |]; simpl; [| done].
  specialize (Hdue _ _ eq_refl).
  destruct (Qlt_bool (o_due o) (o_due top_o)) eqn:E; [| done].
  apply Qlt_bool_iff in E. lra.
Qed.

(** The head of the sorted candidate list: a feasible order of the
    dictionary, ranked no worse than every feasible order. *)
Lemma chosen_candidate s v top k o arr trav rest :
  sort_by cand_lt (feasible_pickups s v (top_due top)) = (k, o, arr, trav) :: rest ->
  (k, o) ∈ orders s /\ feasible v top o /\
  trav = _travel_time s (v_location v) (o_pickup o) /\
  arr = (earliest_start v o + trav)%Q /\
  (forall k' o', (k', o') ∈ orders s -> feasible v top o' ->
     key_le (o_due o, arr)
            (o_due o', (earliest_start v o' + _travel_time s (v_location v) (o_pickup o'))%Q)).
Proof.
  intros Hsort.
  apply (sort_by_head_min cand_lt cand_lt_irrefl cand_lt_asym cand_lt_negtrans) in Hsort
    as [Hin Hmin].
  unfold feasible_pickups in Hin. apply list_elem_of_omap in Hin as (ko & Hko & Hc).
  apply candidate_feasible in Hc as (-> & Hf & Htrav & Harr).
  do 4 (split; [done |]).
  intros k' o' Hin' Hf'.
  pose proof (feasible_candidate s v top k' o' Hf') as Hc'.
  assert (Hm : (k', o', (earliest_start v o' + _travel_time s (v_location v) (o_pickup o'))%Q,
                _travel_time s (v_location v) (o_pickup o'))
               ∈ feasible_pickups s v (top_due top)).
  { unfold feasible_pickups. apply list_elem_of_omap. by exists (k', o'). }
  apply Hmin in Hm. unfold cand_lt in Hm. by apply key_lt_false in Hm.
Qed.

(** ** Waiting for a pickup dock (C4) *)

(** C4, amended.  When the chosen pickup plant has no free dock at the
    projected arrival, the vehicle has already driven there: its location
    becomes the pickup plant and its clock becomes the projected arrival
    plus the retry increment.  Nothing else changes: load, stack and route
    of the vehicle are as before, the other vehicles and all orders are
    untouched (the order is not marked picked), and no dock is reserved;
    the only change to the dock table is the pruning of the expired
    reservations of the pickup plant by the capacity query. *)
Theorem pickup_dock_wait_effect (until_time : Q) (s s' : DVRPSimulator) (vk : Z)
    (p : bool) (k : Z) (arr : Q) (v : Vehicle) :
  veh_step until_time s vk = Some (s', p, ADockWaitPickup k arr) ->
  dict_get vk (vehicles s) = Some v ->
  exists o occ,
    (k, o) ∈ orders s /\
    arr = (earliest_start v o + _travel_time s (v_location v) (o_pickup o))%Q /\
    dict_get vk (vehicles s')
      = Some (mkVehicle (v_id v) (v_capacity v) (v_start_location v)
                (o_pickup o) (arr + retry_increment)%Q
                (v_load v) (v_stack v) (v_route v)) /\
    (forall vk', vk' <> vk -> dict_get vk' (vehicles s') = dict_get vk' (vehicles s)) /\
    orders s' = orders s /\
    dock_occupancy s !! o_pickup o = Some occ /\
    dock_occupancy s'
      = <[o_pickup o := List.filter (active_at arr) occ]> (dock_occupancy s) /\
    plants s' = plants s.
Proof.
  intros Hstep%veh_step_spec Hv. inversion Hstep; subst.
  match goal with H : dict_get vk (vehicles s) = Some _ |- _ =>
    rewrite Hv in H; injection H as <- end.
  match goal with H : sort_by _ _ = _ |- _ =>
    apply chosen_candidate in H as (Hin & _ & -> & Harr & _) end.
  match goal with H : _free_docks _ _ _ = _ |- _ =>
    apply free_docks_spec in H as (occ & pl & Hocc & Hpl & -> & _) end.
  exists o, occ. repeat split; try done.
  - simpl. rewrite dict_get_alter, Z.eqb_refl, Hv. reflexivity.
  - intros vk' Hne. simpl. rewrite dict_get_alter.
    destruct (Z.eqb_spec vk vk'); [congruence | done].
Qed.

Lemma pickup_dock_wait_witness :
  exists o occ,
    (2, o) ∈ orders DockWaitExample.before /\
    30%Q = (earliest_start (Scenario.new_vehicle 2 5 0) o
            + _travel_time DockWaitExample.before 0 (o_pickup o))%Q /\
    dict_get 2 (vehicles DockWaitExample.after)
      = Some (mkVehicle 2 5 0 (o_pickup o) (30 + retry_increment)%Q 0 [] []) /\
    (forall vk', vk' <> 2 ->
       dict_get vk' (vehicles DockWaitExample.after)
       = dict_get vk' (vehicles DockWaitExample.before)) /\
    orders DockWaitExample.after = orders DockWaitExample.before /\
    dock_occupancy DockWaitExample.before !! o_pickup o = Some occ /\
    dock_occupancy DockWaitExample.after
      = <[o_pickup o := List.filter (active_at 30) occ]>
          (dock_occupancy DockWaitExample.before) /\
    plants DockWaitExample.after = plants DockWaitExample.before.
Proof.
  apply (pickup_dock_wait_effect DockWaitExample.horizon DockWaitExample.before
           DockWaitExample.after 2 true 2 30 (Scenario.new_vehicle 2 5 0)).
  - vm_compute. reflexivity.
  - vm_compute. reflexivity.
Defined.

(** C4 as stated fails: vehicle 2 selects order 2, finds the only dock of
    plant 2 taken, and ends its turn at plant 2 with its clock at 31; it
    started the turn at plant 0 with its clock at 0. *)
Lemma pickup_dock_wait_moves_vehicle :
  exists v v',
    veh_step DockWaitExample.horizon DockWaitExample.before 2
      = Some (DockWaitExample.after, true, ADockWaitPickup 2 30) /\
    dict_get 2 (vehicles DockWaitExample.before) = Some v /\
    dict_get 2 (vehicles DockWaitExample.after) = Some v' /\
    v_location v = 0 /\ v_location v' = 2 /\
    v_location v' <> v_location v /\
    ~ (v_time v' == v_time v + retry_increment)%Q.
Proof.
  eexists _, _. split; [vm_compute; reflexivity |].
  split; [vm_compute; reflexivity |]. split; [vm_compute; reflexivity |].
  split; [reflexivity |]. split; [reflexivity |].
  split; [discriminate |]. vm_compute. discriminate.
Qed.

(** ** Pickup selection (C6) *)

Lemma key_le_proper d1 a1 a1' d2 a2 a2' :
  (a1 == a1')%Q -> (a2 == a2')%Q -> key_le (d1, a1) (d2, a2) -> key_le (d1, a1') (d2, a2').
Proof.
  unfold key_le; simpl. intros H1 H2 [H | [H H']]; [by left |].
  right. split; [done |]. rewrite <- H1, <- H2. done.
Qed.

(** The pickup rule as the code evaluates it.  A committed pickup takes an
    order of the dictionary that passes the code's test (neither picked nor
    delivered, quantity plus load within capacity, due time not earlier
    than that of the order stored under the last id of a non-empty stack)
    and whose pair (due time, projected arrival) is lexicographically least
    among all orders that pass it, the projected arrival being
    max(order arrival, vehicle clock) plus the travel time from the
    vehicle's location to the pickup plant. *)
Theorem pickup_commit_feasible_minimal (until_time : Q) (s s' : DVRPSimulator) (vk : Z)
    (p : bool) (k : Z) (arr finish : Q) (v : Vehicle) :
  veh_step until_time s vk = Some (s', p, APickup k arr finish) ->
  dict_get vk (vehicles s) = Some v ->
  exists o top,
    (k, o) ∈ orders s /\
    stack_top s v = Some top /\
    feasible v top o /\
    (forall tid, last (v_stack v) = Some tid ->
       exists top_o,
         dict_get tid (orders s) = Some top_o /\ (o_due top_o <= o_due o)%Q) /\
    (arr == projected_arrival s v o)%Q /\
    (forall k' o', (k', o') ∈ orders s -> feasible v top o' ->
       key_le (o_due o, projected_arrival s v o) (o_due o', projected_arrival s v o')).
Proof.
  intros Hstep%veh_step_spec Hv. inversion Hstep; subst.
  match goal with H : dict_get vk (vehicles s) = Some _ |- _ =>
    rewrite Hv in H; injection H as <- end.
  match goal with H : sort_by _ _ = _ |- _ =>
    apply chosen_candidate in H as (Hin & Hf & -> & -> & Hmin) end.
  exists o, top. do 3 (split; [done |]).
  assert (Hproj : forall o', (earliest_start v o' + _travel_time s (v_location v) (o_pickup o')
                              == projected_arrival s v o')%Q).
  { intros o'. unfold projected_arrival. by rewrite earliest_start_max. }
  split; [| split; [apply Hproj |]].
  - intros tid Hlast.
    match goal with H : stack_top s v = Some top |- _ =>
      unfold stack_top in H; rewrite Hlast in H;
      destruct (dict_get tid (orders s)) as [top_o |]; simpl in H; [| discriminate];
      injection H as <- end.
    exists top_o. split; [done |]. destruct Hf as (_ & _ & _ & Hdue). by eapply Hdue.
  - intros k' o' Hin' Hf'.
    eapply key_le_proper; [apply Hproj | apply Hproj | by eapply Hmin].
Qed.

Lemma pickup_commit_witness :
  exists o top,
    (2, o) ∈ orders PickupExample.before /\
    stack_top PickupExample.before PickupExample.vehicle = Some top /\
    feasible PickupExample.vehicle top o /\
    (forall tid, last (v_stack PickupExample.vehicle) = Some tid ->
       exists top_o,
         dict_get tid (orders PickupExample.before) = Some top_o /\
         (o_due top_o <= o_due o)%Q) /\
    (8 == projected_arrival PickupExample.before PickupExample.vehicle o)%Q /\
    (forall k' o', (k', o') ∈ orders PickupExample.before ->
       feasible PickupExample.vehicle top o' ->
       key_le (o_due o, projected_arrival PickupExample.before PickupExample.vehicle o)
              (o_due o', projected_arrival PickupExample.before PickupExample.vehicle o')).
Proof.
  apply (pickup_commit_feasible_minimal PickupExample.horizon PickupExample.before
           PickupExample.after 1 true 2 8 14 PickupExample.vehicle).
  - vm_compute. reflexivity.
  - vm_compute. reflexivity.
Defined.

(** ** Dock occupancy (C7) *)

Lemma run_turns_app until_time ks1 ks2 s :
  run_turns until_time (ks1 ++ ks2) s
  = s1 ← run_turns until_time ks1 s; run_turns until_time ks2 s1.
Proof.
  revert s. induction ks1 as [| k ks1 IH]; intros s; simpl; [done |].
  destruct (veh_step until_time s k) as [r |]; simpl; [apply IH | done].
Qed.

Lemma run_vehicles_turns until_time ks s p0 s' p evs :
  run_vehicles until_time ks s p0 = Some (s', p, evs) ->
  map fst evs = ks /\ run_turns until_time ks s = Some s'.
Proof.
  revert s p0 s' p evs. induction ks as [| k ks IH]; simpl; intros s p0 s' p evs.
  - by intros [= <- <- <-].
  - destruct (veh_step until_time s k) as [[[s1 p1] a] |]; simpl; [| discriminate].
    destruct (run_vehicles until_time ks s1 (p0 || p1)) as [[[s2 p2] evs2] |] eqn:Hrun;
      simpl; [| discriminate].
    intros [= <- <- <-]. apply IH in Hrun as [<- ->]. done.
Qed.

(** The log of a dispatch run names the turns that were taken, in order. *)
Lemma dispatch_loop_turns fuel until_time s s' evs :
  dispatch_loop fuel until_time s = Some (s', evs) ->
  run_turns until_time (map fst evs) s = Some s'.
Proof.
  revert s s' evs. induction fuel as [| fuel IH]; simpl; intros s s' evs.
  - by intros [= <- <-].
  - destruct (has_undelivered until_time s); simpl; [| by intros [= <- <-]].
    destruct (dispatch_pass until_time s) as [[[s1 p] evs1] |] eqn:Hpass;
      simpl; [| discriminate].
    apply run_vehicles_turns in Hpass as [Hks Hturns].
    destruct p; simpl.
    + destruct (dispatch_loop fuel until_time s1) as [[s2 evs2] |] eqn:Hloop;
        simpl; [| discriminate].
      intros [= <- <-]. rewrite map_app, run_turns_app, Hks, Hturns. simpl.
      by apply IH.
    + intros [= <- <-]. by rewrite Hks.
Qed.

Lemma docks_nonneg_lookup s p pl :
  docks_nonneg s = true -> plants s !! p = Some pl -> 0 <= p_docks pl.
Proof.
  unfold docks_nonneg. rewrite forallb_forall. intros H Hp.
  apply elem_of_map_to_list, list_elem_of_In in Hp. apply H in Hp. simpl in Hp. lia.
Qed.

Lemma active_count_le t occ : active_count t occ <= Z.of_nat (length occ).
Proof.
  unfold active_count. apply inj_le.
  induction occ as [| r occ IH]; simpl; [lia |].
  destruct (active_at t r); simpl; lia.
Qed.

(** How one turn changes the dock table: not at all, by pruning one plant,
    or by pruning one plant that then had a free dock and appending one
    reservation to it. *)
Lemma veh_step_docks until_time s vk s' p a :
  veh_step until_time s vk = Some (s', p, a) ->
  plants s' = plants s /\
  (dock_occupancy s' = dock_occupancy s \/
   exists pl t occ,
     dock_occupancy s !! pl = Some occ /\
     (dock_occupancy s' = <[pl := List.filter (active_at t) occ]> (dock_occupancy s) \/
      exists plant r,
        plants s !! pl = Some plant /\
        active_count t occ < p_docks plant /\
        dock_occupancy s'
        = <[pl := List.filter (active_at t) occ ++ [r]]> (dock_occupancy s))).
Proof.
  intros Hstep%veh_step_spec.
  inversion Hstep; subst;
    repeat match goal with
    | H : _free_docks _ _ _ = Some _ |- _ =>
        apply free_docks_spec in H as (occ & plant & Hocc & Hplant & -> & ->)
    | H : _occupy_dock _ _ _ _ = Some _ |- _ =>
        apply occupy_dock_spec in H as (occ' & Hocc' & ->)
    end; simpl in *; (split; [done |]); try (by left).
  - right. exists (v_location v), (v_time v), occ. split; [done |]. by left.
  - right. exists (v_location v), (v_time v), occ. split; [done |]. right.
    rewrite lookup_insert_eq in Hocc'. injection Hocc' as <-.
    eexists plant, _. split; [done |]. split; [unfold active_count; lia |].
    by rewrite insert_insert_eq.
  - right. exists (o_pickup o), arr, occ. split; [done |]. by left.
  - right. exists (o_pickup o), arr, occ. split; [done |]. right.
    rewrite lookup_insert_eq in Hocc'. injection Hocc' as <-.
    eexists plant, _. split; [done |]. split; [unfold active_count; lia |].
    by rewrite insert_insert_eq.
Qed.

Lemma dock_inv_reset s : docks_nonneg s = true -> dock_inv (reset s).
Proof.
  intros Hnn p occ. simpl. rewrite lookup_fmap.
  destruct (plants s !! p) as [pl |] eqn:Hp; simpl; [| discriminate].
  intros [= <-]. exists pl. split; [done |]. simpl.
  by eapply docks_nonneg_lookup.
Qed.

Lemma dock_inv_step until_time s vk s' p a :
  veh_step until_time s vk = Some (s', p, a) -> dock_inv s -> dock_inv s'.
Proof.
  intros [Hpl Hd]%veh_step_docks Hinv q occq. rewrite Hpl.
  destruct Hd as [-> | (pl & t & occ & Hocc & [-> | (plant & r & Hplant & Hlt & ->)])].
  - apply Hinv.
  - destruct (decide (pl = q)) as [-> | Hne].
    + rewrite lookup_insert_eq. intros [= <-].
      destruct (Hinv _ _ Hocc) as (pl' & Hpl' & Hle). exists pl'. split; [done |].
      pose proof (active_count_le t occ). unfold active_count in *. lia.
    + rewrite lookup_insert_ne by done. apply Hinv.
  - destruct (decide (pl = q)) as [-> | Hne].
    + rewrite lookup_insert_eq. intros [= <-]. exists plant. split; [done |].
      rewrite length_app. simpl. unfold active_count in Hlt. lia.
    + rewrite lookup_insert_ne by done. apply Hinv.
Qed.

Lemma dock_inv_turns until_time ks s s' :
  run_turns until_time ks s = Some s' -> dock_inv s -> dock_inv s'.
Proof.
  revert s. induction ks as [| k ks IH]; simpl; intros s.
  - by intros [= <-].
  - destruct (veh_step until_time s k) as [[[s1 p] a] |] eqn:Hstep; simpl; [| discriminate].
    intros Hrun Hinv. eapply IH; [done |]. by eapply dock_inv_step.
Qed.

(** C7.  (Dock counts are taken to be non-negative.)  In every state a
    simulation run goes through, for every plant and every query time, the
    number of reservations of the plant whose release time is strictly after
    the query time is at most the plant's dock count; and a capacity query
    first prunes the plant's expired reservations from the table, then
    counts what is left. *)
Theorem dock_capacity_invariant (until_time : Q) (s0 s : DVRPSimulator) (ks : list Z) :
  docks_nonneg s0 = true ->
  run_turns until_time ks (reset s0) = Some s ->
  (forall p occ pl t,
     dock_occupancy s !! p = Some occ -> plants s !! p = Some pl ->
     active_count t occ <= p_docks pl) /\
  (forall p t free s1,
     _free_docks s p t = Some (free, s1) ->
     exists occ pl,
       dock_occupancy s !! p = Some occ /\ plants s !! p = Some pl /\
       dock_occupancy s1 !! p = Some (List.filter (active_at t) occ) /\
       Forall (fun r : Z * Q => (t < r.2)%Q) (List.filter (active_at t) occ) /\
       free = p_docks pl - active_count t occ /\ 0 <= free).
Proof.
  intros Hnn Hrun.
  assert (Hinv : dock_inv s) by (eapply dock_inv_turns; [done | by apply dock_inv_reset]).
  assert (Hcount : forall p occ pl t,
             dock_occupancy s !! p = Some occ -> plants s !! p = Some pl ->
             active_count t occ <= p_docks pl).
  { intros p occ pl t Hocc Hpl. destruct (Hinv _ _ Hocc) as (pl' & Hpl' & Hle).
    rewrite Hpl in Hpl'. injection Hpl' as <-.
    pose proof (active_count_le t occ). lia. }
  split; [exact Hcount |].
  intros p t free s1 (occ & pl & Hocc & Hpl & -> & ->)%free_docks_spec.
  exists occ, pl. do 2 (split; [done |]). split; [simpl; by rewrite lookup_insert_eq |].
  split.
  - apply Forall_forall. intros r [_ Hr]%list_elem_of_In%filter_In. by apply Qlt_bool_iff.
  - specialize (Hcount _ _ _ t Hocc Hpl). unfold active_count in *. lia.
Qed.

(** The turns logged by a completed simulation are a sequence of turns from
    the reset state, so the invariant covers every query of the run. *)
Lemma simulate_traced_turns s until_time s' res evs :
  simulate_traced s until_time = Some (s', res, evs) ->
  run_turns until_time (map fst evs) (reset s) = Some s'.
Proof.
  unfold simulate_traced.
  destruct (dispatch_loop max_iterations until_time (reset s)) as [[s1 evs1] |] eqn:Hloop;
    simpl; [| discriminate].
  intros [= <- <- <-]. by eapply dispatch_loop_turns.
Qed.

Lemma dock_capacity_witness :
  (forall p occ pl t,
     dock_occupancy DockExample.state !! p = Some occ ->
     plants DockExample.state !! p = Some pl ->
     active_count t occ <= p_docks pl) /\
  (forall p t free s1,
     _free_docks DockExample.state p t = Some (free, s1) ->
     exists occ pl,
       dock_occupancy DockExample.state !! p = Some occ /\
       plants DockExample.state !! p = Some pl /\
       dock_occupancy s1 !! p = Some (List.filter (active_at t) occ) /\
       Forall (fun r : Z * Q => (t < r.2)%Q) (List.filter (active_at t) occ) /\
       free = p_docks pl - active_count t occ /\ 0 <= free).
Proof.
  apply (dock_capacity_invariant DockExample.horizon Scenario.sim0 DockExample.state
           DockExample.turns).
  - vm_compute. reflexivity.
  - vm_compute. reflexivity.
Defined.

(** ** What a run never changes *)

Lemma map_dict_alter_get {V B} (g : Z * V -> B) (f : V -> V) k (d : list (Z * V)) v :
  dict_get k d = Some v -> g (k, f v) = g (k, v) -> map g (dict_alter f k d) = map g d.
Proof.
  intros Hget Hg. induction d as [| [k0 v0] d IH]; simpl in *; [done |].
  destruct (Z.eqb_spec k0 k) as [-> | Hne]; simpl.
  - injection Hget as ->. by rewrite Hg.
  - by rewrite IH.
Qed.

Lemma config_travel_time s s' a b : config s' = config s -> _travel_time s' a b = _travel_time s a b.
Proof. unfold config, _travel_time. intros [= _ -> -> _ _ _]. done. Qed.

Lemma config_distance s s' a b : config s' = config s -> _distance s' a b = _distance s a b.
Proof. unfold config, _distance. intros [= _ -> _ _ _ _]. done. Qed.

Lemma config_service_time s s' o o' :
  config s' = config s -> o_qty o' = o_qty o -> service_time s' o' = service_time s o.
Proof. unfold config, service_time. intros [= _ _ _ -> -> _] ->. done. Qed.

Lemma veh_step_frame until_time s vk s' p a :
  veh_step until_time s vk = Some (s', p, a) -> frame s' = frame s.
Proof.
  intros Hstep%veh_step_spec. unfold frame, config, orders_static, vehicles_static.
  inversion Hstep; subst;
    repeat match goal with
    | H : _free_docks _ _ _ = Some _ |- _ =>
        apply free_docks_spec in H as (occ & plant & Hocc & Hplant & -> & ->)
    | H : _occupy_dock _ _ _ _ = Some _ |- _ =>
        apply occupy_dock_spec in H as (occ' & Hocc' & ->)
    end; simpl; try done;
    repeat match goal with
    | |- context [map _ (dict_alter (fun _ => ?v') vk (vehicles s))] =>
        rewrite (map_dict_alter_get _ (fun _ => v') vk (vehicles s) v) by done
    end;
    try rewrite (map_dict_alter_id _ mark_picked) by done;
    try rewrite (map_dict_alter_id _ (mark_delivered _)) by done;
    done.
Qed.

Lemma run_turns_frame until_time ks s s' :
  run_turns until_time ks s = Some s' -> frame s' = frame s.
Proof.
  revert s. induction ks as [| k ks IH]; simpl; intros s.
  - by intros [= <-].
  - destruct (veh_step until_time s k) as [[[s1 p] a] |] eqn:Hstep; simpl; [| discriminate].
    intros Hrun%IH. rewrite Hrun. by eapply veh_step_frame.
Qed.

Lemma reset_frame s : frame (reset s) = frame s.
Proof.
  unfold frame, config, orders_static, vehicles_static. simpl.
  rewrite !map_map. done.
Qed.

(** ** Delivered flag and delivered-time go together *)

Lemma delivery_recorded_step until_time s vk s' p a :
  veh_step until_time s vk = Some (s', p, a) ->
  Forall delivery_recorded (orders s) -> Forall delivery_recorded (orders s').
Proof.
  intros Hstep%veh_step_spec Hinv.
  inversion Hstep; subst;
    repeat match goal with
    | H : _free_docks _ _ _ = Some _ |- _ =>
        apply free_docks_spec in H as (occ & plant & Hocc & Hplant & -> & ->)
    | H : _occupy_dock _ _ _ _ = Some _ |- _ =>
        apply occupy_dock_spec in H as (occ' & Hocc' & ->)
    end; simpl; try done.
  - apply Forall_dict_alter; [done |]. intros o' _. reflexivity.
  - apply Forall_dict_alter; [done |]. intros o' Ho'. exact Ho'.
Qed.

Lemma delivery_recorded_turns until_time ks s s' :
  run_turns until_time ks s = Some s' ->
  Forall delivery_recorded (orders s) -> Forall delivery_recorded (orders s').
Proof.
  revert s. induction ks as [| k ks IH]; simpl; intros s.
  - by intros [= <-].
  - destruct (veh_step until_time s k) as [[[s1 p] a] |] eqn:Hstep; simpl; [| discriminate].
    intros Hrun Hinv. eapply IH; [done |]. by eapply delivery_recorded_step.
Qed.

Lemma delivery_recorded_reset s : Forall delivery_recorded (orders (reset s)).
Proof.
  simpl. apply Forall_forall. intros ko (ko' & -> & _)%list_elem_of_fmap. reflexivity.
Qed.

(** ** The aggregates of a result (C5) *)

Lemma fold_late_step os acc :
  Forall delivery_recorded os ->
  (fold_left late_step (dict_values os) acc
   == acc + sum_Q (map lateness_contribution (dict_values os)))%Q.
Proof.
  intros Hrec. revert acc. induction Hrec as [| [k o] os Ho Hrec IH]; intros acc; simpl.
  - lra.
  - rewrite IH. unfold late_step, lateness_contribution.
    unfold delivery_recorded in Ho. simpl in Ho. rewrite Ho.
    destruct (o_delivered_time o) as [dt |]; simpl; unfold undelivered_penalty; lra.
Qed.

Lemma route_distance_path s prev route dist :
  (route_distance s prev route dist == dist + path_length s prev (map fst route))%Q.
Proof.
  revert prev dist. induction route as [| [loc t] route IH]; intros prev dist; simpl.
  - lra.
  - rewrite IH. lra.
Qed.

Lemma fold_dist_step s vs acc :
  (fold_left (dist_step s) vs acc == acc + sum_Q (map (route_length s) vs))%Q.
Proof.
  revert acc. induction vs as [| v vs IH]; intros acc; simpl.
  - lra.
  - rewrite IH. unfold dist_step, route_length. rewrite route_distance_path. lra.
Qed.

Lemma simulate_with_tracking_traced s until_time :
  simulate_with_tracking s until_time
  = (fun r : DVRPSimulator * Result * list Event => r.1) <$> simulate_traced s until_time.
Proof.
  unfold simulate_with_tracking, simulate_traced.
  by destruct (dispatch_loop max_iterations until_time (reset s)) as [[s1 evs] |].
Qed.

(** C5.  For a completed run, with [s'] the simulator after the dispatch
    loop: total lateness is the sum over all orders of ten times the due
    time if the order is undelivered, else max(0, delivered-time - due
    time); average distance is the sum over vehicles of the consecutive
    distances along the route log from the start location, divided by the
    number of vehicles (by 1 for an empty fleet); the objective is the
    lateness weight times total lateness plus the average distance.  The
    per-order outcomes of the result are those of [s'], an order is
    delivered exactly when it has a delivered-time, and the due times and
    start locations are those of the input. *)
Theorem result_aggregates (s s' : DVRPSimulator) (until_time : Q) (res : Result) :
  simulate_with_tracking s until_time = Some (s', res) ->
  (total_late res == total_lateness (orders s'))%Q /\
  (avg_distance res
   == total_route_length s' / inject_Z (Z.max 1 (Z.of_nat (length (vehicles s')))))%Q /\
  (vehicles s' <> [] ->
   (avg_distance res == total_route_length s' / inject_Z (Z.of_nat (length (vehicles s'))))%Q) /\
  objective res = (lambda_cost s * total_late res + avg_distance res)%Q /\
  r_orders res = map (fun ko : Z * Order => (ko.1, order_outcome ko.2)) (orders s') /\
  Forall delivery_recorded (orders s') /\
  frame s' = frame s.
Proof.
  rewrite simulate_with_tracking_traced.
  destruct (simulate_traced s until_time) as [[[s1 res1] evs] |] eqn:Hsim;
    simpl; [| discriminate].
  intros [= <- <-]. pose proof (simulate_traced_turns _ _ _ _ _ Hsim) as Hturns.
  unfold simulate_traced in Hsim.
  destruct (dispatch_loop max_iterations until_time (reset s)) as [[s2 evs2] |];
    simpl in Hsim; [| discriminate].
  injection Hsim as <- <- <-.
  assert (Hframe : frame s2 = frame s).
  { rewrite <- (reset_frame s). by eapply run_turns_frame. }
  assert (Hrec : Forall delivery_recorded (orders s2)).
  { eapply delivery_recorded_turns; [done | apply delivery_recorded_reset]. }
  assert (Havg : (avg_distance (compute_result s2)
                  == total_route_length s2
                     / inject_Z (Z.max 1 (Z.of_nat (length (vehicles s2)))))%Q).
  { simpl. rewrite fold_dist_step. unfold total_route_length.
    apply Qdiv_comp; [lra | reflexivity]. }
  split; [| split; [| split; [| split; [| split; [| split]]]]]; try done.
  - simpl. rewrite fold_late_step by done. unfold total_lateness. lra.
  - intros Hne. rewrite Havg.
    destruct (vehicles s2) as [| kv vs]; [done |].
    replace (Z.max 1 (Z.of_nat (length (kv :: vs)))) with (Z.of_nat (length (kv :: vs)));
      [reflexivity |]. simpl length. lia.
  - simpl. unfold frame, config in Hframe. by injection Hframe as _ _ _ _ _ -> _ _.
Qed.

Lemma result_aggregates_witness :
  (total_late ResultExample.result == total_lateness (orders ResultExample.final))%Q /\
  (avg_distance ResultExample.result
   == total_route_length ResultExample.final
      / inject_Z (Z.max 1 (Z.of_nat (length (vehicles ResultExample.final)))))%Q /\
  (vehicles ResultExample.final <> [] ->
   (avg_distance ResultExample.result
    == total_route_length ResultExample.final
       / inject_Z (Z.of_nat (length (vehicles ResultExample.final))))%Q) /\
  objective ResultExample.result
  = (lambda_cost Scenario.sim0 * total_late ResultExample.result
     + avg_distance ResultExample.result)%Q /\
  r_orders ResultExample.result
  = map (fun ko : Z * Order => (ko.1, order_outcome ko.2)) (orders ResultExample.final) /\
  Forall delivery_recorded (orders ResultExample.final) /\
  frame ResultExample.final = frame Scenario.sim0.
Proof.
  apply (result_aggregates Scenario.sim0 ResultExample.final ResultExample.horizon
           ResultExample.result).
  vm_compute. reflexivity.
Defined.

(** ** Monotonicity of the optimizer (C8) *)

Lemma try_moves_best opt ms st rng st' improved rng' :
  try_moves opt ms st rng = Some (st', improved, rng') ->
  best_kept_or_improved opt st st'.
Proof.
  revert st rng. induction ms as [| move ms IH]; simpl; intros st rng.
  - intros [= <- <- <-]. by left.
  - destruct (evaluate opt (move rng (initial_orders st)).1) as [[cc cr] |] eqn:Hev;
      simpl; [| discriminate].
    destruct (Qlt_bool cc (best_cost st)) eqn:Hlt.
    + intros [= <- <- <-]. right. simpl. split; [by apply Qlt_bool_iff | done].
    + apply IH.
Qed.

Lemma optimize_round_best opt st rng st' continue rng' :
  optimize_round opt st rng = Some (st', continue, rng') ->
  best_kept_or_improved opt st st'.
Proof.
  unfold optimize_round.
  destruct (try_moves opt local_moves st rng) as [[[st1 improved] rng1] |] eqn:Hmoves;
    simpl; [| discriminate].
  apply try_moves_best in Hmoves. destruct improved.
  - by intros [= <- <- <-].
  - destruct (evaluate opt (disturb rng1 (best_orders st1)).1) as [[cc cr] |];
      simpl; [| discriminate].
    destruct (Qlt_bool cc (initial_cost st1 * disturb_acceptance opt)).
    + intros [= <- <- <-]. exact Hmoves.
    + by intros [= <- <- <-].
Qed.

Lemma best_kept_or_improved_le opt st st' :
  best_kept_or_improved opt st st' -> (best_cost st' <= best_cost st)%Q.
Proof.
  intros [(-> & _ & _) | [Hlt _]]; [apply Qle_refl | by apply Qlt_le_weak].
Qed.

Lemma optimize_loop_le rounds opt st rng st' :
  optimize_loop rounds opt st rng = Some st' -> (best_cost st' <= best_cost st)%Q.
Proof.
  revert st rng. induction rounds as [| rounds IH]; simpl; intros st rng.
  - intros [= <-]. apply Qle_refl.
  - destruct (optimize_round opt st rng) as [[[st1 continue] rng1] |] eqn:Hround;
      simpl; [| discriminate].
    apply optimize_round_best, best_kept_or_improved_le in Hround.
    destruct continue.
    + intros Hloop%IH. by eapply Qle_trans.
    + by intros [= <-].
Qed.

(** C8.  In every round of the main loop the best-known cost either stays
    as it is or is replaced by the cost of an evaluated candidate that is
    strictly smaller; and the cost returned by [optimize] is at most the
    cost of evaluating the initial order set. *)
Theorem optimizer_monotone (opt : VNSMEOptimizer) (rounds : nat) (rng : Rng)
    (os : list (Z * Order)) (c c0 : Q) (res r0 : Result) :
  evaluate opt os = Some (c0, r0) ->
  optimize opt rounds rng os = Some (c, res) ->
  (c <= c0)%Q /\
  (forall st rng1 st' continue rng2,
     optimize_round opt st rng1 = Some (st', continue, rng2) ->
     (best_cost st' <= best_cost st)%Q /\ best_kept_or_improved opt st st').
Proof.
  intros Hev Hopt. split.
  - unfold optimize in Hopt. rewrite Hev in Hopt. simpl in Hopt.
    destruct (optimize_loop rounds opt (mkOptState c0 r0 os c0 r0 os) rng) as [st |] eqn:Hloop;
      simpl in Hopt; [| discriminate].
    injection Hopt as <- <-. by apply optimize_loop_le in Hloop.
  - intros st rng1 st' continue rng2 Hround%optimize_round_best.
    split; [by eapply best_kept_or_improved_le | done].
Qed.

Lemma optimizer_monotone_witness :
  (OptimizerExample.returned.1 <= OptimizerExample.initial.1)%Q /\
  (forall st rng1 st' continue rng2,
     optimize_round OptimizerExample.opt st rng1 = Some (st', continue, rng2) ->
     (best_cost st' <= best_cost st)%Q /\
     best_kept_or_improved OptimizerExample.opt st st').
Proof.
  apply (optimizer_monotone OptimizerExample.opt OptimizerExample.rounds OptimizerExample.rng
           Scenario.orders0 OptimizerExample.returned.1 OptimizerExample.initial.1
           OptimizerExample.returned.2 OptimizerExample.initial.2).
  - vm_compute. reflexivity.
  - vm_compute. reflexivity.
Defined.

(** ** Block exchange and block relocate (C1) *)

Section DictMoves.
Context {V : Type}.
Implicit Types (d : list (Z * V)) (k : Z).

Lemma dict_get_setitem i v k d :
  dict_get k (dict_setitem i v d) = if (i =? k)%Z then Some v else dict_get k d.
Proof.
  induction d as [| [k0 v0] d IH]; simpl.
  - by destruct (i =? k)%Z.
  - destruct (Z.eqb_spec k0 i) as [-> | Hne]; simpl.
    + by destruct (i =? k)%Z.
    + destruct (Z.eqb_spec k0 k) as [-> | Hne'].
      * destruct (Z.eqb_spec i k); [congruence | done].
      * exact IH.
Qed.

Lemma dict_get_pop_ne i k d : i <> k -> dict_get k (dict_pop i d) = dict_get k d.
Proof.
  intros Hne. induction d as [| [k0 v0] d IH]; simpl; [done |].
  destruct (Z.eqb_spec k0 i) as [-> | Hne0]; simpl.
  - destruct (Z.eqb_spec i k); [congruence | done].
  - by rewrite IH.
Qed.

Lemma dict_keys_setitem i v v' d :
  dict_get i d = Some v' -> dict_keys (dict_setitem i v d) = dict_keys d.
Proof.
  unfold dict_keys. induction d as [| [k0 v0] d IH]; simpl; [discriminate |].
  destruct (Z.eqb_spec k0 i) as [-> | Hne]; simpl; [done |].
  intros H. by rewrite IH.
Qed.

Lemma dict_setitem_fresh i v d : i ∉ dict_keys d -> dict_setitem i v d = d ++ [(i, v)].
Proof.
  unfold dict_keys. induction d as [| [k0 v0] d IH]; simpl; [done |].
  intros Hni. apply not_elem_of_cons in Hni as [Hne Hni].
  destruct (Z.eqb_spec k0 i) as [-> | _]; [done |]. by rewrite IH.
Qed.

Lemma dict_keys_pop_subset i k d : k ∈ dict_keys (dict_pop i d) -> k ∈ dict_keys d.
Proof.
  unfold dict_keys. induction d as [| [k0 v0] d IH]; simpl; [done |].
  destruct (k0 =? i)%Z; simpl.
  - intros H. by right.
  - intros [-> | H]%elem_of_cons; [left | right; auto].
Qed.

Lemma dict_pop_fresh i d : NoDup (dict_keys d) -> i ∉ dict_keys (dict_pop i d).
Proof.
  unfold dict_keys. induction d as [| [k0 v0] d IH]; simpl.
  - intros _. apply not_elem_of_nil.
  - intros [Hni Hnd]%NoDup_cons. destruct (Z.eqb_spec k0 i) as [-> | Hne]; simpl.
    + exact Hni.
    + apply not_elem_of_cons. split; [congruence | by apply IH].
Qed.
End DictMoves.

Lemma short_list_keeps_order_set (rng : Rng) (os : list (Z * Order)) :
  (length os < 2)%nat ->
  block_exchange rng os = (os, rng) /\ block_relocate rng os = (os, rng).
Proof.
  intros Hlen. unfold block_exchange, block_relocate.
  destruct (Nat.leb_spec 2 (length os)) as [H | H]; [lia | done].
Qed.

(** What the two operators do to an order set.  Block-relocate keeps the
    order stored under every id but moves the chosen id to the end of the
    iteration order; block-exchange keeps the iteration order of the ids and
    stores under each of the two ids the order object of the other.  On an
    order set with fewer than two orders both operators return it as it
    is. *)
Theorem block_operators_effect (os : list (Z * Order)) (i j : Z) (oi oj : Order) :
  dict_get i os = Some oi ->
  dict_get j os = Some oj ->
  i <> j ->
  (forall k, dict_get k (block_relocate_at i os) = dict_get k os) /\
  (NoDup (dict_keys os) -> block_relocate_at i os = dict_pop i os ++ [(i, oi)]) /\
  dict_keys (block_exchange_at i j os) = dict_keys os /\
  dict_get i (block_exchange_at i j os) = Some oj /\
  dict_get j (block_exchange_at i j os) = Some oi /\
  (forall k, k <> i -> k <> j -> dict_get k (block_exchange_at i j os) = dict_get k os) /\
  (forall opt rng (os' : list (Z * Order)),
     (length os' < 2)%nat ->
     evaluate opt (block_exchange rng os').1 = evaluate opt os' /\
     evaluate opt (block_relocate rng os').1 = evaluate opt os').
Proof.
  intros Hi Hj Hne. unfold block_relocate_at, block_exchange_at. rewrite Hi, Hj.
  split; [| split; [| split; [| split; [| split; [| split]]]]].
  - intros k. rewrite dict_get_setitem.
    destruct (Z.eqb_spec i k) as [<- | Hk]; [done | by apply dict_get_pop_ne].
  - intros Hnd. by apply dict_setitem_fresh, dict_pop_fresh.
  - assert (dict_get j (dict_setitem i oj os) = Some oj) as Hj'.
    { rewrite dict_get_setitem. destruct (Z.eqb_spec i j); [congruence | done]. }
    rewrite (dict_keys_setitem _ _ _ _ Hj'). by rewrite (dict_keys_setitem _ _ _ _ Hi).
  - rewrite !dict_get_setitem. destruct (Z.eqb_spec j i); [congruence |].
    by rewrite Z.eqb_refl.
  - rewrite dict_get_setitem. by rewrite Z.eqb_refl.
  - intros k Hki Hkj. rewrite !dict_get_setitem.
    destruct (Z.eqb_spec j k); [congruence |]. destruct (Z.eqb_spec i k); [congruence | done].
  - intros opt rng os' Hlen.
    destruct (short_list_keeps_order_set rng os' Hlen) as [-> ->]. done.
Qed.

Lemma block_operators_witness :
  (forall k, dict_get k (block_relocate_at 1 Scenario.orders0) = dict_get k Scenario.orders0) /\
  (NoDup (dict_keys Scenario.orders0) ->
   block_relocate_at 1 Scenario.orders0
   = dict_pop 1 Scenario.orders0 ++ [(1, Scenario.new_order 1 1 2 2 10 180)]) /\
  dict_keys (block_exchange_at 1 2 Scenario.orders0) = dict_keys Scenario.orders0 /\
  dict_get 1 (block_exchange_at 1 2 Scenario.orders0)
  = Some (Scenario.new_order 2 1 3 1 20 160) /\
  dict_get 2 (block_exchange_at 1 2 Scenario.orders0)
  = Some (Scenario.new_order 1 1 2 2 10 180) /\
  (forall k, k <> 1 -> k <> 2 ->
     dict_get k (block_exchange_at 1 2 Scenario.orders0) = dict_get k Scenario.orders0) /\
  (forall opt rng (os' : list (Z * Order)),
     (length os' < 2)%nat ->
     evaluate opt (block_exchange rng os').1 = evaluate opt os' /\
     evaluate opt (block_relocate rng os').1 = evaluate opt os').
Proof.
  apply (block_operators_effect Scenario.orders0 1 2
           (Scenario.new_order 1 1 2 2 10 180) (Scenario.new_order 2 1 3 1 20 160)).
  - reflexivity.
  - reflexivity.
  - discriminate.
Defined.

(** C1 as stated fails for both operators.  On the reference scenario,
    exchanging the slots of ids 1 and 2 changes the objective from 41 to
    93/2.  On the two-order instance, relocating id 1 changes which of the
    two tied orders is served first, and the objective from 124 to 352. *)
Lemma block_operators_not_inert :
  (block_exchange [(0, 0)%nat] Scenario.orders0).1 = block_exchange_at 1 2 Scenario.orders0 /\
  cost OptimizerExample.opt Scenario.orders0 = Some 41%Q /\
  cost OptimizerExample.opt (block_exchange [(0, 0)%nat] Scenario.orders0).1 = Some (93 # 2)%Q /\
  (block_relocate [(0, 0)%nat] RelocateExample.orders1).1
  = block_relocate_at 1 RelocateExample.orders1 /\
  cost RelocateExample.opt RelocateExample.orders1 = Some 124%Q /\
  cost RelocateExample.opt (block_relocate [(0, 0)%nat] RelocateExample.orders1).1
  = Some 352%Q.
Proof.
  repeat split; vm_compute; reflexivity.
Qed.

(** After an exchange the orders are no longer stored under their own ids,
    and the simulator, which finds the top of a stack by id, marks as
    delivered an order that was never picked up. *)
Lemma exchanged_slots_deliver_unpicked :
  (fun r : Q * Result => r_orders r.2)
    <$> evaluate RelocateExample.opt (block_exchange_at 1 2 RelocateExample.orders1)
  = Some [(1, mkOrderOutcome true false None);
          (2, mkOrderOutcome false true (Some 47%Q))].
Proof. vm_compute. reflexivity. Qed.

(** ** Causality of deliveries (C9) *)

Lemma picks_snoc_other tr vk a k f :
  (forall k' arr' f', a <> APickup k' arr' f') ->
  picks (tr ++ [(vk, a)]) k f <-> picks tr k f.
Proof.
  intros Ha. unfold picks. split.
  - intros (vk' & arr & [H | H]%elem_of_app); [by exists vk', arr |].
    apply list_elem_of_singleton in H. injection H as -> Heq. by destruct (Ha k arr f).
  - intros (vk' & arr & H). exists vk', arr. apply elem_of_app. by left.
Qed.

Lemma picks_snoc_pick tr vk k' arr' f' k f :
  picks (tr ++ [(vk, APickup k' arr' f')]) k f <-> picks tr k f \/ (k = k' /\ f = f').
Proof.
  unfold picks. split.
  - intros (vk' & arr & [H | H]%elem_of_app); [left; by exists vk', arr |].
    apply list_elem_of_singleton in H. injection H as -> -> -> ->. by right.
  - intros [(vk' & arr & H) | [-> ->]].
    + exists vk', arr. apply elem_of_app. by left.
    + exists vk, arr'. apply elem_of_app. right. by apply list_elem_of_singleton.
Qed.

Lemma delivers_snoc_other tr vk a k t :
  (forall k' t', a <> ADeliver k' t') ->
  delivers (tr ++ [(vk, a)]) k t <-> delivers tr k t.
Proof.
  intros Ha. unfold delivers. split.
  - intros (vk' & [H | H]%elem_of_app); [by exists vk' |].
    apply list_elem_of_singleton in H. injection H as -> Heq. by destruct (Ha k t).
  - intros (vk' & H). exists vk'. apply elem_of_app. by left.
Qed.

Lemma delivers_snoc_deliver tr vk k' t' k t :
  delivers (tr ++ [(vk, ADeliver k' t')]) k t <-> delivers tr k t \/ (k = k' /\ t = t').
Proof.
  unfold delivers. split.
  - intros (vk' & [H | H]%elem_of_app); [left; by exists vk' |].
    apply list_elem_of_singleton in H. injection H as -> -> ->. by right.
  - intros [(vk' & H) | [-> ->]].
    + exists vk'. apply elem_of_app. by left.
    + exists vk. apply elem_of_app. right. by apply list_elem_of_singleton.
Qed.

Lemma picked_in_alter (f : Order -> Order) j s k :
  (forall o, o_picked o = true -> o_picked (f o) = true) ->
  picked_in s k -> picked_in (alter_order j f s) k.
Proof.
  intros Hf (o & Ho & Hp). unfold picked_in. simpl. rewrite dict_get_alter.
  destruct (j =? k)%Z; rewrite Ho; simpl; eauto.
Qed.

Lemma dict_get_map {V W} (g : V -> W) k (d : list (Z * V)) :
  dict_get k (map (fun kv : Z * V => (kv.1, g kv.2)) d) = g <$> dict_get k d.
Proof.
  induction d as [| [k0 v0] d IH]; simpl; [done |].
  by destruct (k0 =? k)%Z.
Qed.

Lemma dict_get_NoDup {V} k (v : V) (d : list (Z * V)) :
  NoDup (dict_keys d) -> (k, v) ∈ d -> dict_get k d = Some v.
Proof.
  unfold dict_keys. induction d as [| [k0 v0] d IH]; simpl.
  - intros _ H. by apply elem_of_nil in H.
  - intros [Hni Hnd]%NoDup_cons [H | H]%elem_of_cons.
    + injection H as -> ->. by rewrite Z.eqb_refl.
    + destruct (Z.eqb_spec k0 k) as [-> | Hne]; [| by apply IH].
      exfalso. apply Hni. apply list_elem_of_fmap. by exists (k, v).
Qed.

Lemma distinct_NoDup l : distinct l = true -> NoDup l.
Proof.
  induction l as [| x l IH]; simpl; [intros _; constructor |].
  intros [Hx Hl]%andb_prop. constructor; [| by apply IH].
  intros Hin. apply negb_true_iff in Hx.
  assert (existsb (Z.eqb x) l = true) as Hex; [| congruence].
  apply existsb_exists. exists x. split; [by apply list_elem_of_In | apply Z.eqb_refl].
Qed.

(** Orders of the current state and of the initial one agree on what a run
    never changes. *)
Lemma frame_config s s0 : frame s = frame s0 -> config s = config s0.
Proof. intros H. exact (f_equal (fun x => x.1.1) H). Qed.

Lemma frame_orders_static s s0 : frame s = frame s0 -> orders_static s = orders_static s0.
Proof. intros H. exact (f_equal (fun x => x.1.2) H). Qed.

Lemma frame_vehicles_static s s0 :
  frame s = frame s0 -> vehicles_static s = vehicles_static s0.
Proof. intros H. exact (f_equal (fun x => x.2) H). Qed.

Lemma frame_order s s0 k o :
  frame s = frame s0 -> dict_get k (orders s) = Some o ->
  exists o0, dict_get k (orders s0) = Some o0 /\ order_static o = order_static o0.
Proof.
  intros Hos%frame_orders_static Ho. unfold orders_static in Hos.
  assert (dict_get k (map (fun ko : Z * Order => (ko.1, order_static ko.2)) (orders s))
          = Some (order_static o)) as H.
  { rewrite dict_get_map, Ho. done. }
  rewrite Hos, dict_get_map in H.
  destruct (dict_get k (orders s0)) as [o0 |]; [| discriminate].
  change (Some (order_static o0) = Some (order_static o)) in H.
  exists o0. split; [done | congruence].
Qed.

Lemma frame_keys s s0 : frame s = frame s0 -> dict_keys (orders s) = dict_keys (orders s0).
Proof.
  intros Hos%frame_orders_static. unfold orders_static, dict_keys in *.
  apply (f_equal (map fst)) in Hos. rewrite !map_map in Hos. exact Hos.
Qed.

Lemma earliest_start_ge v o : (v_time v <= earliest_start v o)%Q.
Proof.
  unfold earliest_start. destruct (Qlt_bool (v_time v) (o_arrival o)) eqn:E.
  - apply Qlt_bool_iff in E. lra.
  - lra.
Qed.

Lemma elem_of_put_vehicle vk v' s vk' v'' :
  (vk', v'') ∈ vehicles (put_vehicle vk v' s) -> (vk', v'') ∈ vehicles s \/ v'' = v'.
Proof.
  simpl. intros [H | (_ & v0 & _ & ->)]%elem_of_dict_alter; [by left | by right].
Qed.

Lemma elem_of_removelast {A} (x : A) l : x ∈ removelast l -> x ∈ l.
Proof.
  induction l as [| y l IH]; simpl; [done |].
  destruct l as [| z l]; [intros H; by apply elem_of_nil in H |].
  intros [-> | H]%elem_of_cons; [left | right; by apply IH].
Qed.

Lemma last_elem_of {A} (l : list A) x : last l = Some x -> x ∈ l.
Proof.
  intros H. apply last_Some in H as [l' ->]. apply elem_of_app. right. left.
Qed.

Section Causality.
Variable s0 : DVRPSimulator.
Hypothesis keys_distinct : NoDup (dict_keys (orders s0)).
Hypothesis orders_wf : forall k o,
  dict_get k (orders s0) = Some o ->
  o_id o = k /\ o_pickup o <> o_delivery o /\ 0 <= o_qty o.
Hypothesis dst_nonneg : (0 <= dock_service_time s0)%Q.
Hypothesis uht_nonneg : (0 <= unit_handling_time s0)%Q.
Hypothesis tt_triangle : forall a b c,
  a ∈ sites s0 -> b ∈ sites s0 -> c ∈ sites s0 ->
  (_travel_time s0 a c <= _travel_time s0 a b + _travel_time s0 b c)%Q.

Lemma order_sites k o0 :
  dict_get k (orders s0) = Some o0 ->
  o_pickup o0 ∈ sites s0 /\ o_delivery o0 ∈ sites s0.
Proof.
  intros H%dict_get_elem_of. unfold sites.
  split; apply elem_of_app; right; apply list_elem_of_In, in_flat_map;
    exists (k, o0); (split; [by apply list_elem_of_In | simpl; auto]).
Qed.

Lemma service_nonneg k o0 : dict_get k (orders s0) = Some o0 -> (0 <= service_time s0 o0)%Q.
Proof.
  intros (_ & _ & Hq)%orders_wf. unfold service_time.
  assert (0 <= inject_Z (o_qty o0))%Q.
  { change 0%Q with (inject_Z 0). by rewrite <- Zle_Qle. }
  nra.
Qed.

Lemma at_least_wait v v' o0 f :
  v_location v' = v_location v -> (v_time v <= v_time v')%Q ->
  at_least s0 v o0 f -> at_least s0 v' o0 f.
Proof.
  unfold at_least. intros -> Ht [[Hl Hf] | Hf]; [left; split; [done | lra] | right; lra].
Qed.

Lemma at_least_move v v' o0 f :
  o_pickup o0 ∈ sites s0 -> v_location v ∈ sites s0 -> v_location v' ∈ sites s0 ->
  (v_time v + _travel_time s0 (v_location v) (v_location v') <= v_time v')%Q ->
  at_least s0 v o0 f -> at_least s0 v' o0 f.
Proof.
  unfold at_least. intros Hp Hl Hl' Ht [[Hloc Hf] | Hf]; right.
  - rewrite <- Hloc. lra.
  - pose proof (tt_triangle _ _ _ Hp Hl Hl'). lra.
Qed.

Lemma at_least_moved k v v' o0 f :
  dict_get k (orders s0) = Some o0 ->
  v_location v ∈ sites s0 -> v_location v' ∈ sites s0 ->
  moved s0 v v' -> at_least s0 v o0 f -> at_least s0 v' o0 f.
Proof.
  intros [Hp _]%order_sites Hl Hl' [[Hloc Ht] | Ht].
  - by apply at_least_wait.
  - by apply at_least_move.
Qed.

Lemma picked_in_orders s s' k : orders s' = orders s -> picked_in s k -> picked_in s' k.
Proof. unfold picked_in. by intros ->. Qed.

Lemma causal_ext tr s s' :
  frame s' = frame s -> orders s' = orders s -> vehicles s' = vehicles s ->
  causal s0 tr s -> causal s0 tr s'.
Proof.
  intros Hf Ho Hv [H1 H2 H3 H4 H5]. split.
  - by rewrite Hf.
  - intros k f Hp. eapply picked_in_orders; eauto.
  - intros vk v. rewrite Hv. intros Hin. destruct (H3 _ _ Hin) as [Hl Hst].
    split; [done |]. intros k Hk. destruct (Hst k Hk) as (o0 & Ho0 & Hpk & Hex & Hb).
    exists o0. repeat split; try done. by eapply picked_in_orders.
  - intros k t Hd. destruct (H4 _ _ Hd) as (o0 & Ho0 & Hpk & Hex & Hb).
    exists o0. repeat split; try done. by eapply picked_in_orders.
  - intros k o t. rewrite Ho. apply H5.
Qed.

Lemma causal_event tr s vk a :
  is_pick_or_deliver a = false -> causal s0 tr s -> causal s0 (tr ++ [(vk, a)]) s.
Proof.
  intros Ha [H1 H2 H3 H4 H5].
  assert (Hp : forall k f, picks (tr ++ [(vk, a)]) k f <-> picks tr k f).
  { intros k f. apply picks_snoc_other. intros ? ? ? ->. discriminate. }
  assert (Hd : forall k t, delivers (tr ++ [(vk, a)]) k t <-> delivers tr k t).
  { intros k t. apply delivers_snoc_other. intros ? ? ->. discriminate. }
  split.
  - done.
  - intros k f Hk%Hp. eauto.
  - intros vk' v Hin. destruct (H3 _ _ Hin) as [Hl Hst]. split; [done |].
    intros k Hk. destruct (Hst k Hk) as (o0 & Ho0 & Hpk & (f & Hex) & Hb).
    exists o0. repeat split; try done.
    + exists f. by apply Hp.
    + intros f' Hf'%Hp. by apply Hb.
  - intros k t Hk%Hd. destruct (H4 _ _ Hk) as (o0 & Ho0 & Hpk & (f & Hex) & Hb).
    exists o0. repeat split; try done.
    + exists f. by apply Hp.
    + intros f' Hf'%Hp. by apply Hb.
  - intros k o t Hin Ht. apply Hd. eauto.
Qed.

Lemma put_vehicle_frame vk v v' s :
  dict_get vk (vehicles s) = Some v -> vehicle_static v' = vehicle_static v ->
  frame (put_vehicle vk v' s) = frame s.
Proof.
  intros Hv Hst. unfold frame, config, orders_static, vehicles_static. simpl.
  by rewrite (map_dict_alter_get _ (fun _ => v') vk (vehicles s) v) by (simpl; congruence).
Qed.

Lemma causal_vehicle tr s vk v v' :
  dict_get vk (vehicles s) = Some v ->
  vehicle_static v' = vehicle_static v ->
  v_stack v' = v_stack v ->
  v_location v' ∈ sites s0 ->
  moved s0 v v' ->
  causal s0 tr s -> causal s0 tr (put_vehicle vk v' s).
Proof.
  intros Hv Hst Hstack Hl' Hm [H1 H2 H3 H4 H5].
  pose proof (dict_get_elem_of _ _ _ Hv) as Hin.
  destruct (H3 _ _ Hin) as [Hl Hcarried].
  split.
  - rewrite <- H1. by eapply put_vehicle_frame.
  - intros k f Hp. by eapply H2.
  - intros vk' v'' [Hold | ->]%elem_of_put_vehicle; [by eapply H3 |].
    split; [done |]. rewrite Hstack. intros k Hk.
    destruct (Hcarried k Hk) as (o0 & Ho0 & Hpk & Hex & Hb).
    exists o0. repeat split; try done.
    intros f Hf. eapply at_least_moved; eauto.
  - intros k t Hd. by apply H4.
  - intros k o t. apply H5.
Qed.

Lemma alter_order_frame k f s :
  (forall o, order_static (f o) = order_static o) ->
  frame (alter_order k f s) = frame s.
Proof.
  intros Hf. unfold frame, config, orders_static, vehicles_static. simpl.
  rewrite map_dict_alter_id; [done |]. intros k' o. simpl. by rewrite Hf.
Qed.

Lemma causal_pickup tr s vk v k o arr :
  dict_get vk (vehicles s) = Some v ->
  (k, o) ∈ orders s ->
  o_picked o = false ->
  (v_time v + _travel_time s (v_location v) (o_pickup o) <= arr)%Q ->
  causal s0 tr s ->
  causal s0 (tr ++ [(vk, APickup k arr (arr + service_time s o)%Q)])
    (alter_order k mark_picked (put_vehicle vk (after_pickup s v o arr) s)).
Proof.
  intros Hv Hko Hunpicked Harr Hc. pose proof Hc as [H1 H2 H3 H4 H5].
  assert (Hget : dict_get k (orders s) = Some o).
  { apply dict_get_NoDup; [| done]. by rewrite (frame_keys _ _ H1). }
  destruct (frame_order _ _ _ _ H1 Hget) as (o0 & Ho0 & Hstatic).
  injection Hstatic as Hid Hpk Hdl Hqty _ _.
  destruct (orders_wf _ _ Ho0) as (Hkey & _ & _).
  destruct (order_sites _ _ Ho0) as [Hsite _].
  pose proof (service_nonneg _ _ Ho0) as Hserv.
  rewrite (config_service_time s s0 o o0) in Hserv
    by (try (symmetry; by apply frame_config); congruence).
  rewrite (config_travel_time s0 s) in Harr by (by apply frame_config).
  assert (Hnopick : forall f, ~ picks tr k f).
  { intros f (o' & Ho' & Hp')%H2. congruence. }
  pose proof (dict_get_elem_of _ _ _ Hv) as Hvin.
  destruct (H3 _ _ Hvin) as [Hl Hcarried].
  set (s' := alter_order k mark_picked (put_vehicle vk (after_pickup s v o arr) s)).
  assert (Hpicked' : forall j, picked_in s j -> picked_in s' j).
  { intros j Hj. apply picked_in_alter; [done |]. eapply picked_in_orders; [| done]. done. }
  assert (Hk' : picked_in s' k).
  { exists (mark_picked o). split; [| done]. unfold s'. simpl.
    by rewrite dict_get_alter, Z.eqb_refl, Hget. }
  assert (Hold : forall j f, picked_in s j ->
            picks (tr ++ [(vk, APickup k arr (arr + service_time s o)%Q)]) j f ->
            picks tr j f).
  { intros j f (oj & Hoj & Hpj) [Hp | [-> _]]%picks_snoc_pick; [done | congruence]. }
  split.
  - unfold s'. rewrite alter_order_frame by done.
    rewrite <- H1. by eapply put_vehicle_frame.
  - intros j f [Hp | [-> _]]%picks_snoc_pick; [| done]. apply Hpicked'. eauto.
  - intros vk' v'' Hin. apply elem_of_put_vehicle in Hin as [Hin | ->].
    + destruct (H3 _ _ Hin) as [Hl'' Hst]. split; [done |].
      intros j Hj. destruct (Hst j Hj) as (oj0 & Hoj0 & Hpj & (f & Hex) & Hb).
      exists oj0. repeat split; try done.
      * by apply Hpicked'.
      * exists f. apply picks_snoc_pick. by left.
      * intros f' Hf'. apply Hb. by eapply Hold.
    + split; [simpl; by rewrite Hpk |].
      simpl. intros j [Hj | Hj]%elem_of_app.
      * destruct (Hcarried j Hj) as (oj0 & Hoj0 & Hpj & (f & Hex) & Hb).
        exists oj0. repeat split; try done.
        -- by apply Hpicked'.
        -- exists f. apply picks_snoc_pick. by left.
        -- intros f' Hf'. eapply at_least_move; [by eapply order_sites | done | | |].
           ++ simpl. by rewrite Hpk.
           ++ simpl. lra.
           ++ apply Hb. by eapply Hold.
      * apply list_elem_of_singleton in Hj. subst j. rewrite Hid, Hkey.
        exists o0. repeat split; try done.
        -- exists (arr + service_time s o)%Q. apply picks_snoc_pick. by right.
        -- intros f' [Hf' | [_ ->]]%picks_snoc_pick; [by destruct (Hnopick f') |].
           left. simpl. split; [done | lra].
  - intros j t Hd. apply delivers_snoc_other in Hd; [| intros ? ? ?; discriminate].
    destruct (H4 _ _ Hd) as (oj0 & Hoj0 & Hpj & (f & Hex) & Hb).
    exists oj0. repeat split; try done.
    + by apply Hpicked'.
    + exists f. apply picks_snoc_pick. by left.
    + intros f' Hf'. apply Hb. by eapply Hold.
  - intros j oj t Hin Ht. apply delivers_snoc_other; [intros ? ? ?; discriminate |].
    unfold s' in Hin. simpl in Hin.
    apply elem_of_dict_alter in Hin as [Hin | (-> & oj' & Hin & ->)]; eauto.
Qed.

Lemma causal_deliver tr s vk v tid top_o :
  dict_get vk (vehicles s) = Some v ->
  last (v_stack v) = Some tid ->
  dict_get tid (orders s) = Some top_o ->
  v_location v = o_delivery top_o ->
  causal s0 tr s ->
  causal s0 (tr ++ [(vk, ADeliver tid (v_time v + service_time s top_o)%Q)])
    (alter_order tid (mark_delivered (v_time v + service_time s top_o)%Q)
       (put_vehicle vk (after_delivery s v top_o) s)).
Proof.
  intros Hv Hlast Htop Hloc Hc. pose proof Hc as [H1 H2 H3 H4 H5].
  pose proof (dict_get_elem_of _ _ _ Hv) as Hvin.
  destruct (H3 _ _ Hvin) as [Hl Hcarried].
  destruct (Hcarried tid (last_elem_of _ _ Hlast)) as (o0 & Ho0 & Hpk & Hex & Hb).
  destruct (frame_order _ _ _ _ H1 Htop) as (o0' & Ho0' & Hstatic).
  rewrite Ho0 in Ho0'. injection Ho0' as <-.
  injection Hstatic as Hid Hpick Hdl Hqty _ _.
  destruct (orders_wf _ _ Ho0) as (_ & Hdiff & _).
  pose proof (service_nonneg _ _ Ho0) as Hserv.
  rewrite (config_service_time s s0 top_o o0) in Hserv
    by (try (symmetry; by apply frame_config); congruence).
  set (t := (v_time v + service_time s top_o)%Q) in *.
  set (s' := alter_order tid (mark_delivered t) (put_vehicle vk (after_delivery s v top_o) s)).
  assert (Hpicked' : forall j, picked_in s j -> picked_in s' j).
  { intros j Hj. apply picked_in_alter; [done |]. eapply picked_in_orders; [| done]. done. }
  assert (Hp : forall k f, picks (tr ++ [(vk, ADeliver tid t)]) k f <-> picks tr k f).
  { intros k f. apply picks_snoc_other. intros ? ? ?. discriminate. }
  split.
  - unfold s'. rewrite alter_order_frame by done.
    rewrite <- H1. by eapply put_vehicle_frame.
  - intros j f Hj%Hp. apply Hpicked'. eauto.
  - intros vk' v'' Hin. apply elem_of_put_vehicle in Hin as [Hin | ->].
    + destruct (H3 _ _ Hin) as [Hl'' Hst]. split; [done |].
      intros j Hj. destruct (Hst j Hj) as (oj0 & Hoj0 & Hpj & (f & Hexj) & Hbj).
      exists oj0. repeat split; try done.
      * by apply Hpicked'.
      * exists f. by apply Hp.
      * intros f' Hf'%Hp. by apply Hbj.
    + split; [done |]. simpl. intros j Hj%elem_of_removelast.
      destruct (Hcarried j Hj) as (oj0 & Hoj0 & Hpj & (f & Hexj) & Hbj).
      exists oj0. repeat split; try done.
      * by apply Hpicked'.
      * exists f. by apply Hp.
      * intros f' Hf'%Hp. eapply at_least_wait; [| | by apply Hbj]; simpl; [done | lra].
  - intros j t' [Hd | [-> ->]]%delivers_snoc_deliver.
    + destruct (H4 _ _ Hd) as (oj0 & Hoj0 & Hpj & (f & Hexj) & Hbj).
      exists oj0. repeat split; try done.
      * by apply Hpicked'.
      * exists f. by apply Hp.
      * intros f' Hf'%Hp. by apply Hbj.
    + exists o0. repeat split; try done.
      * by apply Hpicked'.
      * destruct Hex as [f Hf]. exists f. by apply Hp.
      * intros f Hf%Hp. destruct (Hb f Hf) as [[Hat _] | Hat]; [congruence |].
        rewrite Hloc, Hdl in Hat. unfold t. lra.
  - intros j oj t' Hin Ht. apply delivers_snoc_deliver.
    unfold s' in Hin. simpl in Hin.
    apply elem_of_dict_alter in Hin as [Hin | (-> & oj' & Hin & ->)].
    + left. eauto.
    + right. simpl in Ht. injection Ht as <-. done.
Qed.

(** One turn of any vehicle keeps the invariant and extends the log by the
    action taken. *)
Lemma causal_step until_time tr s vk s' p a :
  veh_step until_time s vk = Some (s', p, a) ->
  causal s0 tr s -> causal s0 (tr ++ [(vk, a)]) s'.
Proof.
  intros Hstep%veh_step_spec Hc. pose proof Hc as [H1 _ H3 _ _].
  inversion Hstep as
    [ v Hveh Hlate
    | v tid top_o free s1 Hveh Htime Htop Hloc Hfree Hle
    | v tid top_o free s1 s3 Hveh Htime Htop Hloc Hfree Hgt Hocc
    | v top k o arr trav rest free s1 Hveh Htime Htop Hnd Hsort Hfree Hle
    | v top k o arr trav rest free s1 s3 Hveh Htime Htop Hnd Hsort Hfree Hgt Hocc
    | v tid top_o Hveh Htime Htop Hloc Hfeas
    | v Hveh Htime Htop Hfeas ]; subst;
    pose proof (dict_get_elem_of _ _ _ Hveh) as Hvin;
    destruct (H3 _ _ Hvin) as [Hsite_v _];
    try (apply free_docks_spec in Hfree as (occ & plant & Hoccp & Hplant & -> & _));
    try (apply occupy_dock_spec in Hocc as (occ' & Hocc' & ->));
    try (apply chosen_candidate in Hsort as (Hin & (Hunpicked & _) & -> & -> & _));
    try (unfold stack_top in Htop;
         destruct (last (v_stack v)) as [tid' |] eqn:Hlast; [| discriminate];
         destruct (dict_get tid' (orders s)) as [top_o' |] eqn:Hget_top;
           simpl in Htop; [| discriminate];
         injection Htop as -> ->).
  - (* skip *)
    by apply causal_event.
  - (* no dock for the delivery *)
    eapply causal_ext;
      [ | | | eapply (causal_vehicle _ s vk v); [exact Hveh | | | | | by apply causal_event]];
      try done.
    left. simpl. unfold retry_increment. split; [done | lra].
  - (* delivery *)
    eapply causal_ext; [| | | by apply causal_deliver]; done.
  - (* no dock for the pickup *)
    assert (Hget : dict_get k (orders s) = Some o).
    { apply dict_get_NoDup; [| done]. by rewrite (frame_keys _ _ H1). }
    destruct (frame_order _ _ _ _ H1 Hget) as (o0 & Ho0 & Hstatic).
    injection Hstatic as _ Hpk _ _ _ _.
    destruct (order_sites _ _ Ho0) as [Hsite _].
    eapply causal_ext;
      [ | | | eapply (causal_vehicle _ s vk v); [exact Hveh | | | | | by apply causal_event]];
      try done.
    + simpl. by rewrite Hpk.
    + right. simpl. rewrite <- (config_travel_time s0 s) by (by apply frame_config).
      pose proof (earliest_start_ge v o). unfold retry_increment. lra.
  - (* pickup *)
    eapply causal_ext; [| | | apply causal_pickup]; try done.
    pose proof (earliest_start_ge v o). lra.
  - (* reposition *)
    destruct (frame_order _ _ _ _ H1 Hget_top) as (o0 & Ho0 & Hstatic).
    injection Hstatic as _ _ Hdl _ _ _.
    destruct (order_sites _ _ Ho0) as [_ Hsite].
    eapply (causal_vehicle _ s vk v); [exact Hveh | | | | | by apply causal_event]; try done.
    + simpl. by rewrite Hdl.
    + right. simpl. rewrite <- (config_travel_time s0 s) by (by apply frame_config). lra.
  - (* idle *)
    eapply (causal_vehicle _ s vk v); [exact Hveh | | | | | by apply causal_event]; try done.
    left. simpl. unfold retry_increment. split; [done | lra].
Qed.

Lemma causal_run_vehicles until_time ks tr s p0 s' p evs :
  run_vehicles until_time ks s p0 = Some (s', p, evs) ->
  causal s0 tr s -> causal s0 (tr ++ evs) s'.
Proof.
  revert tr s p0 s' p evs. induction ks as [| k ks IH]; simpl; intros tr s p0 s' p evs.
  - intros [= <- <- <-]. by rewrite app_nil_r.
  - destruct (veh_step until_time s k) as [[[s1 p1] a] |] eqn:Hstep; simpl; [| discriminate].
    destruct (run_vehicles until_time ks s1 (p0 || p1)) as [[[s2 p2] evs2] |] eqn:Hrun;
      simpl; [| discriminate].
    intros [= <- <- <-] Hc. rewrite cons_middle, app_assoc.
    eapply IH; [done |]. by eapply causal_step.
Qed.

Lemma causal_dispatch_loop fuel until_time tr s s' evs :
  dispatch_loop fuel until_time s = Some (s', evs) ->
  causal s0 tr s -> causal s0 (tr ++ evs) s'.
Proof.
  revert tr s s' evs. induction fuel as [| fuel IH]; simpl; intros tr s s' evs.
  - intros [= <- <-]. by rewrite app_nil_r.
  - destruct (has_undelivered until_time s); simpl;
      [| intros [= <- <-]; by rewrite app_nil_r].
    destruct (dispatch_pass until_time s) as [[[s1 p] evs1] |] eqn:Hpass;
      simpl; [| discriminate].
    unfold dispatch_pass in Hpass. destruct p; simpl.
    + destruct (dispatch_loop fuel until_time s1) as [[s2 evs2] |] eqn:Hloop;
        simpl; [| discriminate].
      intros [= <- <-] Hc. rewrite app_assoc. eapply IH; [done |].
      by eapply causal_run_vehicles.
    + intros [= <- <-] Hc. by eapply causal_run_vehicles.
Qed.

Lemma causal_reset : causal s0 [] (reset s0).
Proof.
  split.
  - apply reset_frame.
  - intros k f (vk & arr & H). by apply elem_of_nil in H.
  - intros vk v. simpl. intros (kv & [= -> ->] & Hin)%list_elem_of_fmap. split.
    + simpl. unfold sites. apply elem_of_app. left.
      apply list_elem_of_fmap. by exists kv.
    + simpl. intros k Hk. by apply elem_of_nil in Hk.
  - intros k t (vk & H). by apply elem_of_nil in H.
  - intros k o t. simpl. intros (ko & [= -> ->] & Hin)%list_elem_of_fmap. discriminate.
Qed.

Lemma causal_simulation until_time s' res evs :
  simulate_traced s0 until_time = Some (s', res, evs) -> causal s0 evs s'.
Proof.
  unfold simulate_traced.
  destruct (dispatch_loop max_iterations until_time (reset s0)) as [[s1 evs1] |] eqn:Hloop;
    simpl; [| discriminate].
  intros [= <- <- <-].
  apply (causal_dispatch_loop _ _ [] _ _ _ Hloop causal_reset).
Qed.

End Causality.

Lemma well_formed_facts s :
  well_formed s = true ->
  NoDup (dict_keys (orders s)) /\
  (forall k o, dict_get k (orders s) = Some o ->
     o_id o = k /\ o_pickup o <> o_delivery o /\ 0 <= o_qty o) /\
  (0 <= dock_service_time s)%Q /\ (0 <= unit_handling_time s)%Q /\
  (forall a b c, a ∈ sites s -> b ∈ sites s -> c ∈ sites s ->
     (_travel_time s a c <= _travel_time s a b + _travel_time s b c)%Q).
Proof.
  unfold well_formed. rewrite !andb_true_iff.
  intros [[[[Hd Ho] Hdst] Huht] Hm].
  assert (Hab : forall a b c, a ∈ sites s -> b ∈ sites s -> c ∈ sites s ->
            (_travel_time s a c <= _travel_time s a b + _travel_time s b c)%Q).
  { intros a b c Ha%list_elem_of_In Hb%list_elem_of_In Hc%list_elem_of_In.
    unfold metric_oracle in Hm. rewrite forallb_forall in Hm.
    specialize (Hm a Ha). rewrite forallb_forall in Hm.
    specialize (Hm b Hb). rewrite forallb_forall in Hm.
    by apply Qle_bool_iff, Hm. }
  split; [by apply distinct_NoDup |]. split; [| split; [| split]].
  - intros k o Hko%dict_get_elem_of%list_elem_of_In.
    rewrite forallb_forall in Ho. specialize (Ho _ Hko).
    unfold order_well_formed in Ho. simpl in Ho.
    apply andb_prop in Ho as [[Hid Hpd]%andb_prop Hq].
    apply Z.eqb_eq in Hid. apply negb_true_iff, Z.eqb_neq in Hpd. apply Z.leb_le in Hq.
    done.
  - by apply Qle_bool_iff.
  - by apply Qle_bool_iff.
  - exact Hab.
Qed.

(** The finish time logged for a pickup is the vehicle's clock when its
    turn ends. *)
Lemma pickup_finish_is_clock until_time s vk s' p k arr finish :
  veh_step until_time s vk = Some (s', p, APickup k arr finish) ->
  exists v', dict_get vk (vehicles s') = Some v' /\ v_time v' = finish.
Proof.
  intros Hstep%veh_step_spec. inversion Hstep; subst.
  match goal with H : _occupy_dock _ _ _ _ = Some _ |- _ =>
    apply occupy_dock_spec in H as (occ' & _ & ->) end.
  match goal with H : dict_get vk (vehicles s) = Some ?v |- _ =>
    exists (after_pickup s v o arr); split; [| done];
    simpl; rewrite dict_get_alter, Z.eqb_refl;
    match goal with Hf : _free_docks _ _ _ = Some _ |- _ =>
      apply free_docks_spec in Hf as (? & ? & _ & _ & -> & _) end;
    simpl; by rewrite H
  end.
Qed.

(** The travel-time margin, for clocks taken as exact rationals.  On a
    well-formed instance (every order stored under its own id, pickup and
    delivery plants distinct, quantities and service parameters
    non-negative, travel times between the sites of the instance obeying
    the triangle inequality), every order that a completed run reports as
    delivered has been picked up, and its delivered-time is at least the
    finish time of its pickup plus the oracle travel time from its pickup
    plant to its delivery plant.  The proof adds travel times along the
    route exactly; the clocks of the source are floating-point numbers, for
    which a sum of legs can round below the direct travel time, so this
    margin is a property of the idealised clocks only. *)
Theorem delivery_after_pickup_travel (s s' : DVRPSimulator) (until_time : Q)
    (res : Result) (evs : list Event) :
  well_formed s = true ->
  simulate_traced s until_time = Some (s', res, evs) ->
  forall k o0 out t,
    dict_get k (orders s) = Some o0 ->
    (k, out) ∈ r_orders res ->
    r_delivered_time out = Some t ->
    (exists f, picks evs k f) /\
    (forall f, picks evs k f ->
       (f + _travel_time s (o_pickup o0) (o_delivery o0) <= t)%Q).
Proof.
  intros (Hnd & Hwf & Hdst & Huht & Htri)%well_formed_facts Hsim k o0 out t Ho0 Hout Ht.
  pose proof (causal_simulation s Hnd Hwf Hdst Huht Htri _ _ _ _ Hsim) as [_ _ _ H4 H5].
  unfold simulate_traced in Hsim.
  destruct (dispatch_loop max_iterations until_time (reset s)) as [[s1 evs1] |];
    simpl in Hsim; [| discriminate].
  injection Hsim as <- <- <-. simpl in Hout.
  apply list_elem_of_fmap in Hout as ([k' o] & [= -> ->] & Hin). simpl in Ht.
  destruct (H4 _ _ (H5 _ _ _ Hin Ht)) as (o0' & Ho0' & _ & Hex & Hb).
  rewrite Ho0 in Ho0'. injection Ho0' as <-. done.
Qed.

Lemma delivery_after_pickup_witness :
  (exists f, picks CausalExample.log 1 f) /\
  (forall f, picks CausalExample.log 1 f ->
     (f + _travel_time Scenario.sim0 (o_pickup (Scenario.new_order 1 1 2 2 10 180))
            (o_delivery (Scenario.new_order 1 1 2 2 10 180)) <= 480 # 4)%Q).
Proof.
  apply (delivery_after_pickup_travel Scenario.sim0 ResultExample.final
           CausalExample.horizon ResultExample.result CausalExample.log)
    with (k := 1) (out := mkOrderOutcome true true (Some (480 # 4)%Q)).
  - vm_compute. reflexivity.
  - vm_compute. reflexivity.
  - reflexivity.
  - apply list_elem_of_In. vm_compute. left. reflexivity.
  - reflexivity.
Defined.

(** C9 as stated fails when the oracle is not a metric: order 1 is picked
    up at plant 1 at time 7 and delivered at plant 3 at time 27, by way of
    plant 2, while the travel-time table puts plant 3 at 1000 from plant 1. *)
Lemma delivery_before_direct_travel :
  exists s' res evs out,
    simulate_traced DetourExample.sim DetourExample.horizon = Some (s', res, evs) /\
    (1, APickup 1 1 7) ∈ evs /\
    (1, ADeliver 1 27) ∈ evs /\
    (1, out) ∈ r_orders res /\
    r_delivered_time out = Some 27%Q /\
    _travel_time DetourExample.sim 1 3 = 1000%Q /\
    ~ (7 + _travel_time DetourExample.sim 1 3 <= 27)%Q.
Proof.
  eexists _, _, _, _. split; [vm_compute; reflexivity |].
  split; [apply list_elem_of_In; simpl; auto |].
  split; [apply list_elem_of_In; simpl; auto 10 |].
  split; [left |]. split; [reflexivity |]. split; [reflexivity |].
  vm_compute. intros H. apply H. reflexivity.
Qed.

(** ** Isolation of evaluations (C10) *)

Section StoreFacts.
Import Store.

Lemma read_all_length h d xs : read_all h d = Some xs -> length xs = length d.
Proof.
  revert xs. induction d as [| [k a] d IH]; simpl; intros xs.
  - by intros [= <-].
  - destruct (h !! a) as [x |]; simpl; [| discriminate].
    destruct (read_all h d) as [xs' |]; simpl; [| discriminate].
    intros [= <-]. simpl. by rewrite (IH xs').
Qed.

Lemma read_all_valid h d :
  forallb (fun ka : Z * nat => ka.2 <? length h)%nat d = true ->
  exists xs, read_all h d = Some xs.
Proof.
  induction d as [| [k a] d IH]; simpl; [by exists [] |].
  intros [Ha Hd]%andb_prop. apply Nat.ltb_lt in Ha.
  destruct (lookup_lt_is_Some_2 h a Ha) as [x Hx]. destruct (IH Hd) as [xs Hxs].
  exists (x :: xs). by rewrite Hx, Hxs.
Qed.

Lemma read_all_app h post d :
  forallb (fun ka : Z * nat => ka.2 <? length h)%nat d = true ->
  read_all (h ++ post) d = read_all h d.
Proof.
  induction d as [| [k a] d IH]; simpl; [done |].
  intros [Ha Hd]%andb_prop. apply Nat.ltb_lt in Ha.
  by rewrite lookup_app_l, IH.
Qed.

(** Loading a dictionary of clones gives the values of the originals. *)
Lemma load_cloned {V} (proj : Obj -> option V) h d xs pre post :
  read_all h d = Some xs ->
  load_dict proj (pre ++ xs ++ post) (zip (dict_keys d) (seq (length pre) (length xs)))
  = load_dict proj h d.
Proof.
  revert xs pre. induction d as [| [k a] d IH]; simpl; intros xs pre.
  - by intros [= <-].
  - destruct (h !! a) as [x |]; simpl; [| discriminate].
    destruct (read_all h d) as [xs' |] eqn:Hxs; simpl; [| discriminate].
    intros [= <-]. simpl. rewrite list_lookup_middle by done. simpl.
    destruct (proj x) as [v |]; simpl; [| done].
    specialize (IH xs' (pre ++ [x]) eq_refl).
    rewrite length_app, <- app_assoc in IH. simpl in IH.
    rewrite Nat.add_1_r in IH. by rewrite IH.
Qed.

(** Writing to addresses beyond a prefix of the store leaves the prefix alone. *)
Lemma store_dict_suffix {V} (inj : V -> Obj) pre suf d (vs : list (Z * V)) :
  Forall (fun ka : Z * nat => (length pre <= ka.2)%nat) d ->
  exists suf', store_dict inj (pre ++ suf) d vs = pre ++ suf' /\ length suf' = length suf.
Proof.
  intros Hd. revert suf vs. induction Hd as [| [k a] d Ha Hd IH]; intros suf vs; simpl.
  - by exists suf.
  - destruct vs as [| [k' v] vs]; [by exists suf |].
    simpl in Ha. rewrite insert_app_r_alt by done.
    destruct (IH (<[(a - length pre)%nat := inj v]> suf) vs) as (suf' & -> & Hlen).
    exists suf'. split; [done |]. by rewrite Hlen, length_insert.
Qed.

Lemma insert_same_prefix pre suf i (x : Obj) :
  (i < length pre)%nat -> pre !! i = Some x -> <[i := x]> (pre ++ suf) = pre ++ suf.
Proof.
  intros Hi Hx. apply list_insert_id. by rewrite lookup_app_l.
Qed.

Lemma Forall_zip_seq (keys : list Z) n m base :
  (base <= n)%nat ->
  Forall (fun ka : Z * nat => (base <= ka.2)%nat) (zip keys (seq n m)).
Proof.
  intros Hn. apply Forall_forall. intros [k a] Hin.
  apply elem_of_zip_r in Hin. apply elem_of_seq in Hin. simpl. lia.
Qed.

Lemma valid_refs_inv h self os :
  valid_refs h self os = true ->
  exists ref xo xv,
    h !! self = Some (OSimulator ref) /\
    read_all h os = Some xo /\ read_all h (vehicles_refs ref) = Some xv /\
    forallb (fun ka : Z * nat => ka.2 <? length h)%nat (vehicles_refs ref) = true /\
    (plants_ref ref < length h)%nat /\ (distances_ref ref < length h)%nat /\
    (travel_times_ref ref < length h)%nat.
Proof.
  unfold valid_refs. destruct (h !! self) as [[| | | | ref] |]; try discriminate.
  rewrite !andb_true_iff, !Nat.ltb_lt. intros [[[[Hos Hvs] Hp] Hd] Ht].
  destruct (read_all_valid _ _ Hos) as [xo Hxo].
  destruct (read_all_valid _ _ Hvs) as [xv Hxv].
  exists ref, xo, xv. done.
Qed.

Lemma load_clone_store h self os ref xo xv ps :
  h !! self = Some (OSimulator ref) ->
  read_all h os = Some xo -> read_all h (vehicles_refs ref) = Some xv ->
  (plants_ref ref < length h)%nat -> (distances_ref ref < length h)%nat ->
  (travel_times_ref ref < length h)%nat ->
  h !! plants_ref ref = Some (OPlants ps) ->
  load_simulator (clone_store h xo xv ref os ps).1 (clone_store h xo xv ref os ps).2
  = snapshot h self os.
Proof.
  intros Hself Hxo Hxv Hp Hd Ht Hps. unfold load_simulator, snapshot, clone_store.
  cbn [fst snd plants_ref orders_refs vehicles_refs distances_ref travel_times_ref
       service_parameters dock_table].
  rewrite Hself. cbn [mbind option_bind as_simulator].
  rewrite <- !app_assoc.
  rewrite !(lookup_app_l h) by done. rewrite Hps. cbn [mbind option_bind as_plants].
  rewrite (load_cloned as_order h os xo h _ Hxo).
  destruct (load_dict as_order h os) as [ovals |]; [| done]. cbn [mbind option_bind].
  rewrite (app_assoc h xo), (load_cloned as_vehicle h (vehicles_refs ref) xv (h ++ xo) _ Hxv).
  done.
Qed.

Lemma evaluate_eq h self os :
  valid_refs h self os = true ->
  exists ref xo xv,
    h !! self = Some (OSimulator ref) /\
    read_all h os = Some xo /\ read_all h (vehicles_refs ref) = Some xv /\
    (plants_ref ref < length h)%nat /\ (distances_ref ref < length h)%nat /\
    (travel_times_ref ref < length h)%nat /\
    forall ps, h !! plants_ref ref = Some (OPlants ps) ->
      evaluate h self os =
      s ← snapshot h self os;
      r ← simulate_values s default_until_time;
      Some (store_simulator (clone_store h xo xv ref os ps).1 (length ((h ++ xo) ++ xv))
              (clone_store h xo xv ref os ps).2 r.1,
            (objective r.2, r.2)).
Proof.
  intros (ref & xo & xv & Hself & Hxo & Hxv & Hvs & Hp & Hd & Ht)%valid_refs_inv.
  exists ref, xo, xv. do 6 (split; [done |]). intros ps Hps.
  rewrite <- (load_clone_store h self os ref xo xv ps) by done.
  unfold evaluate, deepcopy_values. rewrite Hself. cbn [mbind option_bind as_simulator].
  rewrite Hxo. cbn [mbind option_bind].
  rewrite (read_all_app h xo) by done. rewrite Hxv. cbn [mbind option_bind].
  rewrite <- app_assoc, (lookup_app_l h) by done. rewrite Hps.
  cbn [mbind option_bind as_plants]. unfold simulate_with_tracking.
  unfold clone_store. cbn [fst snd]. rewrite !app_assoc.
  rewrite list_lookup_middle by done. cbn [mbind option_bind as_simulator].
  destruct (load_simulator _ _) as [s |]; [| done]. cbn [mbind option_bind].
  destruct (simulate_values s default_until_time) as [[s' res] |]; done.
Qed.

Lemma simulate_values_frame s until_time s' res :
  simulate_values s until_time = Some (s', res) -> frame s' = frame s.
Proof.
  rewrite simulate_with_tracking_traced.
  destruct (simulate_traced s until_time) as [[[s1 res1] evs] |] eqn:Hsim;
    simpl; [| discriminate].
  intros [= <- <-]. apply simulate_traced_turns in Hsim.
  rewrite <- (reset_frame s). by eapply run_turns_frame.
Qed.

Lemma snapshot_tables h self os ref s :
  h !! self = Some (OSimulator ref) ->
  snapshot h self os = Some s ->
  h !! plants_ref ref = Some (OPlants (plants s)) /\
  h !! distances_ref ref = Some (OTable (distances s)) /\
  h !! travel_times_ref ref = Some (OTable (travel_times s)).
Proof.
  intros Hself. unfold snapshot. rewrite Hself. cbn [mbind option_bind as_simulator].
  destruct (h !! plants_ref ref) as [[| | ps | |] |]; try discriminate.
  cbn [mbind option_bind as_plants].
  destruct (load_dict as_order h os) as [ovals |]; [| discriminate].
  destruct (load_dict as_vehicle h (vehicles_refs ref)) as [vvals |]; [| discriminate].
  cbn [mbind option_bind].
  destruct (h !! distances_ref ref) as [[| | | ds |] |]; try discriminate.
  cbn [mbind option_bind as_table].
  destruct (h !! travel_times_ref ref) as [[| | | tts |] |]; try discriminate.
  cbn [mbind option_bind as_table]. by intros [= <-].
Qed.

(** The run on the clones writes nothing below the end of the caller's store. *)
Lemma store_clone_frame h self os ref xo xv s s' :
  h !! self = Some (OSimulator ref) ->
  (plants_ref ref < length h)%nat -> (distances_ref ref < length h)%nat ->
  (travel_times_ref ref < length h)%nat ->
  snapshot h self os = Some s ->
  frame s' = frame s ->
  exists ext,
    store_simulator (clone_store h xo xv ref os (plants s)).1 (length ((h ++ xo) ++ xv))
      (clone_store h xo xv ref os (plants s)).2 s'
    = h ++ ext.
Proof.
  intros Hself Hp Hd Ht Hsnap Hframe.
  destruct (snapshot_tables _ _ _ _ _ Hself Hsnap) as (Hps & Hds & Htts).
  apply frame_config in Hframe. unfold config in Hframe.
  injection Hframe as Hpl Hdi Htt _ _ _.
  unfold store_simulator, clone_store.
  cbn [fst snd plants_ref orders_refs vehicles_refs distances_ref travel_times_ref
       service_parameters dock_table].
  rewrite <- !app_assoc.
  match goal with |- context [store_dict OOrder (h ++ ?suf) ?d ?vs] =>
    destruct (store_dict_suffix OOrder h suf d vs) as (suf1 & -> & Hlen1);
      [by apply Forall_zip_seq |] end.
  match goal with |- context [store_dict OVehicle (h ++ suf1) ?d ?vs] =>
    destruct (store_dict_suffix OVehicle h suf1 d vs) as (suf2 & -> & Hlen2);
      [apply Forall_zip_seq; rewrite length_app; lia |] end.
  rewrite Hpl, Hdi, Htt.
  rewrite !insert_same_prefix by done.
  rewrite insert_app_r_alt by (rewrite !length_app; lia).
  by eexists.
Qed.

Lemma load_dict_app {V} (proj : Obj -> option V) h post d :
  forallb (fun ka : Z * nat => ka.2 <? length h)%nat d = true ->
  load_dict proj (h ++ post) d = load_dict proj h d.
Proof.
  induction d as [| [k a] d IH]; simpl; [done |].
  intros [Ha Hd]%andb_prop. apply Nat.ltb_lt in Ha.
  by rewrite lookup_app_l, IH.
Qed.

(** Objects appended to the store change neither the validity of the
    references of a call nor what the call depends on. *)
Lemma valid_refs_app h ext self os :
  valid_refs h self os = true ->
  valid_refs (h ++ ext) self os = true /\
  snapshot (h ++ ext) self os = snapshot h self os.
Proof.
  intros Hvalid. pose proof Hvalid as Hv. unfold valid_refs in Hv.
  destruct (h !! self) as [[| | | | ref] |] eqn:Hself; try discriminate.
  assert (Hself' : (h ++ ext) !! self = Some (OSimulator ref)).
  { rewrite lookup_app_l; [done |]. by eapply lookup_lt_Some. }
  rewrite !andb_true_iff, !Nat.ltb_lt in Hv. destruct Hv as [[[[Hos Hvs] Hp] Hd] Ht].
  split.
  - unfold valid_refs. rewrite Hself'.
    rewrite !andb_true_iff, !Nat.ltb_lt, length_app.
    repeat split; try lia.
    + apply forallb_forall. intros ka Hka. rewrite forallb_forall in Hos.
      specialize (Hos _ Hka). apply Nat.ltb_lt in Hos. apply Nat.ltb_lt. lia.
    + apply forallb_forall. intros ka Hka. rewrite forallb_forall in Hvs.
      specialize (Hvs _ Hka). apply Nat.ltb_lt in Hvs. apply Nat.ltb_lt. lia.
  - unfold snapshot. rewrite Hself', Hself. cbn [mbind option_bind as_simulator].
    rewrite !(lookup_app_l h) by done. by rewrite !load_dict_app.
Qed.

(** C10.  A call of [evaluate] leaves every object that existed before the
    call as it was (the input order set, the reference simulator with its
    orders, vehicles and dock table, the plants and the oracle tables): the
    store after the call is the store before it, followed by what the call
    has allocated.  What the call returns is determined by the values of
    the order set and of the reference configuration alone, so any call on
    an equal snapshot returns the same objective and result, in particular
    a second call right after the first. *)
Theorem evaluate_isolated (h : list Obj) (self_simulator : nat) (os : list (Z * nat))
    (h1 : list Obj) (c : Q) (r : Result) :
  valid_refs h self_simulator os = true ->
  evaluate h self_simulator os = Some (h1, (c, r)) ->
  (exists ext, h1 = h ++ ext) /\
  (exists s s',
     snapshot h self_simulator os = Some s /\
     simulate_values s default_until_time = Some (s', r) /\ c = objective r) /\
  (forall h' self' os',
     valid_refs h' self' os' = true ->
     snapshot h' self' os' = snapshot h self_simulator os ->
     exists h2, evaluate h' self' os' = Some (h2, (c, r))) /\
  (exists h2, evaluate h1 self_simulator os = Some (h2, (c, r))).
Proof.
  intros Hvalid Heval.
  destruct (evaluate_eq _ _ _ Hvalid)
    as (ref & xo & xv & Hself & Hxo & Hxv & Hp & Hd & Ht & Heq).
  destruct (lookup_lt_is_Some_2 h _ Hp) as [x Hx].
  destruct (snapshot h self_simulator os) as [s |] eqn:Hsnap.
  2:{ exfalso. destruct x as [| | ps | |];
        try (unfold evaluate, deepcopy_values in Heval; rewrite Hself in Heval;
             cbn [mbind option_bind as_simulator] in Heval;
             rewrite Hxo in Heval; cbn [mbind option_bind] in Heval;
             rewrite (read_all_app h xo) in Heval
               by (by destruct (valid_refs_inv _ _ _ Hvalid)
                         as (ref' & ? & ? & Hself' & _ & _ & Hvs & _);
                   rewrite Hself in Hself'; injection Hself' as <-);
             rewrite Hxv in Heval; cbn [mbind option_bind] in Heval;
             rewrite <- app_assoc, (lookup_app_l h), Hx in Heval by done;
             discriminate).
      rewrite (Heq ps Hx) in Heval. discriminate. }
  destruct (snapshot_tables _ _ _ _ _ Hself Hsnap) as (Hps & _ & _).
  rewrite (Heq _ Hps) in Heval. cbn [mbind option_bind] in Heval.
  destruct (simulate_values s default_until_time) as [[s' res] |] eqn:Hsim;
    cbn [mbind option_bind fst snd] in Heval; [| discriminate].
  injection Heval as <- <- <-.
  assert (Hsame : forall h' self' os',
            valid_refs h' self' os' = true ->
            snapshot h' self' os' = Some s ->
            exists h2, evaluate h' self' os' = Some (h2, (objective res, res))).
  { intros h' self' os' Hvalid' Hsnap'.
    destruct (evaluate_eq _ _ _ Hvalid')
      as (ref' & xo' & xv' & Hself' & _ & _ & _ & _ & _ & Heq').
    destruct (snapshot_tables _ _ _ _ _ Hself' Hsnap') as (Hps' & _ & _).
    rewrite (Heq' _ Hps'), Hsnap'. cbn [mbind option_bind]. rewrite Hsim.
    cbn [mbind option_bind fst snd]. by eexists. }
  destruct (store_clone_frame h self_simulator os ref xo xv s s' Hself Hp Hd Ht Hsnap)
    as [ext Hext]; [by eapply simulate_values_frame |].
  unfold clone_store in Hext. cbn [fst snd] in Hext.
  split; [by exists ext |]. split; [by exists s, s' |]. split.
  - intros h' self' os' Hvalid' Hsnap'. by apply Hsame.
  - rewrite Hext. destruct (valid_refs_app h ext _ _ Hvalid) as [Hvalid' Hsnap'].
    apply Hsame; [done | by rewrite Hsnap'].
Qed.

End StoreFacts.

Lemma evaluate_isolated_witness :
  (exists ext, StoreExample.returned.1 = StoreExample.store0 ++ ext) /\
  (exists s s',
     Store.snapshot StoreExample.store0 StoreExample.self
       (Store.orders_refs StoreExample.reference) = Some s /\
     simulate_with_tracking s default_until_time = Some (s', StoreExample.returned.2.2) /\
     StoreExample.returned.2.1 = objective StoreExample.returned.2.2) /\
  (forall h' self' os',
     Store.valid_refs h' self' os' = true ->
     Store.snapshot h' self' os'
     = Store.snapshot StoreExample.store0 StoreExample.self
         (Store.orders_refs StoreExample.reference) ->
     exists h2,
       Store.evaluate h' self' os'
       = Some (h2, (StoreExample.returned.2.1, StoreExample.returned.2.2))) /\
  (exists h2,
     Store.evaluate StoreExample.returned.1 StoreExample.self
       (Store.orders_refs StoreExample.reference)
     = Some (h2, (StoreExample.returned.2.1, StoreExample.returned.2.2))).
Proof.
  apply (evaluate_isolated StoreExample.store0 StoreExample.self
           (Store.orders_refs StoreExample.reference)
           StoreExample.returned.1 StoreExample.returned.2.1 StoreExample.returned.2.2).
  - vm_compute. reflexivity.
  - vm_compute. reflexivity.
Defined.

(** By contrast, running the reference simulator itself writes to its own
    orders: the model does express mutation through shared objects. *)
Lemma simulate_in_place_mutates :
  StoreExample.store0 !! 3%nat = Some (Store.OOrder (Scenario.new_order 1 1 2 2 10 180)) /\
  (Store.as_order <$> StoreExample.in_place !! 3%nat)
  = Some (Some (mkOrder 1 1 2 2 10 180 true true (Some (480 # 4)%Q))) /\
  length StoreExample.in_place = length StoreExample.store0.
Proof.
  repeat split; vm_compute; reflexivity.
Qed.

(** * Further properties of the simulator and the optimizer *)

(** ** Dock queries and reservations *)

Lemma active_at_mono t t' r : (t <= t')%Q -> active_at t' r = true -> active_at t r = true.
Proof.
  unfold active_at. rewrite !Qlt_bool_iff. intros. lra.
Qed.

Lemma filter_filter_imp {A} (f g : A -> bool) (l : list A) :
  (forall x, f x = true -> g x = true) ->
  List.filter f (List.filter g l) = List.filter f l.
Proof.
  intros Hfg. induction l as [| x l IH]; simpl; [done |].
  destruct (g x) eqn:Hg; simpl.
  - destruct (f x); by rewrite IH.
  - destruct (f x) eqn:Hf; [| done]. apply Hfg in Hf. congruence.
Qed.

Lemma filter_length_imp {A} (f g : A -> bool) (l : list A) :
  (forall x, f x = true -> g x = true) ->
  (length (List.filter f l) <= length (List.filter g l))%nat.
Proof.
  intros Hfg. induction l as [| x l IH]; simpl; [done |].
  destruct (f x) eqn:Hf.
  - rewrite (Hfg _ Hf). simpl. lia.
  - destruct (g x); simpl; lia.
Qed.

(** X1.  Lazy pruning is sound for queries that do not go back in time:
    repeating a capacity query at the same time returns the same count and
    changes nothing more; a query at a later time gives the same count and
    the same table whether or not the earlier query has pruned, and never
    reports fewer free docks than the earlier one. *)
Theorem free_docks_requery (s : DVRPSimulator) (p : Z) (t : Q) (free : Z)
    (s1 : DVRPSimulator) :
  _free_docks s p t = Some (free, s1) ->
  _free_docks s1 p t = Some (free, s1) /\
  (forall t', (t <= t')%Q ->
     exists free' s2,
       _free_docks s p t' = Some (free', s2) /\
       _free_docks s1 p t' = Some (free', s2) /\
       free <= free').
Proof.
  intros (occ & pl & Hocc & Hpl & -> & ->)%free_docks_spec.
  assert (Hlater : forall t', (t <= t')%Q ->
            List.filter (active_at t') (List.filter (active_at t) occ)
            = List.filter (active_at t') occ).
  { intros t' Ht. apply filter_filter_imp. intros r. by apply active_at_mono. }
  split.
  - unfold _free_docks. simpl. rewrite lookup_insert_eq. simpl. rewrite Hpl. simpl.
    rewrite (Hlater t) by lra. by rewrite insert_insert_eq.
  - intros t' Ht. eexists _, _. split; [| split].
    + unfold _free_docks. rewrite Hocc. simpl. rewrite Hpl. simpl. reflexivity.
    + unfold _free_docks. simpl. rewrite lookup_insert_eq. simpl. rewrite Hpl. simpl.
      rewrite (Hlater t' Ht). by rewrite insert_insert_eq.
    + pose proof (filter_length_imp (active_at t') (active_at t) occ
                    (fun r => active_at_mono t t' r Ht)). lia.
Qed.

Lemma free_docks_requery_witness :
  _free_docks DockQueryExample.queried 2 30 = Some (0, DockQueryExample.queried) /\
  (forall t', (30 <= t')%Q ->
     exists free' s2,
       _free_docks DockWaitExample.before 2 t' = Some (free', s2) /\
       _free_docks DockQueryExample.queried 2 t' = Some (free', s2) /\
       0 <= free').
Proof.
  apply (free_docks_requery DockWaitExample.before 2 30 0 DockQueryExample.queried).
  vm_compute. reflexivity.
Defined.

Lemma filter_snoc {A} (f : A -> bool) (l : list A) (x : A) :
  List.filter f (l ++ [x]) = List.filter f l ++ (if f x then [x] else []).
Proof.
  induction l as [| y l IH]; simpl; [by destruct (f x) |].
  destruct (f y); simpl; by rewrite IH.
Qed.

(** X2.  A reservation made until time [u] takes one dock away from every
    query before [u] and none from [u] on: compared with the same query
    before the reservation, the count of free docks is one less (or stays
    at zero) when the query time is before [u], and the same otherwise. *)
Theorem occupy_dock_then_query (s s1 s2 : DVRPSimulator) (p vid : Z) (u t : Q) (free : Z) :
  _occupy_dock s p vid u = Some s1 ->
  _free_docks s p t = Some (free, s2) ->
  exists free' s3,
    _free_docks s1 p t = Some (free', s3) /\
    ((u <= t)%Q -> free' = free /\ s3 = s2) /\
    ((t < u)%Q -> free' = Z.max 0 (free - 1) /\ (0 < free -> free' = free - 1)).
Proof.
  intros (occ & Hocc & ->)%occupy_dock_spec (occ' & pl & Hocc' & Hpl & -> & ->)%free_docks_spec.
  rewrite Hocc in Hocc'. injection Hocc' as <-.
  eexists _, _. split.
  { unfold _free_docks. simpl. rewrite lookup_insert_eq. simpl. rewrite Hpl. simpl.
    reflexivity. }
  rewrite filter_snoc. change (active_at t (vid, u)) with (Qlt_bool t u).
  split.
  - intros Hut. apply Qlt_bool_false in Hut. rewrite Hut, app_nil_r.
    split; [done |]. by rewrite insert_insert_eq.
  - intros Htu. apply Qlt_bool_iff in Htu. rewrite Htu, length_app. simpl.
    split; lia.
Qed.

Lemma occupy_dock_then_query_witness :
  exists free' s3,
    _free_docks DockQueryExample.reserved 1 40 = Some (free', s3) /\
    ((50 <= 40)%Q ->
     free' = 1 /\ s3 = default DockExample.state (snd <$> _free_docks DockExample.state 1 40)) /\
    ((40 < 50)%Q -> free' = Z.max 0 (1 - 1) /\ (0 < 1 -> free' = 1 - 1)).
Proof.
  apply (occupy_dock_then_query DockExample.state DockQueryExample.reserved
           (default DockExample.state (snd <$> _free_docks DockExample.state 1 40))
           1 7 50 40 1).
  - vm_compute. reflexivity.
  - vm_compute. reflexivity.
Defined.

(** ** Symmetry of the oracle *)

Lemma symmetric_table_lookup m a b x y :
  symmetric_table m = true -> m !! (a, b) = Some x -> m !! (b, a) = Some y -> (x == y)%Q.
Proof.
  unfold symmetric_table. rewrite forallb_forall. intros H Hab Hba.
  apply elem_of_map_to_list, list_elem_of_In in Hab. apply H in Hab.
  simpl in Hab. rewrite Hba in Hab. by apply Qeq_bool_iff.
Qed.

(** X3.  When each table agrees with itself on the pairs it stores in both
    orientations, the oracle is symmetric: travel time and distance from
    [a] to [b] equal those from [b] to [a], whatever is stored or missing. *)
Theorem oracle_symmetric (s : DVRPSimulator) (a b : Z) :
  symmetric_table (travel_times s) = true ->
  symmetric_table (distances s) = true ->
  (_travel_time s a b == _travel_time s b a)%Q /\
  (_distance s a b == _distance s b a)%Q.
Proof.
  intros Ht Hd.
  assert (Hdist : forall dflt : Q,
            (default (default dflt (distances s !! (b, a))) (distances s !! (a, b))
             == default (default dflt (distances s !! (a, b))) (distances s !! (b, a)))%Q).
  { intros dflt.
    destruct (distances s !! (a, b)) as [x |] eqn:Hab,
             (distances s !! (b, a)) as [y |] eqn:Hba; simpl; try reflexivity.
    by apply (symmetric_table_lookup (distances s) a b). }
  split; [| apply Hdist].
  unfold _travel_time.
  destruct (travel_times s !! (a, b)) as [x |] eqn:Hab,
           (travel_times s !! (b, a)) as [y |] eqn:Hba; try reflexivity.
  - by apply (symmetric_table_lookup (travel_times s) a b).
  - by rewrite (Hdist 1%Q).
Qed.

Lemma oracle_symmetric_witness :
  (_travel_time Scenario.sim0 1 3 == _travel_time Scenario.sim0 3 1)%Q /\
  (_distance Scenario.sim0 1 3 == _distance Scenario.sim0 3 1)%Q.
Proof.
  apply (oracle_symmetric Scenario.sim0 1 3).
  - vm_compute. reflexivity.
  - vm_compute. reflexivity.
Defined.

(** ** Loads, stacks and flags during a run *)

Lemma keyed_facts s :
  keyed s = true ->
  NoDup (dict_keys (orders s)) /\
  (forall k o, dict_get k (orders s) = Some o -> o_id o = k).
Proof.
  unfold keyed, stored_under_ids. intros [Hd Hk]%andb_prop. split; [by apply distinct_NoDup |].
  intros k o Hko%dict_get_elem_of%list_elem_of_In.
  rewrite forallb_forall in Hk. specialize (Hk _ Hko). simpl in Hk. lia.
Qed.

Lemma quantities_nonneg_facts s :
  quantities_nonneg s = true ->
  (forall k o, (k, o) ∈ orders s -> 0 <= o_qty o) /\
  (forall vk v, (vk, v) ∈ vehicles s -> 0 <= v_capacity v).
Proof.
  unfold quantities_nonneg. intros [Ho Hv]%andb_prop. rewrite forallb_forall in Ho, Hv.
  split.
  - intros k o Hin%list_elem_of_In. specialize (Ho _ Hin). simpl in Ho. lia.
  - intros vk v Hin%list_elem_of_In. specialize (Hv _ Hin). simpl in Hv. lia.
Qed.

Lemma stack_qty_snoc s st k : stack_qty s (st ++ [k]) = stack_qty s st + order_qty s k.
Proof.
  unfold stack_qty. induction st as [| j st IH]; simpl; [lia |]. rewrite IH. lia.
Qed.

Lemma ascending_snoc l y :
  ascending l -> (forall x, last l = Some x -> (x <= y)%Q) -> ascending (l ++ [y]).
Proof.
  induction l as [| a [| b l] IH]; simpl; intros Hl Hy; [done | |].
  - split; [by apply Hy | done].
  - destruct Hl as [Hab Hl]. split; [done |]. apply IH; [done |].
    intros x Hx. apply Hy. exact Hx.
Qed.

Lemma ascending_prefix l y : ascending (l ++ [y]) -> ascending l.
Proof.
  induction l as [| a [| b l] IH]; simpl; try done.
  intros [Hab Hl]. split; [done |]. by apply IH.
Qed.

Lemma list_sum_dict_alter {V} (g : Z * V -> nat) vk (v v' : V) (d : list (Z * V)) :
  dict_get vk d = Some v ->
  (list_sum (map g (dict_alter (fun _ => v') vk d)) + g (vk, v)
   = list_sum (map g d) + g (vk, v'))%nat.
Proof.
  induction d as [| [k0 v0] d IH]; simpl; [discriminate |].
  destruct (Z.eqb_spec k0 vk) as [-> | Hne].
  - intros [= ->]. simpl. lia.
  - intros Hget%IH. simpl. lia.
Qed.

Lemma list_sum_zero {A} (l : list A) : list_sum (map (fun _ => 0%nat) l) = 0%nat.
Proof. induction l as [| a l IH]; simpl; [done | exact IH]. Qed.

Lemma on_stacks_put_vehicle s vk v v' k :
  dict_get vk (vehicles s) = Some v ->
  (on_stacks (put_vehicle vk v' s) k + count_occ Z.eq_dec (v_stack v) k
   = on_stacks s k + count_occ Z.eq_dec (v_stack v') k)%nat.
Proof.
  intros Hv. unfold on_stacks. simpl.
  apply (list_sum_dict_alter
           (fun kv : Z * Vehicle => count_occ Z.eq_dec (v_stack kv.2) k) vk v v' _ Hv).
Qed.

Lemma on_stacks_positive s vk v k :
  (vk, v) ∈ vehicles s -> k ∈ v_stack v -> (1 <= on_stacks s k)%nat.
Proof.
  intros Hin Hk. unfold on_stacks.
  apply list_elem_of_In, (count_occ_In Z.eq_dec) in Hk.
  induction (vehicles s) as [| kv d IH]; [by apply elem_of_nil in Hin |].
  apply elem_of_cons in Hin as [<- | Hin]; simpl; [lia |].
  specialize (IH Hin). lia.
Qed.

Lemma count_occ_snoc (l : list Z) x k :
  count_occ Z.eq_dec (l ++ [x]) k
  = (count_occ Z.eq_dec l k + if Z.eq_dec x k then 1 else 0)%nat.
Proof.
  rewrite count_occ_app. simpl. by destruct (Z.eq_dec x k).
Qed.

Lemma in_transit_alter_ne s j f k :
  j <> k -> in_transit (alter_order j f s) k = in_transit s k.
Proof.
  intros Hne. unfold in_transit. simpl. rewrite dict_get_alter.
  destruct (Z.eqb_spec j k); [congruence | done].
Qed.

Lemma engine_inv_ext s0 s s' :
  frame s' = frame s -> orders s' = orders s -> vehicles s' = vehicles s ->
  engine_inv s0 s -> engine_inv s0 s'.
Proof.
  intros Hf Ho Hv [H1 H2 H3 H4 H5]. split.
  - by rewrite Hf.
  - intros vk v. rewrite Hv. apply H2.
  - intros vk v. rewrite Hv. apply H3.
  - intros k. unfold on_stacks, in_transit. rewrite Hv, Ho. apply H4.
  - intros k o. rewrite Ho. apply H5.
Qed.

(** A turn that only moves the vehicle or advances its clock. *)
Lemma engine_inv_vehicle s0 s vk v v' :
  dict_get vk (vehicles s) = Some v ->
  vehicle_static v' = vehicle_static v ->
  v_stack v' = v_stack v -> v_load v' = v_load v ->
  engine_inv s0 s -> engine_inv s0 (put_vehicle vk v' s).
Proof.
  intros Hv Hst Hstack Hload [H1 H2 H3 H4 H5].
  pose proof (dict_get_elem_of _ _ _ Hv) as Hin.
  split.
  - rewrite <- H1. by eapply put_vehicle_frame.
  - intros vk' v'' [Hold | ->]%elem_of_put_vehicle; [by eapply H2 |].
    rewrite Hstack, Hload. destruct (H2 _ _ Hin) as [Hl Hc]. split; [done |].
    injection Hst as _ -> _. done.
  - intros vk' v'' [Hold | ->]%elem_of_put_vehicle; [by eapply H3 |].
    rewrite Hstack. by eapply H3.
  - intros k. pose proof (on_stacks_put_vehicle s vk v v' k Hv) as Hsum.
    rewrite Hstack in Hsum. specialize (H4 k).
    change (in_transit (put_vehicle vk v' s) k) with (in_transit s k).
    rewrite <- H4. lia.
  - intros k o. apply H5.
Qed.

Section EngineInvariant.
Variable s0 : DVRPSimulator.
Hypothesis keys_distinct : NoDup (dict_keys (orders s0)).
Hypothesis keys_are_ids : forall k o, dict_get k (orders s0) = Some o -> o_id o = k.
Hypothesis qty_nonneg : forall k o, (k, o) ∈ orders s0 -> 0 <= o_qty o.

Lemma engine_inv_pickup s vk v top k o arr :
  dict_get vk (vehicles s) = Some v ->
  stack_top s v = Some top ->
  (k, o) ∈ orders s ->
  feasible v top o ->
  engine_inv s0 s ->
  engine_inv s0 (alter_order k mark_picked (put_vehicle vk (after_pickup s v o arr) s)).
Proof.
  intros Hv Htop Hko (Hunpicked & Hundelivered & Hcap & Hdue) [H1 H2 H3 H4 H5].
  assert (Hget : dict_get k (orders s) = Some o).
  { apply dict_get_NoDup; [| done]. by rewrite (frame_keys _ _ H1). }
  destruct (frame_order _ _ _ _ H1 Hget) as (o0 & Ho0 & Hstatic).
  injection Hstatic as Hid _ _ Hqty _ Hdue0.
  pose proof (keys_are_ids _ _ Ho0) as Hkey.
  pose proof (dict_get_elem_of _ _ _ Hv) as Hvin.
  split.
  - rewrite alter_order_frame by done. rewrite <- H1. by eapply put_vehicle_frame.
  - intros vk' v'' Hin. simpl in Hin.
    apply (elem_of_put_vehicle vk _ s) in Hin as [Hold | ->]; [by eapply H2 |].
    destruct (H2 _ _ Hvin) as [Hl Hc]. simpl. split; [| done].
    rewrite stack_qty_snoc, <- Hl. unfold order_qty. rewrite Hid, Hkey, Ho0. simpl. lia.
  - intros vk' v'' Hin. simpl in Hin.
    apply (elem_of_put_vehicle vk _ s) in Hin as [Hold | ->]; [by eapply H3 |].
    simpl. unfold stack_dues. rewrite map_app. simpl.
    apply ascending_snoc; [by eapply H3 |].
    intros x Hx. rewrite fmap_last in Hx.
    destruct (last (v_stack v)) as [tid |] eqn:Hlast; [| discriminate].
    simpl in Hx. injection Hx as <-.
    unfold stack_top in Htop. rewrite Hlast in Htop.
    destruct (dict_get tid (orders s)) as [top_o |] eqn:Htid; simpl in Htop; [| discriminate].
    injection Htop as <-. specialize (Hdue _ _ eq_refl).
    destruct (frame_order _ _ _ _ H1 Htid) as (t0 & Ht0 & Hst).
    injection Hst as _ _ _ _ _ Hdue_t.
    unfold order_due. rewrite Ht0, Hid, Hkey, Ho0. simpl.
    rewrite <- Hdue_t, <- Hdue0. done.
  - intros j.
    pose proof (on_stacks_put_vehicle s vk v (after_pickup s v o arr) j Hv) as Hsum.
    simpl in Hsum. rewrite count_occ_snoc in Hsum.
    change (on_stacks (alter_order k mark_picked (put_vehicle vk (after_pickup s v o arr) s)) j)
      with (on_stacks (put_vehicle vk (after_pickup s v o arr) s) j).
    specialize (H4 j). rewrite Hid, Hkey in Hsum.
    destruct (Z.eq_dec k j) as [<- | Hne].
    + assert (in_transit s k = false) as Hbefore.
      { unfold in_transit. by rewrite Hget, Hunpicked. }
      rewrite Hbefore in H4.
      assert (in_transit
                (alter_order k mark_picked (put_vehicle vk (after_pickup s v o arr) s)) k
              = true) as ->.
      { unfold in_transit. simpl. rewrite dict_get_alter, Z.eqb_refl, Hget. simpl.
        by rewrite Hundelivered. }
      lia.
    + rewrite in_transit_alter_ne by done.
      change (in_transit (put_vehicle vk (after_pickup s v o arr) s) j) with (in_transit s j).
      rewrite <- H4. lia.
  - intros j oj Hin. simpl in Hin.
    apply elem_of_dict_alter in Hin as [Hin | (-> & oj' & Hin & ->)]; [by eapply H5 | done].
Qed.

Lemma engine_inv_deliver s vk v tid top_o :
  dict_get vk (vehicles s) = Some v ->
  last (v_stack v) = Some tid ->
  dict_get tid (orders s) = Some top_o ->
  engine_inv s0 s ->
  engine_inv s0
    (alter_order tid (mark_delivered (v_time v + service_time s top_o)%Q)
       (put_vehicle vk (after_delivery s v top_o) s)).
Proof.
  intros Hv Hlast Htid [H1 H2 H3 H4 H5].
  destruct (frame_order _ _ _ _ H1 Htid) as (t0 & Ht0 & Hstatic).
  injection Hstatic as _ _ _ Hqty _ _.
  pose proof (dict_get_elem_of _ _ _ Hv) as Hvin.
  pose proof (qty_nonneg _ _ (dict_get_elem_of _ _ _ Ht0)) as Hq.
  apply last_Some in Hlast as [st Hst].
  assert (Htransit : in_transit s tid = true).
  { pose proof (on_stacks_positive s vk v tid Hvin) as Hpos.
    specialize (H4 tid). destruct (in_transit s tid); [done |].
    rewrite Hst in Hpos. specialize (Hpos ltac:(apply elem_of_app; right; left)). lia. }
  assert (Hpicked : o_picked top_o = true).
  { unfold in_transit in Htransit. rewrite Htid in Htransit.
    by apply andb_prop in Htransit as [? _]. }
  set (t := (v_time v + service_time s top_o)%Q).
  split.
  - rewrite alter_order_frame by done. rewrite <- H1. by eapply put_vehicle_frame.
  - intros vk' v'' Hin. simpl in Hin.
    apply (elem_of_put_vehicle vk _ s) in Hin as [Hold | ->]; [by eapply H2 |].
    destruct (H2 _ _ Hvin) as [Hl Hc]. simpl. rewrite Hst, removelast_last.
    rewrite Hst, stack_qty_snoc in Hl. unfold order_qty in Hl. rewrite Ht0 in Hl.
    simpl in Hl. split; lia.
  - intros vk' v'' Hin. simpl in Hin.
    apply (elem_of_put_vehicle vk _ s) in Hin as [Hold | ->]; [by eapply H3 |].
    simpl. rewrite Hst, removelast_last. specialize (H3 _ _ Hvin).
    rewrite Hst in H3. unfold stack_dues in *. rewrite map_app in H3.
    by apply ascending_prefix in H3.
  - intros j.
    pose proof (on_stacks_put_vehicle s vk v (after_delivery s v top_o) j Hv) as Hsum.
    simpl in Hsum. rewrite Hst, removelast_last, count_occ_snoc in Hsum.
    change (on_stacks
              (alter_order tid (mark_delivered t) (put_vehicle vk (after_delivery s v top_o) s)) j)
      with (on_stacks (put_vehicle vk (after_delivery s v top_o) s) j).
    specialize (H4 j).
    destruct (Z.eq_dec tid j) as [<- | Hne].
    + rewrite Htransit in H4.
      assert (in_transit
                (alter_order tid (mark_delivered t)
                   (put_vehicle vk (after_delivery s v top_o) s)) tid
              = false) as ->.
      { unfold in_transit. simpl. rewrite dict_get_alter, Z.eqb_refl, Htid. simpl.
        apply andb_false_r. }
      lia.
    + rewrite in_transit_alter_ne by done.
      change (in_transit (put_vehicle vk (after_delivery s v top_o) s) j)
        with (in_transit s j).
      rewrite <- H4. lia.
  - intros j oj Hin Hd. simpl in Hin.
    apply elem_of_dict_alter in Hin as [Hin | (-> & oj' & Hin & ->)]; [by eapply H5 |].
    simpl. assert (dict_get tid (orders s) = Some oj') as Hget'.
    { apply dict_get_NoDup; [| done]. by rewrite (frame_keys _ _ H1). }
    congruence.
Qed.

Lemma engine_inv_step until_time s vk s' p a :
  veh_step until_time s vk = Some (s', p, a) ->
  engine_inv s0 s -> engine_inv s0 s'.
Proof.
  intros Hstep%veh_step_spec Hinv.
  inversion Hstep as
    [ v Hveh Hlate
    | v tid top_o free s1 Hveh Htime Htop Hloc Hfree Hle
    | v tid top_o free s1 s3 Hveh Htime Htop Hloc Hfree Hgt Hocc
    | v top k o arr trav rest free s1 Hveh Htime Htop Hnd Hsort Hfree Hle
    | v top k o arr trav rest free s1 s3 Hveh Htime Htop Hnd Hsort Hfree Hgt Hocc
    | v tid top_o Hveh Htime Htop Hloc Hfeas
    | v Hveh Htime Htop Hfeas ]; subst;
    try (apply free_docks_spec in Hfree as (occ & plant & Hoccp & Hplant & -> & _));
    try (apply occupy_dock_spec in Hocc as (occ' & Hocc' & ->));
    try (apply chosen_candidate in Hsort as (Hin & Hfeasible & -> & -> & _)).
  - done.
  - eapply engine_inv_ext; [| | | eapply (engine_inv_vehicle _ s vk v)]; try done.
  - unfold stack_top in Htop.
    destruct (last (v_stack v)) as [tid' |] eqn:Hlast; [| discriminate].
    destruct (dict_get tid' (orders s)) as [top_o' |] eqn:Hget_top;
      simpl in Htop; [| discriminate].
    injection Htop as -> ->.
    eapply engine_inv_ext; [| | | by apply engine_inv_deliver]; done.
  - eapply engine_inv_ext; [| | | eapply (engine_inv_vehicle _ s vk v)]; try done.
  - eapply engine_inv_ext; [| | | by eapply engine_inv_pickup]; done.
  - by eapply (engine_inv_vehicle _ s vk v).
  - by eapply (engine_inv_vehicle _ s vk v).
Qed.

Lemma engine_inv_turns until_time ks s s' :
  run_turns until_time ks s = Some s' -> engine_inv s0 s -> engine_inv s0 s'.
Proof.
  revert s. induction ks as [| k ks IH]; simpl; intros s.
  - by intros [= <-].
  - destruct (veh_step until_time s k) as [[[s1 p] a] |] eqn:Hstep; simpl; [| discriminate].
    intros Hrun Hinv. eapply IH; [done |]. by eapply engine_inv_step.
Qed.

Lemma engine_inv_reset :
  (forall vk v, (vk, v) ∈ vehicles s0 -> 0 <= v_capacity v) ->
  engine_inv s0 (reset s0).
Proof.
  intros Hcap. split.
  - apply reset_frame.
  - intros vk v. simpl. intros ([vk0 v0] & [= -> ->] & Hin)%list_elem_of_fmap. simpl.
    split; [done |]. by eapply Hcap.
  - intros vk v. simpl. intros ([vk0 v0] & [= -> ->] & Hin)%list_elem_of_fmap. done.
  - intros k. unfold on_stacks, in_transit. simpl. rewrite map_map. simpl.
    rewrite list_sum_zero.
    rewrite (dict_get_map reset_order).
    by destruct (dict_get k (orders s0)).
  - intros k o. simpl. intros ([k0 o0] & [= -> ->] & Hin)%list_elem_of_fmap. done.
Qed.

End EngineInvariant.

Lemma engine_inv_reachable until_time s0 ks s :
  keyed s0 = true -> quantities_nonneg s0 = true ->
  run_turns until_time ks (reset s0) = Some s ->
  engine_inv s0 s.
Proof.
  intros [Hnd Hid]%keyed_facts [Hq Hc]%quantities_nonneg_facts Hrun.
  eapply engine_inv_turns; eauto. by apply engine_inv_reset.
Qed.

Lemma frame_order_static s s0 k :
  frame s = frame s0 ->
  order_static <$> dict_get k (orders s) = order_static <$> dict_get k (orders s0).
Proof.
  intros Hos%frame_orders_static. unfold orders_static in Hos.
  rewrite <- !(dict_get_map order_static). by rewrite Hos.
Qed.

Lemma order_qty_frame s s0 k : frame s = frame s0 -> order_qty s k = order_qty s0 k.
Proof.
  intros Hf. pose proof (frame_order_static s s0 k Hf) as H. unfold order_qty.
  destruct (dict_get k (orders s)) as [o |], (dict_get k (orders s0)) as [o0 |];
    simpl in *; try done.
  by injection H as _ _ _ -> _ _.
Qed.

Lemma order_due_frame s s0 k : frame s = frame s0 -> order_due s k = order_due s0 k.
Proof.
  intros Hf. pose proof (frame_order_static s s0 k Hf) as H. unfold order_due.
  destruct (dict_get k (orders s)) as [o |], (dict_get k (orders s0)) as [o0 |];
    simpl in *; try done.
  by injection H as _ _ _ _ _ ->.
Qed.

Lemma stack_qty_frame s s0 st : frame s = frame s0 -> stack_qty s st = stack_qty s0 st.
Proof.
  intros Hf. unfold stack_qty. induction st as [| k st IH]; simpl; [done |].
  by rewrite IH, (order_qty_frame s s0 k Hf).
Qed.

Lemma stack_dues_frame s s0 st : frame s = frame s0 -> stack_dues s st = stack_dues s0 st.
Proof.
  intros Hf. unfold stack_dues. apply map_ext. intros k. by apply order_due_frame.
Qed.

Lemma stack_qty_nonneg s st :
  (forall k o, (k, o) ∈ orders s -> 0 <= o_qty o) -> 0 <= stack_qty s st.
Proof.
  intros Hq. unfold stack_qty. induction st as [| k st IH]; simpl; [lia |].
  assert (0 <= order_qty s k); [| lia].
  unfold order_qty. destruct (dict_get k (orders s)) as [o |] eqn:Hget; simpl; [| lia].
  eapply Hq. by apply dict_get_elem_of.
Qed.

(** X4.  On an instance whose orders are stored under their own ids, with
    distinct keys and non-negative quantities and capacities, after any
    sequence of vehicle turns from the reset state the load of every
    vehicle is the sum of the quantities of the orders on its stack, and it
    lies between zero and the capacity of the vehicle. *)
Theorem load_is_stack_quantity until_time s0 ks s vk v :
  keyed s0 = true ->
  quantities_nonneg s0 = true ->
  run_turns until_time ks (reset s0) = Some s ->
  (vk, v) ∈ vehicles s ->
  v_load v = stack_qty s (v_stack v) /\ 0 <= v_load v <= v_capacity v.
Proof.
  intros Hk Hq Hrun Hin.
  pose proof (engine_inv_reachable until_time s0 ks s Hk Hq Hrun) as [H1 H2 _ _ _].
  destruct (H2 _ _ Hin) as [Hl Hc].
  apply quantities_nonneg_facts in Hq as [Hq _].
  rewrite (stack_qty_frame s s0 _ H1). split; [done |].
  split; [| done]. rewrite Hl. by apply stack_qty_nonneg.
Qed.

Lemma load_is_stack_quantity_witness :
  v_load EngineExample.vehicle
  = stack_qty EngineExample.state (v_stack EngineExample.vehicle) /\
  0 <= v_load EngineExample.vehicle <= v_capacity EngineExample.vehicle.
Proof.
  apply (load_is_stack_quantity EngineExample.horizon DetourExample.sim [1; 1; 1]
           EngineExample.state 1 EngineExample.vehicle).
  - vm_compute. reflexivity.
  - vm_compute. reflexivity.
  - vm_compute. reflexivity.
  - apply dict_get_elem_of. vm_compute. reflexivity.
Defined.

(** X5.  Under the same conditions the stack of every vehicle is ordered by
    due time: read from the bottom to the top, the due times of the orders
    on it never decrease, so the order delivered next is always one of the
    latest due of its vehicle. *)
Theorem stack_due_times_ascending until_time s0 ks s vk v :
  keyed s0 = true ->
  quantities_nonneg s0 = true ->
  run_turns until_time ks (reset s0) = Some s ->
  (vk, v) ∈ vehicles s ->
  ascending (stack_dues s (v_stack v)).
Proof.
  intros Hk Hq Hrun Hin.
  pose proof (engine_inv_reachable until_time s0 ks s Hk Hq Hrun) as [H1 _ H3 _ _].
  rewrite (stack_dues_frame s s0 _ H1). by eapply H3.
Qed.

Lemma stack_due_times_ascending_witness :
  ascending (stack_dues EngineExample.state (v_stack EngineExample.vehicle)).
Proof.
  apply (stack_due_times_ascending EngineExample.horizon DetourExample.sim [1; 1; 1]
           EngineExample.state 1 EngineExample.vehicle).
  - vm_compute. reflexivity.
  - vm_compute. reflexivity.
  - vm_compute. reflexivity.
  - apply dict_get_elem_of. vm_compute. reflexivity.
Defined.

(** X6.  Under the same conditions an order id occurs on the stacks of the
    fleet exactly once while its order is picked up and not delivered, and
    not at all otherwise; and an order flagged delivered is flagged picked
    up.  So no order is carried by two vehicles or twice by one, and a
    delivered order has left every stack. *)
Theorem stack_membership until_time s0 ks s k :
  keyed s0 = true ->
  quantities_nonneg s0 = true ->
  run_turns until_time ks (reset s0) = Some s ->
  on_stacks s k = (if in_transit s k then 1 else 0)%nat /\
  (forall o, (k, o) ∈ orders s -> o_delivered o = true -> o_picked o = true).
Proof.
  intros Hk Hq Hrun.
  pose proof (engine_inv_reachable until_time s0 ks s Hk Hq Hrun) as [_ _ _ H4 H5].
  split; [apply H4 | intros o; apply H5].
Qed.

Lemma stack_membership_witness :
  on_stacks EngineExample.state 1
  = (if in_transit EngineExample.state 1 then 1 else 0)%nat /\
  (forall o, (1, o) ∈ orders EngineExample.state ->
     o_delivered o = true -> o_picked o = true).
Proof.
  apply (stack_membership EngineExample.horizon DetourExample.sim [1; 1; 1]
           EngineExample.state 1).
  - vm_compute. reflexivity.
  - vm_compute. reflexivity.
  - vm_compute. reflexivity.
Defined.


(** ** Whole runs *)

Lemma reset_of_frame s1 s2 : frame s1 = frame s2 -> reset s1 = reset s2.
Proof.
  intros Hf.
  pose proof (frame_config _ _ Hf) as Hc.
  pose proof (frame_orders_static _ _ Hf) as Ho.
  pose proof (frame_vehicles_static _ _ Hf) as Hv.
  unfold config in Hc. injection Hc as Hp Hd Ht Hs Hu Hl.
  unfold reset. rewrite Hp, Hd, Ht, Hs, Hu, Hl. f_equal.
  - unfold orders_static in Ho.
    apply (f_equal (map (fun x : Z * (Z * Z * Z * Z * Q * Q) =>
             (x.1, mkOrder x.2.1.1.1.1.1 x.2.1.1.1.1.2 x.2.1.1.1.2 x.2.1.1.2 x.2.1.2 x.2.2
                           false false None)))) in Ho.
    by rewrite !map_map in Ho.
  - unfold vehicles_static in Hv.
    apply (f_equal (map (fun x : Z * (Z * Z * Z) =>
             (x.1, mkVehicle x.2.1.1 x.2.1.2 x.2.2 x.2.2 0%Q 0 [] [])))) in Hv.
    by rewrite !map_map in Hv.
Qed.

Lemma simulate_of_frame s1 s2 until_time :
  frame s1 = frame s2 ->
  simulate_with_tracking s1 until_time = simulate_with_tracking s2 until_time.
Proof.
  intros Hf. unfold simulate_with_tracking. by rewrite (reset_of_frame s1 s2 Hf).
Qed.

Lemma simulate_frame s until_time s' res :
  simulate_with_tracking s until_time = Some (s', res) -> frame s' = frame s.
Proof.
  rewrite simulate_with_tracking_traced.
  destruct (simulate_traced s until_time) as [[[s1 res1] evs] |] eqn:Hsim;
    simpl; [| discriminate].
  intros [= <- <-]. apply simulate_traced_turns in Hsim.
  rewrite <- (reset_frame s). by eapply run_turns_frame.
Qed.

(** X7.  A run starts by resetting every dynamic field, so the simulator
    object can be reused: simulating again on the object a run has left
    behind gives the same final state and the same result, and for any
    other horizon it gives what the original object would have given. *)
Theorem simulate_rerun s until_time s' res until_time' :
  simulate_with_tracking s until_time = Some (s', res) ->
  simulate_with_tracking s' until_time = Some (s', res) /\
  simulate_with_tracking s' until_time' = simulate_with_tracking s until_time'.
Proof.
  intros Hsim. pose proof (simulate_frame _ _ _ _ Hsim) as Hf.
  split; [rewrite <- Hsim |]; by apply simulate_of_frame.
Qed.

Lemma simulate_rerun_witness :
  simulate_with_tracking ResultExample.final ResultExample.horizon
  = Some (ResultExample.final, ResultExample.result) /\
  simulate_with_tracking ResultExample.final 60
  = simulate_with_tracking Scenario.sim0 60.
Proof.
  apply (simulate_rerun Scenario.sim0 ResultExample.horizon
           ResultExample.final ResultExample.result 60).
  vm_compute. reflexivity.
Defined.

(** X8.  The cost that [evaluate] assigns is the objective of the result it
    returns, and both depend only on static data: the plants, oracle tables
    and parameters of the reference simulator, the ids, capacities and
    start locations of its vehicles, and the static fields of the orders
    passed.  The flags, positions, clocks, loads, stacks and routes that an
    earlier run has left, and the acceptance parameter, play no part. *)
Theorem evaluate_static opt1 opt2 os1 os2 :
  config (simulator opt1) = config (simulator opt2) ->
  vehicles_static (simulator opt1) = vehicles_static (simulator opt2) ->
  order_set_static os1 = order_set_static os2 ->
  evaluate opt1 os1 = evaluate opt2 os2 /\
  (forall c r, evaluate opt1 os1 = Some (c, r) -> c = objective r).
Proof.
  intros Hc Hv Ho. split.
  - unfold evaluate.
    rewrite (simulate_of_frame
               (new_simulator (plants (simulator opt1)) os1 (vehicles (simulator opt1))
                  (distances (simulator opt1)) (travel_times (simulator opt1))
                  (dock_service_time (simulator opt1)) (unit_handling_time (simulator opt1))
                  (lambda_cost (simulator opt1)))
               (new_simulator (plants (simulator opt2)) os2 (vehicles (simulator opt2))
                  (distances (simulator opt2)) (travel_times (simulator opt2))
                  (dock_service_time (simulator opt2)) (unit_handling_time (simulator opt2))
                  (lambda_cost (simulator opt2)))); [done |].
    unfold frame. f_equal; [f_equal |]; done.
  - intros c r. unfold evaluate.
    destruct (simulate_with_tracking _ _) as [[s' res] |]; simpl; [| discriminate].
    by intros [= <- <-].
Qed.

Lemma evaluate_static_witness :
  evaluate OptimizerExample.opt Scenario.orders0
  = evaluate RerunExample.opt (orders ResultExample.final) /\
  (forall c r, evaluate OptimizerExample.opt Scenario.orders0 = Some (c, r) ->
     c = objective r).
Proof.
  apply (evaluate_static OptimizerExample.opt RerunExample.opt
           Scenario.orders0 (orders ResultExample.final)).
  - vm_compute. reflexivity.
  - vm_compute. reflexivity.
  - vm_compute. reflexivity.
Defined.

Lemma none_released_reset until_time s :
  none_released until_time s = true -> has_undelivered until_time (reset s) = false.
Proof.
  unfold none_released, has_undelivered. simpl. intros H.
  induction (orders s) as [| [k o] os IH]; simpl in *; [done |].
  apply andb_prop in H as [Ho Hos]. rewrite (IH Hos), orb_false_r.
  unfold Qlt_bool in Ho. apply negb_true_iff in Ho. by rewrite Ho.
Qed.

Lemma fold_late_step_reset os acc :
  (fold_left late_step (dict_values (map (fun ko : Z * Order => (ko.1, reset_order ko.2)) os)) acc
   == acc + sum_Q (map (fun ko : Z * Order => undelivered_penalty * o_due ko.2) os))%Q.
Proof.
  revert acc. induction os as [| [k o] os IH]; intros acc; simpl.
  - lra.
  - unfold dict_values in IH. rewrite IH. unfold late_step. simpl. lra.
Qed.

Lemma fold_dist_step_reset s vs acc :
  (fold_left (dist_step s)
     (dict_values (map (fun kv : Z * Vehicle => (kv.1, reset_vehicle kv.2)) vs)) acc
   == acc)%Q.
Proof.
  revert acc. induction vs as [| [k v] vs IH]; intros acc; simpl; [reflexivity |].
  unfold dict_values in IH. rewrite IH. unfold dist_step. simpl. lra.
Qed.

Lemma max_iterations_succ : exists n, max_iterations = S n.
Proof. exists (Z.to_nat 19999). unfold max_iterations. by rewrite <- Z2Nat.inj_succ. Qed.

(** X9.  With an empty fleet, or when no order arrives within the horizon,
    a run takes no turn at all and returns: the final state is the reset
    state, no order is picked up or delivered, the total lateness is ten
    times the sum of all due times, the average distance is zero (the
    divisor is 1 for an empty fleet), and the objective is the lateness
    weight times the total lateness. *)
Theorem run_without_turns s until_time :
  vehicles s = [] \/ none_released until_time s = true ->
  exists res,
    simulate_traced s until_time = Some (reset s, res, []) /\
    (total_late res
     == sum_Q (map (fun ko : Z * Order => undelivered_penalty * o_due ko.2) (orders s)))%Q /\
    (avg_distance res == 0)%Q /\
    (objective res == lambda_cost s * total_late res)%Q /\
    Forall (fun ko : Z * OrderOutcome =>
              r_picked ko.2 = false /\ r_delivered ko.2 = false /\ r_delivered_time ko.2 = None)
           (r_orders res).
Proof.
  intros Hcase. exists (compute_result (reset s)).
  assert (Hloop : dispatch_loop max_iterations until_time (reset s) = Some (reset s, [])).
  { destruct max_iterations_succ as [n ->]. simpl dispatch_loop.
    destruct Hcase as [Hv | Hn].
    - destruct (has_undelivered until_time (reset s)); simpl; [| done].
      unfold dispatch_pass. simpl vehicles. rewrite Hv. simpl. done.
    - by rewrite (none_released_reset _ _ Hn). }
  assert (Hlate : (total_late (compute_result (reset s))
                   == sum_Q (map (fun ko : Z * Order => undelivered_penalty * o_due ko.2)
                               (orders s)))%Q).
  { unfold compute_result. simpl. rewrite fold_late_step_reset. lra. }
  assert (Hdist : (avg_distance (compute_result (reset s)) == 0)%Q).
  { unfold compute_result. simpl. rewrite fold_dist_step_reset.
    unfold Qdiv. lra. }
  split; [| split; [| split; [| split]]].
  - unfold simulate_traced. by rewrite Hloop.
  - exact Hlate.
  - exact Hdist.
  - change (objective (compute_result (reset s)))
      with (lambda_cost s * total_late (compute_result (reset s))
            + avg_distance (compute_result (reset s)))%Q.
    rewrite Hdist. lra.
  - unfold compute_result. simpl. rewrite map_map. apply Forall_forall.
    intros ko (ko' & -> & _)%list_elem_of_fmap. done.
Qed.

Lemma run_without_turns_witness :
  exists res,
    simulate_traced RerunExample.no_fleet 480 = Some (reset RerunExample.no_fleet, res, []) /\
    (total_late res
     == sum_Q (map (fun ko : Z * Order => undelivered_penalty * o_due ko.2)
                 (orders RerunExample.no_fleet)))%Q /\
    (avg_distance res == 0)%Q /\
    (objective res == lambda_cost RerunExample.no_fleet * total_late res)%Q /\
    Forall (fun ko : Z * OrderOutcome =>
              r_picked ko.2 = false /\ r_delivered ko.2 = false /\ r_delivered_time ko.2 = None)
           (r_orders res).
Proof.
  apply (run_without_turns RerunExample.no_fleet 480).
  left. reflexivity.
Defined.

Lemma dispatch_pass_keys until_time s s' p evs :
  dispatch_pass until_time s = Some (s', p, evs) ->
  map fst evs ≡ₚ dict_keys (vehicles s) /\ frame s' = frame s.
Proof.
  unfold dispatch_pass. intros [Hk Hrun]%run_vehicles_turns. split.
  - rewrite Hk. unfold dict_keys. apply fmap_Permutation, sort_by_perm.
  - by eapply run_turns_frame.
Qed.

Lemma frame_vehicle_keys s s0 :
  frame s = frame s0 -> dict_keys (vehicles s) = dict_keys (vehicles s0).
Proof.
  intros Hv%frame_vehicles_static. unfold vehicles_static, dict_keys in *.
  apply (f_equal (map fst)) in Hv. by rewrite !map_map in Hv.
Qed.

Lemma dispatch_loop_passes fuel until_time s s' evs :
  dispatch_loop fuel until_time s = Some (s', evs) ->
  exists passes,
    map fst evs = concat passes /\ (length passes <= fuel)%nat /\
    Forall (fun pass => pass ≡ₚ dict_keys (vehicles s)) passes.
Proof.
  revert s s' evs. induction fuel as [| fuel IH]; simpl; intros s s' evs.
  - intros [= <- <-]. exists []. by repeat split.
  - destruct (has_undelivered until_time s); simpl;
      [| intros [= <- <-]; exists []; repeat split; [simpl; lia | done]].
    destruct (dispatch_pass until_time s) as [[[s1 p] evs1] |] eqn:Hpass;
      simpl; [| discriminate].
    apply dispatch_pass_keys in Hpass as [Hperm Hf].
    destruct p; simpl.
    + destruct (dispatch_loop fuel until_time s1) as [[s2 evs2] |] eqn:Hloop;
        simpl; [| discriminate].
      intros [= <- <-]. apply IH in Hloop as (passes & Hcat & Hlen & Hall).
      exists (map fst evs1 :: passes). rewrite map_app, Hcat. simpl.
      split; [done |]. split; [lia |]. constructor; [done |].
      by rewrite (frame_vehicle_keys _ _ Hf) in Hall.
    + intros [= <- <-]. exists [map fst evs1]. simpl. rewrite app_nil_r.
      split; [done |]. split; [lia |]. by constructor.
Qed.

Lemma length_concat_bound {A} (passes : list (list A)) n :
  Forall (fun pass => length pass = n) passes ->
  length (concat passes) = (length passes * n)%nat.
Proof.
  induction 1 as [| pass passes Hp _ IH]; simpl; [done |].
  rewrite length_app, IH, Hp. lia.
Qed.

(** X10.  A run is a sequence of at most 20000 dispatch passes, and in every
    pass each vehicle takes exactly one turn (the passes are permutations
    of the vehicle keys); so a run takes at most 20000 turns per vehicle. *)
Theorem turns_bounded s until_time s' res evs :
  simulate_traced s until_time = Some (s', res, evs) ->
  exists passes,
    map fst evs = concat passes /\
    (length passes <= max_iterations)%nat /\
    Forall (fun pass => pass ≡ₚ dict_keys (vehicles s)) passes /\
    (length evs <= max_iterations * length (vehicles s))%nat.
Proof.
  unfold simulate_traced.
  destruct (dispatch_loop max_iterations until_time (reset s)) as [[s1 evs1] |] eqn:Hloop;
    simpl; [| discriminate].
  intros [= <- <- <-].
  apply dispatch_loop_passes in Hloop as (passes & Hcat & Hlen & Hall).
  rewrite (frame_vehicle_keys _ _ (reset_frame s)) in Hall.
  exists passes. repeat (split; [done |]).
  rewrite <- (length_map fst evs1), Hcat.
  rewrite (length_concat_bound passes (length (vehicles s))).
  - exact (Nat.mul_le_mono_r (length passes) max_iterations (length (vehicles s)) Hlen).
  - eapply Forall_impl; [exact Hall |]. intros pass Hp. simpl in Hp.
    rewrite Hp. unfold dict_keys. by rewrite length_map.
Qed.

Lemma turns_bounded_witness :
  exists passes,
    map fst CausalExample.log = concat passes /\
    (length passes <= max_iterations)%nat /\
    Forall (fun pass => pass ≡ₚ dict_keys (vehicles Scenario.sim0)) passes /\
    (length CausalExample.log <= max_iterations * length (vehicles Scenario.sim0))%nat.
Proof.
  apply (turns_bounded Scenario.sim0 CausalExample.horizon
           ResultExample.final ResultExample.result CausalExample.log).
  vm_compute. reflexivity.
Defined.


(** ** Instances on which a run raises no [KeyError] *)

Lemma frame_order_elem s s0 k o :
  frame s = frame s0 -> (k, o) ∈ orders s ->
  exists o0, (k, o0) ∈ orders s0 /\ order_static o = order_static o0.
Proof.
  intros Hos%frame_orders_static Hin. unfold orders_static in Hos.
  assert ((k, order_static o) ∈ map (fun ko : Z * Order => (ko.1, order_static ko.2)) (orders s))
    as H.
  { apply list_elem_of_fmap. by exists (k, o). }
  rewrite Hos in H. apply list_elem_of_fmap in H as ([k0 o0] & [= -> Hst] & Hin0).
  exists o0. split; [done |]. unfold order_static. congruence.
Qed.

Lemma dict_get_is_Some {V} k (d : list (Z * V)) :
  k ∈ dict_keys d -> is_Some (dict_get k d).
Proof.
  unfold dict_keys. induction d as [| [k0 v0] d IH]; simpl.
  - intros H. by apply elem_of_nil in H.
  - intros H. destruct (Z.eqb_spec k0 k) as [-> | Hne]; [by eexists |].
    apply elem_of_cons in H as [-> | H]; [done | by apply IH].
Qed.

Lemma dict_get_keys {V} k (d : list (Z * V)) v :
  dict_get k d = Some v -> k ∈ dict_keys d.
Proof.
  intros H%dict_get_elem_of. unfold dict_keys.
  apply list_elem_of_fmap. by exists (k, v).
Qed.

Lemma sites_closed_facts s k o :
  sites_closed s = true -> (k, o) ∈ orders s ->
  is_Some (plants s !! o_pickup o) /\ is_Some (plants s !! o_delivery o).
Proof.
  unfold sites_closed. rewrite forallb_forall.
  intros H Hin%list_elem_of_In. specialize (H _ Hin). simpl in H.
  apply andb_prop in H as [H1%bool_decide_eq_true H2%bool_decide_eq_true]. done.
Qed.

Lemma free_docks_returns s p t :
  is_Some (plants s !! p) -> is_Some (dock_occupancy s !! p) ->
  exists free occ,
    _free_docks s p t
    = Some (free, with_dock_occupancy (<[p := occ]> (dock_occupancy s)) s).
Proof.
  intros [pl Hpl] [occ Hocc]. unfold _free_docks. rewrite Hocc. simpl. rewrite Hpl. simpl.
  by eexists _, _.
Qed.

Lemma runnable_reset s : runnable s (reset s).
Proof.
  split.
  - apply reset_frame.
  - intros vk v k. simpl. intros ([vk0 v0] & [= -> ->] & _)%list_elem_of_fmap. simpl.
    intros H. by apply elem_of_nil in H.
  - intros p [pl Hpl]. simpl in *. rewrite lookup_fmap, Hpl. by eexists.
Qed.

Lemma ids_known_facts s k o :
  ids_known s = true -> (k, o) ∈ orders s -> o_id o ∈ dict_keys (orders s).
Proof.
  unfold ids_known. rewrite forallb_forall.
  intros H Hin%list_elem_of_In. specialize (H _ Hin). simpl in H.
  apply existsb_exists in H as (j & Hj & ->%Z.eqb_eq). by apply list_elem_of_In.
Qed.

Lemma keyed_ids_known s : keyed s = true -> ids_known s = true.
Proof.
  intros [_ Hk]%andb_prop. unfold ids_known, stored_under_ids in *.
  rewrite forallb_forall in *.
  intros [k o] Hin. specialize (Hk _ Hin). simpl in *.
  apply existsb_exists. exists k. split; [| lia].
  apply list_elem_of_In. unfold dict_keys. apply list_elem_of_fmap.
  exists (k, o). split; [done | by apply list_elem_of_In].
Qed.

Section Runnable.
Variable s0 : DVRPSimulator.
Hypothesis known : ids_known s0 = true.
Hypothesis closed : sites_closed s0 = true.

Lemma runnable_sites s k o :
  frame s = frame s0 -> (k, o) ∈ orders s ->
  is_Some (dict_get (o_id o) (orders s)) /\
  is_Some (plants s !! o_pickup o) /\ is_Some (plants s !! o_delivery o).
Proof.
  intros Hf Hin. destruct (frame_order_elem _ _ _ _ Hf Hin) as (o0 & Ho0 & Hst).
  injection Hst as -> -> -> _ _ _.
  pose proof (frame_config _ _ Hf) as Hc. unfold config in Hc. injection Hc as -> _ _ _ _ _.
  split; [| by eapply sites_closed_facts].
  apply dict_get_is_Some. rewrite (frame_keys _ _ Hf). by eapply ids_known_facts.
Qed.

Lemma runnable_step until_time s vk s' p a :
  veh_step until_time s vk = Some (s', p, a) ->
  runnable s0 s -> runnable s0 s'.
Proof.
  intros Hstep [Hf Hst Hd]. split.
  - rewrite <- Hf. by eapply veh_step_frame.
  - pose proof (veh_step_frame _ _ _ _ _ _ Hstep) as Hf'.
    assert (Hkeep : forall k, is_Some (dict_get k (orders s)) ->
                              is_Some (dict_get k (orders s'))).
    { intros k [o Ho]. apply dict_get_is_Some.
      rewrite (frame_keys _ _ Hf'). by eapply dict_get_keys. }
    apply veh_step_spec in Hstep.
    inversion Hstep as
      [ v Hveh Hlate
      | v tid top_o free s1 Hveh Htime Htop Hloc Hfree Hle
      | v tid top_o free s1 s3 Hveh Htime Htop Hloc Hfree Hgt Hocc
      | v top k o arr trav rest free s1 Hveh Htime Htop Hnd Hsort Hfree Hle
      | v top k o arr trav rest free s1 s3 Hveh Htime Htop Hnd Hsort Hfree Hgt Hocc
      | v tid top_o Hveh Htime Htop Hloc Hfeas
      | v Hveh Htime Htop Hfeas ]; subst;
      try (apply free_docks_spec in Hfree as (occ & plant & Hoccp & Hplant & -> & _));
      try (apply occupy_dock_spec in Hocc as (occ' & Hocc' & ->));
      try (apply chosen_candidate in Hsort as (Hin & Hfeasible & -> & -> & _));
      pose proof (dict_get_elem_of _ _ _ Hveh) as Hvin;
      intros vk' v' j Hin' Hj; apply Hkeep; simpl in Hin';
      try (apply (elem_of_put_vehicle vk _ s) in Hin' as [Hold | ->];
           [by eapply Hst |]; simpl in Hj).
    + by eapply Hst.
    + by eapply Hst.
    + apply elem_of_removelast in Hj. by eapply Hst.
    + by eapply Hst.
    + apply elem_of_app in Hj as [Hj | ->%list_elem_of_singleton]; [by eapply Hst |].
      by destruct (runnable_sites s k o Hf Hin) as [? _].
    + by eapply Hst.
    + by eapply Hst.
  - intros q Hq. destruct (veh_step_docks _ _ _ _ _ _ Hstep) as [Hpl Hdocks].
    rewrite Hpl in Hq. specialize (Hd q Hq).
    destruct Hdocks as [-> | (pl & t & occ & Hocc & [-> | (plant & r & _ & _ & ->)])];
      [done | |]; apply lookup_insert_is_Some; destruct (decide (pl = q)); auto.
Qed.

Lemma veh_step_returns until_time s vk :
  runnable s0 s -> vk ∈ dict_keys (vehicles s) ->
  exists r, veh_step until_time s vk = Some r.
Proof.
  intros [Hf Hst Hd] [v Hveh]%dict_get_is_Some.
  pose proof (dict_get_elem_of _ _ _ Hveh) as Hvin.
  assert (Hpickup : forall top, exists r, pickup_or_move s vk v top = Some r).
  { intros top. unfold pickup_or_move.
    destruct (sort_by cand_lt (feasible_pickups s v (o_due <$> (snd <$> top))))
      as [| [[[k o] arr] trav] rest] eqn:Hsort; [by eexists |].
    apply (chosen_candidate s v top) in Hsort as (Hin & _).
    destruct (runnable_sites s k o Hf Hin) as (_ & Hp & _).
    destruct (free_docks_returns s (o_pickup o) arr Hp (Hd _ Hp)) as (free & occ & Hfree).
    unfold try_pickup. simpl. rewrite Hfree. simpl.
    destruct (free <=? 0); [by eexists |].
    unfold _occupy_dock. simpl. rewrite lookup_insert_eq. simpl. by eexists. }
  unfold veh_step. rewrite Hveh. simpl.
  destruct (Qlt_bool until_time (v_time v)); [by eexists |].
  unfold stack_top. destruct (last (v_stack v)) as [tid |] eqn:Hlast; simpl; [| apply Hpickup].
  destruct (Hst _ _ tid Hvin (last_elem_of _ _ Hlast)) as [top_o Htop].
  rewrite Htop. simpl.
  destruct (Z.eqb_spec (v_location v) (o_delivery top_o)) as [Hloc | Hloc]; [| apply Hpickup].
  destruct (runnable_sites s tid top_o Hf (dict_get_elem_of _ _ _ Htop)) as (_ & _ & Hp).
  rewrite <- Hloc in Hp.
  destruct (free_docks_returns s (v_location v) (v_time v) Hp (Hd _ Hp))
    as (free & occ & Hfree).
  unfold try_deliver. rewrite Hfree. simpl.
  destruct (free <=? 0); [by eexists |].
  unfold _occupy_dock. simpl. rewrite lookup_insert_eq. simpl. by eexists.
Qed.

Lemma run_vehicles_returns until_time ks s p0 :
  runnable s0 s -> (forall k, k ∈ ks -> k ∈ dict_keys (vehicles s)) ->
  exists s' p evs,
    run_vehicles until_time ks s p0 = Some (s', p, evs) /\ runnable s0 s'.
Proof.
  revert s p0. induction ks as [| k ks IH]; intros s p0 Hrun Hks; simpl.
  - by eexists _, _, _.
  - destruct (veh_step_returns until_time s k Hrun) as [[[s1 p1] a] Hstep];
      [apply Hks; left |].
    rewrite Hstep. simpl.
    pose proof (runnable_step _ _ _ _ _ _ Hstep Hrun) as Hrun1.
    destruct (IH s1 (p0 || p1) Hrun1) as (s2 & p2 & evs & Hrest & Hrun2).
    { intros j Hj. rewrite (frame_vehicle_keys s1 s).
      - apply Hks. by right.
      - by eapply veh_step_frame. }
    rewrite Hrest. simpl. by eexists _, _, _.
Qed.

Lemma dispatch_loop_returns fuel until_time s :
  runnable s0 s ->
  exists s' evs, dispatch_loop fuel until_time s = Some (s', evs).
Proof.
  revert s. induction fuel as [| fuel IH]; intros s Hrun; simpl; [by eexists _, _ |].
  destruct (has_undelivered until_time s); simpl; [| by eexists _, _].
  unfold dispatch_pass.
  destruct (run_vehicles_returns until_time
              (dict_keys (sort_by veh_time_lt (vehicles s))) s false Hrun)
    as (s1 & p & evs & Hpass & Hrun1).
  { intros k Hk. unfold dict_keys in *.
    by rewrite (fmap_Permutation fst _ _ (sort_by_perm veh_time_lt (vehicles s))) in Hk. }
  rewrite Hpass. simpl. destruct p; simpl; [| by eexists _, _].
  destruct (IH s1 Hrun1) as (s2 & evs2 & Hloop). rewrite Hloop. simpl. by eexists _, _.
Qed.

End Runnable.

(** X11.  On an instance in which the id of every order is a key of the
    order dictionary (as when every order is stored under its own id) and
    every pickup and delivery plant is a plant of the simulator, no lookup
    of a run fails: for every horizon the simulation returns a final state
    and a result. *)
Theorem simulate_returns s until_time :
  ids_known s = true -> sites_closed s = true ->
  exists s' res evs,
    simulate_traced s until_time = Some (s', res, evs) /\
    simulate_with_tracking s until_time = Some (s', res).
Proof.
  intros Hknown Hclosed.
  destruct (dispatch_loop_returns s Hknown Hclosed max_iterations until_time (reset s)
              (runnable_reset s)) as (s' & evs & Hloop).
  exists s', (compute_result s'), evs.
  unfold simulate_traced, simulate_with_tracking. by rewrite Hloop.
Qed.

Lemma simulate_returns_witness :
  exists s' res evs,
    simulate_traced Scenario.sim0 480 = Some (s', res, evs) /\
    simulate_with_tracking Scenario.sim0 480 = Some (s', res).
Proof.
  apply (simulate_returns Scenario.sim0 480).
  - vm_compute. reflexivity.
  - vm_compute. reflexivity.
Defined.

(** Without the condition on the plants the run can fail: the dock query
    at a delivery plant that the simulator does not know raises. *)
Lemma simulate_unknown_plant_fails :
  sites_closed KeyErrorExample.sim = false /\
  simulate_with_tracking KeyErrorExample.sim 480 = None.
Proof. split; vm_compute; reflexivity. Qed.


(** ** What a turn leaves alone *)

Lemma dict_get_put_vehicle vk v v' s :
  dict_get vk (vehicles s) = Some v ->
  dict_get vk (vehicles (put_vehicle vk v' s)) = Some v'.
Proof.
  intros Hv. simpl. by rewrite dict_get_alter, Z.eqb_refl, Hv.
Qed.

Lemma dict_get_put_vehicle_ne vk vk' v' s :
  vk' <> vk ->
  dict_get vk' (vehicles (put_vehicle vk v' s)) = dict_get vk' (vehicles s).
Proof.
  intros Hne. simpl. rewrite dict_get_alter.
  destruct (Z.eqb_spec vk vk'); [congruence | done].
Qed.

(** X12.  A turn is local to its vehicle: the entries of the other vehicles
    are unchanged; every order other than the one picked up or delivered in
    the turn is unchanged; the dock table is unchanged at every plant other
    than the one where the vehicle stands after the turn; and no key is
    added to or removed from the vehicle and order dictionaries. *)
Theorem turn_is_local until_time s vk s' p a :
  veh_step until_time s vk = Some (s', p, a) ->
  (forall vk', vk' <> vk -> dict_get vk' (vehicles s') = dict_get vk' (vehicles s)) /\
  (forall k, is_pickup_of k a = false -> is_delivery_of k a = false ->
     dict_get k (orders s') = dict_get k (orders s)) /\
  (forall q v', dict_get vk (vehicles s') = Some v' -> q <> v_location v' ->
     dock_occupancy s' !! q = dock_occupancy s !! q) /\
  dict_keys (vehicles s') = dict_keys (vehicles s) /\
  dict_keys (orders s') = dict_keys (orders s).
Proof.
  intros Hstep.
  pose proof (veh_step_frame _ _ _ _ _ _ Hstep) as Hf.
  split; [| split; [| split; [| split]]];
    [ | | | by apply frame_vehicle_keys | by apply frame_keys].
  - intros vk' Hne. apply veh_step_spec in Hstep.
    inversion Hstep; subst;
      repeat match goal with
      | H : _free_docks _ _ _ = Some _ |- _ =>
          apply free_docks_spec in H as (? & ? & _ & _ & -> & _)
      | H : _occupy_dock _ _ _ _ = Some _ |- _ =>
          apply occupy_dock_spec in H as (? & _ & ->)
      end; try done;
      simpl; rewrite dict_get_alter; destruct (Z.eqb_spec vk vk'); congruence.
  - intros k Hp Hd. apply veh_step_spec in Hstep.
    inversion Hstep; subst;
      repeat match goal with
      | H : _free_docks _ _ _ = Some _ |- _ =>
          apply free_docks_spec in H as (? & ? & _ & _ & -> & _)
      | H : _occupy_dock _ _ _ _ = Some _ |- _ =>
          apply occupy_dock_spec in H as (? & _ & ->)
      end; try done; simpl in *; rewrite dict_get_alter;
      by match goal with |- context [(?j =? k)%Z] => destruct (j =? k)%Z end.
  - intros q v' Hv' Hq. apply veh_step_spec in Hstep.
    inversion Hstep as
      [ v Hveh Hlate
      | v tid top_o free s1 Hveh Htime Htop Hloc Hfree Hle
      | v tid top_o free s1 s3 Hveh Htime Htop Hloc Hfree Hgt Hocc
      | v top k o arr trav rest free s1 Hveh Htime Htop Hnd Hsort Hfree Hle
      | v top k o arr trav rest free s1 s3 Hveh Htime Htop Hnd Hsort Hfree Hgt Hocc
      | v tid top_o Hveh Htime Htop Hloc Hfeas
      | v Hveh Htime Htop Hfeas ]; subst;
      try (apply free_docks_spec in Hfree as (occ & plant & Hoccp & Hplant & -> & _));
      try (apply occupy_dock_spec in Hocc as (occ' & Hocc' & ->));
      try done;
      simpl in Hv'; rewrite dict_get_alter, Z.eqb_refl, Hveh in Hv';
      injection Hv' as <-; simpl in *;
      rewrite ?lookup_insert_ne by done; done.
Qed.

Lemma turn_is_local_witness :
  (forall vk', vk' <> 1 ->
     dict_get vk' (vehicles PickupExample.after)
     = dict_get vk' (vehicles PickupExample.before)) /\
  (forall k, is_pickup_of k (APickup 2 8 14) = false ->
     is_delivery_of k (APickup 2 8 14) = false ->
     dict_get k (orders PickupExample.after) = dict_get k (orders PickupExample.before)) /\
  (forall q v', dict_get 1 (vehicles PickupExample.after) = Some v' -> q <> v_location v' ->
     dock_occupancy PickupExample.after !! q = dock_occupancy PickupExample.before !! q) /\
  dict_keys (vehicles PickupExample.after) = dict_keys (vehicles PickupExample.before) /\
  dict_keys (orders PickupExample.after) = dict_keys (orders PickupExample.before).
Proof.
  apply (turn_is_local PickupExample.horizon PickupExample.before 1
           PickupExample.after true (APickup 2 8 14)).
  vm_compute. reflexivity.
Defined.

(** ** Clocks and route logs *)

Lemma map_forallb_lookup (m : gmap (Z * Z) Q) k t :
  forallb (fun kt : Z * Z * Q => Qle_bool 0 kt.2) (map_to_list m) = true ->
  m !! k = Some t -> (0 <= t)%Q.
Proof.
  rewrite forallb_forall. intros H Hk%elem_of_map_to_list%list_elem_of_In.
  specialize (H _ Hk). by apply Qle_bool_iff in H.
Qed.

Lemma nonneg_times_facts s :
  nonneg_times s = true ->
  (forall a b, 0 <= _travel_time s a b)%Q /\
  (forall k o, (k, o) ∈ orders s -> 0 <= service_time s o)%Q.
Proof.
  unfold nonneg_times.
  intros [[[[Ht Hd]%andb_prop Hs%Qle_bool_iff]%andb_prop Hu%Qle_bool_iff]%andb_prop
            Hq]%andb_prop.
  split.
  - intros a b. unfold _travel_time.
    destruct (travel_times s !! (a, b)) as [t |] eqn:E1;
      [exact (map_forallb_lookup _ _ _ Ht E1) |].
    destruct (travel_times s !! (b, a)) as [t |] eqn:E2;
      [exact (map_forallb_lookup _ _ _ Ht E2) |].
    assert (0 <= default (default 1 (distances s !! (b, a))) (distances s !! (a, b)))%Q.
    { destruct (distances s !! (a, b)) as [d |] eqn:E3; simpl;
        [exact (map_forallb_lookup _ _ _ Hd E3) |].
      destruct (distances s !! (b, a)) as [d |] eqn:E4; simpl;
        [exact (map_forallb_lookup _ _ _ Hd E4) | lra]. }
    unfold speed_divisor. apply Qle_shift_div_l; lra.
  - intros k o Hin%list_elem_of_In. rewrite forallb_forall in Hq.
    specialize (Hq _ Hin). simpl in Hq. unfold service_time.
    assert (0 <= inject_Z (o_qty o))%Q.
    { change 0%Q with (inject_Z 0). rewrite <- Zle_Qle. lia. }
    nra.
Qed.

Lemma ascending_snoc_last l y :
  ascending l -> Forall (fun x => (x <= y)%Q) l -> ascending (l ++ [y]).
Proof.
  intros Hl Hall. apply ascending_snoc; [done |].
  intros x Hx%last_elem_of. rewrite Forall_forall in Hall. by apply Hall.
Qed.

Lemma timeline_later v t :
  (v_time v <= t)%Q -> timeline v -> timeline (set_clock t v).
Proof.
  intros Ht (H0 & Hasc & Hall). unfold timeline. simpl.
  split; [lra |]. split; [done |].
  eapply Forall_impl; [exact Hall |]. intros e He. simpl in He. lra.
Qed.

Lemma timeline_drive v loc t :
  (v_time v <= t)%Q -> timeline v -> timeline (drive loc t v).
Proof.
  intros Ht (H0 & Hasc & Hall). unfold timeline. simpl.
  split; [lra |]. split; [done |].
  eapply Forall_impl; [exact Hall |]. intros e He. simpl in He. lra.
Qed.

Lemma timeline_log v v' loc :
  (v_time v <= v_time v')%Q ->
  v_route v' = v_route v ++ [(loc, v_time v')] ->
  timeline v -> timeline v'.
Proof.
  intros Ht Hr (H0 & Hasc & Hall). unfold timeline. rewrite Hr.
  split; [lra |]. split.
  - rewrite map_app. simpl. apply ascending_snoc_last; [done |].
    apply Forall_forall. intros x ([loc' t'] & -> & Hin)%list_elem_of_fmap. simpl.
    rewrite Forall_forall in Hall. specialize (Hall _ Hin). simpl in Hall. lra.
  - apply Forall_app. split.
    + eapply Forall_impl; [exact Hall |]. intros e He. simpl in He. lra.
    + constructor; [simpl; lra | constructor].
Qed.

Section Timeline.
Variable s0 : DVRPSimulator.
Hypothesis travel_nonneg : forall a b, (0 <= _travel_time s0 a b)%Q.
Hypothesis service_nonneg : forall k o, (k, o) ∈ orders s0 -> (0 <= service_time s0 o)%Q.

Lemma service_nonneg_frame s k o :
  frame s = frame s0 -> (k, o) ∈ orders s -> (0 <= service_time s o)%Q.
Proof.
  intros Hf Hin. destruct (frame_order_elem _ _ _ _ Hf Hin) as (o0 & Ho0 & Hst).
  rewrite (config_service_time s0 s o0 o); [by eapply service_nonneg | |].
  - by apply frame_config.
  - by injection Hst.
Qed.

(** The vehicle taking the turn, before and after. *)
Lemma veh_step_vehicle until_time s vk s' p a v :
  frame s = frame s0 ->
  veh_step until_time s vk = Some (s', p, a) ->
  dict_get vk (vehicles s) = Some v ->
  exists v', dict_get vk (vehicles s') = Some v' /\
    (forall vk' v'', (vk', v'') ∈ vehicles s' -> (vk', v'') ∈ vehicles s \/ v'' = v') /\
    (v_time v <= v_time v')%Q /\
    (v_route v' = v_route v \/ v_route v' = v_route v ++ [(v_location v', v_time v')]).
Proof.
  intros Hf Hstep Hv.
  assert (Htrav : forall a b, (0 <= _travel_time s a b)%Q).
  { intros x y. rewrite (config_travel_time s0 s); [apply travel_nonneg |].
    by apply frame_config. }
  apply veh_step_spec in Hstep.
  inversion Hstep as
    [ v1 Hveh Hlate
    | v1 tid top_o free s1 Hveh Htime Htop Hloc Hfree Hle
    | v1 tid top_o free s1 s3 Hveh Htime Htop Hloc Hfree Hgt Hocc
    | v1 top k o arr trav rest free s1 Hveh Htime Htop Hnd Hsort Hfree Hle
    | v1 top k o arr trav rest free s1 s3 Hveh Htime Htop Hnd Hsort Hfree Hgt Hocc
    | v1 tid top_o Hveh Htime Htop Hloc Hfeas
    | v1 Hveh Htime Htop Hfeas ]; subst;
    try (apply free_docks_spec in Hfree as (occ & plant & Hoccp & Hplant & -> & _));
    try (apply occupy_dock_spec in Hocc as (occ' & Hocc' & ->));
    try (apply chosen_candidate in Hsort as (Hin & Hfeasible & -> & -> & _));
    rewrite Hv in Hveh; injection Hveh as <-;
    try (eexists; split;
         [simpl; rewrite dict_get_alter, Z.eqb_refl, Hv; reflexivity |];
         split; [intros vk' v''; apply (elem_of_put_vehicle vk _ s) |]; simpl).
  - exists v. split; [done |]. split; [by left |]. split; [lra | by left].
  - unfold retry_increment. split; [lra | by left].
  - unfold stack_top in Htop.
    destruct (last (v_stack v)) as [tid' |]; [| discriminate].
    destruct (dict_get tid' (orders s)) as [top_o' |] eqn:Hget; simpl in Htop; [| discriminate].
    injection Htop as -> ->.
    pose proof (service_nonneg_frame s tid top_o Hf (dict_get_elem_of _ _ _ Hget)).
    split; [lra | by right].
  - pose proof (earliest_start_ge v o). pose proof (Htrav (v_location v) (o_pickup o)).
    unfold retry_increment. split; [lra | by left].
  - pose proof (earliest_start_ge v o). pose proof (Htrav (v_location v) (o_pickup o)).
    pose proof (service_nonneg_frame s k o Hf Hin).
    split; [lra | by right].
  - pose proof (Htrav (v_location v) (o_delivery top_o)). split; [lra | by left].
  - unfold retry_increment. split; [lra | by left].
Qed.

End Timeline.

Section TimelineRun.
Variable s0 : DVRPSimulator.
Hypothesis times_nonneg : nonneg_times s0 = true.

Lemma timeline_step until_time s vk s' p a :
  frame s = frame s0 ->
  veh_step until_time s vk = Some (s', p, a) ->
  (forall vk' v, (vk', v) ∈ vehicles s -> timeline v) ->
  (forall vk' v, (vk', v) ∈ vehicles s' -> timeline v).
Proof.
  intros Hf Hstep Hall vk' v'' Hin.
  destruct (nonneg_times_facts s0 times_nonneg) as [Htrav Hserv].
  assert (Hsome : is_Some (dict_get vk (vehicles s))).
  { unfold veh_step in Hstep. destruct (dict_get vk (vehicles s)); [by eexists | done]. }
  destruct Hsome as [v Hv].
  destruct (veh_step_vehicle s0 Htrav Hserv _ _ _ _ _ _ v Hf Hstep Hv)
    as (v' & Hv' & Helem & Htime & Hroute).
  destruct (Helem _ _ Hin) as [Hold | ->]; [by eapply Hall |].
  pose proof (Hall _ _ (dict_get_elem_of _ _ _ Hv)) as (H0 & Hasc & Hlog).
  destruct Hroute as [Hr | Hr].
  - unfold timeline. rewrite Hr. split; [lra |]. split; [done |].
    eapply Forall_impl; [exact Hlog |]. intros e He. simpl in He. lra.
  - by eapply (timeline_log v v').
Qed.

Lemma timeline_turns until_time ks s s' :
  frame s = frame s0 ->
  run_turns until_time ks s = Some s' ->
  (forall vk' v, (vk', v) ∈ vehicles s -> timeline v) ->
  (forall vk' v, (vk', v) ∈ vehicles s' -> timeline v).
Proof.
  revert s. induction ks as [| k ks IH]; simpl; intros s Hf.
  - by intros [= <-].
  - destruct (veh_step until_time s k) as [[[s1 p] a] |] eqn:Hstep; simpl; [| discriminate].
    intros Hrun Hall. eapply (IH s1); [| done |].
    + rewrite <- Hf. by eapply veh_step_frame.
    + by eapply timeline_step.
Qed.

Lemma grow_turns until_time ks s s' vk v :
  frame s = frame s0 ->
  run_turns until_time ks s = Some s' ->
  dict_get vk (vehicles s) = Some v ->
  exists v', dict_get vk (vehicles s') = Some v' /\
    (v_time v <= v_time v')%Q /\ v_route v `prefix_of` v_route v'.
Proof.
  destruct (nonneg_times_facts s0 times_nonneg) as [Htrav Hserv].
  revert s v. induction ks as [| k ks IH]; simpl; intros s v Hf.
  - intros [= <-] Hv. exists v. split; [done |]. split; [lra | done].
  - destruct (veh_step until_time s k) as [[[s1 p] a] |] eqn:Hstep; simpl; [| discriminate].
    intros Hrun Hv.
    pose proof (veh_step_frame _ _ _ _ _ _ Hstep) as Hf1.
    assert (exists v1, dict_get vk (vehicles s1) = Some v1 /\
              (v_time v <= v_time v1)%Q /\ v_route v `prefix_of` v_route v1)
      as (v1 & Hv1 & Ht1 & Hr1).
    { destruct (decide (vk = k)) as [-> | Hne].
      - destruct (veh_step_vehicle s0 Htrav Hserv _ _ _ _ _ _ v Hf Hstep Hv)
          as (v1 & Hv1 & _ & Htime & Hroute).
        exists v1. split; [done |]. split; [done |].
        destruct Hroute as [-> | ->]; [done | by apply prefix_app_r].
      - exists v. split; [| split; [lra | done]].
        rewrite <- Hv. apply veh_step_spec in Hstep.
        inversion Hstep; subst;
          repeat match goal with
          | H : _free_docks _ _ _ = Some _ |- _ =>
              apply free_docks_spec in H as (? & ? & _ & _ & -> & _)
          | H : _occupy_dock _ _ _ _ = Some _ |- _ =>
              apply occupy_dock_spec in H as (? & _ & ->)
          end; try done;
          simpl; rewrite dict_get_alter; destruct (Z.eqb_spec k vk); congruence. }
    destruct (IH s1 v1) as (v' & Hv' & Ht' & Hr'); [by rewrite Hf1 | done | done |].
    exists v'. split; [done |]. split; [lra | by etrans].
Qed.

End TimelineRun.

Lemma timeline_reset s vk v : (vk, v) ∈ vehicles (reset s) -> timeline v.
Proof.
  simpl. intros ([vk0 v0] & [= -> ->] & _)%list_elem_of_fmap.
  unfold timeline. simpl. split; [lra |]. split; [done | constructor].
Qed.

(** X13.  When no travel time, distance, service parameter or quantity is
    negative, after any sequence of turns from the reset state the clock of
    every vehicle is non-negative, the timestamps of its route log never
    decrease along the log, and every timestamp lies between zero and the
    clock of the vehicle. *)
Theorem route_log_timeline until_time s0 ks s vk v :
  nonneg_times s0 = true ->
  run_turns until_time ks (reset s0) = Some s ->
  (vk, v) ∈ vehicles s ->
  timeline v.
Proof.
  intros Hn Hrun Hin.
  eapply (timeline_turns s0 Hn until_time ks (reset s0) s); try done.
  - apply reset_frame.
  - apply timeline_reset.
Qed.

Lemma route_log_timeline_witness : timeline EngineExample.vehicle.
Proof.
  apply (route_log_timeline EngineExample.horizon DetourExample.sim [1; 1; 1]
           EngineExample.state 1 EngineExample.vehicle).
  - vm_compute. reflexivity.
  - vm_compute. reflexivity.
  - apply dict_get_elem_of. vm_compute. reflexivity.
Defined.

(** X14.  Under the same condition time only moves forward and the route
    log is append-only: between two states of a run, the clock of a vehicle
    never decreases and its earlier route log is a prefix of its later
    one. *)
Theorem clocks_and_routes_grow until_time s0 ks s ks' s' vk v :
  nonneg_times s0 = true ->
  run_turns until_time ks (reset s0) = Some s ->
  run_turns until_time ks' s = Some s' ->
  dict_get vk (vehicles s) = Some v ->
  exists v', dict_get vk (vehicles s') = Some v' /\
    (v_time v <= v_time v')%Q /\ v_route v `prefix_of` v_route v'.
Proof.
  intros Hn Hrun Hrun' Hv.
  apply (grow_turns s0 Hn until_time ks' s s' vk v); try done.
  rewrite <- (reset_frame s0). by eapply run_turns_frame.
Qed.

Lemma clocks_and_routes_grow_witness :
  exists v', dict_get 1 (vehicles EngineExample.state) = Some v' /\
    (v_time PickupExample.vehicle <= v_time v')%Q /\
    v_route PickupExample.vehicle `prefix_of` v_route v'.
Proof.
  apply (clocks_and_routes_grow EngineExample.horizon DetourExample.sim [1]
           PickupExample.before [1; 1] EngineExample.state 1 PickupExample.vehicle).
  - vm_compute. reflexivity.
  - vm_compute. reflexivity.
  - vm_compute. reflexivity.
  - vm_compute. reflexivity.
Defined.


(** ** Flags are set once *)

Lemma flags_kept_step until_time s vk s' p a k o :
  veh_step until_time s vk = Some (s', p, a) ->
  dict_get k (orders s) = Some o ->
  exists o', dict_get k (orders s') = Some o' /\
    (o_picked o = true -> o_picked o' = true) /\
    (o_delivered o = true -> o_delivered o' = true).
Proof.
  intros Hstep%veh_step_spec Hget.
  inversion Hstep; subst;
    repeat match goal with
    | H : _free_docks _ _ _ = Some _ |- _ =>
        apply free_docks_spec in H as (? & ? & _ & _ & -> & _)
    | H : _occupy_dock _ _ _ _ = Some _ |- _ =>
        apply occupy_dock_spec in H as (? & _ & ->)
    end; simpl; try (by exists o);
    rewrite dict_get_alter, Hget;
    match goal with |- context [(?j =? k)%Z] => destruct (j =? k)%Z end;
    simpl; by eexists.
Qed.

Lemma delivered_final_step s0 until_time s vk s' p a k o :
  NoDup (dict_keys (orders s0)) ->
  engine_inv s0 s ->
  veh_step until_time s vk = Some (s', p, a) ->
  dict_get k (orders s) = Some o -> o_delivered o = true ->
  dict_get k (orders s') = Some o.
Proof.
  intros Hnd [H1 H2 H3 H4 H5] Hstep%veh_step_spec Hget Hdel.
  inversion Hstep as
    [ v Hveh Hlate
    | v tid top_o free s1 Hveh Htime Htop Hloc Hfree Hle
    | v tid top_o free s1 s3 Hveh Htime Htop Hloc Hfree Hgt Hocc
    | v top k' o' arr trav rest free s1 Hveh Htime Htop Hndl Hsort Hfree Hle
    | v top k' o' arr trav rest free s1 s3 Hveh Htime Htop Hndl Hsort Hfree Hgt Hocc
    | v tid top_o Hveh Htime Htop Hloc Hfeas
    | v Hveh Htime Htop Hfeas ]; subst;
    try (apply free_docks_spec in Hfree as (occ & plant & Hoccp & Hplant & -> & _));
    try (apply occupy_dock_spec in Hocc as (occ' & Hocc' & ->));
    try (apply chosen_candidate in Hsort as (Hin & Hfeasible & -> & -> & _));
    simpl; try done; rewrite dict_get_alter.
  - destruct (Z.eqb_spec tid k) as [-> | Hne]; [| done]. exfalso.
    unfold stack_top in Htop.
    destruct (last (v_stack v)) as [tid' |] eqn:Hlast; [| discriminate].
    destruct (dict_get tid' (orders s)) as [top_o' |] eqn:Hget_top;
      simpl in Htop; [| discriminate].
    injection Htop as -> ->.
    pose proof (on_stacks_positive s vk v k (dict_get_elem_of _ _ _ Hveh)
                  (last_elem_of _ _ Hlast)) as Hpos.
    specialize (H4 k). unfold in_transit in H4. rewrite Hget, Hdel, andb_false_r in H4. lia.
  - destruct (Z.eqb_spec k' k) as [-> | Hne]; [| done]. exfalso.
    assert (dict_get k (orders s) = Some o') as Hget'.
    { apply dict_get_NoDup; [| done]. by rewrite (frame_keys _ _ H1). }
    destruct Hfeasible as (_ & Hund & _). congruence.
Qed.

(** X15.  On an instance whose orders are stored under their own ids, with
    distinct keys and non-negative quantities and capacities, a delivered
    order is final: once an order is flagged delivered during a run, no
    later turn changes any of its fields, so it is delivered once and its
    delivered-time is never overwritten.  An order that is picked up stays
    picked up. *)
Theorem delivered_is_final until_time s0 ks s ks' s' k o :
  keyed s0 = true ->
  quantities_nonneg s0 = true ->
  run_turns until_time ks (reset s0) = Some s ->
  run_turns until_time ks' s = Some s' ->
  dict_get k (orders s) = Some o ->
  exists o', dict_get k (orders s') = Some o' /\
    (o_picked o = true -> o_picked o' = true) /\
    (o_delivered o = true -> o' = o).
Proof.
  intros Hk Hq Hrun Hrun' Hget.
  pose proof (engine_inv_reachable until_time s0 ks s Hk Hq Hrun) as Hinv.
  apply keyed_facts in Hk as [Hnd Hid]. apply quantities_nonneg_facts in Hq as [Hq _].
  clear Hrun. revert s o Hinv Hrun' Hget.
  induction ks' as [| j ks' IH]; simpl; intros s o Hinv Hrun' Hget.
  - injection Hrun' as <-. by exists o.
  - destruct (veh_step until_time s j) as [[[s1 p] a] |] eqn:Hstep; simpl in Hrun';
      [| discriminate].
    destruct (flags_kept_step _ _ _ _ _ _ _ _ Hstep Hget) as (o1 & Hget1 & Hp1 & _).
    pose proof (engine_inv_step s0 Hnd Hid Hq _ _ _ _ _ _ Hstep Hinv) as Hinv1.
    destruct (IH s1 o1 Hinv1 Hrun' Hget1) as (o' & Hget' & Hp' & Hd').
    exists o'. split; [done |]. split; [auto |].
    intros Hdel.
    pose proof (delivered_final_step s0 _ _ _ _ _ _ _ _ Hnd Hinv Hstep Hget Hdel) as Hsame.
    assert (o1 = o) as -> by congruence. auto.
Qed.

Lemma delivered_is_final_witness :
  exists o', dict_get 3 (orders ResultExample.final) = Some o' /\
    (o_picked FinalExample.order3 = true -> o_picked o' = true) /\
    (o_delivered FinalExample.order3 = true -> o' = FinalExample.order3).
Proof.
  apply (delivered_is_final FinalExample.horizon Scenario.sim0 FinalExample.turns
           FinalExample.midway FinalExample.more_turns ResultExample.final 3
           FinalExample.order3).
  - vm_compute. reflexivity.
  - vm_compute. reflexivity.
  - vm_compute. reflexivity.
  - vm_compute. reflexivity.
  - vm_compute. reflexivity.
Defined.


(** ** The moves of the optimizer *)

Lemma pick2_spec n d :
  (2 <= n)%nat ->
  ((pick2 n d).1 < n)%nat /\ ((pick2 n d).2 < n)%nat /\ (pick2 n d).1 <> (pick2 n d).2.
Proof.
  intros Hn. unfold pick2. simpl.
  pose proof (Nat.mod_upper_bound d.1 n ltac:(lia)) as Hi.
  pose proof (Nat.mod_upper_bound d.2 (n - 1) ltac:(lia)) as Hj.
  destruct (Nat.ltb_spec (d.2 mod (n - 1)) (d.1 mod n)); lia.
Qed.

Lemma insert_swap_perm {A} (l : list A) i x y :
  l !! i = Some x -> y :: l ≡ₚ x :: <[i := y]> l.
Proof.
  revert i. induction l as [| a l IH]; intros [| i]; simpl; try done.
  - intros [= ->]. apply perm_swap.
  - intros Hi. rewrite perm_swap. rewrite (IH i Hi). apply perm_swap.
Qed.

Lemma insert_exchange_perm {A} (l : list A) i j x y :
  i <> j -> l !! i = Some x -> l !! j = Some y ->
  <[j := x]> (<[i := y]> l) ≡ₚ l.
Proof.
  intros Hne Hi Hj. apply (Permutation_cons_inv (a := y)).
  rewrite (insert_swap_perm l i x y Hi).
  symmetry. apply insert_swap_perm. by rewrite list_lookup_insert_ne.
Qed.

Lemma set_delivery_blank d o : set_delivery 0 (set_delivery d o) = set_delivery 0 o.
Proof. done. Qed.

Lemma conserved_refl os : conserved os os.
Proof. by repeat split. Qed.

Lemma conserved_trans os1 os2 os3 :
  conserved os1 os2 -> conserved os2 os3 -> conserved os1 os3.
Proof.
  intros (H1 & H2 & H3) (H4 & H5 & H6). repeat split; by etrans.
Qed.

Lemma conserved_values os os' :
  dict_keys os' ≡ₚ dict_keys os -> dict_values os' ≡ₚ dict_values os -> conserved os os'.
Proof.
  intros Hk Hv. split; [done |]. unfold without_delivery, deliveries, dict_values in *.
  split.
  - rewrite <- (map_map snd (set_delivery 0) os'), <- (map_map snd (set_delivery 0) os).
    by apply Permutation_map.
  - rewrite <- (map_map snd o_delivery os'), <- (map_map snd o_delivery os).
    by apply Permutation_map.
Qed.

Lemma conserved_perm os os' : os' ≡ₚ os -> conserved os os'.
Proof.
  intros H. apply conserved_values; unfold dict_keys, dict_values; by apply Permutation_map.
Qed.

Lemma swap_deliveries_lookup i j os ki oi kj oj :
  i <> j -> os !! i = Some (ki, oi) -> os !! j = Some (kj, oj) ->
  swap_deliveries i j os !! i = Some (ki, set_delivery (o_delivery oj) oi) /\
  swap_deliveries i j os !! j = Some (kj, set_delivery (o_delivery oi) oj) /\
  (forall l, l <> i -> l <> j -> swap_deliveries i j os !! l = os !! l) /\
  length (swap_deliveries i j os) = length os.
Proof.
  intros Hne Hi Hj. unfold swap_deliveries. rewrite Hi, Hj.
  pose proof (lookup_lt_Some _ _ _ Hi) as Hli.
  pose proof (lookup_lt_Some _ _ _ Hj) as Hlj.
  split; [| split; [| split]].
  - rewrite list_lookup_insert_ne by done. by apply list_lookup_insert_eq.
  - apply list_lookup_insert_eq. by rewrite length_insert.
  - intros l Hl1 Hl2. by rewrite !list_lookup_insert_ne.
  - by rewrite !length_insert.
Qed.

Lemma swap_deliveries_conserved i j os : i <> j -> conserved os (swap_deliveries i j os).
Proof.
  intros Hne. unfold swap_deliveries.
  destruct (os !! i) as [[ki oi] |] eqn:Hi; [| apply conserved_refl].
  destruct (os !! j) as [[kj oj] |] eqn:Hj; [| apply conserved_refl].
  unfold conserved, dict_keys, without_delivery, deliveries.
  rewrite !list_fmap_insert. simpl. rewrite !set_delivery_blank. split; [| split].
  - rewrite (list_insert_id (fst <$> os) i ki) by (by rewrite list_lookup_fmap, Hi).
    rewrite (list_insert_id (fst <$> os) j kj) by (by rewrite list_lookup_fmap, Hj).
    done.
  - rewrite (list_insert_id _ i (set_delivery 0 oi)) by (by rewrite list_lookup_fmap, Hi).
    rewrite (list_insert_id _ j (set_delivery 0 oj)) by (by rewrite list_lookup_fmap, Hj).
    done.
  - apply (insert_exchange_perm ((fun ko : Z * Order => o_delivery ko.2) <$> os));
      [done | |]; by rewrite list_lookup_fmap, ?Hi, ?Hj.
Qed.

Section DictPerm.
Context {V : Type}.
Implicit Types (d : list (Z * V)) (k : Z).

Lemma dict_setitem_perm k v v' d :
  dict_get k d = Some v -> (k, v') :: d ≡ₚ (k, v) :: dict_setitem k v' d.
Proof.
  induction d as [| [k0 v0] d IH]; simpl; [discriminate |].
  destruct (Z.eqb_spec k0 k) as [-> | Hne].
  - intros [= ->]. apply perm_swap.
  - intros Hget. rewrite perm_swap, (IH Hget). apply perm_swap.
Qed.

Lemma dict_pop_perm k v d : dict_get k d = Some v -> d ≡ₚ (k, v) :: dict_pop k d.
Proof.
  induction d as [| [k0 v0] d IH]; simpl; [discriminate |].
  destruct (Z.eqb_spec k0 k) as [-> | Hne].
  - by intros [= ->].
  - intros Hget. rewrite (IH Hget) at 1. apply perm_swap.
Qed.

Lemma dict_setitem_id k v d : dict_get k d = Some v -> dict_setitem k v d = d.
Proof.
  induction d as [| [k0 v0] d IH]; simpl; [discriminate |].
  destruct (Z.eqb_spec k0 k) as [-> | Hne]; [by intros [= ->] | intros H; by rewrite IH].
Qed.

Lemma dict_setitem_setitem k v v' d :
  dict_setitem k v (dict_setitem k v' d) = dict_setitem k v d.
Proof.
  induction d as [| [k0 v0] d IH]; simpl.
  - by rewrite Z.eqb_refl.
  - destruct (Z.eqb_spec k0 k) as [-> | Hne]; simpl.
    + by rewrite Z.eqb_refl.
    + destruct (Z.eqb_spec k0 k); [done |]. by rewrite IH.
Qed.

Lemma dict_setitem_comm i j a b d :
  i <> j -> is_Some (dict_get i d) ->
  dict_setitem j b (dict_setitem i a d) = dict_setitem i a (dict_setitem j b d).
Proof.
  intros Hne. induction d as [| [k0 v0] d IH]; simpl; [by intros [? ?] |].
  destruct (Z.eqb_spec k0 i) as [-> | Hi]; simpl.
  - intros _. destruct (Z.eqb_spec i j); [done |]. simpl. by rewrite Z.eqb_refl.
  - intros Hsome. destruct (Z.eqb_spec k0 j) as [-> | Hj]; simpl.
    + destruct (Z.eqb_spec j i); [congruence | done].
    + destruct (Z.eqb_spec k0 i); [done |]. by rewrite IH.
Qed.
End DictPerm.

Lemma block_exchange_at_conserved i j os : conserved os (block_exchange_at i j os).
Proof.
  unfold block_exchange_at.
  destruct (dict_get j os) as [oj |] eqn:Hj; [| apply conserved_refl].
  destruct (dict_get i os) as [oi |] eqn:Hi; [| apply conserved_refl].
  assert (dict_get j (dict_setitem i oj os) = Some oj) as Hj'.
  { rewrite dict_get_setitem. by destruct (Z.eqb_spec i j). }
  apply conserved_values.
  - by rewrite (dict_keys_setitem _ _ _ _ Hj'), (dict_keys_setitem _ _ _ _ Hi).
  - apply (Permutation_cons_inv (a := oj)).
    pose proof (dict_setitem_perm i oi oj os Hi) as H1.
    pose proof (dict_setitem_perm j oj oi _ Hj') as H2.
    apply (Permutation_map snd) in H1, H2. simpl in H1, H2.
    unfold dict_values. by rewrite <- H2, <- H1.
Qed.

Lemma block_relocate_at_perm i os :
  NoDup (dict_keys os) -> block_relocate_at i os ≡ₚ os.
Proof.
  intros Hnd. unfold block_relocate_at.
  destruct (dict_get i os) as [oi |] eqn:Hi; [| done].
  rewrite dict_setitem_fresh by (by apply dict_pop_fresh).
  rewrite (dict_pop_perm i oi os Hi) at 2. by rewrite Permutation_app_comm.
Qed.

Lemma NoDup_distinct l : NoDup l -> distinct l = true.
Proof.
  induction 1 as [| x l Hni Hnd IH]; simpl; [done |].
  rewrite IH, andb_true_r. apply negb_true_iff.
  destruct (existsb (Z.eqb x) l) eqn:E; [| done].
  apply existsb_exists in E as (y & Hy%list_elem_of_In & ->%Z.eqb_eq). done.
Qed.

Lemma block_relocate_perm rng os :
  NoDup (dict_keys os) -> (block_relocate rng os).1 ≡ₚ os.
Proof.
  intros Hnd. unfold block_relocate. destruct (2 <=? length os)%nat; [| done].
  destruct (next_draw rng) as [d rng']. destruct (pick2 (length os) d) as [i j]. simpl.
  by apply block_relocate_at_perm.
Qed.

Lemma couple_exchange_conserved rng os : conserved os (couple_exchange rng os).1.
Proof.
  unfold couple_exchange.
  destruct (Nat.ltb_spec (length os) 2) as [| Hlen]; [apply conserved_refl |].
  destruct (next_draw rng) as [d rng'].
  pose proof (pick2_spec (length os) d Hlen) as (_ & _ & Hne).
  destruct (pick2 (length os) d) as [i j]. simpl. by apply swap_deliveries_conserved.
Qed.

Lemma run_move_conserved m rng os :
  NoDup (dict_keys os) -> conserved os (run_move m rng os).1.
Proof.
  intros Hnd. destruct m; simpl.
  - apply couple_exchange_conserved.
  - unfold block_exchange. destruct (2 <=? length os)%nat; [| apply conserved_refl].
    destruct (next_draw rng) as [d rng']. destruct (pick2 (length os) d) as [i j]. simpl.
    apply block_exchange_at_conserved.
  - by apply conserved_perm, block_relocate_perm.
  - unfold multi_relocate.
    pose proof (block_relocate_perm rng os Hnd) as H1.
    destruct (block_relocate rng os) as [os1 rng1]. simpl in H1.
    apply conserved_perm. etrans; [| exact H1]. apply block_relocate_perm.
    unfold dict_keys. by rewrite H1.
  - apply (couple_exchange_conserved rng os).
Qed.

(** X16.  Couple-exchange, applied to a set of at least two orders, picks
    two distinct positions of the set and exchanges the delivery plants of
    the two orders there; their keys and other fields, every other entry
    and the order of the entries are unchanged.  The disturbance is the
    same function. *)
Theorem couple_exchange_effect rng os :
  (2 <= length os)%nat ->
  disturb rng os = couple_exchange rng os /\
  exists i j ki oi kj oj,
    i <> j /\ os !! i = Some (ki, oi) /\ os !! j = Some (kj, oj) /\
    (couple_exchange rng os).1 !! i = Some (ki, set_delivery (o_delivery oj) oi) /\
    (couple_exchange rng os).1 !! j = Some (kj, set_delivery (o_delivery oi) oj) /\
    (forall l, l <> i -> l <> j -> (couple_exchange rng os).1 !! l = os !! l) /\
    length (couple_exchange rng os).1 = length os.
Proof.
  intros Hlen. split; [done |]. unfold couple_exchange.
  destruct (Nat.ltb_spec (length os) 2) as [| _]; [lia |].
  destruct (next_draw rng) as [d rng'].
  pose proof (pick2_spec (length os) d Hlen) as (Hi & Hj & Hne).
  destruct (pick2 (length os) d) as [i j]. simpl in *.
  destruct (lookup_lt_is_Some_2 os i Hi) as [[ki oi] Hoi].
  destruct (lookup_lt_is_Some_2 os j Hj) as [[kj oj] Hoj].
  exists i, j, ki, oi, kj, oj. repeat (split; [done |]).
  by apply swap_deliveries_lookup.
Qed.

Lemma couple_exchange_effect_witness :
  disturb OptimizerExample.rng Scenario.orders0
  = couple_exchange OptimizerExample.rng Scenario.orders0 /\
  exists i j ki oi kj oj,
    i <> j /\ Scenario.orders0 !! i = Some (ki, oi) /\
    Scenario.orders0 !! j = Some (kj, oj) /\
    (couple_exchange OptimizerExample.rng Scenario.orders0).1 !! i
    = Some (ki, set_delivery (o_delivery oj) oi) /\
    (couple_exchange OptimizerExample.rng Scenario.orders0).1 !! j
    = Some (kj, set_delivery (o_delivery oi) oj) /\
    (forall l, l <> i -> l <> j ->
       (couple_exchange OptimizerExample.rng Scenario.orders0).1 !! l
       = Scenario.orders0 !! l) /\
    length (couple_exchange OptimizerExample.rng Scenario.orders0).1
    = length Scenario.orders0.
Proof.
  apply (couple_exchange_effect OptimizerExample.rng Scenario.orders0).
  simpl. lia.
Defined.

(** X17.  Exchanging the slots of two keys is symmetric in the keys and
    undoes itself: applied twice to the same pair of keys it gives back the
    order set, entry for entry and in the same iteration order. *)
Theorem block_exchange_involution i j os :
  block_exchange_at i j (block_exchange_at i j os) = os /\
  block_exchange_at j i os = block_exchange_at i j os.
Proof.
  unfold block_exchange_at at 2 4.
  destruct (dict_get j os) as [oj |] eqn:Hj, (dict_get i os) as [oi |] eqn:Hi;
    try (unfold block_exchange_at; rewrite ?Hi, ?Hj; by split).
  split.
  - unfold block_exchange_at. rewrite !dict_get_setitem, Z.eqb_refl.
    destruct (Z.eqb_spec j i) as [-> | Hne].
    + assert (oj = oi) as -> by congruence.
      rewrite !dict_setitem_setitem. by apply dict_setitem_id.
    + destruct (Z.eqb_spec i j) as [-> | _]; [done |]. rewrite Z.eqb_refl.
      rewrite (dict_setitem_comm i j oi oj).
      * rewrite dict_setitem_setitem.
        rewrite (dict_setitem_comm i j oj oj os) by (by eexists || congruence).
        rewrite dict_setitem_setitem, (dict_setitem_id j oj os Hj).
        by apply dict_setitem_id.
      * done.
      * rewrite !dict_get_setitem. destruct (Z.eqb_spec j i); [done |].
        rewrite Z.eqb_refl. by eexists.
  - unfold block_exchange_at. rewrite Hi, Hj.
    destruct (Z.eqb_spec i j) as [-> | Hne]; [congruence |].
    symmetry. apply dict_setitem_comm; [done | by eexists].
Qed.

(** X18.  Every move of the optimizer conserves the order set: applied to a
    set with distinct keys it returns a set with the same keys, still
    distinct, the same orders up to their delivery plants, and the same
    delivery plants, each counted with multiplicity.  No order is lost,
    duplicated or invented by a move or by the composition of two
    relocations. *)
Theorem moves_conserve m rng os :
  distinct (dict_keys os) = true ->
  conserved os (run_move m rng os).1 /\
  distinct (dict_keys (run_move m rng os).1) = true /\
  length (run_move m rng os).1 = length os.
Proof.
  intros Hd%distinct_NoDup.
  pose proof (run_move_conserved m rng os Hd) as Hc. split; [done |].
  destruct Hc as (Hk & _ & _). split.
  - apply NoDup_distinct. by rewrite Hk.
  - apply Permutation_length in Hk. unfold dict_keys in Hk. by rewrite !length_map in Hk.
Qed.

Lemma moves_conserve_witness :
  conserved Scenario.orders0 (run_move MultiRelocate OptimizerExample.rng Scenario.orders0).1 /\
  distinct (dict_keys (run_move MultiRelocate OptimizerExample.rng Scenario.orders0).1) = true /\
  length (run_move MultiRelocate OptimizerExample.rng Scenario.orders0).1
  = length Scenario.orders0.
Proof.
  apply (moves_conserve MultiRelocate OptimizerExample.rng Scenario.orders0).
  vm_compute. reflexivity.
Defined.

Lemma stored_under_ids_setitem k o os :
  stored_under_ids os = true -> o_id o = k -> stored_under_ids (dict_setitem k o os) = true.
Proof.
  unfold stored_under_ids. intros H Hid.
  induction os as [| [k0 o0] os IH]; simpl in *.
  - rewrite andb_true_r. lia.
  - apply andb_prop in H as [H0 H]. destruct (Z.eqb_spec k0 k) as [-> | Hne]; simpl.
    + rewrite H, andb_true_r. lia.
    + by rewrite H0, IH.
Qed.

Lemma stored_under_ids_pop k os :
  stored_under_ids os = true -> stored_under_ids (dict_pop k os) = true.
Proof.
  unfold stored_under_ids. intros H.
  induction os as [| [k0 o0] os IH]; simpl in *; [done |].
  apply andb_prop in H as [H0 H]. destruct (k0 =? k); simpl; [done |].
  by rewrite H0, IH.
Qed.

Lemma stored_under_ids_get k o os :
  stored_under_ids os = true -> dict_get k os = Some o -> o_id o = k.
Proof.
  unfold stored_under_ids. rewrite forallb_forall.
  intros H Hin%dict_get_elem_of%list_elem_of_In. specialize (H _ Hin). simpl in H. lia.
Qed.

Lemma stored_under_ids_relocate rng os :
  stored_under_ids os = true -> stored_under_ids (block_relocate rng os).1 = true.
Proof.
  intros H. unfold block_relocate. destruct (2 <=? length os)%nat; [| done].
  destruct (next_draw rng) as [d rng']. destruct (pick2 (length os) d) as [i j]. simpl.
  unfold block_relocate_at. destruct (dict_get (key_at os i) os) as [o |] eqn:Hget; [| done].
  apply stored_under_ids_setitem; [by apply stored_under_ids_pop |].
  by eapply stored_under_ids_get.
Qed.

Lemma stored_under_ids_swap i j os :
  stored_under_ids os = true -> stored_under_ids (swap_deliveries i j os) = true.
Proof.
  unfold swap_deliveries, stored_under_ids. intros H.
  destruct (os !! i) as [[ki oi] |] eqn:Hi; [| done].
  destruct (os !! j) as [[kj oj] |] eqn:Hj; [| done].
  rewrite forallb_forall in *. intros [k o] Hin%list_elem_of_In.
  apply list_elem_of_lookup in Hin as [l Hl].
  apply list_lookup_insert_Some in Hl as [(_ & [= <- <-] & _) | (_ & Hl)].
  { apply (H (kj, oj)), list_elem_of_In. by eapply list_elem_of_lookup_2. }
  apply list_lookup_insert_Some in Hl as [(_ & [= <- <-] & _) | (_ & Hl)].
  { apply (H (ki, oi)), list_elem_of_In. by eapply list_elem_of_lookup_2. }
  apply (H (k, o)), list_elem_of_In. by eapply list_elem_of_lookup_2.
Qed.

(** X19.  The simulator looks the top of a stack up by order id, so it
    relies on every order being stored under its own id.  Couple-exchange,
    block-relocate, multi-relocate and the disturbance keep that; an
    exchange of the slots of two distinct keys breaks it. *)
Theorem moves_and_ids m rng os i j oi oj :
  stored_under_ids os = true ->
  (m <> BlockExchange -> stored_under_ids (run_move m rng os).1 = true) /\
  (i <> j -> dict_get i os = Some oi -> dict_get j os = Some oj ->
   stored_under_ids (block_exchange_at i j os) = false).
Proof.
  intros H. split.
  - intros Hm. destruct m; simpl; try done.
    + unfold couple_exchange. destruct (length os <? 2)%nat; [done |].
      destruct (next_draw rng) as [d rng']. destruct (pick2 (length os) d) as [i' j']. simpl.
      by apply stored_under_ids_swap.
    + by apply stored_under_ids_relocate.
    + unfold multi_relocate.
      pose proof (stored_under_ids_relocate rng os H) as H1.
      destruct (block_relocate rng os) as [os1 rng1]. simpl in H1.
      by apply stored_under_ids_relocate.
    + unfold disturb. destruct (length os <? 2)%nat; [done |].
      destruct (next_draw rng) as [d rng']. destruct (pick2 (length os) d) as [i' j']. simpl.
      by apply stored_under_ids_swap.
  - intros Hne Hi Hj. unfold block_exchange_at. rewrite Hj, Hi.
    destruct (stored_under_ids (dict_setitem j oi (dict_setitem i oj os))) eqn:E; [| done].
    assert (dict_get j (dict_setitem j oi (dict_setitem i oj os)) = Some oi) as Hget.
    { by rewrite dict_get_setitem, Z.eqb_refl. }
    pose proof (stored_under_ids_get _ _ _ E Hget).
    pose proof (stored_under_ids_get _ _ _ H Hi). congruence.
Qed.

Lemma moves_and_ids_witness :
  (Disturb <> BlockExchange ->
   stored_under_ids (run_move Disturb OptimizerExample.rng Scenario.orders0).1 = true) /\
  (1 <> 2 -> dict_get 1 Scenario.orders0 = Some (Scenario.new_order 1 1 2 2 10 180) ->
   dict_get 2 Scenario.orders0 = Some (Scenario.new_order 2 1 3 1 20 160) ->
   stored_under_ids (block_exchange_at 1 2 Scenario.orders0) = false).
Proof.
  apply (moves_and_ids Disturb OptimizerExample.rng Scenario.orders0 1 2
           (Scenario.new_order 1 1 2 2 10 180) (Scenario.new_order 2 1 3 1 20 160)).
  vm_compute. reflexivity.
Defined.


(** ** Runs of the optimizer *)

Lemma simulate_total s until_time :
  ids_known s = true -> sites_closed s = true ->
  is_Some (simulate_with_tracking s until_time).
Proof.
  intros Hknown Hclosed.
  destruct (dispatch_loop_returns s Hknown Hclosed max_iterations until_time (reset s)
              (runnable_reset s)) as (s' & evs & Hloop).
  unfold simulate_with_tracking. rewrite Hloop. by eexists.
Qed.

Lemma evaluate_closed opt os :
  closed_for opt os = true -> exists c r, evaluate opt os = Some (c, r).
Proof.
  intros [[_ Hk]%andb_prop Hs]%andb_prop.
  destruct (simulate_total (candidate_simulator opt os) default_until_time Hk Hs)
    as [[s' res] Hsim].
  unfold evaluate. fold (candidate_simulator opt os). rewrite Hsim. simpl. by eexists _, _.
Qed.

Lemma conserved_elem os os' k' o' :
  conserved os os' -> (k', o') ∈ os' ->
  (exists k o, (k, o) ∈ os /\ o_id o = o_id o' /\ o_pickup o = o_pickup o') /\
  (exists k o, (k, o) ∈ os /\ o_delivery o = o_delivery o').
Proof.
  intros (_ & Hw & Hd) Hin. split.
  - assert (set_delivery 0 o' ∈ without_delivery os') as H.
    { unfold without_delivery. apply list_elem_of_fmap. by exists (k', o'). }
    rewrite Hw in H. apply list_elem_of_fmap in H as ([k o] & Heq & Hin0).
    exists k, o. split; [done |]. simpl in Heq. by injection Heq as -> ->.
  - assert (o_delivery o' ∈ deliveries os') as H.
    { unfold deliveries. apply list_elem_of_fmap. by exists (k', o'). }
    rewrite Hd in H. apply list_elem_of_fmap in H as ([k o] & Heq & Hin0).
    exists k, o. split; [done |]. by simpl in Heq.
Qed.

Lemma closed_conserved opt os os' :
  conserved os os' -> closed_for opt os = true -> closed_for opt os' = true.
Proof.
  intros Hc [[Hd%distinct_NoDup Hk]%andb_prop Hs]%andb_prop.
  pose proof Hc as (Hkeys & _ & _).
  unfold closed_for. repeat (apply andb_true_intro; split).
  - apply NoDup_distinct. by rewrite Hkeys.
  - unfold ids_known. simpl. apply forallb_forall. intros [k' o'] Hin%list_elem_of_In.
    destruct (conserved_elem _ _ _ _ Hc Hin) as [(k & o & Hin0 & Hid & _) _].
    pose proof (ids_known_facts (candidate_simulator opt os) k o Hk Hin0) as Hkey.
    simpl in *. apply existsb_exists. exists (o_id o'). split; [| apply Z.eqb_refl].
    apply list_elem_of_In. rewrite Hkeys, <- Hid. exact Hkey.
  - unfold sites_closed. simpl. apply forallb_forall. intros [k' o'] Hin%list_elem_of_In.
    destruct (conserved_elem _ _ _ _ Hc Hin)
      as [(k1 & o1 & Hin1 & _ & Hp) (k2 & o2 & Hin2 & Hdl)].
    destruct (sites_closed_facts (candidate_simulator opt os) k1 o1 Hs Hin1) as [H1 _].
    destruct (sites_closed_facts (candidate_simulator opt os) k2 o2 Hs Hin2) as [_ H2].
    simpl in *. rewrite <- Hp, <- Hdl.
    apply andb_true_intro. split; by apply bool_decide_eq_true.
Qed.

Lemma conserved_NoDup os os' :
  conserved os os' -> NoDup (dict_keys os) -> NoDup (dict_keys os').
Proof. intros (Hk & _ & _) Hnd. by rewrite Hk. Qed.

Section OptimizerRun.
Variables (opt : VNSMEOptimizer) (os : list (Z * Order)).
Hypothesis keys_distinct : NoDup (dict_keys os).

Lemma move_conserved m rng st :
  conserved os (initial_orders st) ->
  conserved os (run_move m rng (initial_orders st)).1.
Proof.
  intros Hc. eapply conserved_trans; [exact Hc |].
  apply run_move_conserved. by eapply conserved_NoDup.
Qed.

Lemma try_moves_inv names st rng st' improved rng' :
  try_moves opt (map run_move names) st rng = Some (st', improved, rng') ->
  opt_inv opt os st -> opt_inv opt os st'.
Proof.
  revert rng. induction names as [| m names IH]; simpl; intros rng.
  - by intros [= <- <- <-].
  - destruct (evaluate opt (run_move m rng (initial_orders st)).1)
      as [[cand_cost cand_res] |] eqn:Heval; simpl; [| discriminate].
    destruct (Qlt_bool cand_cost (best_cost st)); [| apply IH].
    intros [= <- <- <-] [Hb Hi Hc]. split; simpl; [| done | done].
    by apply move_conserved.
Qed.

Lemma optimize_round_inv st rng st' continue rng' :
  optimize_round opt st rng = Some (st', continue, rng') ->
  opt_inv opt os st -> opt_inv opt os st'.
Proof.
  unfold optimize_round. intros Hround Hinv.
  destruct (try_moves opt local_moves st rng) as [[[st1 improved] rng1] |] eqn:Hmoves;
    simpl in Hround; [| discriminate].
  pose proof (try_moves_inv [CoupleExchange; BlockExchange; BlockRelocate; MultiRelocate]
                _ _ _ _ _ Hmoves Hinv) as Hinv1.
  destruct improved; [by injection Hround as <- <- <- |].
  destruct (evaluate opt (disturb rng1 (best_orders st1)).1)
    as [[cand_cost cand_res] |] eqn:Heval; simpl in Hround; [| discriminate].
  destruct (Qlt_bool cand_cost (initial_cost st1 * disturb_acceptance opt));
    injection Hround as <- <- <-; [| done].
  destruct Hinv1 as [Hb Hi Hc]. split; simpl; [done | | done].
  eapply conserved_trans; [exact Hb |].
  apply (run_move_conserved Disturb). by eapply conserved_NoDup.
Qed.

Lemma optimize_loop_inv rounds st rng st' :
  optimize_loop rounds opt st rng = Some st' ->
  opt_inv opt os st -> opt_inv opt os st'.
Proof.
  revert st rng. induction rounds as [| rounds IH]; simpl; intros st rng.
  - by intros [= <-].
  - destruct (optimize_round opt st rng) as [[[st1 continue] rng1] |] eqn:Hround;
      simpl; [| discriminate].
    intros Hloop Hinv. pose proof (optimize_round_inv _ _ _ _ _ Hround Hinv) as Hinv1.
    destruct continue; [by eapply IH | by injection Hloop as <-].
Qed.

Hypothesis closed : closed_for opt os = true.

Lemma try_moves_total names st rng :
  opt_inv opt os st ->
  is_Some (try_moves opt (map run_move names) st rng).
Proof.
  intros Hinv. revert rng. induction names as [| m names IH]; simpl; intros rng;
    [by eexists |].
  destruct (evaluate_closed opt (run_move m rng (initial_orders st)).1)
    as (c & r & Heval).
  { eapply closed_conserved; [| exact closed]. apply move_conserved. apply Hinv. }
  rewrite Heval. simpl. destruct (Qlt_bool c (best_cost st)); [by eexists | apply IH].
Qed.

Lemma optimize_round_total st rng :
  opt_inv opt os st -> is_Some (optimize_round opt st rng).
Proof.
  intros Hinv. unfold optimize_round.
  destruct (try_moves_total [CoupleExchange; BlockExchange; BlockRelocate; MultiRelocate]
              st rng Hinv) as [[[st1 improved] rng1] Hmoves].
  change (map run_move [CoupleExchange; BlockExchange; BlockRelocate; MultiRelocate])
    with local_moves in Hmoves.
  rewrite Hmoves. simpl.
  pose proof (try_moves_inv [CoupleExchange; BlockExchange; BlockRelocate; MultiRelocate]
                _ _ _ _ _ Hmoves Hinv) as [Hb Hi Hc].
  destruct improved; [by eexists |].
  destruct (evaluate_closed opt (disturb rng1 (best_orders st1)).1) as (c & r & Heval).
  { eapply closed_conserved; [| exact closed].
    eapply conserved_trans; [exact Hb |].
    apply (run_move_conserved Disturb). by eapply conserved_NoDup. }
  rewrite Heval. simpl.
  destruct (Qlt_bool c (initial_cost st1 * disturb_acceptance opt)); by eexists.
Qed.

Lemma optimize_loop_total rounds st rng :
  opt_inv opt os st -> is_Some (optimize_loop rounds opt st rng).
Proof.
  revert st rng. induction rounds as [| rounds IH]; simpl; intros st rng Hinv;
    [by eexists |].
  destruct (optimize_round_total st rng Hinv) as [[[st1 continue] rng1] Hround].
  rewrite Hround. simpl. destruct continue; [| by eexists].
  apply IH. by eapply optimize_round_inv.
Qed.

End OptimizerRun.

Lemma opt_inv_start opt os c r :
  evaluate opt os = Some (c, r) -> opt_inv opt os (mkOptState c r os c r os).
Proof. intros H. split; simpl; [apply conserved_refl | apply conserved_refl | done]. Qed.

(** X20.  On an order set with distinct keys in which every order id is a
    key and every pickup and delivery plant is a plant of the reference
    simulator, the optimizer never fails: every candidate that a move or a
    disturbance produces is again such a set, every evaluation returns, and
    so does the optimizer, for every budget and every sequence of random
    draws. *)
Theorem optimize_returns opt rounds rng os :
  closed_for opt os = true ->
  exists c r, optimize opt rounds rng os = Some (c, r).
Proof.
  intros Hclosed. pose proof Hclosed as [[Hd%distinct_NoDup _]%andb_prop _]%andb_prop.
  destruct (evaluate_closed opt os Hclosed) as (c0 & r0 & Heval).
  unfold optimize. rewrite Heval. simpl.
  destruct (optimize_loop_total opt os Hd Hclosed rounds _ rng
              (opt_inv_start opt os c0 r0 Heval)) as [st Hloop].
  rewrite Hloop. simpl. by eexists _, _.
Qed.

Lemma optimize_returns_witness :
  exists c r,
    optimize OptimizerExample.opt OptimizerExample.rounds OptimizerExample.rng
      Scenario.orders0 = Some (c, r).
Proof.
  apply (optimize_returns OptimizerExample.opt OptimizerExample.rounds
           OptimizerExample.rng Scenario.orders0).
  vm_compute. reflexivity.
Defined.

(** X21.  What the optimizer returns is a cost and a result that [evaluate]
    gives for one order set, and that set has the keys and the orders of
    the input up to their delivery plants, which are those of the input
    redistributed among the orders; the cost is the objective of the
    result. *)
Theorem optimize_result_is_evaluation opt rounds rng os c r :
  distinct (dict_keys os) = true ->
  optimize opt rounds rng os = Some (c, r) ->
  exists os', conserved os os' /\ evaluate opt os' = Some (c, r) /\ c = objective r.
Proof.
  intros Hd%distinct_NoDup. unfold optimize.
  destruct (evaluate opt os) as [[c0 r0] |] eqn:Heval; simpl; [| discriminate].
  destruct (optimize_loop rounds opt (mkOptState c0 r0 os c0 r0 os) rng) as [st |] eqn:Hloop;
    simpl; [| discriminate].
  intros [= <- <-].
  destruct (optimize_loop_inv opt os Hd _ _ _ _ Hloop (opt_inv_start opt os c0 r0 Heval))
    as [Hb _ Hc].
  exists (best_orders st). split; [done |]. split; [done |].
  revert Hc. unfold evaluate.
  destruct (simulate_with_tracking _ _) as [[s' res] |]; simpl; [| discriminate].
  by intros [= <- <-].
Qed.

Lemma optimize_result_is_evaluation_witness :
  exists os',
    conserved Scenario.orders0 os' /\
    evaluate OptimizerExample.opt os'
    = Some (OptimizerExample.returned.1, OptimizerExample.returned.2) /\
    OptimizerExample.returned.1 = objective OptimizerExample.returned.2.
Proof.
  apply (optimize_result_is_evaluation OptimizerExample.opt OptimizerExample.rounds
           OptimizerExample.rng Scenario.orders0
           OptimizerExample.returned.1 OptimizerExample.returned.2).
  - vm_compute. reflexivity.
  - vm_compute. reflexivity.
Defined.

Lemma short_moves_keep rng os m :
  (length os < 2)%nat -> run_move m rng os = (os, rng).
Proof.
  intros Hlen.
  assert (block_relocate rng os = (os, rng)) as Hrel.
  { unfold block_relocate. destruct (Nat.leb_spec 2 (length os)); [lia | done]. }
  destruct m; simpl.
  - unfold couple_exchange. destruct (Nat.ltb_spec (length os) 2); [done | lia].
  - unfold block_exchange. destruct (Nat.leb_spec 2 (length os)); [lia | done].
  - exact Hrel.
  - unfold multi_relocate. by rewrite Hrel.
  - unfold disturb. destruct (Nat.ltb_spec (length os) 2); [done | lia].
Qed.

Lemma Qlt_bool_irrefl c : Qlt_bool c c = false.
Proof. apply Qlt_bool_false. lra. Qed.

Lemma short_try_moves opt os c r names rng :
  (length os < 2)%nat ->
  evaluate opt os = Some (c, r) ->
  try_moves opt (map run_move names) (mkOptState c r os c r os) rng
  = Some (mkOptState c r os c r os, false, rng).
Proof.
  intros Hlen Heval. induction names as [| m names IH]; simpl; [done |].
  rewrite (short_moves_keep rng os m Hlen). simpl. rewrite Heval. simpl.
  by rewrite Qlt_bool_irrefl.
Qed.

Lemma short_optimize_loop opt os c r rounds rng :
  (length os < 2)%nat ->
  evaluate opt os = Some (c, r) ->
  optimize_loop rounds opt (mkOptState c r os c r os) rng
  = Some (mkOptState c r os c r os).
Proof.
  intros Hlen Heval. induction rounds as [| rounds IH]; simpl; [done |].
  unfold optimize_round.
  change local_moves
    with (map run_move [CoupleExchange; BlockExchange; BlockRelocate; MultiRelocate]).
  rewrite (short_try_moves opt os c r _ rng Hlen Heval). simpl.
  pose proof (short_moves_keep rng os Disturb Hlen) as Hd. simpl in Hd.
  rewrite Hd. simpl. rewrite Heval. simpl.
  destruct (Qlt_bool c (c * disturb_acceptance opt)); simpl; [exact IH | done].
Qed.

(** X22.  On an order set with fewer than two orders no move and no
    disturbance changes anything, so the optimizer returns the evaluation
    of its input, whatever the budget and the random draws (and fails
    exactly when that evaluation fails). *)
Theorem optimize_short opt rounds rng os :
  (length os < 2)%nat ->
  optimize opt rounds rng os = evaluate opt os.
Proof.
  intros Hlen. unfold optimize.
  destruct (evaluate opt os) as [[c r] |] eqn:Heval; simpl; [| done].
  by rewrite (short_optimize_loop opt os c r rounds rng Hlen Heval).
Qed.

Lemma optimize_short_witness :
  optimize OptimizerExample.opt 3 OptimizerExample.rng BudgetExample.single
  = evaluate OptimizerExample.opt BudgetExample.single.
Proof.
  apply (optimize_short OptimizerExample.opt 3 OptimizerExample.rng BudgetExample.single).
  simpl. lia.
Defined.

Lemma optimize_loop_more n m opt st rng st1 st2 :
  optimize_loop n opt st rng = Some st1 ->
  optimize_loop (n + m) opt st rng = Some st2 ->
  (best_cost st2 <= best_cost st1)%Q.
Proof.
  revert st rng. induction n as [| n IH]; simpl; intros st rng.
  - intros [= <-]. apply optimize_loop_le.
  - destruct (optimize_round opt st rng) as [[[st' continue] rng1] |]; simpl; [| discriminate].
    destruct continue; [apply IH |]. intros [= <-] [= <-]. lra.
Qed.

(** X23.  With the same random draws a larger budget never gives a worse
    cost: the cost returned after [n + m] rounds is at most the cost
    returned after [n] rounds. *)
Theorem optimize_budget opt n m rng os c r c' r' :
  optimize opt n rng os = Some (c, r) ->
  optimize opt (n + m) rng os = Some (c', r') ->
  (c' <= c)%Q.
Proof.
  unfold optimize.
  destruct (evaluate opt os) as [[c0 r0] |]; simpl; [| discriminate].
  destruct (optimize_loop n opt _ rng) as [st1 |] eqn:H1; simpl; [| discriminate].
  destruct (optimize_loop (n + m) opt _ rng) as [st2 |] eqn:H2; simpl; [| discriminate].
  intros [= <- <-] [= <- <-]. by eapply optimize_loop_more.
Qed.

Lemma optimize_budget_witness :
  (OptimizerExample.returned.1 <= BudgetExample.returned1.1)%Q.
Proof.
  apply (optimize_budget OptimizerExample.opt 1 1 OptimizerExample.rng Scenario.orders0
           BudgetExample.returned1.1 BudgetExample.returned1.2
           OptimizerExample.returned.1 OptimizerExample.returned.2).
  - vm_compute. reflexivity.
  - vm_compute. reflexivity.
Defined.


(** ** The first engine, [simulate] *)

Lemma untimed_refl s : untimed s s.
Proof. by repeat split. Qed.

Lemma untime_fields o1 o2 :
  untime o1 = untime o2 ->
  o_id o1 = o_id o2 /\ o_pickup o1 = o_pickup o2 /\ o_delivery o1 = o_delivery o2 /\
  o_qty o1 = o_qty o2 /\ o_arrival o1 = o_arrival o2 /\ o_due o1 = o_due o2 /\
  o_picked o1 = o_picked o2 /\ o_delivered o1 = o_delivered o2.
Proof. intros [= ? ? ? ? ? ? ? ?]. by repeat split. Qed.

Lemma untimed_get s1 s2 k :
  untimed s1 s2 ->
  untime <$> dict_get k (orders s1) = untime <$> dict_get k (orders s2).
Proof.
  intros (_ & _ & _ & Ho). unfold timeless in Ho.
  rewrite <- !(dict_get_map untime). by rewrite Ho.
Qed.

Lemma timeless_cons_inv k1 o1 os1 k2 o2 os2 :
  timeless ((k1, o1) :: os1) = timeless ((k2, o2) :: os2) ->
  k1 = k2 /\ untime o1 = untime o2 /\ timeless os1 = timeless os2.
Proof.
  unfold timeless. simpl. intros H.
  assert ((k1, untime o1) = (k2, untime o2)) as Hhd by congruence.
  repeat split; congruence.
Qed.

Lemma timeless_alter f1 f2 k os1 os2 :
  (forall o1 o2, untime o1 = untime o2 -> untime (f1 o1) = untime (f2 o2)) ->
  timeless os1 = timeless os2 ->
  timeless (dict_alter f1 k os1) = timeless (dict_alter f2 k os2).
Proof.
  intros Hf. revert os2. induction os1 as [| [k1 o1] os1 IH]; intros [| [k2 o2] os2];
    try done.
  intros (-> & Ho & Hrest)%timeless_cons_inv. simpl.
  destruct (k2 =? k)%Z; unfold timeless in *; simpl.
  - f_equal; [| done]. f_equal. by apply Hf.
  - f_equal; [by f_equal |]. by apply IH.
Qed.

Lemma put_vehicle_untimed vk v s1 s2 :
  untimed s1 s2 -> untimed (put_vehicle vk v s1) (put_vehicle vk v s2).
Proof.
  intros (Hc & Hv & Hd & Ho). unfold untimed, config in *. simpl.
  rewrite Hv. by repeat split.
Qed.

Lemma alter_order_untimed f1 f2 k s1 s2 :
  (forall o1 o2, untime o1 = untime o2 -> untime (f1 o1) = untime (f2 o2)) ->
  untimed s1 s2 -> untimed (alter_order k f1 s1) (alter_order k f2 s2).
Proof.
  intros Hf (Hc & Hv & Hd & Ho). unfold untimed, config in *. simpl.
  repeat split; try done. by apply timeless_alter.
Qed.

Lemma with_docks_untimed occ s1 s2 :
  untimed s1 s2 -> untimed (with_dock_occupancy occ s1) (with_dock_occupancy occ s2).
Proof.
  intros (Hc & Hv & Hd & Ho). unfold untimed, config in *. simpl. by repeat split.
Qed.

Lemma free_docks_untimed s1 s2 p t :
  untimed s1 s2 ->
  match _free_docks s1 p t, _free_docks s2 p t with
  | Some (f1, s1'), Some (f2, s2') => f1 = f2 /\ untimed s1' s2'
  | None, None => True
  | _, _ => False
  end.
Proof.
  intros H. pose proof H as (Hc & Hv & Hd & Ho). unfold _free_docks. rewrite Hd.
  assert (plants s1 = plants s2) as -> by (by injection Hc).
  destruct (dock_occupancy s2 !! p) as [occ |]; simpl; [| done].
  destruct (plants s2 !! p) as [pl |]; simpl; [| done].
  split; [done |]. rewrite <- Hd. by apply with_docks_untimed.
Qed.

Lemma occupy_dock_untimed s1 s2 p vid t :
  untimed s1 s2 ->
  match _occupy_dock s1 p vid t, _occupy_dock s2 p vid t with
  | Some s1', Some s2' => untimed s1' s2'
  | None, None => True
  | _, _ => False
  end.
Proof.
  intros H. pose proof H as (Hc & Hv & Hd & Ho). unfold _occupy_dock. rewrite Hd.
  destruct (dock_occupancy s2 !! p) as [occ |]; simpl; [| done].
  rewrite <- Hd. by apply with_docks_untimed.
Qed.

Lemma untimed_service_time s1 s2 o1 o2 :
  untimed s1 s2 -> untime o1 = untime o2 -> service_time s1 o1 = service_time s2 o2.
Proof.
  intros (Hc & _) Ho%untime_fields. apply config_service_time; [done | tauto].
Qed.

Lemma deliver_untimed s1 s2 vk v tid o1 o2 :
  untimed s1 s2 -> untime o1 = untime o2 ->
  same_turn (simulate_deliver s1 vk v tid o1) (try_deliver s2 vk v tid o2).
Proof.
  intros H Ho. unfold simulate_deliver, try_deliver.
  pose proof (free_docks_untimed s1 s2 (v_location v) (v_time v) H) as Hfree.
  destruct (_free_docks s1 (v_location v) (v_time v)) as [[f1 s1'] |],
           (_free_docks s2 (v_location v) (v_time v)) as [[f2 s2'] |];
    simpl; try done.
  destruct Hfree as [-> H']. destruct (f2 <=? 0).
  - split; [by apply put_vehicle_untimed | done].
  - rewrite (untimed_service_time s1 s2 o1 o2 H Ho).
    assert (o_qty o1 = o_qty o2) as -> by (apply untime_fields in Ho; tauto).
    set (finish := (v_time v + service_time s2 o2)%Q).
    set (v' := mkVehicle _ _ _ _ _ _ _ _).
    pose proof (occupy_dock_untimed
                  (alter_order tid mark_delivered_untimed (put_vehicle vk v' s1'))
                  (alter_order tid (mark_delivered finish) (put_vehicle vk v' s2'))
                  (v_location v) (v_id v) finish) as Hocc.
    destruct (_occupy_dock (alter_order tid mark_delivered_untimed _) _ _ _),
             (_occupy_dock (alter_order tid (mark_delivered finish) _) _ _ _);
      simpl; try (by apply Hocc; apply alter_order_untimed;
                     [intros a b [= ? ? ? ? ? ? ? ?]; unfold untime; simpl; congruence
                     | apply put_vehicle_untimed]).
    split; [| done]. apply Hocc. apply alter_order_untimed;
      [intros a b [= ? ? ? ? ? ? ? ?]; unfold untime; simpl; congruence
      | by apply put_vehicle_untimed].
Qed.

Lemma try_pickup_untimed s1 s2 vk v k o1 o2 arr trav :
  untimed s1 s2 -> untime o1 = untime o2 ->
  same_turn (try_pickup s1 vk v (k, o1, arr, trav)) (try_pickup s2 vk v (k, o2, arr, trav)).
Proof.
  intros H Ho. unfold try_pickup. simpl.
  pose proof (untime_fields _ _ Ho) as (Hid & Hp & _ & Hq & _).
  rewrite Hp.
  pose proof (free_docks_untimed s1 s2 (o_pickup o2) arr H) as Hfree.
  destruct (_free_docks s1 (o_pickup o2) arr) as [[f1 s1'] |],
           (_free_docks s2 (o_pickup o2) arr) as [[f2 s2'] |];
    simpl; try done.
  destruct Hfree as [-> H']. destruct (f2 <=? 0).
  - split; [by apply put_vehicle_untimed | done].
  - rewrite (untimed_service_time s1 s2 o1 o2 H Ho), Hq, Hid.
    set (finish := (arr + service_time s2 o2)%Q).
    set (v' := mkVehicle _ _ _ _ _ _ _ _).
    pose proof (occupy_dock_untimed
                  (alter_order k mark_picked (put_vehicle vk v' s1'))
                  (alter_order k mark_picked (put_vehicle vk v' s2'))
                  (o_pickup o2) (v_id v) finish) as Hocc.
    assert (untimed (alter_order k mark_picked (put_vehicle vk v' s1'))
                    (alter_order k mark_picked (put_vehicle vk v' s2'))) as Hs.
    { apply alter_order_untimed; [| by apply put_vehicle_untimed].
      intros a b [= ? ? ? ? ? ? ? ?]. unfold untime. simpl. congruence. }
    specialize (Hocc Hs).
    destruct (_occupy_dock (alter_order k mark_picked (put_vehicle vk v' s1')) _ _ _),
             (_occupy_dock (alter_order k mark_picked (put_vehicle vk v' s2')) _ _ _);
      simpl; try done.
Qed.

Lemma candidate_untimed s1 s2 v td k o1 o2 :
  config s1 = config s2 -> untime o1 = untime o2 ->
  match candidate s1 v td (k, o1), candidate s2 v td (k, o2) with
  | Some c1, Some c2 => same_candidate c1 c2
  | None, None => True
  | _, _ => False
  end.
Proof.
  intros Hc Hu. pose proof (untime_fields _ _ Hu) as (_ & Hp & _ & Hq & Ha & Hd & Hpk & Hdl).
  unfold candidate, earliest_start. simpl.
  rewrite Hp, Hq, Ha, Hd, Hpk, Hdl, (config_travel_time s2 s1) by done.
  destruct (o_picked o2 || o_delivered o2); [done |].
  destruct (v_capacity v <? v_load v + o_qty o2); [done |].
  destruct (match td with Some td0 => Qlt_bool (o_due o2) td0 | None => false end);
    [done |].
  by repeat split.
Qed.

Lemma candidates_untimed s1 s2 v td os1 os2 :
  config s1 = config s2 -> timeless os1 = timeless os2 ->
  Forall2 same_candidate (omap (candidate s1 v td) os1) (omap (candidate s2 v td) os2).
Proof.
  intros Hc. revert os2. induction os1 as [| [k1 o1] os1 IH]; intros [| [k2 o2] os2];
    try done.
  intros (-> & Hu & Hrest)%timeless_cons_inv. specialize (IH os2 Hrest).
  pose proof (candidate_untimed s1 s2 v td k2 o1 o2 Hc Hu) as Hcand.
  cbn [omap list_omap].
  destruct (candidate s1 v td (k2, o1)), (candidate s2 v td (k2, o2)); try done.
  by constructor.
Qed.

Lemma insert_by_Forall2 {A} (R : A -> A -> Prop) (lt : A -> A -> bool) x x' l l' :
  (forall a a' b b', R a a' -> R b b' -> lt a b = lt a' b') ->
  R x x' -> Forall2 R l l' -> Forall2 R (insert_by lt x l) (insert_by lt x' l').
Proof.
  intros Hlt Hx Hl. induction Hl as [| y y' l l' Hy Hl IH]; simpl.
  - by repeat constructor.
  - rewrite (Hlt y y' x x' Hy Hx). destruct (lt y' x'); by repeat constructor.
Qed.

Lemma sort_by_Forall2 {A} (R : A -> A -> Prop) (lt : A -> A -> bool) l l' :
  (forall a a' b b', R a a' -> R b b' -> lt a b = lt a' b') ->
  Forall2 R l l' -> Forall2 R (sort_by lt l) (sort_by lt l').
Proof.
  intros Hlt Hl. induction Hl; simpl; [constructor | by apply insert_by_Forall2].
Qed.

Lemma cand_lt_untimed a a' b b' :
  same_candidate a a' -> same_candidate b b' -> cand_lt a b = cand_lt a' b'.
Proof.
  intros (_ & Ha%untime_fields & Ha2 & _) (_ & Hb%untime_fields & Hb2 & _).
  unfold cand_lt, cand_key.
  assert (o_due a.1.1.2 = o_due a'.1.1.2) as -> by tauto.
  assert (o_due b.1.1.2 = o_due b'.1.1.2) as -> by tauto.
  by rewrite Ha2, Hb2.
Qed.

Lemma reposition_untimed s1 s2 vk v top1 top2 :
  untimed s1 s2 -> same_top top1 top2 ->
  same_turn (Some (reposition_or_idle s1 vk v top1)) (Some (reposition_or_idle s2 vk v top2)).
Proof.
  intros H Htop. unfold reposition_or_idle, idle.
  destruct top1 as [[k1 o1] |], top2 as [[k2 o2] |]; simpl in Htop; try done.
  - destruct Htop as [-> Ho%untime_fields].
    assert (o_delivery o1 = o_delivery o2) as -> by tauto.
    rewrite (config_travel_time s2 s1) by apply H.
    destruct (negb (v_location v =? o_delivery o2)); simpl;
      (split; [by apply put_vehicle_untimed | done]).
  - simpl. split; [by apply put_vehicle_untimed | done].
Qed.

Lemma pickup_or_move_untimed s1 s2 vk v top1 top2 :
  untimed s1 s2 -> same_top top1 top2 ->
  same_turn (pickup_or_move s1 vk v top1) (pickup_or_move s2 vk v top2).
Proof.
  intros H Htop. unfold pickup_or_move.
  assert (o_due <$> (snd <$> top1) = o_due <$> (snd <$> top2)) as ->.
  { destruct top1 as [[k1 o1] |], top2 as [[k2 o2] |]; simpl in *; try done.
    destruct Htop as [_ Ho%untime_fields]. f_equal. tauto. }
  pose proof H as (Hc & _ & _ & Ho).
  pose proof (sort_by_Forall2 same_candidate cand_lt _ _ cand_lt_untimed
                (candidates_untimed s1 s2 v (o_due <$> (snd <$> top2)) _ _ Hc Ho)) as Hs.
  unfold feasible_pickups.
  destruct Hs as [| [[[k1 o1] arr1] trav1] [[[k2 o2] arr2] trav2] l l' Hcand _].
  - by apply reposition_untimed.
  - destruct Hcand as (Hk & Hu & Ha & Ht). cbn [fst snd] in Hk, Hu, Ha, Ht.
    subst k1 arr1 trav1.
    exact (try_pickup_untimed s1 s2 vk v k2 o1 o2 arr2 trav2 H Hu).
Qed.

Lemma turn_untimed until_time s1 s2 vk :
  untimed s1 s2 ->
  same_turn (simulate_turn until_time s1 vk) (veh_step until_time s2 vk).
Proof.
  intros H. pose proof H as (Hc & Hv & Hd & Ho).
  unfold simulate_turn, veh_step. rewrite Hv.
  destruct (dict_get vk (vehicles s2)) as [v |]; simpl; [| done].
  destruct (Qlt_bool until_time (v_time v)); [done |].
  unfold stack_top. destruct (last (v_stack v)) as [tid |]; simpl;
    [| by apply pickup_or_move_untimed].
  pose proof (untimed_get s1 s2 tid H) as Hget.
  destruct (dict_get tid (orders s1)) as [o1 |], (dict_get tid (orders s2)) as [o2 |];
    simpl in *; try done.
  assert (untime o1 = untime o2) as Hu by congruence.
  assert (o_delivery o1 = o_delivery o2) as -> by (apply untime_fields in Hu; tauto).
  destruct (v_location v =? o_delivery o2).
  - by apply deliver_untimed.
  - by apply pickup_or_move_untimed.
Qed.

Lemma simulate_vehicles_untimed until_time ks s1 s2 p0 s1' p evs :
  untimed s1 s2 ->
  simulate_vehicles until_time ks s1 p0 = Some (s1', p, evs) ->
  exists s2', run_turns_log until_time ks s2 = Some (s2', evs) /\ untimed s1' s2' /\
              map fst evs = ks.
Proof.
  revert s1 s2 p0 s1' p evs. induction ks as [| k ks IH]; simpl;
    intros s1 s2 p0 s1' p evs H.
  - intros [= <- <- <-]. by exists s2.
  - pose proof (turn_untimed until_time s1 s2 k H) as Hturn.
    destruct (simulate_turn until_time s1 k) as [[[s1a p1] a1] |]; simpl; [| discriminate].
    destruct (veh_step until_time s2 k) as [[[s2a p2] a2] |]; simpl in *; [| done].
    destruct Hturn as (Ha & -> & ->).
    destruct (simulate_vehicles until_time ks s1a (p0 || p2)) as [[[s1b pb] evsb] |] eqn:Hrest;
      simpl; [| discriminate].
    intros [= <- <- <-].
    destruct (IH _ _ _ _ _ _ Ha Hrest) as (s2b & Hlog & Hb & Hks).
    exists s2b. rewrite Hlog. simpl. by rewrite Hks.
Qed.

Lemma run_turns_log_app until_time ks1 ks2 s s1 evs1 s2 evs2 :
  run_turns_log until_time ks1 s = Some (s1, evs1) ->
  run_turns_log until_time ks2 s1 = Some (s2, evs2) ->
  run_turns_log until_time (ks1 ++ ks2) s = Some (s2, evs1 ++ evs2).
Proof.
  revert s evs1. induction ks1 as [| k ks1 IH]; simpl; intros s evs1.
  - by intros [= <- <-].
  - destruct (veh_step until_time s k) as [r |]; simpl; [| discriminate].
    destruct (run_turns_log until_time ks1 r.1.1) as [[sa evsa] |] eqn:Hrest;
      simpl; [| discriminate].
    intros [= <- <-] H2. by rewrite (IH _ _ Hrest H2).
Qed.

Lemma run_turns_log_turns until_time ks s s' evs :
  run_turns_log until_time ks s = Some (s', evs) ->
  run_turns until_time ks s = Some s' /\ map fst evs = ks.
Proof.
  revert s evs. induction ks as [| k ks IH]; simpl; intros s evs.
  - by intros [= <- <-].
  - destruct (veh_step until_time s k) as [r |]; simpl; [| discriminate].
    destruct (run_turns_log until_time ks r.1.1) as [[sa evsa] |] eqn:Hrest;
      simpl; [| discriminate].
    intros [= <- <-]. destruct (IH _ _ Hrest) as [H1 H2]. simpl. by rewrite H1, H2.
Qed.

Lemma has_undelivered_untimed until_time s1 s2 :
  untimed s1 s2 -> has_undelivered until_time s1 = has_undelivered until_time s2.
Proof.
  intros (_ & _ & _ & Ho). unfold has_undelivered.
  revert Ho. generalize (orders s1) (orders s2).
  induction l as [| [k1 o1] l IH]; intros [| [k2 o2] l']; try done.
  intros (_ & Hf%untime_fields & Hrest)%timeless_cons_inv. simpl. rewrite (IH l' Hrest).
  destruct Hf as (_ & _ & _ & _ & -> & _ & _ & ->). done.
Qed.

Lemma simulate_loop_untimed fuel until_time ks s1 s2 s1' evs :
  untimed s1 s2 ->
  simulate_loop fuel until_time ks s1 = Some (s1', evs) ->
  exists s2' passes,
    run_turns_log until_time (map fst evs) s2 = Some (s2', evs) /\ untimed s1' s2' /\
    map fst evs = concat passes /\ (length passes <= fuel)%nat /\
    Forall (fun pass => pass = ks) passes.
Proof.
  revert s1 s2 s1' evs. induction fuel as [| fuel IH]; simpl; intros s1 s2 s1' evs H.
  - intros [= <- <-]. exists s2, []. simpl.
    split; [done |]. split; [done |]. split; [done |]. split; [lia | constructor].
  - rewrite (has_undelivered_untimed until_time s1 s2 H).
    destruct (has_undelivered until_time s2); simpl;
      [| intros [= <- <-]; exists s2, []; simpl;
         split; [done |]; split; [done |]; split; [done |]; split; [lia | constructor]].
    destruct (simulate_vehicles until_time ks s1 false) as [[[s1a p] evsa] |] eqn:Hpass;
      simpl; [| discriminate].
    destruct (simulate_vehicles_untimed _ _ _ _ _ _ _ _ H Hpass) as (s2a & Hlog & Ha & Hks).
    destruct p; simpl.
    + destruct (simulate_loop fuel until_time ks s1a) as [[s1b evsb] |] eqn:Hloop;
        simpl; [| discriminate].
      intros [= <- <-].
      destruct (IH _ _ _ _ Ha Hloop) as (s2b & passes & Hlogb & Hb & Hcat & Hlen & Hall).
      exists s2b, (ks :: passes). rewrite map_app, Hks.
      split; [by apply (run_turns_log_app _ _ _ _ s2a) |].
      split; [done |]. simpl. rewrite Hcat.
      split; [done |]. split; [lia | by constructor].
    + intros [= <- <-]. exists s2a, [ks]. rewrite Hks. simpl. rewrite app_nil_r.
      split; [done |]. split; [done |]. split; [done |]. split; [lia | by constructor].
Qed.

Lemma delivered_times_alter f k os :
  (forall o, o_delivered_time (f o) = o_delivered_time o) ->
  delivered_times (dict_alter f k os) = delivered_times os.
Proof.
  intros Hf. unfold delivered_times. induction os as [| [k0 o0] os IH]; simpl; [done |].
  destruct (k0 =? k)%Z; simpl; [by rewrite Hf | by rewrite IH].
Qed.

Lemma simulate_turn_times until_time s vk s' p a :
  simulate_turn until_time s vk = Some (s', p, a) ->
  delivered_times (orders s') = delivered_times (orders s).
Proof.
  unfold simulate_turn, simulate_deliver, pickup_or_move, try_pickup, reposition_or_idle,
    idle, _free_docks, _occupy_dock.
  intros H.
  repeat (simplify_option_eq || case_match); simpl;
    rewrite ?delivered_times_alter; done.
Qed.

Lemma simulate_vehicles_times until_time ks s p0 s' p evs :
  simulate_vehicles until_time ks s p0 = Some (s', p, evs) ->
  delivered_times (orders s') = delivered_times (orders s).
Proof.
  revert s p0 evs. induction ks as [| k ks IH]; simpl; intros s p0 evs.
  - by intros [= <- <- <-].
  - destruct (simulate_turn until_time s k) as [[[s1 p1] a1] |] eqn:Hturn;
      simpl; [| discriminate].
    destruct (simulate_vehicles until_time ks s1 (p0 || p1)) as [[[s2 p2] evs2] |] eqn:Hrest;
      simpl; [| discriminate].
    intros [= <- <- <-]. rewrite (IH _ _ _ Hrest). by eapply simulate_turn_times.
Qed.

Lemma simulate_loop_times fuel until_time ks s s' evs :
  simulate_loop fuel until_time ks s = Some (s', evs) ->
  delivered_times (orders s') = delivered_times (orders s).
Proof.
  revert s evs. induction fuel as [| fuel IH]; simpl; intros s evs.
  - by intros [= <- <-].
  - destruct (has_undelivered until_time s); simpl; [| by intros [= <- <-]].
    destruct (simulate_vehicles until_time ks s false) as [[[s1 p] evs1] |] eqn:Hpass;
      simpl; [| discriminate].
    pose proof (simulate_vehicles_times _ _ _ _ _ _ _ Hpass) as H1.
    destruct p; simpl; [| by intros [= <- <-]].
    destruct (simulate_loop fuel until_time ks s1) as [[s2 evs2] |] eqn:Hloop;
      simpl; [| discriminate].
    intros [= <- <-]. by rewrite (IH _ _ Hloop).
Qed.

(** X24.  The first engine makes the decisions of the tracking engine: a
    run of [simulate] from a state is a sequence of at most 10000 passes
    over the vehicles in dictionary order, and the turn function of
    [simulate_with_tracking], run from the same state on the same sequence
    of turns, takes the same action in every turn and ends in the same
    state up to the delivered-times of the orders, which [simulate] never
    writes. *)
Theorem simulate_agrees s until_time s' evs :
  simulate s until_time = Some (s', evs) ->
  exists s'' passes,
    run_turns_log until_time (map fst evs) s = Some (s'', evs) /\
    run_turns until_time (map fst evs) s = Some s'' /\
    untimed s' s'' /\
    delivered_times (orders s') = delivered_times (orders s) /\
    map fst evs = concat passes /\
    (length passes <= simulate_iterations)%nat /\
    Forall (fun pass => pass = dict_keys (vehicles s)) passes.
Proof.
  unfold simulate. intros Hsim.
  destruct (simulate_loop_untimed _ _ _ s s _ _ (untimed_refl s) Hsim)
    as (s'' & passes & Hlog & Hu & Hcat & Hlen & Hall).
  exists s'', passes. split; [done |].
  split; [by destruct (run_turns_log_turns _ _ _ _ _ Hlog) as [-> _] |].
  split; [done |]. split; [by eapply simulate_loop_times |]. done.
Qed.

Lemma simulate_agrees_witness :
  exists s'' passes,
    run_turns_log OldEngineExample.horizon (map fst OldEngineExample.log)
      (reset Scenario.sim0) = Some (s'', OldEngineExample.log) /\
    run_turns OldEngineExample.horizon (map fst OldEngineExample.log)
      (reset Scenario.sim0) = Some s'' /\
    untimed OldEngineExample.final s'' /\
    delivered_times (orders OldEngineExample.final)
    = delivered_times (orders (reset Scenario.sim0)) /\
    map fst OldEngineExample.log = concat passes /\
    (length passes <= simulate_iterations)%nat /\
    Forall (fun pass => pass = dict_keys (vehicles (reset Scenario.sim0))) passes.
Proof.
  apply (simulate_agrees (reset Scenario.sim0) OldEngineExample.horizon
           OldEngineExample.final OldEngineExample.log).
  vm_compute. reflexivity.
Defined.


(** ** The instance generator and the driver *)

Lemma randint_range a b ds x ds' : randint a b ds = Some (x, ds') -> a <= x <= b.
Proof.
  unfold randint. destruct (Z.ltb_spec b a) as [| Hab]; [done |].
  destruct ds as [| d ds0]; [done |]. intros [= <- _].
  pose proof (Z.mod_pos_bound d (b - a + 1) ltac:(lia)). lia.
Qed.

Lemma redraw_delivery_spec n p ds : forall d x ds',
  redraw_delivery n p d ds = Some (x, ds') -> 0 <= d < n -> 0 <= x < n /\ x <> p.
Proof.
  induction ds as [| d0 ds IH]; intros d x ds'; simpl.
  - destruct (Z.eqb_spec d p); [done |]. intros [= <- _]. done.
  - destruct (Z.eqb_spec d p); [| intros [= <- _]; done].
    destruct (Z.ltb_spec (n - 1) 0); [done |].
    intros Hr Hd. eapply IH; [exact Hr |].
    pose proof (Z.mod_pos_bound d0 (n - 1 - 0 + 1) ltac:(lia)). lia.
Qed.

Lemma redraw_delivery_single ds : redraw_delivery 1 0 0 ds = None.
Proof.
  induction ds as [| d ds IH]; simpl; [done |]. by rewrite Z.mod_1_r.
Qed.

Lemma gen_order_spec n oid ds o ds' :
  gen_order n oid ds = Some (o, ds') -> order_generated n (oid, o).
Proof.
  unfold gen_order.
  destruct (randint 0 (n - 1) ds) as [[pickup ds1] |] eqn:H1; simpl; [| done].
  destruct (randint 0 (n - 1) ds1) as [[delivery0 ds2] |] eqn:H2; simpl; [| done].
  destruct (redraw_delivery n pickup delivery0 ds2) as [[delivery ds3] |] eqn:H3;
    simpl; [| done].
  destruct (randint 1 5 ds3) as [[qty ds4] |] eqn:H4; simpl; [| done].
  destruct (randint 0 300 ds4) as [[arrival ds5] |] eqn:H5; simpl; [| done].
  destruct (randint 60 300 ds5) as [[slack ds6] |] eqn:H6; simpl; [| done].
  intros [= <- _].
  apply randint_range in H1, H2, H4, H5, H6.
  apply redraw_delivery_spec in H3 as [H3 Hne]; [| lia].
  unfold order_generated. simpl.
  repeat split; try done; try lia; unfold Qle, Qplus, inject_Z; simpl; lia.
Qed.

Lemma gen_orders_spec n oids : forall ds os ds',
  gen_orders n oids ds = Some (os, ds') ->
  dict_keys os = oids /\ Forall (order_generated n) os.
Proof.
  induction oids as [| oid oids IH]; intros ds os ds'; simpl.
  - by intros [= <- _].
  - destruct (gen_order n oid ds) as [[o ds1] |] eqn:Ho; simpl; [| done].
    destruct (gen_orders n oids ds1) as [[rest ds2] |] eqn:Hrest; simpl; [| done].
    intros [= <- _]. destruct (IH _ _ _ Hrest) as [Hk Hall]. split.
    + unfold dict_keys in *. simpl. by rewrite Hk.
    + constructor; [by eapply gen_order_spec | done].
Qed.

Lemma gen_plants_keys pids dr : forall ds ps ds',
  gen_plants pids dr ds = Some (ps, ds') -> ps.*1 = pids.
Proof.
  induction pids as [| pid pids IH]; intros ds ps ds'; simpl.
  - by intros [= <- _].
  - destruct (randint dr.1 dr.2 ds) as [[docks ds1] |]; simpl; [| done].
    destruct (gen_plants pids dr ds1) as [[rest ds2] |] eqn:Hrest; simpl; [| done].
    intros [= <- _]. rewrite fmap_cons. simpl. f_equal. by eapply IH.
Qed.

Lemma gen_vehicles_spec vids cr : forall ds vs ds',
  gen_vehicles vids cr ds = Some (vs, ds') ->
  dict_keys vs = vids /\
  Forall (fun kv : Z * Vehicle =>
            v_id kv.2 = kv.1 /\ cr.1 <= v_capacity kv.2 <= cr.2 /\
            v_start_location kv.2 = 0 /\ v_location kv.2 = 0) vs.
Proof.
  induction vids as [| vid vids IH]; intros ds vs ds'; simpl.
  - by intros [= <- _].
  - destruct (randint cr.1 cr.2 ds) as [[cap ds1] |] eqn:Hc; simpl; [| done].
    destruct (gen_vehicles vids cr ds1) as [[rest ds2] |] eqn:Hrest; simpl; [| done].
    intros [= <- _]. destruct (IH _ _ _ Hrest) as [Hk Hall]. split.
    + unfold dict_keys in *. simpl. by rewrite Hk.
    + constructor; [| done]. simpl. apply randint_range in Hc. done.
Qed.

(** The distance table holds every pair in both orientations, with values
    between 5 and 50. *)
Lemma gen_row_spec (P : gmap (Z * Z) Q -> Prop) i js :
  (forall m a b d, P m -> (5 <= d <= 50)%Q -> P (<[(b, a) := d]> (<[(a, b) := d]> m))) ->
  forall m ds m' ds', gen_row i js m ds = Some (m', ds') -> P m -> P m'.
Proof.
  intros Hstep. induction js as [| j js IH]; intros m ds m' ds'; simpl.
  - by intros [= <- _].
  - unfold uniform_tenths.
    destruct (randint 50 500 ds) as [[t ds1] |] eqn:Ht; simpl; [| done].
    intros Hrow Hm. eapply IH; [exact Hrow |]. apply Hstep; [done |].
    apply randint_range in Ht.
    unfold Qle, Qdiv, Qmult, Qinv, inject_Z. simpl. lia.
Qed.

Lemma gen_distances_spec (P : gmap (Z * Z) Q -> Prop) n rows :
  (forall m a b d, P m -> (5 <= d <= 50)%Q -> P (<[(b, a) := d]> (<[(a, b) := d]> m))) ->
  forall m ds m' ds', gen_distances n rows m ds = Some (m', ds') -> P m -> P m'.
Proof.
  intros Hstep. induction rows as [| i rows IH]; intros m ds m' ds'; simpl.
  - by intros [= <- _].
  - destruct (gen_row i (seqZ (i + 1) (n - (i + 1))) m ds) as [[m1 ds1] |] eqn:Hrow;
      simpl; [| done].
    intros Hrest Hm. eapply IH; [exact Hrest |]. by eapply gen_row_spec.
Qed.

Lemma symmetric_insert (m : gmap (Z * Z) Q) a b d :
  (forall x y, m !! (x, y) = m !! (y, x)) ->
  forall x y, <[(b, a) := d]> (<[(a, b) := d]> m) !! (x, y)
              = <[(b, a) := d]> (<[(a, b) := d]> m) !! (y, x).
Proof.
  intros Hm x y.
  destruct (decide ((b, a) = (x, y))) as [[= <- <-] | H1].
  - rewrite lookup_insert_eq.
    destruct (decide ((b, a) = (a, b))) as [-> | H2]; [by rewrite lookup_insert_eq |].
    by rewrite lookup_insert_ne, lookup_insert_eq.
  - rewrite (lookup_insert_ne _ _ (x, y)) by done.
    destruct (decide ((a, b) = (x, y))) as [[= <- <-] | H2].
    + by rewrite !lookup_insert_eq.
    + rewrite (lookup_insert_ne _ _ (x, y)) by done.
      rewrite !lookup_insert_ne by congruence. apply Hm.
Qed.

Lemma symmetric_table_intro (m : gmap (Z * Z) Q) :
  (forall x y, m !! (x, y) = m !! (y, x)) -> symmetric_table m = true.
Proof.
  intros Hm. unfold symmetric_table. apply forallb_forall.
  intros [[a b] d] Hin%list_elem_of_In%elem_of_map_to_list. simpl.
  rewrite <- Hm, Hin. by apply Qeq_bool_iff.
Qed.

Lemma forallb_map_to_list (m : gmap (Z * Z) Q) :
  map_Forall (fun _ d => (0 <= d)%Q) m ->
  forallb (fun kd : Z * Z * Q => Qle_bool 0 kd.2) (map_to_list m) = true.
Proof.
  intros Hm. apply forallb_forall. intros [k d] Hin%list_elem_of_In%elem_of_map_to_list.
  simpl. apply Qle_bool_iff. by eapply Hm.
Qed.

Lemma seqZ_lookup_plants (ps : list (Z * Plant)) n p :
  ps.*1 = seqZ 0 n -> 0 <= p < n -> is_Some ((list_to_map ps : gmap Z Plant) !! p).
Proof.
  intros Hk Hp. destruct (list_to_map ps !! p) as [pl |] eqn:E; [by eexists |].
  apply not_elem_of_list_to_map_2 in E. rewrite Hk in E.
  exfalso. apply E, elem_of_seqZ. lia.
Qed.

(** What [generate_instance] returns, part by part. *)
Lemma generate_instance_parts np no nv cr dr ds inst ds' :
  generate_instance np no nv cr dr ds = Some (inst, ds') ->
  (exists ps, i_plants inst = list_to_map ps /\ ps.*1 = seqZ 0 np) /\
  (dict_keys (i_orders inst) = seqZ 1 no /\ Forall (order_generated np) (i_orders inst)) /\
  (dict_keys (i_vehicles inst) = seqZ 1 nv /\
   Forall (fun kv : Z * Vehicle =>
             v_id kv.2 = kv.1 /\ cr.1 <= v_capacity kv.2 <= cr.2 /\
             v_start_location kv.2 = 0 /\ v_location kv.2 = 0) (i_vehicles inst)) /\
  (forall x y, i_distances inst !! (x, y) = i_distances inst !! (y, x)) /\
  map_Forall (fun _ d => (5 <= d <= 50)%Q) (i_distances inst) /\
  i_travel_times inst = (fun d : Q => (d / 40 * 60)%Q) <$> i_distances inst.
Proof.
  unfold generate_instance.
  destruct (gen_plants (seqZ 0 np) dr ds) as [[ps ds1] |] eqn:Hp; simpl; [| done].
  destruct (gen_distances np (seqZ 0 np) ∅ ds1) as [[dist ds2] |] eqn:Hd; simpl; [| done].
  destruct (gen_orders np (seqZ 1 no) ds2) as [[os ds3] |] eqn:Ho; simpl; [| done].
  destruct (gen_vehicles (seqZ 1 nv) cr ds3) as [[vs ds4] |] eqn:Hv; simpl; [| done].
  intros [= <- _]. simpl.
  split; [exists ps; split; [done | by eapply gen_plants_keys] |].
  split; [by eapply gen_orders_spec |].
  split; [by eapply gen_vehicles_spec |].
  split; [| split; [| done]].
  - eapply (gen_distances_spec (fun m => forall x y, m !! (x, y) = m !! (y, x)));
      [| exact Hd | done].
    intros m a b d Hm _. by apply symmetric_insert.
  - eapply (gen_distances_spec (map_Forall (fun _ d => (5 <= d <= 50)%Q)));
      [| exact Hd | apply map_Forall_empty].
    intros m a b d Hm Hrange. by do 2 (apply map_Forall_insert_2; [done |]).
Qed.

Lemma generated_keyed np no nv cr dr ds inst ds' :
  generate_instance np no nv cr dr ds = Some (inst, ds') ->
  keyed (run_simulator inst) = true /\ sites_closed (run_simulator inst) = true.
Proof.
  intros ((ps & Hps & Hpk) & (Hok & Hos) & _)%generate_instance_parts.
  rewrite Forall_forall in Hos. split.
  - unfold keyed, stored_under_ids. simpl. apply andb_true_intro. split.
    + rewrite Hok. apply NoDup_distinct, NoDup_seqZ.
    + apply forallb_forall. intros [k o] Hin%list_elem_of_In.
      destruct (Hos _ Hin) as (Hid & _). simpl in *. lia.
  - unfold sites_closed. simpl. apply forallb_forall. intros [k o] Hin%list_elem_of_In.
    destruct (Hos _ Hin) as (_ & Hpick & Hdel & _). simpl in *. rewrite Hps.
    apply andb_true_intro.
    split; apply bool_decide_eq_true; by eapply seqZ_lookup_plants.
Qed.

(** X25.  Whatever the random values, an instance that [generate_instance]
    returns has the order keys 1 to [n_orders] and the vehicle keys 1 to
    [n_vehicles]; every order is stored under its own id, has two different
    plants of the instance as pickup and delivery, a quantity from 1 to 5,
    an arrival time from 0 to 300 and a due time 60 to 300 later; every
    vehicle starts at plant 0 with a capacity in the given range; every
    stored distance lies between 5 and 50, the travel time of a pair is its
    distance divided by 40 and multiplied by 60, and both tables are the
    same in both orientations.  So the generated instances meet the
    conditions under which the simulator's lookups cannot fail and its
    clocks cannot go back. *)
Theorem generate_instance_sound np no nv cr dr ds inst ds' :
  generate_instance np no nv cr dr ds = Some (inst, ds') ->
  dict_keys (i_orders inst) = seqZ 1 no /\
  Forall (order_generated np) (i_orders inst) /\
  dict_keys (i_vehicles inst) = seqZ 1 nv /\
  Forall (fun kv : Z * Vehicle =>
            v_id kv.2 = kv.1 /\ cr.1 <= v_capacity kv.2 <= cr.2 /\
            v_start_location kv.2 = 0 /\ v_location kv.2 = 0) (i_vehicles inst) /\
  map_Forall (fun _ d => (5 <= d <= 50)%Q) (i_distances inst) /\
  i_travel_times inst = (fun d : Q => (d / 40 * 60)%Q) <$> i_distances inst /\
  keyed (run_simulator inst) = true /\
  sites_closed (run_simulator inst) = true /\
  nonneg_times (run_simulator inst) = true /\
  symmetric_table (i_distances inst) = true /\
  symmetric_table (i_travel_times inst) = true.
Proof.
  intros Hgen. destruct (generated_keyed _ _ _ _ _ _ _ _ Hgen) as [Hkeyed Hclosed].
  apply generate_instance_parts in Hgen
    as (_ & (Hok & Hos) & (Hvk & Hvs) & Hsym & Hrange & Htt).
  repeat (split; [done |]).
  split; [| split].
  - unfold nonneg_times. simpl. repeat (apply andb_true_intro; split); try done.
    + rewrite Htt. apply forallb_map_to_list.
      intros k t [d [<- Hd]]%lookup_fmap_Some. apply Hrange in Hd. simpl.
      unfold Qdiv. apply Qmult_le_0_compat; [apply Qmult_le_0_compat |]; try done. lra.
    + apply forallb_map_to_list. intros k d Hd. apply Hrange in Hd. lra.
    + apply forallb_forall. intros [k o] Hin%list_elem_of_In.
      rewrite Forall_forall in Hos. destruct (Hos _ Hin) as (_ & _ & _ & _ & Hq & _).
      simpl in *. lia.
  - by apply symmetric_table_intro.
  - apply symmetric_table_intro. intros x y. by rewrite Htt, !lookup_fmap, Hsym.
Qed.

Lemma generate_instance_sound_witness :
  dict_keys (i_orders GeneratorExample.instance) = seqZ 1 2 /\
  Forall (order_generated 3) (i_orders GeneratorExample.instance) /\
  dict_keys (i_vehicles GeneratorExample.instance) = seqZ 1 1 /\
  Forall (fun kv : Z * Vehicle =>
            v_id kv.2 = kv.1 /\ (3, 10).1 <= v_capacity kv.2 <= (3, 10).2 /\
            v_start_location kv.2 = 0 /\ v_location kv.2 = 0)
         (i_vehicles GeneratorExample.instance) /\
  map_Forall (fun _ d => (5 <= d <= 50)%Q) (i_distances GeneratorExample.instance) /\
  i_travel_times GeneratorExample.instance
  = (fun d : Q => (d / 40 * 60)%Q) <$> i_distances GeneratorExample.instance /\
  keyed (run_simulator GeneratorExample.instance) = true /\
  sites_closed (run_simulator GeneratorExample.instance) = true /\
  nonneg_times (run_simulator GeneratorExample.instance) = true /\
  symmetric_table (i_distances GeneratorExample.instance) = true /\
  symmetric_table (i_travel_times GeneratorExample.instance) = true.
Proof.
  apply (generate_instance_sound 3 2 1 (3, 10) (1, 3) GeneratorExample.draws
           GeneratorExample.instance [12]).
  vm_compute. reflexivity.
Defined.

Lemma closed_for_frame s1 s acceptance :
  frame s1 = frame s -> keyed s = true -> sites_closed s = true ->
  closed_for (mkOptimizer s1 acceptance) (orders s1) = true.
Proof.
  intros Hf Hkeyed Hclosed.
  pose proof (keyed_ids_known s Hkeyed) as Hknown.
  apply andb_prop in Hkeyed as [Hd _].
  pose proof (frame_config _ _ Hf) as Hc. unfold config in Hc.
  injection Hc as Hpl _ _ _ _ _.
  unfold closed_for. repeat (apply andb_true_intro; split).
  - by rewrite (frame_keys _ _ Hf).
  - unfold ids_known. simpl. apply forallb_forall. intros [k o] Hin%list_elem_of_In.
    destruct (frame_order_elem _ _ _ _ Hf Hin) as (o0 & Hin0 & Hst).
    pose proof (ids_known_facts s k o0 Hknown Hin0) as Hkey.
    injection Hst as Hid _ _ _ _ _. simpl. rewrite Hid.
    apply existsb_exists. exists (o_id o0). split; [| apply Z.eqb_refl].
    apply list_elem_of_In. by rewrite (frame_keys _ _ Hf).
  - unfold sites_closed. simpl. apply forallb_forall. intros [k o] Hin%list_elem_of_In.
    destruct (frame_order_elem _ _ _ _ Hf Hin) as (o0 & Hin0 & Hst).
    destruct (sites_closed_facts s k o0 Hclosed Hin0) as [H1 H2].
    injection Hst as _ Hpk Hdl _ _ _. simpl. rewrite Hpk, Hdl, Hpl.
    apply andb_true_intro. split; by apply bool_decide_eq_true.
Qed.

(** X26.  The driver never fails on a generated instance: for every
    instance that [generate_instance] returns, the simulation over eight
    hours returns, and so does the optimizer that is then run on the same
    simulator and orders, for every budget and every sequence of random
    draws. *)
Theorem generated_instance_runs np no nv cr dr ds inst ds' rounds rng :
  generate_instance np no nv cr dr ds = Some (inst, ds') ->
  exists res best, run_instance inst rounds rng = Some (res, best).
Proof.
  intros [Hkeyed Hclosed]%generated_keyed.
  destruct (simulate_total (run_simulator inst) (8 * 60)
              (keyed_ids_known _ Hkeyed) Hclosed) as [[s1 res] Hsim].
  pose proof (simulate_frame _ _ _ _ Hsim) as Hf.
  pose proof (closed_for_frame s1 (run_simulator inst) 6 Hf Hkeyed Hclosed) as Hc.
  pose proof Hc as [[Hd%distinct_NoDup _]%andb_prop _]%andb_prop.
  destruct (evaluate_closed _ _ Hc) as (c0 & r0 & Heval).
  destruct (optimize_loop_total _ _ Hd Hc rounds _ rng (opt_inv_start _ _ c0 r0 Heval))
    as [st Hloop].
  unfold run_instance. rewrite Hsim. simpl.
  unfold optimize. rewrite Heval. simpl. rewrite Hloop. simpl. by eexists _, _.
Qed.

Lemma generated_instance_runs_witness :
  exists res best,
    run_instance GeneratorExample.instance 2 OptimizerExample.rng = Some (res, best).
Proof.
  apply (generated_instance_runs 3 2 1 (3, 10) (1, 3) GeneratorExample.draws
           GeneratorExample.instance [12] 2 OptimizerExample.rng).
  vm_compute. reflexivity.
Defined.

(** X27.  With at most one plant and at least one order the generator
    returns no instance, whatever the random values: without a plant the
    draw of a pickup plant fails, and with a single plant the loop that
    redraws the delivery plant until it differs from the pickup plant never
    ends. *)
Theorem generate_instance_single_plant np no nv cr dr ds :
  np <= 1 -> 0 < no ->
  generate_instance np no nv cr dr ds = None.
Proof.
  intros Hnp Hno. unfold generate_instance.
  destruct (gen_plants (seqZ 0 np) dr ds) as [[ps ds1] |]; simpl; [| done].
  destruct (gen_distances np (seqZ 0 np) ∅ ds1) as [[dist ds2] |]; simpl; [| done].
  rewrite (seqZ_cons 1 no) by done. simpl.
  assert (gen_order np 1 ds2 = None) as ->; [| done].
  unfold gen_order, randint.
  destruct (Z.ltb_spec (np - 1) 0) as [| Hge]; [done |].
  assert (np = 1) as -> by lia. simpl.
  destruct ds2 as [| d1 [| d2 ds3]]; simpl; try done.
  rewrite !Z.mod_1_r. simpl. by rewrite redraw_delivery_single.
Qed.

Lemma generate_instance_single_plant_witness :
  generate_instance 1 2 1 (3, 10) (1, 3) GeneratorExample.draws = None.
Proof.
  apply (generate_instance_single_plant 1 2 1 (3, 10) (1, 3) GeneratorExample.draws).
  - lia.
  - lia.
Defined.


(** ** How a run ends, and the sign of its result *)

Lemma skip_pass until_time ks : forall s s' evs,
  run_vehicles until_time ks s false = Some (s', false, evs) ->
  s' = s /\
  Forall (fun k => exists v, dict_get k (vehicles s) = Some v /\ (until_time < v_time v)%Q) ks.
Proof.
  induction ks as [| k ks IH]; intros s s' evs; simpl.
  - by intros [= <- <-].
  - destruct (veh_step until_time s k) as [[[s1 p1] a] |] eqn:Hstep; simpl; [| done].
    destruct (run_vehicles until_time ks s1 p1) as [[[s2 p2] evs2] |] eqn:Hrest;
      simpl; [| done].
    intros [= <- -> <-].
    pose proof (run_vehicles_flag _ _ _ _ _ _ _ Hrest) as Hflag.
    destruct p1; [done |].
    apply veh_step_spec in Hstep. inversion Hstep as [v Hveh Hlate | | | | | |]; subst.
    destruct (IH _ _ _ Hrest) as [-> Hall]. split; [done |].
    constructor; [by exists v | done].
Qed.

Lemma dispatch_loop_exit fuel until_time : forall s s' evs,
  dispatch_loop fuel until_time s = Some (s', evs) ->
  has_undelivered until_time s' = false \/
  fleet_timed_out until_time s' \/
  length evs = (fuel * length (vehicles s))%nat.
Proof.
  induction fuel as [| fuel IH]; intros s s' evs; simpl.
  - intros [= <- <-]. right. right. done.
  - destruct (has_undelivered until_time s) eqn:Hund; simpl;
      [| intros [= <- <-]; by left].
    destruct (dispatch_pass until_time s) as [[[s1 p] evs1] |] eqn:Hpass;
      simpl; [| done].
    pose proof (dispatch_pass_keys _ _ _ _ _ Hpass) as [Hperm Hf].
    destruct p; simpl.
    + destruct (dispatch_loop fuel until_time s1) as [[s2 evs2] |] eqn:Hloop;
        simpl; [| done].
      intros [= <- <-]. destruct (IH _ _ _ Hloop) as [H | [H | H]]; [by left | by right; left |].
      right. right. rewrite length_app, H.
      apply Permutation_length in Hperm. rewrite length_map in Hperm.
      pose proof (f_equal (@length Z) (frame_vehicle_keys _ _ Hf)) as Hlen.
      unfold dict_keys in *. rewrite !length_map in *. rewrite Hperm, Hlen. lia.
    + intros [= <- <-]. right. left. unfold dispatch_pass in Hpass.
      apply skip_pass in Hpass as [-> Hall]. intros k v Hv.
      rewrite Forall_forall in Hall.
      destruct (Hall k) as (v' & Hv' & Hlate); [| congruence].
      unfold dict_keys. rewrite (fmap_Permutation fst _ _ (sort_by_perm veh_time_lt (vehicles s))).
      by eapply dict_get_keys.
Qed.

(** X28.  A run ends for one of three reasons: no order that arrives within
    the horizon is left undelivered; or the clock of every vehicle is
    beyond the horizon; or the cap of 20000 passes is reached, every
    vehicle having taken a turn in each. *)
Theorem run_exit s until_time s' res evs :
  simulate_traced s until_time = Some (s', res, evs) ->
  has_undelivered until_time s' = false \/
  fleet_timed_out until_time s' \/
  length evs = (max_iterations * length (vehicles s))%nat.
Proof.
  unfold simulate_traced.
  destruct (dispatch_loop max_iterations until_time (reset s)) as [[s1 evs1] |] eqn:Hloop;
    simpl; [| discriminate].
  intros [= <- <- <-].
  pose proof (dispatch_loop_exit _ _ _ _ _ Hloop) as H.
  replace (length (vehicles (reset s))) with (length (vehicles s)) in H; [exact H |].
  simpl. by rewrite length_map.
Qed.

Lemma run_exit_witness :
  has_undelivered CausalExample.horizon ResultExample.final = false \/
  fleet_timed_out CausalExample.horizon ResultExample.final \/
  length CausalExample.log = (max_iterations * length (vehicles Scenario.sim0))%nat.
Proof.
  apply (run_exit Scenario.sim0 CausalExample.horizon
           ResultExample.final ResultExample.result CausalExample.log).
  vm_compute. reflexivity.
Defined.

Lemma nonneg_costs_facts s :
  nonneg_costs s = true ->
  (forall k o, (k, o) ∈ orders s -> 0 <= o_due o)%Q /\
  (forall a b, 0 <= _distance s a b)%Q /\ (0 <= lambda_cost s)%Q.
Proof.
  unfold nonneg_costs. intros [[Ho Hd]%andb_prop Hl%Qle_bool_iff]%andb_prop.
  split; [| split; [| done]].
  - intros k o Hin%list_elem_of_In. rewrite forallb_forall in Ho.
    specialize (Ho _ Hin). by apply Qle_bool_iff in Ho.
  - intros a b. unfold _distance.
    destruct (distances s !! (a, b)) as [d |] eqn:E1; simpl;
      [exact (map_forallb_lookup _ _ _ Hd E1) |].
    destruct (distances s !! (b, a)) as [d |] eqn:E2; simpl;
      [exact (map_forallb_lookup _ _ _ Hd E2) | lra].
Qed.

Lemma fold_late_step_nonneg os : forall acc,
  (0 <= acc)%Q -> Forall (fun o => 0 <= o_due o)%Q os ->
  (0 <= fold_left late_step os acc)%Q.
Proof.
  induction os as [| o os IH]; intros acc Hacc Hall; simpl; [done |].
  apply Forall_cons in Hall as [Ho Hall]. apply IH; [| done].
  unfold late_step, undelivered_penalty.
  destruct (o_delivered_time o) as [t |].
  - pose proof (Q.le_max_l 0 (t - o_due o)). lra.
  - nra.
Qed.

Lemma route_distance_nonneg s route : forall prev dist,
  (forall a b, 0 <= _distance s a b)%Q -> (0 <= dist)%Q ->
  (0 <= route_distance s prev route dist)%Q.
Proof.
  induction route as [| [loc t] route IH]; intros prev dist Hd Hdist; simpl; [done |].
  apply IH; [done |]. specialize (Hd prev loc). lra.
Qed.

Lemma fold_dist_step_nonneg s vs : forall acc,
  (forall a b, 0 <= _distance s a b)%Q -> (0 <= acc)%Q ->
  (0 <= fold_left (dist_step s) vs acc)%Q.
Proof.
  induction vs as [| v vs IH]; intros acc Hd Hacc; simpl; [done |].
  apply IH; [done |]. unfold dist_step.
  pose proof (route_distance_nonneg s (v_route v) (v_start_location v) 0 Hd ltac:(lra)). lra.
Qed.

(** X29.  When no due time, distance or lateness weight is negative, the
    total lateness, the average distance and the objective of a run are
    never negative. *)
Theorem result_nonneg s until_time s' res :
  nonneg_costs s = true ->
  simulate_with_tracking s until_time = Some (s', res) ->
  (0 <= total_late res)%Q /\ (0 <= avg_distance res)%Q /\ (0 <= objective res)%Q.
Proof.
  intros (Hdue & Hdist & Hlam)%nonneg_costs_facts Hsim.
  pose proof (simulate_frame _ _ _ _ Hsim) as Hf.
  revert Hsim. unfold simulate_with_tracking.
  destruct (dispatch_loop max_iterations until_time (reset s)) as [[s1 evs] |];
    simpl; [| discriminate].
  intros [= <- <-].
  assert (Hd' : forall a b, (0 <= _distance s1 a b)%Q).
  { intros a b. rewrite (config_distance s s1); [apply Hdist | by apply frame_config]. }
  assert (Hlate : (0 <= total_late (compute_result s1))%Q).
  { unfold compute_result. simpl. apply fold_late_step_nonneg; [lra |].
    apply Forall_forall. intros o ([k o'] & -> & Hin)%list_elem_of_fmap. simpl.
    destruct (frame_order_elem _ _ _ _ Hf Hin) as (o0 & Hin0 & Hst).
    injection Hst as _ _ _ _ _ ->. by eapply Hdue. }
  assert (Havg : (0 <= avg_distance (compute_result s1))%Q).
  { unfold compute_result. simpl. apply Qle_shift_div_l.
    - change 0%Q with (inject_Z 0). rewrite <- Zlt_Qlt. lia.
    - rewrite Qmult_0_l. apply fold_dist_step_nonneg; [done | lra]. }
  split; [done |]. split; [done |].
  change (objective (compute_result s1))
    with (lambda_cost s1 * total_late (compute_result s1)
          + avg_distance (compute_result s1))%Q.
  assert (lambda_cost s1 = lambda_cost s) as ->.
  { pose proof (frame_config _ _ Hf) as Hc. unfold config in Hc. by injection Hc. }
  nra.
Qed.

Lemma result_nonneg_witness :
  (0 <= total_late ResultExample.result)%Q /\
  (0 <= avg_distance ResultExample.result)%Q /\
  (0 <= objective ResultExample.result)%Q.
Proof.
  apply (result_nonneg Scenario.sim0 ResultExample.horizon
           ResultExample.final ResultExample.result).
  - vm_compute. reflexivity.
  - vm_compute. reflexivity.
Defined.


(** * Pickup before delivery (C9) *)

Section Precedence.
Variable s0 : DVRPSimulator.
Hypothesis keys_distinct : NoDup (dict_keys (orders s0)).
Hypothesis keys_are_ids : forall k o, dict_get k (orders s0) = Some o -> o_id o = k.
Hypothesis travel_nonneg : forall a b, (0 <= _travel_time s0 a b)%Q.
Hypothesis service_nonneg0 : forall k o, (k, o) ∈ orders s0 -> (0 <= service_time s0 o)%Q.

Lemma precedence_ext tr s s' :
  frame s' = frame s -> orders s' = orders s -> vehicles s' = vehicles s ->
  precedence s0 tr s -> precedence s0 tr s'.
Proof.
  intros Hf Ho Hv [H1 H2 H3 H4 H5 H6]. split.
  - by rewrite Hf.
  - intros k f Hp. eapply picked_in_orders; eauto.
  - done.
  - intros vk v k. rewrite Hv. intros Hin Hk.
    destruct (H4 _ _ _ Hin Hk) as (Hpk & Hex & Hb).
    split; [by eapply picked_in_orders | done].
  - done.
  - intros k o t. rewrite Ho. apply H6.
Qed.

Lemma precedence_event tr s vk a :
  is_pick_or_deliver a = false -> precedence s0 tr s -> precedence s0 (tr ++ [(vk, a)]) s.
Proof.
  intros Ha [H1 H2 H3 H4 H5 H6].
  assert (Hp : forall k f, picks (tr ++ [(vk, a)]) k f <-> picks tr k f).
  { intros k f. apply picks_snoc_other. intros ? ? ? ->. discriminate. }
  assert (Hd : forall k t, delivers (tr ++ [(vk, a)]) k t <-> delivers tr k t).
  { intros k t. apply delivers_snoc_other. intros ? ? ->. discriminate. }
  split.
  - done.
  - intros k f Hk%Hp. eauto.
  - intros k f Hk%Hp. eauto.
  - intros vk' v k Hin Hk. destruct (H4 _ _ _ Hin Hk) as (Hpk & (f & Hex) & Hb).
    split; [done |]. split; [exists f; by apply Hp |]. intros f' Hf'%Hp. by apply Hb.
  - intros k t Hk%Hd. destruct (H5 _ _ Hk) as ((f & Hex) & Hb).
    split; [exists f; by apply Hp |]. intros f' Hf'%Hp. by apply Hb.
  - intros k o t Hin Ht. apply Hd. eauto.
Qed.

Lemma precedence_vehicle tr s vk v v' :
  dict_get vk (vehicles s) = Some v ->
  vehicle_static v' = vehicle_static v ->
  v_stack v' = v_stack v ->
  (v_time v <= v_time v')%Q ->
  precedence s0 tr s -> precedence s0 tr (put_vehicle vk v' s).
Proof.
  intros Hv Hst Hstack Ht [H1 H2 H3 H4 H5 H6].
  pose proof (dict_get_elem_of _ _ _ Hv) as Hin.
  split; try done.
  - rewrite <- H1. by eapply put_vehicle_frame.
  - intros vk' v'' k [Hold | ->]%elem_of_put_vehicle Hk; [by eapply H4 |].
    rewrite Hstack in Hk. destruct (H4 _ _ _ Hin Hk) as (Hpk & Hex & Hb).
    split; [done |]. split; [done |]. intros f Hf. specialize (Hb f Hf). lra.
Qed.

Lemma precedence_pickup tr s vk v k o arr :
  dict_get vk (vehicles s) = Some v ->
  (k, o) ∈ orders s ->
  o_picked o = false ->
  (v_time v <= arr)%Q -> (o_arrival o <= arr)%Q ->
  precedence s0 tr s ->
  precedence s0 (tr ++ [(vk, APickup k arr (arr + service_time s o)%Q)])
    (alter_order k mark_picked (put_vehicle vk (after_pickup s v o arr) s)).
Proof.
  intros Hv Hko Hunpicked Harr Hrel Hc. pose proof Hc as [H1 H2 H3 H4 H5 H6].
  assert (Hget : dict_get k (orders s) = Some o).
  { apply dict_get_NoDup; [| done]. by rewrite (frame_keys _ _ H1). }
  destruct (frame_order _ _ _ _ H1 Hget) as (o0 & Ho0 & Hstatic).
  injection Hstatic as Hid _ _ Hqty Harrival _.
  pose proof (keys_are_ids _ _ Ho0) as Hkey.
  pose proof (service_nonneg0 _ _ (dict_get_elem_of _ _ _ Ho0)) as Hserv.
  rewrite (config_service_time s s0 o o0) in Hserv
    by (try (symmetry; by apply frame_config); congruence).
  assert (Hnopick : forall f, ~ picks tr k f).
  { intros f (o' & Ho' & Hp')%H2. congruence. }
  pose proof (dict_get_elem_of _ _ _ Hv) as Hvin.
  set (s' := alter_order k mark_picked (put_vehicle vk (after_pickup s v o arr) s)).
  assert (Hpicked' : forall j, picked_in s j -> picked_in s' j).
  { intros j Hj. apply picked_in_alter; [done |]. eapply picked_in_orders; [| done]. done. }
  assert (Hk' : picked_in s' k).
  { exists (mark_picked o). split; [| done]. unfold s'. simpl.
    by rewrite dict_get_alter, Z.eqb_refl, Hget. }
  assert (Hold : forall j f, picked_in s j ->
            picks (tr ++ [(vk, APickup k arr (arr + service_time s o)%Q)]) j f ->
            picks tr j f).
  { intros j f (oj & Hoj & Hpj) [Hp | [-> _]]%picks_snoc_pick; [done | congruence]. }
  split.
  - unfold s'. rewrite alter_order_frame by done.
    rewrite <- H1. by eapply put_vehicle_frame.
  - intros j f [Hp | [-> _]]%picks_snoc_pick; [| done]. apply Hpicked'. eauto.
  - intros j f [Hp | [-> ->]]%picks_snoc_pick; [eauto |].
    exists o0. split; [done |]. rewrite <- Harrival. lra.
  - intros vk' v'' j Hin Hj. apply elem_of_put_vehicle in Hin as [Hin | ->].
    + destruct (H4 _ _ _ Hin Hj) as (Hpj & (f & Hex) & Hb).
      split; [by apply Hpicked' |]. split; [exists f; apply picks_snoc_pick; by left |].
      intros f' Hf'. apply Hb. by eapply Hold.
    + simpl in Hj. apply elem_of_app in Hj as [Hj | Hj].
      * destruct (H4 _ _ _ Hvin Hj) as (Hpj & (f & Hex) & Hb).
        split; [by apply Hpicked' |]. split; [exists f; apply picks_snoc_pick; by left |].
        intros f' Hf'. simpl. specialize (Hb f' (Hold _ _ Hpj Hf')). lra.
      * apply list_elem_of_singleton in Hj. subst j. rewrite Hid, Hkey.
        split; [done |].
        split; [exists (arr + service_time s o)%Q; apply picks_snoc_pick; by right |].
        intros f' [Hf' | [_ ->]]%picks_snoc_pick; [by destruct (Hnopick f') |].
        simpl. lra.
  - intros j t Hd. apply delivers_snoc_other in Hd; [| intros ? ? ?; discriminate].
    destruct (H5 _ _ Hd) as ((f & Hex) & Hb).
    assert (picked_in s j) as Hpj by eauto.
    split; [exists f; apply picks_snoc_pick; by left |].
    intros f' Hf'. apply Hb. by eapply Hold.
  - intros j oj t Hin Ht. apply delivers_snoc_other; [intros ? ? ?; discriminate |].
    unfold s' in Hin. simpl in Hin.
    apply elem_of_dict_alter in Hin as [Hin | (-> & oj' & Hin & ->)]; eauto.
Qed.

Lemma precedence_deliver tr s vk v tid top_o :
  dict_get vk (vehicles s) = Some v ->
  last (v_stack v) = Some tid ->
  dict_get tid (orders s) = Some top_o ->
  precedence s0 tr s ->
  precedence s0 (tr ++ [(vk, ADeliver tid (v_time v + service_time s top_o)%Q)])
    (alter_order tid (mark_delivered (v_time v + service_time s top_o)%Q)
       (put_vehicle vk (after_delivery s v top_o) s)).
Proof.
  intros Hv Hlast Htop Hc. pose proof Hc as [H1 H2 H3 H4 H5 H6].
  pose proof (dict_get_elem_of _ _ _ Hv) as Hvin.
  destruct (H4 _ _ _ Hvin (last_elem_of _ _ Hlast)) as (Hpk & Hex & Hb).
  destruct (frame_order _ _ _ _ H1 Htop) as (o0 & Ho0 & Hstatic).
  injection Hstatic as _ _ _ Hqty _ _.
  pose proof (service_nonneg0 _ _ (dict_get_elem_of _ _ _ Ho0)) as Hserv.
  rewrite (config_service_time s s0 top_o o0) in Hserv
    by (try (symmetry; by apply frame_config); congruence).
  set (t := (v_time v + service_time s top_o)%Q) in *.
  set (s' := alter_order tid (mark_delivered t) (put_vehicle vk (after_delivery s v top_o) s)).
  assert (Hpicked' : forall j, picked_in s j -> picked_in s' j).
  { intros j Hj. apply picked_in_alter; [done |]. eapply picked_in_orders; [| done]. done. }
  assert (Hp : forall k f, picks (tr ++ [(vk, ADeliver tid t)]) k f <-> picks tr k f).
  { intros k f. apply picks_snoc_other. intros ? ? ?. discriminate. }
  split.
  - unfold s'. rewrite alter_order_frame by done.
    rewrite <- H1. by eapply put_vehicle_frame.
  - intros j f Hj%Hp. apply Hpicked'. eauto.
  - intros j f Hj%Hp. eauto.
  - intros vk' v'' j Hin Hj. apply elem_of_put_vehicle in Hin as [Hin | ->].
    + destruct (H4 _ _ _ Hin Hj) as (Hpj & (f & Hexj) & Hbj).
      split; [by apply Hpicked' |]. split; [exists f; by apply Hp |].
      intros f' Hf'%Hp. by apply Hbj.
    + simpl in Hj. apply elem_of_removelast in Hj.
      destruct (H4 _ _ _ Hvin Hj) as (Hpj & (f & Hexj) & Hbj).
      split; [by apply Hpicked' |]. split; [exists f; by apply Hp |].
      intros f' Hf'%Hp. simpl. specialize (Hbj f' Hf'). unfold t. lra.
  - intros j t' [Hd | [-> ->]]%delivers_snoc_deliver.
    + destruct (H5 _ _ Hd) as ((f & Hexj) & Hbj).
      split; [exists f; by apply Hp |]. intros f' Hf'%Hp. by apply Hbj.
    + split; [destruct Hex as [f Hf]; exists f; by apply Hp |].
      intros f Hf%Hp. specialize (Hb f Hf). unfold t. lra.
  - intros j oj t' Hin Ht. apply delivers_snoc_deliver.
    unfold s' in Hin. simpl in Hin.
    apply elem_of_dict_alter in Hin as [Hin | (-> & oj' & Hin & ->)].
    + left. eauto.
    + right. simpl in Ht. injection Ht as <-. done.
Qed.

(** One turn of any vehicle keeps the invariant and extends the log by the
    action taken. *)
Lemma precedence_step until_time tr s vk s' p a :
  veh_step until_time s vk = Some (s', p, a) ->
  precedence s0 tr s -> precedence s0 (tr ++ [(vk, a)]) s'.
Proof.
  intros Hstep%veh_step_spec Hc. pose proof Hc as [H1 _ _ _ _ _].
  assert (Htrav : forall a b, (0 <= _travel_time s a b)%Q).
  { intros x y. rewrite (config_travel_time s0 s); [apply travel_nonneg |].
    by apply frame_config. }
  inversion Hstep as
    [ v Hveh Hlate
    | v tid top_o free s1 Hveh Htime Htop Hloc Hfree Hle
    | v tid top_o free s1 s3 Hveh Htime Htop Hloc Hfree Hgt Hocc
    | v top k o arr trav rest free s1 Hveh Htime Htop Hnd Hsort Hfree Hle
    | v top k o arr trav rest free s1 s3 Hveh Htime Htop Hnd Hsort Hfree Hgt Hocc
    | v tid top_o Hveh Htime Htop Hloc Hfeas
    | v Hveh Htime Htop Hfeas ]; subst;
    try (apply free_docks_spec in Hfree as (occ & plant & Hoccp & Hplant & -> & _));
    try (apply occupy_dock_spec in Hocc as (occ' & Hocc' & ->));
    try (apply chosen_candidate in Hsort as (Hin & (Hunpicked & _) & -> & -> & _));
    try (unfold stack_top in Htop;
         destruct (last (v_stack v)) as [tid' |] eqn:Hlast; [| discriminate];
         destruct (dict_get tid' (orders s)) as [top_o' |] eqn:Hget_top;
           simpl in Htop; [| discriminate];
         injection Htop as -> ->).
  - (* skip *)
    by apply precedence_event.
  - (* no dock for the delivery *)
    eapply precedence_ext;
      [ | | | eapply (precedence_vehicle _ s vk v);
              [exact Hveh | | | | by apply precedence_event]];
      try done.
    simpl. unfold retry_increment. lra.
  - (* delivery *)
    eapply precedence_ext; [| | | by apply precedence_deliver]; done.
  - (* no dock for the pickup *)
    eapply precedence_ext;
      [ | | | eapply (precedence_vehicle _ s vk v);
              [exact Hveh | | | | by apply precedence_event]];
      try done.
    simpl. pose proof (earliest_start_ge v o).
    pose proof (Htrav (v_location v) (o_pickup o)). unfold retry_increment. lra.
  - (* pickup *)
    pose proof (earliest_start_ge v o) as Hge.
    pose proof (Htrav (v_location v) (o_pickup o)) as Ht0.
    assert (o_arrival o <= earliest_start v o)%Q as Harr.
    { rewrite earliest_start_max. apply Q.le_max_l. }
    eapply precedence_ext; [| | | apply precedence_pickup]; try done; lra.
  - (* reposition *)
    eapply (precedence_vehicle _ s vk v); [exact Hveh | | | | by apply precedence_event];
      try done.
    simpl. pose proof (Htrav (v_location v) (o_delivery top_o)). lra.
  - (* idle *)
    eapply (precedence_vehicle _ s vk v); [exact Hveh | | | | by apply precedence_event];
      try done.
    simpl. unfold retry_increment. lra.
Qed.

Lemma precedence_run_vehicles until_time ks tr s p0 s' p evs :
  run_vehicles until_time ks s p0 = Some (s', p, evs) ->
  precedence s0 tr s -> precedence s0 (tr ++ evs) s'.
Proof.
  revert tr s p0 s' p evs. induction ks as [| k ks IH]; simpl; intros tr s p0 s' p evs.
  - intros [= <- <- <-]. by rewrite app_nil_r.
  - destruct (veh_step until_time s k) as [[[s1 p1] a] |] eqn:Hstep; simpl; [| discriminate].
    destruct (run_vehicles until_time ks s1 (p0 || p1)) as [[[s2 p2] evs2] |] eqn:Hrun;
      simpl; [| discriminate].
    intros [= <- <- <-] Hc. rewrite cons_middle, app_assoc.
    eapply IH; [done |]. by eapply precedence_step.
Qed.

Lemma precedence_dispatch_loop fuel until_time tr s s' evs :
  dispatch_loop fuel until_time s = Some (s', evs) ->
  precedence s0 tr s -> precedence s0 (tr ++ evs) s'.
Proof.
  revert tr s s' evs. induction fuel as [| fuel IH]; simpl; intros tr s s' evs.
  - intros [= <- <-]. by rewrite app_nil_r.
  - destruct (has_undelivered until_time s); simpl;
      [| intros [= <- <-]; by rewrite app_nil_r].
    destruct (dispatch_pass until_time s) as [[[s1 p] evs1] |] eqn:Hpass;
      simpl; [| discriminate].
    unfold dispatch_pass in Hpass. destruct p; simpl.
    + destruct (dispatch_loop fuel until_time s1) as [[s2 evs2] |] eqn:Hloop;
        simpl; [| discriminate].
      intros [= <- <-] Hc. rewrite app_assoc. eapply IH; [done |].
      by eapply precedence_run_vehicles.
    + intros [= <- <-] Hc. by eapply precedence_run_vehicles.
Qed.

Lemma precedence_reset : precedence s0 [] (reset s0).
Proof.
  split.
  - apply reset_frame.
  - intros k f (vk & arr & H). by apply elem_of_nil in H.
  - intros k f (vk & arr & H). by apply elem_of_nil in H.
  - intros vk v k. simpl. intros (kv & [= -> ->] & Hin)%list_elem_of_fmap. simpl.
    intros Hk. by apply elem_of_nil in Hk.
  - intros k t (vk & H). by apply elem_of_nil in H.
  - intros k o t. simpl. intros (ko & [= -> ->] & Hin)%list_elem_of_fmap. discriminate.
Qed.

Lemma precedence_simulation until_time s' res evs :
  simulate_traced s0 until_time = Some (s', res, evs) -> precedence s0 evs s'.
Proof.
  unfold simulate_traced.
  destruct (dispatch_loop max_iterations until_time (reset s0)) as [[s1 evs1] |] eqn:Hloop;
    simpl; [| discriminate].
  intros [= <- <- <-].
  apply (precedence_dispatch_loop _ _ [] _ _ _ Hloop precedence_reset).
Qed.

End Precedence.

(** C9, amended.  On an instance whose orders are stored under their own
    ids, with distinct keys, and with no negative travel time, distance,
    service parameter or quantity, every order that a completed run reports
    as delivered has been picked up in that run; every pickup of it
    finished at or after the arrival time of the order, and its
    delivered-time is at least the finish time of that pickup. *)
Theorem pickup_precedes_delivery (s s' : DVRPSimulator) (until_time : Q)
    (res : Result) (evs : list Event) :
  keyed s = true ->
  nonneg_times s = true ->
  simulate_traced s until_time = Some (s', res, evs) ->
  forall k o0 out t,
    dict_get k (orders s) = Some o0 ->
    (k, out) ∈ r_orders res ->
    r_delivered_time out = Some t ->
    (exists f, picks evs k f) /\
    (forall f, picks evs k f -> (o_arrival o0 <= f)%Q /\ (f <= t)%Q).
Proof.
  intros [Hnd Hid]%keyed_facts [Htrav Hserv]%nonneg_times_facts Hsim k o0 out t Ho0 Hout Ht.
  pose proof (precedence_simulation s Hnd Hid Htrav Hserv _ _ _ _ Hsim)
    as [_ _ H3 _ H5 H6].
  unfold simulate_traced in Hsim.
  destruct (dispatch_loop max_iterations until_time (reset s)) as [[s1 evs1] |];
    simpl in Hsim; [| discriminate].
  injection Hsim as <- <- <-. simpl in Hout.
  apply list_elem_of_fmap in Hout as ([k' o] & [= -> ->] & Hin). simpl in Ht.
  destruct (H5 _ _ (H6 _ _ _ Hin Ht)) as (Hex & Hb).
  split; [done |]. intros f Hf. split; [| by apply Hb].
  destruct (H3 _ _ Hf) as (o0' & Ho0' & Harr). congruence.
Qed.

Lemma pickup_precedes_delivery_holds :
  (exists f, picks CausalExample.log 1 f) /\
  (forall f, picks CausalExample.log 1 f ->
     (o_arrival (Scenario.new_order 1 1 2 2 10 180) <= f)%Q /\ (f <= 480 # 4)%Q).
Proof.
  apply (pickup_precedes_delivery Scenario.sim0 ResultExample.final
           CausalExample.horizon ResultExample.result CausalExample.log)
    with (k := 1) (out := mkOrderOutcome true true (Some (480 # 4)%Q)).
  - vm_compute. reflexivity.
  - vm_compute. reflexivity.
  - vm_compute. reflexivity.
  - reflexivity.
  - apply list_elem_of_In. vm_compute. left. reflexivity.
  - reflexivity.
Defined.

(** * The order on top of a stack (C6) *)

Lemma stored_under_ids_static (os os0 : list (Z * Order)) :
  map (fun ko : Z * Order => (ko.1, order_static ko.2)) os
  = map (fun ko : Z * Order => (ko.1, order_static ko.2)) os0 ->
  stored_under_ids os = stored_under_ids os0.
Proof.
  revert os0. induction os as [| [k o] os IH]; intros [| [k0 o0] os0]; simpl; try done.
  intros H. apply (f_equal tail) in H as Hrest. simpl in Hrest.
  apply (f_equal head) in H. simpl in H.
  assert (k = k0 /\ o_id o = o_id o0) as [-> Hid].
  { unfold order_static in H. split; congruence. }
  unfold stored_under_ids in *. simpl. by rewrite (IH os0 Hrest), Hid.
Qed.

(** Every state of a run has its orders stored as the instance has them. *)
Lemma keyed_frame s s0 : frame s = frame s0 -> keyed s = keyed s0.
Proof.
  intros Hf. unfold keyed. rewrite (frame_keys _ _ Hf). f_equal.
  apply stored_under_ids_static. exact (frame_orders_static _ _ Hf).
Qed.

Lemma keyed_reachable until_time ks s0 s :
  keyed s0 = true -> run_turns until_time ks (reset s0) = Some s -> keyed s = true.
Proof.
  intros Hk Hrun%run_turns_frame. rewrite reset_frame in Hrun.
  by rewrite (keyed_frame _ _ Hrun).
Qed.





(** * Reordered order sets (C1) *)

Lemma dict_keys_perm {V} (d1 d2 : list (Z * V)) :
  d1 ≡ₚ d2 -> dict_keys d1 ≡ₚ dict_keys d2.
Proof. intros Hp. unfold dict_keys. by apply Permutation_map. Qed.

Lemma dict_get_perm {V} k (d1 d2 : list (Z * V)) :
  NoDup (dict_keys d1) -> d1 ≡ₚ d2 -> dict_get k d1 = dict_get k d2.
Proof.
  intros Hnd Hp.
  assert (Hnd2 : NoDup (dict_keys d2)).
  { by rewrite <- (dict_keys_perm _ _ Hp). }
  destruct (dict_get k d1) as [v |] eqn:E1.
  - symmetry. apply dict_get_NoDup; [done |]. rewrite <- Hp. by apply dict_get_elem_of.
  - destruct (dict_get k d2) as [v |] eqn:E2; [| done].
    apply dict_get_elem_of in E2. rewrite <- Hp in E2.
    apply (dict_get_NoDup _ _ _ Hnd) in E2. congruence.
Qed.

Lemma dict_alter_map {V} (f : V -> V) k (d : list (Z * V)) :
  NoDup (dict_keys d) ->
  dict_alter f k d
  = map (fun kv : Z * V => if (kv.1 =? k)%Z then (kv.1, f kv.2) else kv) d.
Proof.
  unfold dict_keys. induction d as [| [k0 v0] d IH]; simpl; [done |].
  intros [Hni Hnd]%NoDup_cons. destruct (Z.eqb_spec k0 k) as [-> | Hne].
  - f_equal. clear IH. induction d as [| [k1 v1] d IH]; simpl; [done |].
    simpl in Hni. apply not_elem_of_cons in Hni as [Hk Hni].
    apply NoDup_cons in Hnd as [_ Hnd].
    destruct (Z.eqb_spec k1 k); [congruence |]. f_equal. by apply IH.
  - f_equal. by apply IH.
Qed.

Lemma dict_alter_perm {V} (f : V -> V) k (d1 d2 : list (Z * V)) :
  NoDup (dict_keys d1) -> d1 ≡ₚ d2 -> dict_alter f k d1 ≡ₚ dict_alter f k d2.
Proof.
  intros Hnd Hp.
  assert (Hnd2 : NoDup (dict_keys d2)).
  { by rewrite <- (dict_keys_perm _ _ Hp). }
  rewrite !dict_alter_map by done. by apply Permutation_map.
Qed.

Lemma existsb_perm {A} (f : A -> bool) (l1 l2 : list A) :
  l1 ≡ₚ l2 -> existsb f l1 = existsb f l2.
Proof.
  induction 1 as [| x l l' _ IH | x y l | l l' l'' _ IH1 _ IH2]; simpl.
  - done.
  - by rewrite IH.
  - by destruct (f x), (f y).
  - by rewrite IH1.
Qed.

Lemma reordered_refl s : reordered s s.
Proof. by repeat split. Qed.

Lemma reordered_keys s1 s2 :
  reordered s1 s2 -> NoDup (dict_keys (orders s1)) -> NoDup (dict_keys (orders s2)).
Proof.
  intros (_ & _ & _ & Hp) Hnd. by rewrite <- (dict_keys_perm _ _ Hp).
Qed.

Lemma put_vehicle_reordered vk v s1 s2 :
  reordered s1 s2 -> reordered (put_vehicle vk v s1) (put_vehicle vk v s2).
Proof.
  intros (Hc & Hv & Hd & Ho). unfold reordered, config in *. simpl.
  rewrite Hv. by repeat split.
Qed.

Lemma alter_order_reordered f k s1 s2 :
  NoDup (dict_keys (orders s1)) ->
  reordered s1 s2 -> reordered (alter_order k f s1) (alter_order k f s2).
Proof.
  intros Hnd (Hc & Hv & Hd & Ho). unfold reordered, config in *. simpl.
  repeat split; try done. by apply dict_alter_perm.
Qed.

Lemma with_docks_reordered occ s1 s2 :
  reordered s1 s2 -> reordered (with_dock_occupancy occ s1) (with_dock_occupancy occ s2).
Proof.
  intros (Hc & Hv & Hd & Ho). unfold reordered, config in *. simpl. by repeat split.
Qed.

Lemma free_docks_reordered s1 s2 p t :
  reordered s1 s2 ->
  match _free_docks s1 p t, _free_docks s2 p t with
  | Some (f1, s1'), Some (f2, s2') =>
      f1 = f2 /\ reordered s1' s2' /\ orders s1' = orders s1
  | None, None => True
  | _, _ => False
  end.
Proof.
  intros H. pose proof H as (Hc & Hv & Hd & Ho). unfold _free_docks. rewrite Hd.
  assert (plants s1 = plants s2) as -> by (by injection Hc).
  destruct (dock_occupancy s2 !! p) as [occ |]; simpl; [| done].
  destruct (plants s2 !! p) as [pl |]; simpl; [| done].
  split; [done |]. split; [| done]. rewrite <- Hd. by apply with_docks_reordered.
Qed.

Lemma occupy_dock_reordered s1 s2 p vid t :
  reordered s1 s2 ->
  match _occupy_dock s1 p vid t, _occupy_dock s2 p vid t with
  | Some s1', Some s2' => reordered s1' s2'
  | None, None => True
  | _, _ => False
  end.
Proof.
  intros H. pose proof H as (Hc & Hv & Hd & Ho). unfold _occupy_dock. rewrite Hd.
  destruct (dock_occupancy s2 !! p) as [occ |]; simpl; [| done].
  rewrite <- Hd. by apply with_docks_reordered.
Qed.

Lemma try_deliver_reordered s1 s2 vk v tid top_o :
  NoDup (dict_keys (orders s1)) -> reordered s1 s2 ->
  same_step (try_deliver s1 vk v tid top_o) (try_deliver s2 vk v tid top_o).
Proof.
  intros Hnd H. unfold try_deliver.
  pose proof (free_docks_reordered s1 s2 (v_location v) (v_time v) H) as Hfree.
  destruct (_free_docks s1 (v_location v) (v_time v)) as [[f1 s1'] |],
           (_free_docks s2 (v_location v) (v_time v)) as [[f2 s2'] |];
    simpl; try done.
  destruct Hfree as (-> & H' & Hos). destruct (f2 <=? 0).
  - split; [by apply put_vehicle_reordered | done].
  - rewrite (config_service_time s2 s1 top_o top_o) by (done || apply H).
    set (finish := (v_time v + service_time s2 top_o)%Q).
    set (v' := mkVehicle _ _ _ _ _ _ _ _).
    assert (reordered (alter_order tid (mark_delivered finish) (put_vehicle vk v' s1'))
                      (alter_order tid (mark_delivered finish) (put_vehicle vk v' s2')))
      as Hs.
    { apply alter_order_reordered; [simpl; by rewrite Hos | by apply put_vehicle_reordered]. }
    pose proof (occupy_dock_reordered _ _ (v_location v) (v_id v) finish Hs) as Hocc.
    destruct (_occupy_dock (alter_order tid _ (put_vehicle vk v' s1')) _ _ _),
             (_occupy_dock (alter_order tid _ (put_vehicle vk v' s2')) _ _ _);
      simpl; try done.
Qed.

Lemma try_pickup_reordered s1 s2 vk v c :
  NoDup (dict_keys (orders s1)) -> reordered s1 s2 ->
  same_step (try_pickup s1 vk v c) (try_pickup s2 vk v c).
Proof.
  intros Hnd H. destruct c as [[[k o] arr] trav]. unfold try_pickup. simpl.
  pose proof (free_docks_reordered s1 s2 (o_pickup o) arr H) as Hfree.
  destruct (_free_docks s1 (o_pickup o) arr) as [[f1 s1'] |],
           (_free_docks s2 (o_pickup o) arr) as [[f2 s2'] |];
    simpl; try done.
  destruct Hfree as (-> & H' & Hos). destruct (f2 <=? 0).
  - split; [by apply put_vehicle_reordered | done].
  - rewrite (config_service_time s2 s1 o o) by (done || apply H).
    set (finish := (arr + service_time s2 o)%Q).
    set (v' := mkVehicle _ _ _ _ _ _ _ _).
    assert (reordered (alter_order k mark_picked (put_vehicle vk v' s1'))
                      (alter_order k mark_picked (put_vehicle vk v' s2'))) as Hs.
    { apply alter_order_reordered; [simpl; by rewrite Hos | by apply put_vehicle_reordered]. }
    pose proof (occupy_dock_reordered _ _ (o_pickup o) (v_id v) finish Hs) as Hocc.
    destruct (_occupy_dock (alter_order k mark_picked (put_vehicle vk v' s1')) _ _ _),
             (_occupy_dock (alter_order k mark_picked (put_vehicle vk v' s2')) _ _ _);
      simpl; try done.
Qed.

Lemma candidates_config s1 s2 v td (os : list (Z * Order)) :
  config s1 = config s2 ->
  omap (candidate s1 v td) os = omap (candidate s2 v td) os.
Proof.
  intros Hc. induction os as [| ko os IH]; [done |]. cbn [omap list_omap].
  rewrite IH. unfold candidate. by rewrite (config_travel_time s2 s1).
Qed.

Lemma feasible_pickups_reordered s1 s2 v td :
  reordered s1 s2 -> feasible_pickups s1 v td ≡ₚ feasible_pickups s2 v td.
Proof.
  intros (Hc & _ & _ & Ho). unfold feasible_pickups.
  rewrite (candidates_config s1 s2 v td _ Hc). by apply omap_Permutation.
Qed.

(** A sort that breaks no tie for the first place puts the same candidate
    first whatever the order of its input. *)
Lemma strict_head_perm l1 l2 :
  l1 ≡ₚ l2 -> strict_head (sort_by cand_lt l1) = true ->
  match sort_by cand_lt l1, sort_by cand_lt l2 with
  | c1 :: _, c2 :: _ => c1 = c2
  | [], [] => True
  | _, _ => False
  end.
Proof.
  intros Hp Hs.
  destruct (sort_by cand_lt l1) as [| c1 r1] eqn:E1.
  - apply sort_by_nil in E1 as ->. apply Permutation_nil in Hp as ->. done.
  - destruct (sort_by cand_lt l2) as [| c2 r2] eqn:E2.
    + apply sort_by_nil in E2 as ->. apply Permutation_nil_r in Hp as ->. discriminate.
    + destruct (sort_by_head_min cand_lt cand_lt_irrefl cand_lt_asym cand_lt_negtrans
                  _ _ _ E2) as [Hin2 Hmin2].
      assert (c2 ∈ c1 :: r1) as Hc2.
      { rewrite <- E1. rewrite sort_by_perm. by rewrite Hp. }
      apply elem_of_cons in Hc2 as [-> | Hr]; [done |].
      simpl in Hs. rewrite forallb_forall in Hs.
      specialize (Hs c2 (proj1 (list_elem_of_In _ _) Hr)).
      assert (c1 ∈ l2) as Hc1.
      { rewrite <- Hp, <- (sort_by_perm cand_lt l1), E1. left. }
      rewrite (Hmin2 c1 Hc1) in Hs. discriminate.
Qed.

Lemma reposition_reordered s1 s2 vk v top :
  reordered s1 s2 ->
  same_step (Some (reposition_or_idle s1 vk v top)) (Some (reposition_or_idle s2 vk v top)).
Proof.
  intros H. unfold reposition_or_idle, idle. destruct top as [[k o] |]; simpl.
  - rewrite (config_travel_time s2 s1) by apply H.
    destruct (negb (v_location v =? o_delivery o)); simpl;
      (split; [by apply put_vehicle_reordered | done]).
  - split; [by apply put_vehicle_reordered | done].
Qed.

Lemma pickup_or_move_reordered s1 s2 vk v top :
  NoDup (dict_keys (orders s1)) -> reordered s1 s2 ->
  strict_head (sort_by cand_lt (feasible_pickups s1 v (top_due top))) = true ->
  same_step (pickup_or_move s1 vk v top) (pickup_or_move s2 vk v top).
Proof.
  intros Hnd H Hs. unfold pickup_or_move. fold (top_due top).
  pose proof (strict_head_perm _ _ (feasible_pickups_reordered s1 s2 v (top_due top) H) Hs)
    as Hhead.
  destruct (sort_by cand_lt (feasible_pickups s1 v (top_due top))) as [| c1 r1],
           (sort_by cand_lt (feasible_pickups s2 v (top_due top))) as [| c2 r2];
    try done.
  - by apply reposition_reordered.
  - subst c2. by apply try_pickup_reordered.
Qed.

(** A turn that breaks no tie is the same turn on the reordered state. *)
Lemma veh_step_reordered until_time s1 s2 vk :
  NoDup (dict_keys (orders s1)) -> reordered s1 s2 ->
  untied until_time s1 vk = true ->
  same_step (veh_step until_time s1 vk) (veh_step until_time s2 vk).
Proof.
  intros Hnd H. pose proof H as (Hc & Hv & Hd & Ho).
  unfold untied, veh_step. rewrite <- Hv.
  destruct (dict_get vk (vehicles s1)) as [v |]; simpl; [| done].
  destruct (Qlt_bool until_time (v_time v)); [done |].
  assert (stack_top s2 v = stack_top s1 v) as ->.
  { unfold stack_top. destruct (last (v_stack v)) as [tid |]; [| done].
    by rewrite (dict_get_perm tid _ _ Hnd Ho). }
  destruct (stack_top s1 v) as [[[tid top_o] |] |]; simpl; [| | done].
  - destruct (v_location v =? o_delivery top_o).
    + intros _. by apply try_deliver_reordered.
    + by apply pickup_or_move_reordered.
  - by apply pickup_or_move_reordered.
Qed.

Lemma untied_turns_app until_time ks1 ks2 s s1 :
  run_turns until_time ks1 s = Some s1 ->
  untied_turns until_time (ks1 ++ ks2) s
  = untied_turns until_time ks1 s && untied_turns until_time ks2 s1.
Proof.
  revert s. induction ks1 as [| k ks1 IH]; simpl; intros s.
  - by intros [= ->].
  - destruct (veh_step until_time s k) as [r |]; simpl; [| discriminate].
    intros Hrun. by rewrite (IH _ Hrun), andb_assoc.
Qed.

Lemma run_vehicles_reordered until_time ks s1 s2 p0 s1' p evs :
  NoDup (dict_keys (orders s1)) -> reordered s1 s2 ->
  run_vehicles until_time ks s1 p0 = Some (s1', p, evs) ->
  untied_turns until_time ks s1 = true ->
  exists s2', run_vehicles until_time ks s2 p0 = Some (s2', p, evs) /\ reordered s1' s2'.
Proof.
  revert s1 s2 p0 s1' p evs. induction ks as [| k ks IH]; simpl;
    intros s1 s2 p0 s1' p evs Hnd H.
  - intros [= <- <- <-] _. by exists s2.
  - intros Hrun [Hu Hrest]%andb_prop.
    pose proof (veh_step_reordered until_time s1 s2 k Hnd H Hu) as Hturn.
    destruct (veh_step until_time s1 k) as [[[s1a p1] a1] |] eqn:Hstep; simpl in *;
      [| discriminate].
    destruct (veh_step until_time s2 k) as [[[s2a p2] a2] |]; simpl in *; [| done].
    destruct Hturn as (Ha & <- & <-).
    destruct (run_vehicles until_time ks s1a (p0 || p1)) as [[[s1b pb] evsb] |] eqn:Hrun';
      simpl in Hrun; [| discriminate].
    injection Hrun as <- <- <-.
    assert (NoDup (dict_keys (orders s1a))) as Hnd'.
    { by rewrite (frame_keys _ _ (veh_step_frame _ _ _ _ _ _ Hstep)). }
    destruct (IH _ _ _ _ _ _ Hnd' Ha Hrun' Hrest) as (s2b & Hrun2 & Hb).
    exists s2b. by rewrite Hrun2.
Qed.

Lemma has_undelivered_reordered until_time s1 s2 :
  reordered s1 s2 -> has_undelivered until_time s1 = has_undelivered until_time s2.
Proof. intros (_ & _ & _ & Ho). unfold has_undelivered. by apply existsb_perm. Qed.

Lemma dispatch_loop_reordered fuel until_time s1 s2 s1' evs :
  NoDup (dict_keys (orders s1)) -> reordered s1 s2 ->
  dispatch_loop fuel until_time s1 = Some (s1', evs) ->
  untied_turns until_time (map fst evs) s1 = true ->
  exists s2', dispatch_loop fuel until_time s2 = Some (s2', evs) /\ reordered s1' s2'.
Proof.
  revert s1 s2 s1' evs. induction fuel as [| fuel IH]; simpl; intros s1 s2 s1' evs Hnd H.
  - intros [= <- <-] _. by exists s2.
  - rewrite <- (has_undelivered_reordered until_time s1 s2 H).
    destruct (has_undelivered until_time s1); simpl;
      [| intros [= <- <-] _; by exists s2].
    unfold dispatch_pass. pose proof H as (_ & Hv & _). rewrite <- Hv.
    destruct (run_vehicles until_time (dict_keys (sort_by veh_time_lt (vehicles s1))) s1 false)
      as [[[s1a pa] evsa] |] eqn:Hpass; simpl; [| discriminate].
    destruct (run_vehicles_turns _ _ _ _ _ _ _ Hpass) as [Hks Hturns].
    assert (NoDup (dict_keys (orders s1a))) as Hnd'.
    { by rewrite (frame_keys _ _ (run_turns_frame _ _ _ _ Hturns)). }
    destruct pa; simpl.
    + destruct (dispatch_loop fuel until_time s1a) as [[s1b evsb] |] eqn:Hloop;
        simpl; [| discriminate].
      intros [= <- <-]. rewrite map_app, Hks.
      rewrite (untied_turns_app _ _ _ _ _ Hturns). intros [Hu1 Hu2]%andb_prop.
      destruct (run_vehicles_reordered _ _ _ _ _ _ _ _ Hnd H Hpass Hu1) as (s2a & Hpass2 & Ha).
      rewrite Hpass2. simpl.
      destruct (IH _ _ _ _ Hnd' Ha Hloop Hu2) as (s2b & Hloop2 & Hb).
      exists s2b. by rewrite Hloop2.
    + intros [= <- <-]. rewrite Hks. intros Hu1.
      destruct (run_vehicles_reordered _ _ _ _ _ _ _ _ Hnd H Hpass Hu1) as (s2a & Hpass2 & Ha).
      rewrite Hpass2. simpl. by exists s2a.
Qed.

Lemma reset_reordered s1 s2 : reordered s1 s2 -> reordered (reset s1) (reset s2).
Proof.
  intros (Hc & Hv & Hd & Ho). unfold reordered, config in *. simpl.
  injection Hc as -> -> -> -> -> ->. rewrite Hv.
  repeat split; try done. by apply Permutation_map.
Qed.

Lemma route_distance_config s1 s2 prev route dist :
  config s1 = config s2 -> route_distance s1 prev route dist = route_distance s2 prev route dist.
Proof.
  intros Hc. revert prev dist. induction route as [| [loc t] route IH]; intros prev dist;
    simpl; [done |].
  by rewrite IH, (config_distance s2 s1).
Qed.

Lemma fold_dist_config s1 s2 vs acc :
  config s1 = config s2 ->
  fold_left (dist_step s1) vs acc = fold_left (dist_step s2) vs acc.
Proof.
  intros Hc. revert acc. induction vs as [| v vs IH]; intros acc; simpl; [done |].
  rewrite IH. unfold dist_step. by rewrite (route_distance_config s1 s2).
Qed.

Lemma dict_keys_map {A B} (g : A -> B) (d : list (Z * A)) :
  dict_keys (map (fun ka : Z * A => (ka.1, g ka.2)) d) = dict_keys d.
Proof. unfold dict_keys. rewrite map_map. done. Qed.

(** Results of two final states that differ in the iteration order only. *)
Lemma compute_result_reordered s1 s2 :
  NoDup (dict_keys (orders s1)) -> reordered s1 s2 ->
  same_outcome (compute_result s1) (compute_result s2).
Proof.
  intros Hnd (Hc & Hv & Hd & Ho). unfold same_outcome, compute_result. simpl.
  rewrite Hv. split; [done |]. split.
  - rewrite (fold_dist_config s1 s2) by done. done.
  - split.
    + symmetry. by apply Permutation_map.
    + intros k. symmetry. apply dict_get_perm.
      * by rewrite dict_keys_map.
      * by apply Permutation_map.
Qed.

Lemma evaluate_of_traced opt os s r evs :
  evaluate_traced opt os = Some (s, r, evs) -> evaluate opt os = Some (objective r, r).
Proof.
  unfold evaluate_traced. intros H. unfold evaluate. fold (candidate_simulator opt os).
  by rewrite simulate_with_tracking_traced, H.
Qed.

Lemma evaluate_traced_result opt os s r evs :
  evaluate_traced opt os = Some (s, r, evs) -> r = compute_result s.
Proof.
  unfold evaluate_traced, simulate_traced.
  destruct (dispatch_loop max_iterations default_until_time
              (reset (candidate_simulator opt os))) as [[s1 evs1] |];
    simpl; [| discriminate].
  by intros [= <- <- _].
Qed.

(** Any reordering of an order set with distinct keys is evaluated by the
    same turns, as long as the run breaks no tie. *)
Lemma reordering_replays opt os os' s1 r1 evs :
  NoDup (dict_keys os) -> os' ≡ₚ os ->
  evaluate_traced opt os = Some (s1, r1, evs) ->
  untied_turns default_until_time (map fst evs) (reset (candidate_simulator opt os)) = true ->
  replays opt os' s1 r1 evs.
Proof.
  intros Hnd Hp Hrun Hu.
  assert (reordered (reset (candidate_simulator opt os)) (reset (candidate_simulator opt os')))
    as H0.
  { apply reset_reordered. unfold reordered, config. simpl. by repeat split. }
  assert (NoDup (dict_keys (orders (reset (candidate_simulator opt os))))) as Hnd0.
  { by rewrite (frame_keys _ _ (reset_frame _)). }
  unfold evaluate_traced, simulate_traced in Hrun.
  destruct (dispatch_loop max_iterations default_until_time
              (reset (candidate_simulator opt os))) as [[s1' evs'] |] eqn:Hloop;
    simpl in Hrun; [| discriminate].
  injection Hrun as <- <- <-.
  destruct (dispatch_loop_reordered _ _ _ _ _ _ Hnd0 H0 Hloop Hu) as (s2 & Hloop2 & Hfin).
  assert (NoDup (dict_keys (orders s1'))) as Hnd1.
  { by rewrite (frame_keys _ _ (run_turns_frame _ _ _ _ (dispatch_loop_turns _ _ _ _ _ Hloop))). }
  assert (evaluate_traced opt os' = Some (s2, compute_result s2, evs')) as Hrun2.
  { unfold evaluate_traced, simulate_traced. by rewrite Hloop2. }
  exists s2, (compute_result s2). split; [done |].
  split; [by eapply evaluate_of_traced |]. split; [done |].
  pose proof Hfin as (_ & Hv & _ & Ho).
  split; [done |]. split; [done |]. split.
  - intros k. symmetry. by apply dict_get_perm.
  - by apply compute_result_reordered.
Qed.

Lemma multi_relocate_perm rng os :
  NoDup (dict_keys os) -> (multi_relocate rng os).1 ≡ₚ os.
Proof.
  intros Hnd. unfold multi_relocate.
  pose proof (block_relocate_perm rng os Hnd) as H1.
  destruct (block_relocate rng os) as [os1 rng1]. simpl in H1.
  pose proof (block_relocate_perm rng1 os1) as H2.
  destruct (block_relocate rng1 os1) as [os2 rng2]. simpl in *.
  rewrite H2; [done |]. by rewrite (dict_keys_perm _ _ H1).
Qed.

(** ** Distinct due times leave no tie *)

Lemma distinct_dues_apart os : distinct_dues os = true -> dues_apart os.
Proof.
  induction os as [| [k o] os IH]; simpl.
  - intros _ k1 o1 k2 o2 H. by apply elem_of_nil in H.
  - intros [Hhd Htl]%andb_prop k1 o1 k2 o2 H1 H2 Hne.
    rewrite forallb_forall in Hhd.
    apply elem_of_cons in H1 as [[= -> ->] | H1], H2 as [[= -> ->] | H2].
    + done.
    + specialize (Hhd _ (proj1 (list_elem_of_In _ _) H2)). simpl in Hhd.
      apply negb_true_iff in Hhd. intros Heq%Qeq_bool_iff. congruence.
    + specialize (Hhd _ (proj1 (list_elem_of_In _ _) H1)). simpl in Hhd.
      apply negb_true_iff in Hhd. intros Heq. symmetry in Heq.
      apply Qeq_bool_iff in Heq. congruence.
    + by eapply (IH Htl).
Qed.

Lemma dues_apart_frame s s0 :
  frame s = frame s0 -> dues_apart (orders s0) -> dues_apart (orders s).
Proof.
  intros Hf H0 k1 o1 k2 o2 H1 H2 Hne.
  destruct (frame_order_elem _ _ _ _ Hf H1) as (a1 & Ha1 & Hs1).
  destruct (frame_order_elem _ _ _ _ Hf H2) as (a2 & Ha2 & Hs2).
  unfold order_static in Hs1, Hs2.
  assert (o_due o1 = o_due a1) as -> by congruence.
  assert (o_due o2 = o_due a2) as -> by congruence.
  by eapply H0.
Qed.

Lemma candidate_entry s v td ko c :
  candidate s v td ko = Some c -> (c.1.1.1, c.1.1.2) = ko.
Proof.
  unfold candidate.
  destruct (o_picked ko.2 || o_delivered ko.2); [discriminate |].
  destruct (v_capacity v <? v_load v + o_qty ko.2); [discriminate |].
  destruct (match td with Some td0 => Qlt_bool (o_due ko.2) td0 | None => false end);
    [discriminate |].
  intros [= <-]. by destruct ko.
Qed.

Lemma candidates_keys s v td (os : list (Z * Order)) :
  NoDup (dict_keys os) ->
  NoDup (map (fun c : Candidate => c.1.1.1) (omap (candidate s v td) os)) /\
  (forall c, c ∈ omap (candidate s v td) os -> (c.1.1.1, c.1.1.2) ∈ os).
Proof.
  unfold dict_keys. induction os as [| ko os IH]; simpl.
  - intros _. split; [constructor |]. intros c H. by apply elem_of_nil in H.
  - intros [Hni Hnd]%NoDup_cons. destruct (IH Hnd) as [IH1 IH2].
    cbn [omap list_omap].
    destruct (candidate s v td ko) as [c |] eqn:Hc.
    + pose proof (candidate_entry _ _ _ _ _ Hc) as He. split.
      * simpl. apply NoDup_cons. split; [| done].
        intros Hin. apply Hni.
        apply list_elem_of_In, in_map_iff in Hin as (c' & Hk & Hin').
        apply list_elem_of_In, IH2 in Hin'.
        apply list_elem_of_In, in_map_iff. exists (c'.1.1.1, c'.1.1.2).
        split; [| by apply list_elem_of_In]. simpl. rewrite Hk, <- He. done.
      * intros c' [-> | Hin]%elem_of_cons; [rewrite He; left | right; by apply IH2].
    + split; [done |]. intros c' Hin. right. by apply IH2.
Qed.

Lemma dues_apart_strict_head s v td :
  NoDup (dict_keys (orders s)) -> dues_apart (orders s) ->
  strict_head (sort_by cand_lt (feasible_pickups s v td)) = true.
Proof.
  intros Hnd Hapart. unfold feasible_pickups.
  destruct (candidates_keys s v td (orders s) Hnd) as [Hkeys Hentries].
  destruct (sort_by cand_lt (omap (candidate s v td) (orders s))) as [| c rest] eqn:Hs;
    [done |].
  destruct (sort_by_head_min cand_lt cand_lt_irrefl cand_lt_asym cand_lt_negtrans _ _ _ Hs)
    as [Hin Hmin].
  pose proof (sort_by_perm cand_lt (omap (candidate s v td) (orders s))) as Hp.
  rewrite Hs in Hp.
  assert (NoDup (map (fun c : Candidate => c.1.1.1) (c :: rest))) as Hnd'.
  { assert (map (fun c : Candidate => c.1.1.1) (c :: rest)
            ≡ₚ map (fun c : Candidate => c.1.1.1) (omap (candidate s v td) (orders s)))
      as Hpk by (by apply Permutation_map).
    by rewrite Hpk. }
  simpl. apply forallb_forall. intros y Hy%list_elem_of_In.
  assert (y ∈ omap (candidate s v td) (orders s)) as Hyin.
  { rewrite <- Hp. by right. }
  simpl in Hnd'. apply NoDup_cons in Hnd' as [Hck _].
  assert (c.1.1.1 <> y.1.1.1) as Hne.
  { intros Heq. apply Hck. apply list_elem_of_In, in_map_iff. exists y.
    split; [done | by apply list_elem_of_In]. }
  pose proof (Hapart _ _ _ _ (Hentries _ Hin) (Hentries _ Hyin) Hne) as Hdue.
  pose proof (Hmin y Hyin) as Hyc.
  unfold cand_lt, key_lt, cand_key in *. simpl in *.
  destruct (Qeq_bool (o_due c.1.1.2) (o_due y.1.1.2)) eqn:E1;
    [by apply Qeq_bool_iff in E1 |].
  destruct (Qeq_bool (o_due y.1.1.2) (o_due c.1.1.2)) eqn:E2;
    [apply Qeq_bool_iff in E2; by symmetry in E2 |].
  apply Qlt_bool_false in Hyc. apply Qlt_bool_iff.
  destruct (Qlt_le_dec (o_due c.1.1.2) (o_due y.1.1.2)) as [Hlt | Hle]; [done |].
  destruct Hdue. lra.
Qed.

Lemma dues_apart_untied until_time s vk :
  NoDup (dict_keys (orders s)) -> dues_apart (orders s) -> untied until_time s vk = true.
Proof.
  intros Hnd Hapart. unfold untied. repeat case_match; try done;
    by apply dues_apart_strict_head.
Qed.

Lemma dues_apart_turns until_time ks s :
  NoDup (dict_keys (orders s)) -> dues_apart (orders s) ->
  untied_turns until_time ks s = true.
Proof.
  revert s. induction ks as [| k ks IH]; simpl; intros s Hnd Hapart; [done |].
  rewrite (dues_apart_untied until_time s k Hnd Hapart). simpl.
  destruct (veh_step until_time s k) as [[[s1 p] a] |] eqn:Hstep; [| done]. simpl.
  pose proof (veh_step_frame _ _ _ _ _ _ Hstep) as Hf. apply IH.
  - by rewrite (frame_keys _ _ Hf).
  - by apply (dues_apart_frame _ _ Hf).
Qed.

(** On an order set with distinct keys and pairwise distinct due times no
    run breaks a tie. *)
Lemma distinct_dues_untied opt os until_time ks :
  NoDup (dict_keys os) -> distinct_dues os = true ->
  untied_turns until_time ks (reset (candidate_simulator opt os)) = true.
Proof.
  intros Hnd Hd%distinct_dues_apart. apply dues_apart_turns.
  - by rewrite (frame_keys _ _ (reset_frame _)).
  - by apply (dues_apart_frame _ _ (reset_frame _)).
Qed.

(** ** The sums of a result, in exact arithmetic *)

Lemma late_step_proper acc1 acc2 o :
  (acc1 == acc2)%Q -> (late_step acc1 o == late_step acc2 o)%Q.
Proof. intros H. unfold late_step. destruct (o_delivered_time o); lra. Qed.

Lemma fold_late_proper l acc1 acc2 :
  (acc1 == acc2)%Q -> (fold_left late_step l acc1 == fold_left late_step l acc2)%Q.
Proof.
  revert acc1 acc2. induction l as [| o l IH]; intros acc1 acc2 H; simpl; [done |].
  by apply IH, late_step_proper.
Qed.

Lemma fold_late_perm (l1 l2 : list Order) :
  l1 ≡ₚ l2 ->
  forall acc, (fold_left late_step l1 acc == fold_left late_step l2 acc)%Q.
Proof.
  induction 1 as [| x l l' _ IH | x y l | l l' l'' _ IH1 _ IH2]; intros acc; simpl.
  - reflexivity.
  - apply IH.
  - apply fold_late_proper. unfold late_step.
    destruct (o_delivered_time x), (o_delivered_time y); lra.
  - by rewrite IH1.
Qed.

(** With the lateness sum taken in exact arithmetic, as in this model, a
    replayed evaluation has the same total lateness and the same
    objective.  (In floating point the terms are the same and are added in
    another order.) *)
Lemma reordering_same_objective opt os os' s1 r1 evs :
  NoDup (dict_keys os) -> os' ≡ₚ os ->
  evaluate_traced opt os = Some (s1, r1, evs) ->
  untied_turns default_until_time (map fst evs) (reset (candidate_simulator opt os)) = true ->
  exists r2,
    evaluate opt os' = Some (objective r2, r2) /\
    (total_late r2 == total_late r1)%Q /\ (objective r2 == objective r1)%Q.
Proof.
  intros Hnd Hp Hrun Hu.
  destruct (reordering_replays opt os os' s1 r1 evs Hnd Hp Hrun Hu)
    as (s2 & r2 & Hrun2 & Hev & _ & Hv & Ho & _ & (_ & Havg & _)).
  exists r2. split; [done |].
  unfold evaluate_traced, simulate_traced in Hrun, Hrun2.
  destruct (dispatch_loop max_iterations default_until_time
              (reset (candidate_simulator opt os))) as [[sa evsa] |] eqn:Hloop;
    simpl in Hrun; [| discriminate].
  destruct (dispatch_loop max_iterations default_until_time
              (reset (candidate_simulator opt os'))) as [[sb evsb] |] eqn:Hloop2;
    simpl in Hrun2; [| discriminate].
  injection Hrun as <- <- <-. injection Hrun2 as <- <- _.
  assert (lambda_cost sb = lambda_cost sa) as Hlam.
  { pose proof (frame_config _ _ (run_turns_frame _ _ _ _
                  (dispatch_loop_turns _ _ _ _ _ Hloop))) as Ha.
    pose proof (frame_config _ _ (run_turns_frame _ _ _ _
                  (dispatch_loop_turns _ _ _ _ _ Hloop2))) as Hb.
    rewrite (frame_config _ _ (reset_frame (candidate_simulator opt os))) in Ha.
    rewrite (frame_config _ _ (reset_frame (candidate_simulator opt os'))) in Hb.
    unfold config in Ha, Hb. simpl in Ha, Hb. congruence. }
  assert (total_late (compute_result sb) == total_late (compute_result sa))%Q as Hlate.
  { simpl. apply fold_late_perm. unfold dict_values. by apply Permutation_map. }
  split; [done |].
  change (objective (compute_result sb))
    with (lambda_cost sb * total_late (compute_result sb)
          + avg_distance (compute_result sb))%Q.
  change (objective (compute_result sa))
    with (lambda_cost sa * total_late (compute_result sa)
          + avg_distance (compute_result sa))%Q.
  by rewrite Havg, Hlam, Hlate.
Qed.

(** C1, amended.  Block-relocate keeps the order stored under every id and
    moves the chosen id to the end of the iteration order.  Whenever the
    orders of a set with distinct keys have pairwise distinct due times,
    or its evaluation breaks no tie, that is, in every turn that sorts
    pickup candidates the first of the sorted list is strictly before all
    others in (due time, projected arrival), the evaluation of the
    relocated set (by [block_relocate], and by [multi_relocate]) takes the
    same turns and ends with the same vehicles and, under every id, the
    same order: the same per-order outcomes, the same vehicle outcomes and
    the same average distance; the result is computed from that final
    state, so the lateness sum adds the same terms in the new iteration
    order.  Block-exchange keeps
    the iteration order of the ids and stores under each of the two ids the
    order object of the other; it is not inert, because the simulator finds
    the order on top of a stack through the order's own id.  On an order
    set with fewer than two orders both operators return it as it is. *)
Theorem block_operators_outcome (opt : VNSMEOptimizer) (os : list (Z * Order))
    (i j : Z) (oi oj : Order) (s1 : DVRPSimulator) (r1 : Result) (evs : list Event) :
  distinct (dict_keys os) = true ->
  dict_get i os = Some oi ->
  dict_get j os = Some oj ->
  i <> j ->
  evaluate_traced opt os = Some (s1, r1, evs) ->
  distinct_dues os = true \/
  untied_turns default_until_time (map fst evs) (reset (candidate_simulator opt os)) = true ->
  evaluate opt os = Some (objective r1, r1) /\
  r1 = compute_result s1 /\
  (forall k, dict_get k (block_relocate_at i os) = dict_get k os) /\
  block_relocate_at i os = dict_pop i os ++ [(i, oi)] /\
  replays opt (block_relocate_at i os) s1 r1 evs /\
  (forall rng, replays opt (block_relocate rng os).1 s1 r1 evs) /\
  (forall rng, replays opt (multi_relocate rng os).1 s1 r1 evs) /\
  dict_keys (block_exchange_at i j os) = dict_keys os /\
  dict_get i (block_exchange_at i j os) = Some oj /\
  dict_get j (block_exchange_at i j os) = Some oi /\
  (forall k, k <> i -> k <> j -> dict_get k (block_exchange_at i j os) = dict_get k os) /\
  (forall opt' rng (os' : list (Z * Order)),
     (length os' < 2)%nat ->
     evaluate opt' (block_exchange rng os').1 = evaluate opt' os' /\
     evaluate opt' (block_relocate rng os').1 = evaluate opt' os').
Proof.
  intros Hnd%distinct_NoDup Hi Hj Hne Hrun Hties.
  assert (untied_turns default_until_time (map fst evs)
            (reset (candidate_simulator opt os)) = true) as Hu.
  { destruct Hties as [Hd | Hu]; [by apply distinct_dues_untied | done]. }
  destruct (block_operators_effect os i j oi oj Hi Hj Hne)
    as (Hget & Hend & Hkeys & Hxi & Hxj & Hxk & Hshort).
  split; [by eapply evaluate_of_traced |].
  split; [by eapply evaluate_traced_result |].
  split; [done |]. split; [by apply Hend |].
  split; [apply (reordering_replays opt os); try done; by apply block_relocate_at_perm |].
  split; [intros rng; apply (reordering_replays opt os); try done;
          by apply block_relocate_perm |].
  split; [intros rng; apply (reordering_replays opt os); try done;
          by apply multi_relocate_perm |].
  done.
Qed.

Lemma block_operators_outcome_holds :
  evaluate OptimizerExample.opt Scenario.orders0
  = Some (objective InertExample.result, InertExample.result) /\
  InertExample.result = compute_result InertExample.final /\
  (forall k, dict_get k (block_relocate_at 1 Scenario.orders0) = dict_get k Scenario.orders0) /\
  block_relocate_at 1 Scenario.orders0
  = dict_pop 1 Scenario.orders0 ++ [(1, Scenario.new_order 1 1 2 2 10 180)] /\
  replays OptimizerExample.opt (block_relocate_at 1 Scenario.orders0)
    InertExample.final InertExample.result InertExample.log /\
  (forall rng, replays OptimizerExample.opt (block_relocate rng Scenario.orders0).1
                 InertExample.final InertExample.result InertExample.log) /\
  (forall rng, replays OptimizerExample.opt (multi_relocate rng Scenario.orders0).1
                 InertExample.final InertExample.result InertExample.log) /\
  dict_keys (block_exchange_at 1 2 Scenario.orders0) = dict_keys Scenario.orders0 /\
  dict_get 1 (block_exchange_at 1 2 Scenario.orders0)
  = Some (Scenario.new_order 2 1 3 1 20 160) /\
  dict_get 2 (block_exchange_at 1 2 Scenario.orders0)
  = Some (Scenario.new_order 1 1 2 2 10 180) /\
  (forall k, k <> 1 -> k <> 2 ->
     dict_get k (block_exchange_at 1 2 Scenario.orders0) = dict_get k Scenario.orders0) /\
  (forall opt' rng (os' : list (Z * Order)),
     (length os' < 2)%nat ->
     evaluate opt' (block_exchange rng os').1 = evaluate opt' os' /\
     evaluate opt' (block_relocate rng os').1 = evaluate opt' os').
Proof.
  apply (block_operators_outcome OptimizerExample.opt Scenario.orders0 1 2
           (Scenario.new_order 1 1 2 2 10 180) (Scenario.new_order 2 1 3 1 20 160)
           InertExample.final InertExample.result InertExample.log).
  - vm_compute. reflexivity.
  - reflexivity.
  - reflexivity.
  - discriminate.
  - vm_compute. reflexivity.
  - right. vm_compute. reflexivity.
Defined.

(** The run of the two tied orders, for which relocation changes the
    objective, does break a tie, in its first turn. *)
Lemma tied_orders_break_tie :
  distinct_dues RelocateExample.orders1 = false /\
  untied default_until_time (reset (candidate_simulator RelocateExample.opt
                                       RelocateExample.orders1)) 1 = false.
Proof. split; vm_compute; reflexivity. Qed.

(** The reference scenario has pairwise distinct due times. *)
Lemma reference_dues_distinct : distinct_dues Scenario.orders0 = true.
Proof. vm_compute. reflexivity. Qed.
